(** * Winding-number propagation (libigl, [igl/cgal/propagate_winding_numbers.cpp])

    A shallow embedding of the live code of
    [include/igl/cgal/propagate_winding_numbers.cpp] and the properties of it
    that the specification states.

    Conventions of the embedding.
    - C++ [int] values (entries of the winding-number tables, signed face
      indices, cell colours) are integers [Z]; [int] arithmetic is written with
      its 32-bit two's-complement wrap-around ([Int32.add], ...).
    - [size_t] values and the entries of index vectors (patch ids, labels,
      face ids, cell ids), which are non-negative by their contract, are [nat].
    - An Eigen matrix of [int] is a record with its column count and its rows.
    - Reading or writing a vector or a matrix outside its bounds, the remainder
      by zero and [maxCoeff] of an empty vector have no defined behaviour in
      C++: the model ends in [Undefined].
    - [assert] is compiled out when [NDEBUG] is defined; the model carries the
      flag [NDEBUG] and a failed assertion ends in [Abort].
    - [throw] ends in [Throw], a loop that runs out of fuel in [Diverge].
    - What the code prints, writes to files, and which external routines it
      calls is recorded, in order, in an event log.
    - The routines of libigl that the file only calls (unique edges, patches,
      curves, angular order, outer facet, components, closest facet, cells)
      are fields of the record [Collaborators]; vertex coordinates are of an
      abstract scalar type. *)

From Stdlib Require Import ZArith Lia String List DecimalString.
From Stdlib Require QArith.
From stdpp Require Import base list.

Local Open Scope Z_scope.
Local Open Scope nat_scope.

(** ** 32-bit [int] *)

Module Int32.

Definition modulus : Z := 4294967296.
Definition half_modulus : Z := 2147483648.
Definition max_int : Z := 2147483647.
Definition min_int : Z := -2147483648.

(** The value an integer has once stored in a 32-bit [int]. *)
Definition wrap (z : Z) : Z := ((z + half_modulus) mod modulus - half_modulus)%Z.

Definition add (a b : Z) : Z := wrap (a + b).
Definition sub (a b : Z) : Z := wrap (a - b).
Definition mul (a b : Z) : Z := wrap (a * b).

Definition in_range (z : Z) : Prop := (min_int <= z <= max_int)%Z.

End Int32.

(** [std::numeric_limits<int>::max()], the "unassigned" sentinel. *)
Definition INVALID : Z := Int32.max_int.

(** ** Outcomes, events and the monad of the model *)

Definition face : Type := nat * nat * nat.
Definition edge : Type := nat * nat.

Inductive tok : Type :=
| TStr (s : string)
| TNat (n : nat)
| TInt (z : Z)
| TCol (c : list Z)
| TEndl.

Inductive event : Type :=
| Call (callee : string)
| Cout (line : list tok)
| Cerr (line : list tok)
| WriteOBJ (file : string) (faces : list face)
| WritePLY (file : string) (faces : list face).

Inductive outcome (A : Type) : Type :=
| Ok (a : A)
| Throw (msg : string)
| Abort
| Undefined
| Diverge.

Arguments Ok {A} a.
Arguments Throw {A} msg.
Arguments Abort {A}.
Arguments Undefined {A}.
Arguments Diverge {A}.

Definition M (A : Type) : Type := outcome A * list event.

Definition ret {A} (a : A) : M A := (Ok a, []).

Definition bind {A B} (m : M A) (f : A -> M B) : M B :=
  match m with
  | (Ok a, l1) => let '(o, l2) := f a in (o, l1 ++ l2)
  | (Throw msg, l1) => (Throw msg, l1)
  | (Abort, l1) => (Abort, l1)
  | (Undefined, l1) => (Undefined, l1)
  | (Diverge, l1) => (Diverge, l1)
  end.

#[global] Instance M_ret : MRet M := @ret.
#[global] Instance M_bind : MBind M := fun A B f m => bind m f.

Definition throw {A} (msg : string) : M A := (Throw msg, []).
Definition abort {A} : M A := (Abort, []).
Definition undefined {A} : M A := (Undefined, []).
Definition diverge {A} : M A := (Diverge, []).
Definition emit (e : event) : M unit := (Ok tt, [e]).

Definition outcome_of {A} (m : M A) : outcome A := fst m.
Definition log_of {A} (m : M A) : list event := snd m.

(** A [for] loop that threads a state through its iterations. *)
Fixpoint foldM {A S} (body : S -> A -> M S) (l : list A) (s : S) : M S :=
  match l with
  | [] => ret s
  | x :: l' => s' ← body s x; foldM body l' s'
  end.

(** A loop that produces one value per iteration ([std::transform]). *)
Fixpoint forM {A B} (l : list A) (body : A -> M B) : M (list B) :=
  match l with
  | [] => ret []
  | x :: l' => y ← body x; ys ← forM l' body; ret (y :: ys)
  end.

(** [v[i]] *)
Definition vget {A} (v : list A) (i : nat) : M A :=
  match v !! i with
  | Some x => ret x
  | None => undefined
  end.

(** [v[i] = x] *)
Definition vset {A} (v : list A) (i : nat) (x : A) : M (list A) :=
  if decide (i < length v) then ret (<[i := x]> v) else undefined.

(** [a % b] on [size_t] *)
Definition umod (a b : nat) : M nat :=
  if decide (b = 0) then undefined else ret (a mod b).

(** [a / b] on [size_t] *)
Definition udiv (a b : nat) : M nat :=
  if decide (b = 0) then undefined else ret (a / b).

(** The conversion of an [int] to a [size_t] that is then used as an index:
    a negative [int] becomes an index beyond every container. *)
Definition to_index (z : Z) : M nat :=
  if decide (z < 0)%Z then undefined else ret (Z.to_nat z).

(** [maxCoeff()] and [minCoeff()] of a vector of indices. *)
Definition maxCoeff (v : list nat) : M nat :=
  match v with
  | [] => undefined
  | x :: v' => ret (foldr Nat.max x v')
  end.

Definition minCoeff (v : list nat) : M nat :=
  match v with
  | [] => undefined
  | x :: v' => ret (foldr Nat.min x v')
  end.

(** ** Eigen matrices of [int] *)

Record matrix : Type := Matrix { mcols : nat; mdata : list (list Z) }.

Definition mrows (W : matrix) : nat := length (mdata W).

(** [W.resize(r, c); W.setConstant(v)] *)
Definition mconst (r c : nat) (v : Z) : matrix := Matrix c (replicate r (replicate c v)).

(** [W.row(r)] *)
Definition mrow (W : matrix) (r : nat) : M (list Z) := vget (mdata W) r.

(** [W(r, c)] *)
Definition mget (W : matrix) (r c : nat) : M Z :=
  row ← mrow W r; vget row c.

(** [W(r, c) = v] *)
Definition mset (W : matrix) (r c : nat) (v : Z) : M matrix :=
  row ← mrow W r;
  row' ← vset row c v;
  ret (Matrix (mcols W) (<[r := row']> (mdata W))).

(** [W.row(r) = row] *)
Definition mset_row (W : matrix) (r : nat) (row : list Z) : M matrix :=
  old ← mrow W r;
  if decide (length row = length old)
  then ret (Matrix (mcols W) (<[r := row]> (mdata W)))
  else undefined.

(** [(W.array() != INVALID).all()] and [(W.row(r).array() != INVALID).all()] *)
Definition row_assigned (row : list Z) : bool :=
  forallb (fun x => negb (x =? INVALID)%Z) row.

Definition all_assigned (W : matrix) : bool := forallb row_assigned (mdata W).

(** [(W.array() != INVALID).any()] *)
Definition any_assigned (W : matrix) : bool :=
  existsb (existsb (fun x => negb (x =? INVALID)%Z)) (mdata W).

(** ** External collaborators *)

Record Collaborators (Scalar : Type) : Type := {
  scalar_add : Scalar -> Scalar -> Scalar;
  scalar_div3 : Scalar -> Scalar;
  (** [unique_edge_map(F, E, uE, EMAP, uE2E)] *)
  unique_edge_map :
    list face -> list edge * list edge * list nat * list (list nat);
  (** [extract_manifold_patches(F, EMAP, uE2E, P)] and its return value *)
  extract_manifold_patches :
    list face -> list nat -> list (list nat) -> nat * list nat;
  (** [extract_non_manifold_edge_curves(F, EMAP, uE2E, curves)] *)
  extract_non_manifold_edge_curves :
    list face -> list nat -> list (list nat) -> list (list nat);
  (** [order_facets_around_edge(V, F, s, d, adj_faces, order)] *)
  order_facets_around_edge :
    list (Scalar * Scalar * Scalar) -> list face -> nat -> nat -> list Z -> list nat;
  (** [outer_facet(V, F, I, f, flipped)] *)
  outer_facet :
    list (Scalar * Scalar * Scalar) -> list face -> list nat -> nat * bool;
  (** [triangle_triangle_adjacency(E, EMAP, uE2E, false, TT, _)] *)
  triangle_triangle_adjacency :
    list edge -> list nat -> list (list nat) -> list (list (list nat));
  (** [facet_components(TT, C, counts)] *)
  facet_components : list (list (list nat)) -> list nat * list nat;
  (** [closest_facet(V, F, samples, fids, orientation)] *)
  closest_facet :
    list (Scalar * Scalar * Scalar) -> list face ->
    list (Scalar * Scalar * Scalar) -> list nat * list bool;
  (** [extract_cells(V, F, P, E, uE, uE2E, EMAP, cells)] and its return value *)
  extract_cells :
    list (Scalar * Scalar * Scalar) -> list face -> list nat -> list edge ->
    list edge -> list (list nat) -> list nat -> nat * list (nat * nat)
}.

Arguments scalar_add {Scalar} _.
Arguments scalar_div3 {Scalar} _.
Arguments unique_edge_map {Scalar} _.
Arguments extract_manifold_patches {Scalar} _.
Arguments extract_non_manifold_edge_curves {Scalar} _.
Arguments order_facets_around_edge {Scalar} _.
Arguments outer_facet {Scalar} _.
Arguments triangle_triangle_adjacency {Scalar} _.
Arguments facet_components {Scalar} _.
Arguments closest_facet {Scalar} _.
Arguments extract_cells {Scalar} _.

(** ** The code *)

Section Model.

Context {Scalar : Type} (ext : Collaborators Scalar).
Variable NDEBUG : bool.
Variable fuel : nat.

Definition point : Type := Scalar * Scalar * Scalar.

(** [assert(c)] *)
Definition assert (c : M bool) : M unit :=
  if NDEBUG then ret tt
  else b ← c; if b : bool then ret tt else abort.

(** *** namespace [propagate_winding_numbers_helper] *)

(** The loop over the labels [k] of [winding_number_assignment_is_consistent]. *)
Fixpoint consistent_at_labels (order : list nat) (orientation : list bool)
    (per_patch_winding_number : matrix) (i curr next : nat) (ks : list nat) : M bool :=
  match ks with
  | [] => ret true
  | k :: ks' =>
      o_curr ← vget order curr;
      b_curr ← vget orientation curr;
      curr_winding_number ←
        mget per_patch_winding_number o_curr (k*2 + (if b_curr : bool then 0 else 1));
      o_next ← vget order next;
      b_next ← vget orientation next;
      next_winding_number ←
        mget per_patch_winding_number o_next (k*2 + (if b_next : bool then 1 else 0));
      if decide (curr_winding_number ≠ next_winding_number) then
        emit (Cout [TStr "edge: "; TNat i; TEndl]);;
        emit (Cout [TInt curr_winding_number; TStr " != ";
                    TInt next_winding_number; TEndl]);;
        ret false
      else consistent_at_labels order orientation per_patch_winding_number i curr next ks'
  end.

(** The loop over the positions [j] of one curve. *)
Fixpoint consistent_at_positions (order : list nat) (orientation : list bool)
    (per_patch_winding_number : matrix) (num_labels i : nat) (js : list nat) : M bool :=
  match js with
  | [] => ret true
  | j :: js' =>
      let curr := j in
      next ← umod (j + 1) (length order);
      ok ← consistent_at_labels order orientation per_patch_winding_number
             i curr next (seq 0 num_labels);
      if ok : bool
      then consistent_at_positions order orientation per_patch_winding_number
             num_labels i js'
      else ret false
  end.

(** The loop over the curves [i]. *)
Fixpoint consistent_at_curves (orders : list (list nat))
    (orientations : list (list bool)) (per_patch_winding_number : matrix)
    (num_labels : nat) (cs : list nat) : M bool :=
  match cs with
  | [] => ret true
  | i :: cs' =>
      order ← vget orders i;
      orientation ← vget orientations i;
      assert (ret (bool_decide (length order = length orientation)));;
      ok ← consistent_at_positions order orientation per_patch_winding_number
             num_labels i (seq 0 (length order));
      if ok : bool
      then consistent_at_curves orders orientations per_patch_winding_number
             num_labels cs'
      else ret false
  end.

Definition winding_number_assignment_is_consistent (orders : list (list nat))
    (orientations : list (list bool)) (per_patch_winding_number : matrix) : M bool :=
  let num_edge_curves := length orders in
  let num_labels := mcols per_patch_winding_number / 2 in
  consistent_at_curves orders orientations per_patch_winding_number num_labels
    (seq 0 num_edge_curves).

(** The lambda [is_consistent] of [is_orientable]; it throws a C string. *)
Definition is_consistent_edge (F : list face) (fid s d : nat) : M bool :=
  '(f0, f1, f2) ← vget F fid;
  if bool_decide (f0 = s) && bool_decide (f1 = d) then ret true else
  if bool_decide (f1 = s) && bool_decide (f2 = d) then ret true else
  if bool_decide (f2 = s) && bool_decide (f0 = d) then ret true else
  if bool_decide (f0 = d) && bool_decide (f1 = s) then ret false else
  if bool_decide (f1 = d) && bool_decide (f2 = s) then ret false else
  if bool_decide (f2 = d) && bool_decide (f0 = s) then ret false else
  throw "Invalid face!!".

Fixpoint orientable_at_edges (F : list face) (uE : list edge)
    (uE2E : list (list nat)) (es : list nat) : M bool :=
  match es with
  | [] => ret true
  | i :: es' =>
      '(s, d) ← vget uE i;
      adj ← vget uE2E i;
      count ← foldM (fun (count : Z) ei =>
                 fid ← umod ei (length F);
                 c ← is_consistent_edge F fid s d;
                 ret (if c : bool then Int32.add count 1 else Int32.sub count 1))
               adj 0%Z;
      if decide (count ≠ 0%Z) then ret false
      else orientable_at_edges F uE uE2E es'
  end.

Definition is_orientable (F : list face) (uE : list edge)
    (uE2E : list (list nat)) : M bool :=
  let num_edges := length uE in
  orientable_at_edges F uE uE2E (seq 0 num_edges).

(** *** [propagate_winding_numbers_single_component_patch_wise] *)

Section PatchWise.

Variable V : list point.
Variable F : list face.
Variable uE : list edge.
Variable uE2E : list (list nat).
Variable labels : list nat.
Variable P : list nat.
Variable intersection_curves : list (list nat).

Definition num_faces : nat := length F.

Definition edge_index_to_face_index (ei : nat) : M nat := umod ei num_faces.

Definition edge_index_to_corner_index (ei : nat) : M nat := udiv ei num_faces.

Definition face_and_corner_index_to_edge_index (fi ci : nat) : nat :=
  ci * num_faces + fi.

(** [F(fi, c)] for the row [f] of the face [fi]. *)
Definition face_vertex (f : face) (c : nat) : M nat :=
  match c with
  | 0 => ret f.1.1
  | 1 => ret f.1.2
  | 2 => ret f.2
  | _ => undefined
  end.

Definition get_edge_end_points (ei : nat) : M (nat * nat) :=
  fi ← edge_index_to_face_index ei;
  ci ← edge_index_to_corner_index ei;
  f ← vget F fi;
  s ← face_vertex f ((ci + 1) mod 3);
  d ← face_vertex f ((ci + 2) mod 3);
  ret (s, d).

Definition is_positively_orientated (fi s d : nat) : M bool :=
  '(f0, f1, f2) ← vget F fi;
  if bool_decide (f0 = d) && bool_decide (f1 = s) then ret true else
  if bool_decide (f1 = d) && bool_decide (f2 = s) then ret true else
  if bool_decide (f2 = d) && bool_decide (f0 = s) then ret true else
  if bool_decide (f0 = s) && bool_decide (f1 = d) then ret false else
  if bool_decide (f1 = s) && bool_decide (f2 = d) then ret false else
  if bool_decide (f2 = s) && bool_decide (f0 = d) then ret false else
  throw "Edge does not belong to face.".

Definition compute_signed_index (fi s d : nat) : M Z :=
  pos ← is_positively_orientated fi s d;
  ret (Int32.mul (Int32.wrap (Z.of_nat (fi + 1))) (if pos : bool then 1 else -1)).

Definition compute_unsigned_index (signed_idx : Z) : M nat :=
  to_index (Z.abs signed_idx - 1).

(** One iteration of the loop "Order patches around each intersection
    curve": the order and the orientation of curve [i], and the
    patch-to-curve adjacency with the curve added. *)
Definition order_curve (patch_curve_adjacency : list (list nat)) (i : nat)
  : M (list nat * list bool * list (list nat)) :=
  curve ← vget intersection_curves i;
  uei ← vget curve 0;
  '(s, d) ← vget uE uei;
  edges ← vget uE2E uei;
  '(adj_faces, patch_curve_adjacency) ←
    foldM (fun '(adj_faces, pca) ei =>
             fi ← edge_index_to_face_index ei;
             signed_fi ← compute_signed_index fi s d;
             p ← vget P fi;
             curves_of_p ← vget pca p;
             ret (adj_faces ++ [signed_fi], <[p := curves_of_p ++ [i]]> pca))
          edges ([], patch_curve_adjacency);
  emit (Call "order_facets_around_edge");;
  let order := order_facets_around_edge ext V F s d adj_faces in
  assert (m ← minCoeff order; ret (bool_decide (m = 0)));;
  assert (m ← maxCoeff order;
          ret (bool_decide (Z.of_nat m = Z.of_nat (length adj_faces) - 1)%Z));;
  orientation ← forM order (fun index =>
                   a ← vget adj_faces index; ret (bool_decide (0 < a)%Z));
  order ← forM order (fun index =>
             a ← vget adj_faces index;
             fi ← compute_unsigned_index a;
             vget P fi);
  ret (order, orientation, patch_curve_adjacency).

(** The whole loop: [orders], [orientations], [patch_curve_adjacency]. *)
Definition order_curves (num_patches : nat)
  : M (list (list nat) * list (list bool) * list (list nat)) :=
  let num_edge_curves := length intersection_curves in
  foldM (fun '(orders, orientations, pca) i =>
           '(order, orientation, pca) ← order_curve pca i;
           ret (orders ++ [order], orientations ++ [orientation], pca))
        (seq 0 num_edge_curves) ([], [], replicate num_patches []).

(** "Propagate winding number from infinity": the table before the
    traversal. *)
Definition seed_patch_W (num_patches num_labels outer_patch_idx
    outer_patch_label : nat) (outer_facet_is_flipped : bool) : M matrix :=
  let patch_W := mconst num_patches (2 * num_labels) INVALID in
  patch_W ← mset_row patch_W outer_patch_idx (replicate (2 * num_labels) 0%Z);
  if outer_facet_is_flipped
  then mset patch_W outer_patch_idx (outer_patch_label * 2) (-1)%Z
  else mset patch_W outer_patch_idx (outer_patch_label * 2 + 1) 1%Z.

Definition winding_num_assigned (patch_W : matrix) (patch_idx : nat) : M bool :=
  row ← mrow patch_W patch_idx; ret (row_assigned row).

(** The body of [if (!winding_num_assigned(next_patch_idx))], up to the
    push. *)
Definition derive_next (num_labels curr_patch_idx next_patch_idx
    next_patch_label : nat) (next_cons : bool) (patch_W : matrix) : M matrix :=
  foldM (fun patch_W i =>
           shared_winding_number ← mget patch_W curr_patch_idx (i*2);
           if bool_decide (i = next_patch_label) then
             patch_W ← mset patch_W next_patch_idx
                         (i*2 + (if next_cons then 0 else 1)) shared_winding_number;
             mset patch_W next_patch_idx (i*2 + (if next_cons then 1 else 0))
               (Int32.add shared_winding_number (if next_cons then 1 else -1))
           else
             patch_W ← mset patch_W next_patch_idx (i*2) shared_winding_number;
             mset patch_W next_patch_idx (i*2 + 1) shared_winding_number)
        (seq 0 num_labels) patch_W.

(** The body of [if (!winding_num_assigned(prev_patch_idx))], up to the
    push. *)
Definition derive_prev (num_labels curr_patch_idx prev_patch_idx
    prev_patch_label : nat) (prev_cons : bool) (patch_W : matrix) : M matrix :=
  foldM (fun patch_W i =>
           shared_winding_number ← mget patch_W curr_patch_idx (i*2 + 1);
           if bool_decide (i = prev_patch_label) then
             patch_W ← mset patch_W prev_patch_idx
                         (i*2 + (if prev_cons then 1 else 0)) shared_winding_number;
             mset patch_W prev_patch_idx (i*2 + (if prev_cons then 0 else 1))
               (Int32.add shared_winding_number (if prev_cons then -1 else 1))
           else
             patch_W ← mset patch_W prev_patch_idx (i*2) shared_winding_number;
             mset patch_W prev_patch_idx (i*2 + 1) shared_winding_number)
        (seq 0 num_labels) patch_W.

(** The search for the dequeued patch in the order of a curve: the first
    position that holds it. *)
Fixpoint find_position (order : list nat) (curr_patch_idx : nat) : option nat :=
  match order with
  | [] => None
  | p :: order' =>
      if bool_decide (p = curr_patch_idx) then Some 0
      else S <$> find_position order' curr_patch_idx
  end.

(** The forward neighbour: derived when it is not assigned yet. *)
Definition visit_next (num_labels curr_patch_idx : nat)
    (orientation : list bool) (curr_ori : bool) (next_i next_patch_idx : nat)
    (st : matrix * list nat) : M (matrix * list nat) :=
  let '(patch_W, Q) := st in
  assigned ← winding_num_assigned patch_W next_patch_idx;
  if negb assigned then
    next_ori ← vget orientation next_i;
    let next_cons := negb (eqb next_ori curr_ori) in
    next_patch_label ← vget labels next_patch_idx;
    patch_W ← derive_next num_labels curr_patch_idx next_patch_idx
                next_patch_label next_cons patch_W;
    ret (patch_W, Q ++ [next_patch_idx])
  else ret (patch_W, Q).

(** The backward neighbour. *)
Definition visit_prev (num_labels curr_patch_idx : nat)
    (orientation : list bool) (curr_ori : bool) (prev_i prev_patch_idx : nat)
    (st : matrix * list nat) : M (matrix * list nat) :=
  let '(patch_W, Q) := st in
  assigned ← winding_num_assigned patch_W prev_patch_idx;
  if negb assigned then
    prev_ori ← vget orientation prev_i;
    let prev_cons := negb (eqb prev_ori curr_ori) in
    prev_patch_label ← vget labels prev_patch_idx;
    patch_W ← derive_prev num_labels curr_patch_idx prev_patch_idx
                prev_patch_label prev_cons patch_W;
    ret (patch_W, Q ++ [prev_patch_idx])
  else ret (patch_W, Q).

(** The body of [for (size_t curve_idx : adj_curves)]. *)
Definition visit_curve (orders : list (list nat))
    (orientations : list (list bool)) (num_labels curr_patch_idx : nat)
    (st : matrix * list nat) (curve_idx : nat) : M (matrix * list nat) :=
  order ← vget orders curve_idx;
  orientation ← vget orientations curve_idx;
  let num_adj_patches := length order in
  assert (ret (bool_decide (num_adj_patches = length orientation)));;
  let found := find_position order curr_patch_idx in
  assert (ret (bool_decide (is_Some found)));;
  curr_i ← from_option ret undefined found;
  curr_ori ← vget orientation curr_i;
  next_i ← (if curr_ori : bool then umod (curr_i + 1) num_adj_patches
            else umod (curr_i + num_adj_patches - 1) num_adj_patches);
  prev_i ← (if curr_ori : bool then umod (curr_i + num_adj_patches - 1) num_adj_patches
            else umod (curr_i + 1) num_adj_patches);
  next_patch_idx ← vget order next_i;
  prev_patch_idx ← vget order prev_i;
  st ← visit_next num_labels curr_patch_idx orientation curr_ori
         next_i next_patch_idx st;
  visit_prev num_labels curr_patch_idx orientation curr_ori
    prev_i prev_patch_idx st.

(** [while (!Q.empty())] *)
Fixpoint patch_bfs (orders : list (list nat)) (orientations : list (list bool))
    (patch_curve_adjacency : list (list nat)) (num_labels : nat)
    (n : nat) (st : matrix * list nat) : M matrix :=
  match n with
  | 0 => diverge
  | S n' =>
      match st with
      | (patch_W, []) => ret patch_W
      | (patch_W, curr_patch_idx :: Q) =>
          curr_patch_label ← vget labels curr_patch_idx;
          adj_curves ← vget patch_curve_adjacency curr_patch_idx;
          st ← foldM (visit_curve orders orientations num_labels curr_patch_idx)
                 adj_curves (patch_W, Q);
          patch_bfs orders orientations patch_curve_adjacency num_labels n' st
      end
  end.

(** The function: its return value and the table [patch_W] it fills. *)
Definition propagate_winding_numbers_single_component_patch_wise
  : M (bool * matrix) :=
  max_patch ← maxCoeff P;
  let num_patches := max_patch + 1 in
  assert (ret (bool_decide (length labels = num_patches)));;
  '(orders, orientations, patch_curve_adjacency) ← order_curves num_patches;
  max_label ← maxCoeff labels;
  let num_labels := max_label + 1 in
  let face_indices := seq 0 num_faces in
  emit (Call "outer_facet");;
  let '(outer_facet_idx, outer_facet_is_flipped) :=
    outer_facet ext V F face_indices in
  outer_patch_idx ← vget P outer_facet_idx;
  outer_patch_label ← vget labels outer_patch_idx;
  patch_W ← seed_patch_W num_patches num_labels outer_patch_idx
              outer_patch_label outer_facet_is_flipped;
  patch_W ← patch_bfs orders orientations patch_curve_adjacency num_labels
              fuel (patch_W, [outer_patch_idx]);
  assert (ret (all_assigned patch_W));;
  consistent ← winding_number_assignment_is_consistent orders orientations patch_W;
  ret (consistent, patch_W).

End PatchWise.

(** *** [propagate_winding_numbers_single_component] *)

(** The loop that gives every patch the label of its faces. *)
Definition patch_labels_of (num_patches : nat) (P labels : list nat)
    (num_faces : nat) : M (list Z) :=
  foldM (fun (patch_labels : list Z) i =>
           p ← vget P i;
           l ← vget patch_labels p;
           li ← vget labels i;
           if decide (l = INVALID) then vset patch_labels p (Z.of_nat li)
           else
             assert (ret (bool_decide (l = Z.of_nat li)));;
             ret patch_labels)
        (seq 0 num_faces) (replicate num_patches INVALID).

(** [W.resize(num_faces, c); W.setConstant(INVALID);] followed by the loop
    [W.row(i) = winding_numbers.row(P[i])]. *)
Definition expand_to_faces (winding_numbers : matrix) (P : list nat)
    (num_faces num_labels : nat) : M matrix :=
  foldM (fun W i =>
           p ← vget P i;
           row ← mrow winding_numbers p;
           mset_row W i row)
        (seq 0 num_faces) (mconst num_faces (2 * num_labels) INVALID).

Definition propagate_winding_numbers_single_component (V : list point)
    (F : list face) (labels : list nat) : M (bool * matrix) :=
  let num_faces := length F in
  emit (Call "unique_edge_map");;
  let '(E, uE, EMAP, uE2E) := unique_edge_map ext F in
  emit (Call "extract_manifold_patches");;
  let '(num_patches, P) := extract_manifold_patches ext F EMAP uE2E in
  emit (Call "extract_non_manifold_edge_curves");;
  let intersection_curves := extract_non_manifold_edge_curves ext F EMAP uE2E in
  assert (ret (bool_decide (length P = num_faces)));;
  assert (m ← maxCoeff P; ret (bool_decide (m + 1 = num_patches)));;
  patch_labels ← patch_labels_of num_patches P labels num_faces;
  assert (ret (forallb (fun l => negb (l =? INVALID)%Z) patch_labels));;
  patch_labels ← forM patch_labels to_index;
  max_label ← maxCoeff patch_labels;
  let num_labels := max_label + 1 in
  '(is_consistent, winding_numbers) ←
    propagate_winding_numbers_single_component_patch_wise
      V F uE uE2E patch_labels P intersection_curves;
  assert (ret (bool_decide (mrows winding_numbers = num_patches)));;
  assert (ret (bool_decide (mcols winding_numbers = 2 * num_labels)));;
  W ← expand_to_faces winding_numbers P num_faces num_labels;
  assert (ret (any_assigned W));;
  ret (is_consistent, W).

(** *** [propagate_winding_numbers] *)

Definition endl : string := String (Ascii.ascii_of_nat 10) EmptyString.

(** The text of [err_msg] for an edge with an odd number of faces. *)
Definition odd_edge_message : string :=
  ("Input mesh contains odd number of faces " ++ "sharing a single edge" ++ endl ++
   "Indicating the input mesh does not represent a valid volume" ++
   ", and winding number cannot be propagated." ++ endl)%string.

(** "Check to make sure there is no boundaries and no non-manifold edges
    with odd number of adjacent faces." *)
Definition check_edge_degrees (uE2E : list (list nat)) : M unit :=
  foldM (fun (_ : unit) (adj_faces : list nat) =>
           if decide (length adj_faces mod 2 = 1)
           then throw odd_edge_message
           else ret tt)
        uE2E tt.

(** "Gather connected components." *)
Definition gather_components (C : list nat) (num_components num_faces : nat)
  : M (list (list nat)) :=
  foldM (fun (components : list (list nat)) i =>
           c ← vget C i;
           comp ← vget components c;
           ret (<[c := comp ++ [i]]> components))
        (seq 0 num_faces) (replicate num_components []).

Definition component_faces_and_labels (F : list face) (labels : list nat)
    (components : list (list nat)) (num_components : nat)
  : M (list (list face) * list (list nat)) :=
  foldM (fun '(comp_faces, comp_labels) i =>
           comp ← vget components i;
           fl ← forM comp (fun f =>
                   row ← vget F f; l ← vget labels f; ret (row, l));
           ret (comp_faces ++ [fl.*1], comp_labels ++ [fl.*2]))
        (seq 0 num_components) ([], []).

(** [W.block(fid, 0, 1, width) = row] *)
Definition mset_block (W : matrix) (fid width : nat) (row : list Z) : M matrix :=
  old ← mrow W fid;
  if decide (length row = width ∧ width ≤ length old)
  then ret (Matrix (mcols W) (<[fid := row ++ drop width old]> (mdata W)))
  else undefined.

(** [Ws.col(c)] *)
Definition mcol (W : matrix) (c : nat) : M (list Z) :=
  forM (mdata W) (fun row => vget row c).

Definition inconsistent_component_message (i : nat) : event :=
  Cout [TStr "Component "; TNat i;
        TStr " has inconsistant winding number assignment."; TEndl; TEndl].

(** The body of the loop "Compute winding number for each component". *)
Definition propagate_component (V : list point) (components : list (list nat))
    (comp_faces : list (list face)) (comp_labels : list (list nat))
    (st : matrix * list matrix) (i : nat) : M (matrix * list matrix) :=
  let '(W, Ws) := st in
  faces_i ← vget comp_faces i;
  labels_i ← vget comp_labels i;
  '(is_consistent, Ws_i) ← propagate_winding_numbers_single_component V faces_i labels_i;
  max_label ← maxCoeff labels_i;
  let num_labels_in_i := max_label + 1 in
  let num_faces_in_comp := length faces_i in
  assert (ret (bool_decide (mcols Ws_i = num_labels_in_i * 2)));;
  assert (ret (bool_decide (mrows Ws_i = num_faces_in_comp)));;
  comp ← vget components i;
  W ← foldM (fun W j =>
               fid ← vget comp j;
               row ← mrow Ws_i j;
               mset_block W fid (num_labels_in_i * 2) row)
            (seq 0 num_faces_in_comp) W;
  (if negb is_consistent then
     emit (WriteOBJ "debug_wn.obj" faces_i);;
     col ← mcol Ws_i 1;
     emit (Cout [TCol col; TEndl]);;
     emit (inconsistent_component_message i)
   else ret tt);;
  ret (W, Ws ++ [Ws_i]).

(** The lambda [sample_component]. *)
Definition sample_component (V : list point) (comp_faces : list (list face))
    (cid : nat) : M point :=
  faces ← vget comp_faces cid;
  '(f0, f1, f2) ← vget faces 0;
  '(x0, y0, z0) ← vget V f0;
  '(x1, y1, z1) ← vget V f1;
  '(x2, y2, z2) ← vget V f2;
  let third a b c := scalar_div3 ext (scalar_add ext (scalar_add ext a b) c) in
  ret (third x0 x1 x2, third y0 y1 y2, third z0 z1 z2).

Definition index_without_i (i index : nat) : nat :=
  if decide (index < i) then index else index - 1.

(** [ambient_correction(j, c) += correction] *)
Definition madd_at (A : matrix) (r c : nat) (v : Z) : M matrix :=
  old ← mget A r c; mset A r c (Int32.add old v).

(** The inner loop over the labels [k] for the pair [(i, j)]. *)
Definition accumulate_pair (W : matrix) (num_labels : nat) (comp : list nat)
    (fid : nat) (ori : bool) (j : nat) (ambient_correction : matrix) : M matrix :=
  foldM (fun ambient_correction k =>
           f ← vget comp fid;
           correction ← mget W f (k*2 + (if ori then 0 else 1));
           ambient_correction ← madd_at ambient_correction j (k*2) correction;
           madd_at ambient_correction j (k*2 + 1) correction)
        (seq 0 num_labels) ambient_correction.

(** The body of the loop over [i] inside [if (num_components > 1)].  The
    rows of [samples] are filled in increasing order of [index_without_i j]. *)
Definition accumulate_from_component (V : list point) (W : matrix)
    (num_labels num_components : nat) (components : list (list nat))
    (comp_faces : list (list face)) (ambient_correction : matrix) (i : nat)
  : M matrix :=
  let others := filter (fun j => i ≠ j) (seq 0 num_components) in
  samples ← forM others (sample_component V comp_faces);
  faces_i ← vget comp_faces i;
  emit (Call "closest_facet");;
  let '(fids, orientation) := closest_facet ext V faces_i samples in
  comp ← vget components i;
  foldM (fun ambient_correction j =>
           let index := index_without_i i j in
           fid ← vget fids index;
           ori ← vget orientation index;
           accumulate_pair W num_labels comp fid ori j ambient_correction)
        others ambient_correction.

(** The matrix [ambient_correction] after the block [if (num_components > 1)]. *)
Definition ambient_corrections (V : list point) (W : matrix)
    (num_labels num_components : nat) (components : list (list nat))
    (comp_faces : list (list face)) : M matrix :=
  let ambient_correction := mconst num_components (2 * num_labels) 0%Z in
  if decide (1 < num_components) then
    foldM (accumulate_from_component V W num_labels num_components
             components comp_faces)
          (seq 0 num_components) ambient_correction
  else ret ambient_correction.

(** [W.row(fid) += correction] *)
Definition madd_row (W : matrix) (fid : nat) (correction : list Z) : M matrix :=
  old ← mrow W fid;
  if decide (length correction = length old)
  then mset_row W fid (zip_with Int32.add old correction)
  else undefined.

(** The last loop: every face receives the correction of its component. *)
Definition apply_corrections (components : list (list nat))
    (num_components : nat) (ambient_correction W : matrix) : M matrix :=
  foldM (fun W i =>
           comp ← vget components i;
           correction ← mrow ambient_correction i;
           foldM (fun W fid => madd_row W fid correction) comp W)
        (seq 0 num_components) W.

(** Lines 778-823: the nesting correction of the table [W]. *)
Definition correct_nesting (V : list point) (W : matrix)
    (num_labels num_components : nat) (components : list (list nat))
    (comp_faces : list (list face)) : M matrix :=
  ambient_correction ←
    ambient_corrections V W num_labels num_components components comp_faces;
  apply_corrections components num_components ambient_correction W.

(** The function returns [void]; [W] is its output parameter. *)
Definition propagate_winding_numbers (V : list point) (F : list face)
    (labels : list nat) : M matrix :=
  let num_faces := length F in
  emit (Call "unique_edge_map");;
  let '(E, uE, EMAP, uE2E) := unique_edge_map ext F in
  check_edge_degrees uE2E;;
  emit (Call "triangle_triangle_adjacency");;
  let TT := triangle_triangle_adjacency ext E EMAP uE2E in
  emit (Call "facet_components");;
  let '(C, counts) := facet_components ext TT in
  let num_components := length counts in
  components ← gather_components C num_components num_faces;
  '(comp_faces, comp_labels) ←
    component_faces_and_labels F labels components num_components;
  max_label ← maxCoeff labels;
  let num_labels := max_label + 1 in
  let W := mconst num_faces (2 * num_labels) 0%Z in
  '(W, Ws) ← foldM (propagate_component V components comp_faces comp_labels)
                (seq 0 num_components) (W, []);
  correct_nesting V W num_labels num_components components comp_faces.

(** *** [propagate_winding_numbers_beta] *)

(** [std::tuple<size_t, bool, size_t>]: neighbour cell, direction, patch. *)
Definition CellConnection : Type := nat * bool * nat.

(** [operator<] of the tuple: lexicographic, [false < true]. *)
Definition connection_lt (a b : CellConnection) : bool :=
  let '(a0, a1, a2) := a in
  let '(b0, b1, b2) := b in
  if a0 <? b0 then true else if b0 <? a0 then false else
  if negb a1 && b1 then true else if negb b1 && a1 then false else
  a2 <? b2.

(** [std::set<CellConnection>::emplace]: a sorted sequence without
    duplicates. *)
Fixpoint set_emplace (x : CellConnection) (s : list CellConnection)
  : list CellConnection :=
  match s with
  | [] => [x]
  | y :: s' =>
      if connection_lt x y then x :: y :: s'
      else if connection_lt y x then y :: set_emplace x s'
      else y :: s'
  end.

Definition build_cell_adjacency (per_patch_cells : list (nat * nat))
    (num_cells num_patches : nat) : M (list (list CellConnection)) :=
  foldM (fun (cell_adjacency : list (list CellConnection)) i =>
           '(positive_cell, negative_cell) ← vget per_patch_cells i;
           adj ← vget cell_adjacency positive_cell;
           cell_adjacency ←
             vset cell_adjacency positive_cell (set_emplace (negative_cell, false, i) adj);
           adj ← vget cell_adjacency negative_cell;
           vset cell_adjacency negative_cell (set_emplace (positive_cell, true, i) adj))
        (seq 0 num_patches) (replicate num_cells []).

Definition string_of_nat (n : nat) : string :=
  NilEmpty.string_of_uint (Nat.to_uint n).

Section OddCycle.

Variable F : list face.
Variable P : list nat.
Variable per_patch_cells : list (nat * nat).
Variable num_patches : nat.
Variable cell_adjacency : list (list CellConnection).

(** The lambda [save_cell].  The conversion of the vertices to [double] is
    not part of the model: the event records the file and its faces. *)
Definition save_cell (filename : string) (cell_id : nat) : M unit :=
  faces ← foldM (fun (faces : list nat) i =>
                   '(c0, c1) ← vget per_patch_cells i;
                   if bool_decide (c0 = cell_id) || bool_decide (c1 = cell_id) then
                     foldM (fun (faces : list nat) j =>
                              p ← vget P j;
                              ret (if bool_decide (p = i) then faces ++ [j] else faces))
                           (seq 0 (length F)) faces
                   else ret faces)
                (seq 0 num_patches) [];
  cell_faces ← forM faces (vget F);
  emit (WritePLY filename cell_faces).

(** The loop of the lambda [trace_parents]; [back] is [path.back()]. *)
Fixpoint trace_parents_loop (parents : list Z) (n : nat) (path : list nat)
    (back : nat) : M (list nat) :=
  match n with
  | 0 => diverge
  | S n' =>
      p ← vget parents back;
      if decide (p ≠ Z.of_nat back) then
        next ← to_index p;
        trace_parents_loop parents n' (path ++ [next]) next
      else ret path
  end.

Definition trace_parents (parents : list Z) (idx : nat) : M (list nat) :=
  trace_parents_loop parents fuel [idx] idx.

(** The diagnostic of an odd cycle (the body of the inner [if]). *)
Definition report_odd_cycle (parents : list Z) (curr_idx neighbor_cell : nat)
  : M unit :=
  emit (Cerr [TStr "Odd cell cycle detected!"; TEndl]);;
  path ← trace_parents parents curr_idx;
  let path := reverse path in
  path2 ← trace_parents parents neighbor_cell;
  let path := path ++ path2 in
  foldM (fun (_ : unit) cell_id =>
           emit (Cout [TNat cell_id; TStr " "]);;
           save_cell ("cell_" ++ string_of_nat cell_id ++ ".ply")%string cell_id)
        path tt;;
  emit (Cout [TEndl]).

(** The state of the two-colouring: [cell_labels], [parents] and the queue. *)
Definition colouring : Type := list Z * list Z * list nat.

(** The body of [for (const auto& neighbor : cell_adjacency[curr_idx])]. *)
Definition colour_neighbor (curr_idx : nat) (curr_label : Z) (st : colouring)
    (neighbor : CellConnection) : M colouring :=
  let '(cell_labels, parents, Q) := st in
  let neighbor_cell := neighbor.1.1 in
  label ← vget cell_labels neighbor_cell;
  if decide (label = 0%Z) then
    cell_labels ← vset cell_labels neighbor_cell (Int32.mul curr_label (-1));
    parents ← vset parents neighbor_cell (Int32.wrap (Z.of_nat curr_idx));
    ret (cell_labels, parents, Q ++ [neighbor_cell])
  else
    (if decide (label ≠ Int32.mul curr_label (-1))
     then report_odd_cycle parents curr_idx neighbor_cell
     else ret tt);;
    assert (ret (bool_decide (label = Int32.mul curr_label (-1))));;
    ret st.

(** [while (!Q.empty())] of the two-colouring. *)
Fixpoint colour_bfs (n : nat) (st : colouring) : M colouring :=
  match n with
  | 0 => diverge
  | S n' =>
      match st with
      | (cell_labels, parents, []) => ret st
      | (cell_labels, parents, curr_idx :: Q) =>
          curr_label ← vget cell_labels curr_idx;
          neighbors ← vget cell_adjacency curr_idx;
          st ← foldM (colour_neighbor curr_idx curr_label) neighbors
                 (cell_labels, parents, Q);
          colour_bfs n' st
      end
  end.

(** "Check for odd cycle." *)
Definition check_odd_cycle (num_cells : nat) : M (list Z * list Z) :=
  foldM (fun '(cell_labels, parents) i =>
           label ← vget cell_labels i;
           if decide (label = 0%Z) then
             cell_labels ← vset cell_labels i 1%Z;
             parents ← vset parents i (Int32.wrap (Z.of_nat i));
             '(cell_labels, parents, _) ← colour_bfs fuel (cell_labels, parents, [i]);
             ret (cell_labels, parents)
           else ret (cell_labels, parents))
        (seq 0 num_cells) (replicate num_cells 0%Z, replicate num_cells (-1)%Z).

End OddCycle.

Section CellWise.

Variable patch_labels : list nat.
Variable num_labels : nat.
Variable cell_adjacency : list (list CellConnection).

(** The body of [for (const auto& neighbor : cell_adjacency[curr_cell])]. *)
Definition cell_visit_neighbor (curr_cell : nat) (per_cell_W : matrix)
    (neighbor : CellConnection) : M matrix :=
  let '(neighbor_cell, direction, patch_idx) := neighbor in
  row ← mrow per_cell_W neighbor_cell;
  if existsb (fun x => (x =? INVALID)%Z) row then
    curr_row ← mrow per_cell_W curr_cell;
    per_cell_W ← mset_row per_cell_W neighbor_cell curr_row;
    foldM (fun per_cell_W i =>
             label ← vget patch_labels patch_idx;
             let inc := if bool_decide (label = i)
                        then (if direction : bool then -1 else 1)%Z else 0%Z in
             c ← mget per_cell_W curr_cell i;
             mset per_cell_W neighbor_cell i (Int32.add c inc))
          (seq 0 num_labels) per_cell_W
  else
    foldM (fun (_ : unit) i =>
             label ← vget patch_labels patch_idx;
             if bool_decide (i = label) then
               let inc := (if direction : bool then -1 else 1)%Z in
               assert (n ← mget per_cell_W neighbor_cell i;
                       c ← mget per_cell_W curr_cell i;
                       ret (bool_decide (n = Int32.add c inc)))
             else
               assert (n ← mget per_cell_W neighbor_cell i;
                       c ← mget per_cell_W curr_cell i;
                       ret (bool_decide (n = c))))
          (seq 0 num_labels) tt;;
    ret per_cell_W.

(** [while (!Q.empty())] of the cell-wise propagation.  The body pushes
    nothing onto the queue. *)
Fixpoint cell_bfs (n : nat) (per_cell_W : matrix) (Q : list nat) : M matrix :=
  match n with
  | 0 => diverge
  | S n' =>
      match Q with
      | [] => ret per_cell_W
      | curr_cell :: Q =>
          neighbors ← vget cell_adjacency curr_cell;
          per_cell_W ← foldM (cell_visit_neighbor curr_cell) neighbors per_cell_W;
          cell_bfs n' per_cell_W Q
      end
  end.

(** The table of the cells before the traversal. *)
Definition seed_cell_W (num_cells infinity_cell : nat) : M matrix :=
  mset_row (mconst num_cells num_labels INVALID) infinity_cell
    (replicate num_labels 0%Z).

(** The last loop: the table of the faces read off the table of the cells.
    [W.resize] leaves the entries unset; every one of them is written by
    the loop, the model starts from zeros. *)
Definition faces_from_cells (P : list nat) (per_patch_cells : list (nat * nat))
    (num_faces : nat) (per_cell_W : matrix) : M matrix :=
  foldM (fun W i =>
           patch ← vget P i;
           '(positive_cell, negative_cell) ← vget per_patch_cells patch;
           foldM (fun W j =>
                    front ← mget per_cell_W positive_cell j;
                    W ← mset W i (j*2) front;
                    back ← mget per_cell_W negative_cell j;
                    mset W i (j*2 + 1) back)
                 (seq 0 num_labels) W)
        (seq 0 num_faces) (mconst num_faces (num_labels * 2) 0%Z).

End CellWise.

(** The first part of the function: the cell graph and its two-colouring. *)
Definition beta_validate (V : list point) (F : list face)
  : M (list nat * list (nat * nat) * nat * nat * list (list CellConnection)) :=
  emit (Call "unique_edge_map");;
  let '(E, uE, EMAP, uE2E) := unique_edge_map ext F in
  assert (is_orientable F uE uE2E);;
  emit (Call "extract_manifold_patches");;
  let '(num_patches, P) := extract_manifold_patches ext F EMAP uE2E in
  emit (Call "extract_cells");;
  let '(num_cells, per_patch_cells) := extract_cells ext V F P E uE uE2E EMAP in
  cell_adjacency ← build_cell_adjacency per_patch_cells num_cells num_patches;
  check_odd_cycle F P per_patch_cells num_patches cell_adjacency num_cells;;
  ret (P, per_patch_cells, num_patches, num_cells, cell_adjacency).

(** The second part: the seed, the traversal of the cells and the table of
    the cells it leaves. *)
Definition beta_propagate_cells (V : list point) (F : list face)
    (labels : list nat) (P : list nat) (per_patch_cells : list (nat * nat))
    (num_patches num_cells : nat) (cell_adjacency : list (list CellConnection))
  : M (nat * matrix) :=
  let num_faces := length F in
  emit (Call "outer_facet");;
  let '(outer_facet, flipped) := outer_facet ext V F (seq 0 num_faces) in
  outer_patch ← vget P outer_facet;
  cells ← vget per_patch_cells outer_patch;
  let infinity_cell := if flipped : bool then cells.2 else cells.1 in
  patch_labels ← patch_labels_of num_patches P labels num_faces;
  assert (ret (forallb (fun l => negb (l =? INVALID)%Z) patch_labels));;
  patch_labels ← forM patch_labels to_index;
  max_label ← maxCoeff patch_labels;
  let num_labels := max_label + 1 in
  per_cell_W ← seed_cell_W num_labels num_cells infinity_cell;
  per_cell_W ← cell_bfs patch_labels num_labels cell_adjacency fuel
                 per_cell_W [infinity_cell];
  ret (num_labels, per_cell_W).

(** The function returns [void]; [W] is its output parameter. *)
Definition propagate_winding_numbers_beta (V : list point) (F : list face)
    (labels : list nat) : M matrix :=
  '(P, per_patch_cells, num_patches, num_cells, cell_adjacency) ← beta_validate V F;
  '(num_labels, per_cell_W) ←
    beta_propagate_cells V F labels P per_patch_cells num_patches num_cells
      cell_adjacency;
  faces_from_cells num_labels P per_patch_cells (length F) per_cell_W.

End Model.

(** ** Concrete meshes

    The tables below are the outputs of the collaborators on a few small
    meshes.  The half-edge of corner [c] of face [f] has index
    [c * m + f] for [m] faces and runs from vertex [(c+1) mod 3] to vertex
    [(c+2) mod 3] of the face; [uE] lists the undirected edges in
    lexicographic order, [EMAP] sends a half-edge to its undirected edge and
    [uE2E] an undirected edge to its half-edges; [P] is the patch of each
    face, [C] its connected component. *)

Module Examples.

Abbreviation Q := QArith_base.Q.

(** Two tetrahedra that share the edge (0,1), both oriented outwards. *)
Definition F_two : list face :=
  [(0, 2, 1); (0, 1, 3); (0, 3, 2); (1, 2, 3); (0, 4, 1); (0, 1, 5); (0, 5, 4);
   (1, 4, 5)].
Definition E_two : list edge :=
  [(2, 1); (1, 3); (3, 2); (2, 3); (4, 1); (1, 5); (5, 4); (4, 5); (1, 0); (3, 0);
   (2, 0); (3, 1); (1, 0); (5, 0); (4, 0); (5, 1); (0, 2); (0, 1); (0, 3); (1, 2);
   (0, 4); (0, 1); (0, 5); (1, 4)].
Definition uE_two : list edge :=
  [(0, 1); (0, 2); (0, 3); (0, 4); (0, 5); (1, 2); (1, 3); (1, 4); (1, 5); (2, 3);
   (4, 5)].
Definition EMAP_two : list nat :=
  [5; 6; 9; 9; 7; 8; 10; 10; 0; 2; 1; 6; 0; 4; 3; 8; 1; 0; 2; 5; 3; 0; 4; 7].
Definition uE2E_two : list (list nat) :=
  [[8; 12; 17; 21]; [10; 16]; [9; 18]; [14; 20]; [13; 22]; [0; 19]; [1; 11]; [4; 23];
   [5; 15]; [2; 3]; [6; 7]].
Definition P_two : list nat := [0; 0; 0; 0; 1; 1; 1; 1].
Definition curves_two : list (list nat) := [[0]].
Definition TT_two : list (list (list nat)) :=
  [[[3]; [4; 1; 5]; [2]]; [[3]; [2]; [0; 4; 5]]; [[3]; [0]; [1]]; [[2]; [1]; [0]];
   [[7]; [0; 1; 5]; [6]]; [[7]; [6]; [0; 4; 1]]; [[7]; [4]; [5]]; [[6]; [5]; [4]]].
Definition C_two : list nat := [0; 0; 0; 0; 0; 0; 0; 0].
Definition counts_two : list nat := [8].

(** The same two tetrahedra with face 4 turned over. *)
Definition F_flip : list face :=
  [(0, 2, 1); (0, 1, 3); (0, 3, 2); (1, 2, 3); (0, 1, 4); (0, 1, 5); (0, 5, 4);
   (1, 4, 5)].
Definition E_flip : list edge :=
  [(2, 1); (1, 3); (3, 2); (2, 3); (1, 4); (1, 5); (5, 4); (4, 5); (1, 0); (3, 0);
   (2, 0); (3, 1); (4, 0); (5, 0); (4, 0); (5, 1); (0, 2); (0, 1); (0, 3); (1, 2);
   (0, 1); (0, 1); (0, 5); (1, 4)].
Definition uE_flip : list edge :=
  [(0, 1); (0, 2); (0, 3); (0, 4); (0, 5); (1, 2); (1, 3); (1, 4); (1, 5); (2, 3);
   (4, 5)].
Definition EMAP_flip : list nat :=
  [5; 6; 9; 9; 7; 8; 10; 10; 0; 2; 1; 6; 3; 4; 3; 8; 1; 0; 2; 5; 0; 0; 4; 7].
Definition uE2E_flip : list (list nat) :=
  [[8; 17; 20; 21]; [10; 16]; [9; 18]; [12; 14]; [13; 22]; [0; 19]; [1; 11]; [4; 23];
   [5; 15]; [2; 3]; [6; 7]].
Definition P_flip : list nat := [0; 0; 0; 0; 1; 1; 1; 1].
Definition curves_flip : list (list nat) := [[0]].
Definition TT_flip : list (list (list nat)) :=
  [[[3]; [1; 4; 5]; [2]]; [[3]; [2]; [0; 4; 5]]; [[3]; [0]; [1]]; [[2]; [1]; [0]];
   [[7]; [6]; [0; 1; 5]]; [[7]; [6]; [0; 1; 4]]; [[7]; [4]; [5]]; [[6]; [5]; [4]]].
Definition C_flip : list nat := [0; 0; 0; 0; 0; 0; 0; 0].
Definition counts_flip : list nat := [8].

(** A tetrahedron inside another one, both oriented outwards. *)
Definition F_nested : list face :=
  [(0, 2, 1); (0, 1, 3); (0, 3, 2); (1, 2, 3); (4, 6, 5); (4, 5, 7); (4, 7, 6);
   (5, 6, 7)].
Definition E_nested : list edge :=
  [(2, 1); (1, 3); (3, 2); (2, 3); (6, 5); (5, 7); (7, 6); (6, 7); (1, 0); (3, 0);
   (2, 0); (3, 1); (5, 4); (7, 4); (6, 4); (7, 5); (0, 2); (0, 1); (0, 3); (1, 2);
   (4, 6); (4, 5); (4, 7); (5, 6)].
Definition uE_nested : list edge :=
  [(0, 1); (0, 2); (0, 3); (1, 2); (1, 3); (2, 3); (4, 5); (4, 6); (4, 7); (5, 6);
   (5, 7); (6, 7)].
Definition EMAP_nested : list nat :=
  [3; 4; 5; 5; 9; 10; 11; 11; 0; 2; 1; 4; 6; 8; 7; 10; 1; 0; 2; 3; 7; 6; 8; 9].
Definition uE2E_nested : list (list nat) :=
  [[8; 17]; [10; 16]; [9; 18]; [0; 19]; [1; 11]; [2; 3]; [12; 21]; [14; 20];
   [13; 22]; [4; 23]; [5; 15]; [6; 7]].
Definition P_nested : list nat := [0; 0; 0; 0; 1; 1; 1; 1].
Definition curves_nested : list (list nat) := [].
Definition TT_nested : list (list (list nat)) :=
  [[[3]; [1]; [2]]; [[3]; [2]; [0]]; [[3]; [0]; [1]]; [[2]; [1]; [0]];
   [[7]; [5]; [6]]; [[7]; [6]; [4]]; [[7]; [4]; [5]]; [[6]; [5]; [4]]].
Definition C_nested : list nat := [0; 0; 0; 0; 1; 1; 1; 1].
Definition counts_nested : list nat := [4; 4].

(** The outer tetrahedron alone. *)
Definition F_outer : list face := [(0, 2, 1); (0, 1, 3); (0, 3, 2); (1, 2, 3)].
Definition E_outer : list edge :=
  [(2, 1); (1, 3); (3, 2); (2, 3); (1, 0); (3, 0); (2, 0); (3, 1); (0, 2); (0, 1);
   (0, 3); (1, 2)].
Definition uE_outer : list edge := [(0, 1); (0, 2); (0, 3); (1, 2); (1, 3); (2, 3)].
Definition EMAP_outer : list nat := [3; 4; 5; 5; 0; 2; 1; 4; 1; 0; 2; 3].
Definition uE2E_outer : list (list nat) :=
  [[4; 9]; [6; 8]; [5; 10]; [0; 11]; [1; 7]; [2; 3]].
Definition P_outer : list nat := [0; 0; 0; 0].
Definition curves_outer : list (list nat) := [].
Definition TT_outer : list (list (list nat)) :=
  [[[3]; [1]; [2]]; [[3]; [2]; [0]]; [[3]; [0]; [1]]; [[2]; [1]; [0]]].
Definition C_outer : list nat := [0; 0; 0; 0].
Definition counts_outer : list nat := [4].

(** The inner tetrahedron alone. *)
Definition F_inner : list face := [(4, 6, 5); (4, 5, 7); (4, 7, 6); (5, 6, 7)].
Definition E_inner : list edge :=
  [(6, 5); (5, 7); (7, 6); (6, 7); (5, 4); (7, 4); (6, 4); (7, 5); (4, 6); (4, 5);
   (4, 7); (5, 6)].
Definition uE_inner : list edge := [(4, 5); (4, 6); (4, 7); (5, 6); (5, 7); (6, 7)].
Definition EMAP_inner : list nat := [3; 4; 5; 5; 0; 2; 1; 4; 1; 0; 2; 3].
Definition uE2E_inner : list (list nat) :=
  [[4; 9]; [6; 8]; [5; 10]; [0; 11]; [1; 7]; [2; 3]].
Definition P_inner : list nat := [0; 0; 0; 0].
Definition curves_inner : list (list nat) := [].
Definition TT_inner : list (list (list nat)) :=
  [[[3]; [1]; [2]]; [[3]; [2]; [0]]; [[3]; [0]; [1]]; [[2]; [1]; [0]]].
Definition C_inner : list nat := [0; 0; 0; 0].
Definition counts_inner : list nat := [4].

(** A single triangle. *)
Definition F_triangle : list face := [(0, 1, 2)].
Definition E_triangle : list edge := [(1, 2); (2, 0); (0, 1)].
Definition uE_triangle : list edge := [(0, 1); (0, 2); (1, 2)].
Definition EMAP_triangle : list nat := [2; 1; 0].
Definition uE2E_triangle : list (list nat) := [[2]; [1]; [0]].
Definition P_triangle : list nat := [0].
Definition curves_triangle : list (list nat) := [].
Definition TT_triangle : list (list (list nat)) := [[[]; []; []]].
Definition C_triangle : list nat := [0].
Definition counts_triangle : list nat := [1].

(** A triangle covered twice, once in each orientation. *)
Definition F_pillow : list face := [(0, 1, 2); (0, 2, 1)].
Definition E_pillow : list edge := [(1, 2); (2, 1); (2, 0); (1, 0); (0, 1); (0, 2)].
Definition uE_pillow : list edge := [(0, 1); (0, 2); (1, 2)].
Definition EMAP_pillow : list nat := [2; 2; 1; 0; 0; 1].
Definition uE2E_pillow : list (list nat) := [[3; 4]; [2; 5]; [0; 1]].
Definition P_pillow : list nat := [0; 0].
Definition curves_pillow : list (list nat) := [].
Definition TT_pillow : list (list (list nat)) := [[[1]; [1]; [1]]; [[0]; [0]; [0]]].
Definition C_pillow : list nat := [0; 0].
Definition counts_pillow : list nat := [2].

Definition pt (x y z : Z) : Q * Q * Q := (QArith_base.inject_Z x, QArith_base.inject_Z y, QArith_base.inject_Z z).

(** The vertices of the two tetrahedra around the edge (0,1): the edge lies
    on the z axis, the first tetrahedron in the quadrant of positive x and
    y, the second one in the quadrant of negative x and y. *)
Definition V_two : list (Q * Q * Q) :=
  [pt 0 0 0; pt 0 0 1; pt 1 0 0; pt 0 1 0; pt (-1) 0 0; pt 0 (-1) 0].

(** The vertices of the nested tetrahedra. *)
Definition V_nested : list (Q * Q * Q) :=
  [pt 0 0 0; pt 12 0 0; pt 0 12 0; pt 0 0 12;
   pt 1 1 1; pt 3 1 1; pt 1 3 1; pt 1 1 3].

Definition V_triangle : list (Q * Q * Q) := [pt 0 0 0; pt 1 0 0; pt 0 1 0].

Definition ex_unique_edge_map (F : list face)
  : list edge * list edge * list nat * list (list nat) :=
  if decide (F = F_two) then (E_two, uE_two, EMAP_two, uE2E_two) else
  if decide (F = F_flip) then (E_flip, uE_flip, EMAP_flip, uE2E_flip) else
  if decide (F = F_nested) then (E_nested, uE_nested, EMAP_nested, uE2E_nested) else
  if decide (F = F_outer) then (E_outer, uE_outer, EMAP_outer, uE2E_outer) else
  if decide (F = F_inner) then (E_inner, uE_inner, EMAP_inner, uE2E_inner) else
  if decide (F = F_triangle)
  then (E_triangle, uE_triangle, EMAP_triangle, uE2E_triangle) else
  if decide (F = F_pillow) then (E_pillow, uE_pillow, EMAP_pillow, uE2E_pillow)
  else ([], [], [], []).

Definition ex_extract_manifold_patches (F : list face) (EMAP : list nat)
    (uE2E : list (list nat)) : nat * list nat :=
  if decide (F = F_two) then (2, P_two) else
  if decide (F = F_flip) then (2, P_flip) else
  if decide (F = F_nested) then (2, P_nested) else
  if decide (F = F_outer) then (1, P_outer) else
  if decide (F = F_inner) then (1, P_inner) else
  if decide (F = F_triangle) then (1, P_triangle) else
  if decide (F = F_pillow) then (1, P_pillow) else (0, []).

Definition ex_extract_non_manifold_edge_curves (F : list face) (EMAP : list nat)
    (uE2E : list (list nat)) : list (list nat) :=
  if decide (F = F_two) then curves_two else
  if decide (F = F_flip) then curves_flip else [].

(** The faces around the shared edge of the two tetrahedra, in their order
    around the edge: the faces at 0, 270, 180 and 90 degrees. *)
Definition ex_order_facets_around_edge (V : list (Q * Q * Q)) (F : list face)
    (s d : nat) (adj_faces : list Z) : list nat :=
  if decide (adj_faces = [1; 5; -2; -6]%Z) then [0; 3; 1; 2] else
  if decide (adj_faces = [1; -2; -5; -6]%Z) then [0; 3; 2; 1] else
  seq 0 (length adj_faces).

(** Face 0 lies on the outside of each of the meshes and is not flipped. *)
Definition ex_outer_facet (V : list (Q * Q * Q)) (F : list face) (I : list nat)
  : nat * bool := (0, false).

Definition ex_triangle_triangle_adjacency (E : list edge) (EMAP : list nat)
    (uE2E : list (list nat)) : list (list (list nat)) :=
  if decide (E = E_two) then TT_two else
  if decide (E = E_flip) then TT_flip else
  if decide (E = E_nested) then TT_nested else
  if decide (E = E_outer) then TT_outer else
  if decide (E = E_inner) then TT_inner else
  if decide (E = E_triangle) then TT_triangle else
  if decide (E = E_pillow) then TT_pillow else [].

Definition ex_facet_components (TT : list (list (list nat))) : list nat * list nat :=
  if decide (TT = TT_two) then (C_two, counts_two) else
  if decide (TT = TT_flip) then (C_flip, counts_flip) else
  if decide (TT = TT_nested) then (C_nested, counts_nested) else
  if decide (TT = TT_outer) then (C_outer, counts_outer) else
  if decide (TT = TT_inner) then (C_inner, counts_inner) else
  if decide (TT = TT_triangle) then (C_triangle, counts_triangle) else
  if decide (TT = TT_pillow) then (C_pillow, counts_pillow) else ([], []).

(** The centre of a face of the inner tetrahedron lies behind face 0 of the
    outer one; the centre of a face of the outer tetrahedron lies in front
    of face 0 of the inner one. *)
Definition ex_closest_facet (V : list (Q * Q * Q)) (F : list face)
    (samples : list (Q * Q * Q)) : list nat * list bool :=
  if decide (F = F_outer) then ([0], [false]) else
  if decide (F = F_inner) then ([0], [true]) else
  (replicate (length samples) 0, replicate (length samples) true).

(** The cells: cell 0 is the unbounded one.  The two tetrahedra that share
    an edge bound the cells 1 and 2; of the nested ones the outer bounds
    cell 1 and the inner cell 2; the doubly covered triangle bounds
    nothing, cell 0 is on both of its sides. *)
Definition ex_extract_cells (V : list (Q * Q * Q)) (F : list face) (P : list nat)
    (E uE : list edge) (uE2E : list (list nat)) (EMAP : list nat)
  : nat * list (nat * nat) :=
  if decide (F = F_two) then (3, [(0, 1); (0, 2)]) else
  if decide (F = F_nested) then (3, [(0, 1); (1, 2)]) else
  if decide (F = F_pillow) then (1, [(0, 0)]) else (0, []).

Definition ex : Collaborators Q := {|
  scalar_add := QArith_base.Qplus;
  scalar_div3 := fun q => QArith_base.Qdiv q (QArith_base.inject_Z 3);
  unique_edge_map := ex_unique_edge_map;
  extract_manifold_patches := ex_extract_manifold_patches;
  extract_non_manifold_edge_curves := ex_extract_non_manifold_edge_curves;
  order_facets_around_edge := ex_order_facets_around_edge;
  outer_facet := ex_outer_facet;
  triangle_triangle_adjacency := ex_triangle_triangle_adjacency;
  facet_components := ex_facet_components;
  closest_facet := ex_closest_facet;
  extract_cells := ex_extract_cells
|}.

(** All faces carry label 0. *)
Definition labels8 : list nat := [0; 0; 0; 0; 0; 0; 0; 0].

End Examples.

(** ** Vocabulary of the statements *)

(** The entry [W(r, c)] of a table, when it exists. *)
Definition coeff (W : matrix) (r c : nat) : option Z :=
  row ← mdata W !! r; row !! c.

(** Every entry is the value of a C++ [int]. *)
Definition int_matrix (W : matrix) : Prop :=
  ∀ r c v, coeff W r c = Some v → Int32.in_range v.

(** All rows have the declared number of columns. *)
Definition well_shaped (W : matrix) : Prop :=
  ∀ r row, mdata W !! r = Some row → length row = mcols W.

(** The closure condition of the verification pass at the consecutive
    positions [curr] and [next] of a curve, for the label [k]: the entry of
    the current patch on the side selected by its orientation flag is the
    entry of the next patch on the opposite-selected side. *)
Definition agree (order : list nat) (orientation : list bool) (W : matrix)
    (curr next k : nat) : Prop :=
  ∃ p b q c a,
    order !! curr = Some p ∧ orientation !! curr = Some b ∧
    order !! next = Some q ∧ orientation !! next = Some c ∧
    coeff W p (k*2 + (if b : bool then 0 else 1)) = Some a ∧
    coeff W q (k*2 + (if c : bool then 1 else 0)) = Some a.

(** The condition for every curve, every pair of consecutive positions of
    its cyclic order and every label. *)
Definition closure_holds (orders : list (list nat))
    (orientations : list (list bool)) (W : matrix) : Prop :=
  ∀ i order orientation,
    orders !! i = Some order → orientations !! i = Some orientation →
    ∀ j k, j < length order → k < mcols W / 2 →
      agree order orientation W j ((j + 1) mod length order) k.

(** The data of the verification pass is in range: every curve has its
    orientation flags, and every patch of an order has a full row. *)
Definition pass_in_range (orders : list (list nat))
    (orientations : list (list bool)) (W : matrix) : Prop :=
  ∀ i order, orders !! i = Some order →
    ∃ orientation, orientations !! i = Some orientation ∧
      length orientation = length order ∧
      ∀ p, p ∈ order → ∃ row, mdata W !! p = Some row ∧ length row = mcols W.

(** Every exception that [m] can end in carries a message of [S]. *)
Definition throws_within {A} (S : string → Prop) (m : M A) : Prop :=
  ∀ msg, outcome_of m = Throw msg → S msg.

(** The two exceptions of [propagate_winding_numbers]. *)
Definition propagation_exception (msg : string) : Prop :=
  msg = odd_edge_message ∨ msg = "Edge does not belong to face."%string.

(** What [propagate_winding_numbers] prints and writes for a component
    whose propagation is not consistent. *)
Definition inconsistency_report (i : nat) (faces_i : list face) (col : list Z)
  : list event :=
  [WriteOBJ "debug_wn.obj" faces_i; Cout [TCol col; TEndl];
   inconsistent_component_message i].

(** A table of [r] rows and [c] columns. *)
Definition has_shape (W : matrix) (r c : nat) : Prop :=
  mcols W = c ∧ mrows W = r ∧ ∀ i row, mdata W !! i = Some row → length row = c.

(** *** The nesting correction in the words of the specification *)

Section NestingVocabulary.

Context {Scalar : Type} (ext : Collaborators Scalar).
Variables (V : list (Scalar * Scalar * Scalar)) (W : matrix).
Variables (num_components : nat) (components : list (list nat)).
Variable comp_faces : list (list face).

(** What the loops of the corrector read for the pair [(i, j)]: the entry
    [index_without_i i j] of the answer to the query of component [i] with
    the samples of the other components, as a row of [W], with its flag. *)
Definition queried_face (i j : nat) : option (nat * bool) :=
  let others := filter (fun j => i ≠ j) (seq 0 num_components) in
  match outcome_of (forM others (sample_component ext V comp_faces)) with
  | Ok samples =>
      faces_i ← comp_faces !! i;
      comp ← components !! i;
      let '(fids, orientation) := closest_facet ext V faces_i samples in
      fid ← fids !! index_without_i i j;
      ori ← orientation !! index_without_i i j;
      f ← comp !! fid;
      Some (f, ori)
  | _ => None
  end.

(** The entry that the loops add for the pair and the label [k]. *)
Definition queried_correction (i j k : nat) : option Z :=
  '(f, ori) ← queried_face i j;
  coeff W f (k*2 + (if ori : bool then 0 else 1)).

Definition add_queried (j k : nat) (acc : option Z) (i : nat) : option Z :=
  if decide (i = j) then acc
  else a ← acc; c ← queried_correction i j k; Some (Int32.add a c).

(** What the loops have added for component [j] and the label [k]. *)
Definition total_queried (j k : nat) : option Z :=
  foldl (add_queried j k) (Some 0%Z) (seq 0 num_components).

(** The centroid of a triangle: a third of the sum of its corners. *)
Definition centroid (p0 p1 p2 : Scalar * Scalar * Scalar)
  : Scalar * Scalar * Scalar :=
  let third a b c := scalar_div3 ext (scalar_add ext (scalar_add ext a b) c) in
  (third p0.1.1 p1.1.1 p2.1.1, third p0.1.2 p1.1.2 p2.1.2, third p0.2 p1.2 p2.2).

(** The representative point of component [j]: the centroid of its first
    face. *)
Definition representative_point (j : nat) : option (Scalar * Scalar * Scalar) :=
  faces ← comp_faces !! j;
  f ← head faces;
  p0 ← V !! f.1.1;
  p1 ← V !! f.1.2;
  p2 ← V !! f.2;
  Some (centroid p0 p1 p2).

(** The face of component [i] that is nearest to the representative point
    of component [j], as a row of [W], with the side flag of the query: the
    answer of the containment query against the faces of [i], asked with
    the representative points of the other components in increasing order,
    at the place of [j] among them. *)
Definition nearest_face (i j : nat) : option (nat * bool) :=
  let others := filter (fun j' => i ≠ j') (seq 0 num_components) in
  samples ← mapM representative_point others;
  faces_i ← comp_faces !! i;
  comp ← components !! i;
  let '(fids, orientation) := closest_facet ext V faces_i samples in
  place ← list_find (fun j' => j' = j) others;
  fid ← fids !! place.1;
  ori ← orientation !! place.1;
  f ← comp !! fid;
  Some (f, ori).

(** The entry of that face selected by the flag, for the label [k]: the
    front entry when the flag is set, the back entry otherwise. *)
Definition pair_correction (i j k : nat) : option Z :=
  '(f, ori) ← nearest_face i j;
  coeff W f (k*2 + (if ori : bool then 0 else 1)).

Definition add_correction (j k : nat) (acc : option Z) (i : nat) : option Z :=
  if decide (i = j) then acc
  else a ← acc; c ← pair_correction i j k; Some (Int32.add a c).

(** The ambient correction of component [j] for the label [k]: the sum of
    the corrections of all ordered pairs [(i, j)] with [i ≠ j]. *)
Definition total_correction (j k : nat) : option Z :=
  foldl (add_correction j k) (Some 0%Z) (seq 0 num_components).

(** The components do not share faces. *)
Definition disjoint_components : Prop :=
  (∀ i comp, i < num_components → components !! i = Some comp → NoDup comp) ∧
  (∀ i i' comp comp' f,
     i < num_components → i' < num_components →
     components !! i = Some comp → components !! i' = Some comp' →
     f ∈ comp → f ∈ comp' → i = i').

End NestingVocabulary.

(** Both entries of every pair of columns are equal. *)
Definition paired (A : matrix) : Prop :=
  ∀ j k, coeff A j (k*2) = coeff A j (k*2 + 1).

(** The pair [(a', b')] is the pair [(a, b)] with one integer added to
    both. *)
Definition offset_pair (a b a' b' : Z) : Prop :=
  ∃ c, a' = Int32.add a c ∧ b' = Int32.add b c.

(** Every pair of [W'] is the pair of [W] at the same place, either kept
    or with one integer added to both entries. *)
Definition pairs_kept_or_offset (W W' : matrix) : Prop :=
  ∀ f k a b, coeff W f (k*2) = Some a → coeff W f (k*2 + 1) = Some b →
    ∃ a' b', coeff W' f (k*2) = Some a' ∧ coeff W' f (k*2 + 1) = Some b' ∧
             ((a' = a ∧ b' = b) ∨ offset_pair a b a' b').

(** Every pair of the row [f] of [W'] is the pair of [W] with one integer
    added to both entries. *)
Definition row_offset (W W' : matrix) (f : nat) : Prop :=
  ∀ k a b, coeff W f (k*2) = Some a → coeff W f (k*2 + 1) = Some b →
    ∃ a' b', coeff W' f (k*2) = Some a' ∧ coeff W' f (k*2 + 1) = Some b' ∧
             offset_pair a b a' b'.

(** [m] ends neither in an exception nor in a failed assertion. *)
Definition calm {A} (m : M A) : Prop :=
  match outcome_of m with
  | Throw _ | Abort => False
  | _ => True
  end.

(** The first line of the diagnostic of an odd cycle. *)
Definition odd_cycle_alarm : event := Cerr [TStr "Odd cell cycle detected!"; TEndl].

(** [m] logs only events of [S]. *)
Definition logs_within {A} (S : event → Prop) (m : M A) : Prop :=
  Forall S (log_of m).

(** The cell ids that a stretch of the log prints, and the files that it
    writes with [writePLY]. *)
Definition printed_cells (l : list event) : list nat :=
  omap (fun e => match e with
                 | Cout [TNat c; TStr " "] => Some c
                 | _ => None
                 end) l.

Definition exported_files (l : list event) : list string :=
  omap (fun e => match e with
                 | WritePLY f _ => Some f
                 | _ => None
                 end) l.

Definition cell_file (cell_id : nat) : string :=
  ("cell_" ++ string_of_nat cell_id ++ ".ply")%string.

(** *** The state of the two-colouring *)

(** A cell that has its colour. *)
Definition labelled (cell_labels : list Z) (c : nat) : Prop :=
  ∃ v, cell_labels !! c = Some v ∧ v ≠ 0%Z.

(** The chain of the parents of a coloured cell reaches, in [d] steps and
    through coloured cells, a cell that is its own parent. *)
Inductive chain (cell_labels parents : list Z) : nat → nat → Prop :=
| chain_root c :
    labelled cell_labels c → parents !! c = Some (Z.of_nat c) →
    chain cell_labels parents c 0
| chain_step c p d :
    labelled cell_labels c → parents !! c = Some (Z.of_nat p) → p ≠ c →
    chain cell_labels parents p d →
    chain cell_labels parents c (S d).

(** The number of cells without a colour. *)
Definition zeros (cell_labels : list Z) : nat :=
  length (filter (fun v => v = 0%Z) cell_labels).

Definition colouring_inv (num_cells : nat) (cell_labels parents : list Z) : Prop :=
  length cell_labels = num_cells ∧ length parents = num_cells ∧
  (∀ c v, cell_labels !! c = Some v → v = 0 ∨ v = 1 ∨ v = -1)%Z ∧
  (∀ c, labelled cell_labels c →
        ∃ d, chain cell_labels parents c d ∧ d + zeros cell_labels < num_cells).

(** The neighbours of every cell are cells, across patches. *)
Definition adjacency_in_range (num_cells num_patches : nat)
    (cell_adjacency : list (list CellConnection)) : Prop :=
  length cell_adjacency = num_cells ∧
  Forall (Forall (fun nb : CellConnection =>
                    nb.1.1 < num_cells ∧ nb.2 < num_patches)) cell_adjacency.

(** The outputs of the collaborators on a mesh are tables of the sizes and
    with the entries that their contracts promise, and the loops have fuel
    for as many rounds as there are cells. *)
Definition cells_well_formed {Scalar} (ext : Collaborators Scalar) (fuel : nat)
    (V : list (Scalar * Scalar * Scalar)) (F : list face) (labels : list nat)
  : Prop :=
  let '(E, uE, EMAP, uE2E) := unique_edge_map ext F in
  let '(num_patches, P) := extract_manifold_patches ext F EMAP uE2E in
  let '(num_cells, per_patch_cells) := extract_cells ext V F P E uE uE2E EMAP in
  length P = length F ∧ Forall (fun p => p < num_patches) P ∧
  length per_patch_cells = num_patches ∧
  Forall (fun c : nat * nat => c.1 < num_cells ∧ c.2 < num_cells) per_patch_cells ∧
  (outer_facet ext V F (seq 0 (length F))).1 < length F ∧
  length labels = length F ∧
  num_cells < fuel ∧ (Z.of_nat num_cells ≤ Int32.max_int)%Z.

(** [m] returns, and its value and its log satisfy [Q]. *)
Definition returns {A} (m : M A) (Q : A → list event → Prop) : Prop :=
  ∃ a l, m = (Ok a, l) ∧ Q a l.

(** Once [e] is in the log of [m], [m] does not return. *)
Definition stops_at {A} (e : event) (m : M A) : Prop :=
  e ∈ log_of m → ∀ a, outcome_of m ≠ Ok a.

(** *** The traversal of the patches *)

(** The row of patch [p] holds no [INVALID]. *)
Definition assigned (W : matrix) (p : nat) : Prop :=
  ∃ row, mdata W !! p = Some row ∧ row_assigned row = true.

(** [q] is next to an occurrence of [p] in the cyclic order. *)
Definition neighbours_on (order : list nat) (p q : nat) : Prop :=
  ∃ i, order !! i = Some p ∧
    (order !! ((i + 1) mod length order) = Some q ∨
     order !! ((i + length order - 1) mod length order) = Some q).

(** [q] is next to [p] around one of the curves. *)
Definition adjacent_patches (orders : list (list nat)) (p q : nat) : Prop :=
  ∃ order, order ∈ orders ∧ neighbours_on order p q.

(** The patches that can be reached from [outer] through the orders of the
    curves. *)
Inductive reachable (orders : list (list nat)) (outer : nat) : nat → Prop :=
| reachable_outer : reachable orders outer outer
| reachable_step p q :
    reachable orders outer p → adjacent_patches orders p q →
    reachable orders outer q.

(** Every patch has, in its list of curves, the curves in whose order it
    occurs. *)
Definition curves_listed (orders : list (list nat))
    (patch_curve_adjacency : list (list nat)) : Prop :=
  ∀ i order p, orders !! i = Some order → p ∈ order →
    ∃ curves, patch_curve_adjacency !! p = Some curves ∧ i ∈ curves.

(** What the search of the traversal finds: [q] is next to the position at
    which the search for [p] in the order ends. *)
Definition found_next_to (order : list nat) (p q : nat) : Prop :=
  ∃ curr_i, find_position order p = Some curr_i ∧
    (order !! ((curr_i + 1) mod length order) = Some q ∨
     order !! ((curr_i + length order - 1) mod length order) = Some q).

(** [q] is found next to [p] at one of the curves listed for [p]. *)
Definition visited_from (orders : list (list nat))
    (patch_curve_adjacency : list (list nat)) (p q : nat) : Prop :=
  ∃ curves curve_idx order,
    patch_curve_adjacency !! p = Some curves ∧ curve_idx ∈ curves ∧
    orders !! curve_idx = Some order ∧ found_next_to order p q.

(** The patches that the traversal comes to from [outer]. *)
Inductive visited (orders : list (list nat))
    (patch_curve_adjacency : list (list nat)) (outer : nat) : nat → Prop :=
| visited_outer : visited orders patch_curve_adjacency outer outer
| visited_step p q :
    visited orders patch_curve_adjacency outer p →
    visited_from orders patch_curve_adjacency p q →
    visited orders patch_curve_adjacency outer q.

(** The number of rows without [INVALID], and the bound that it puts on
    their entries. *)
Definition assigned_rows (W : matrix) : nat :=
  length (filter (fun row => row_assigned row = true) (mdata W)).

Definition bounded_rows (W : matrix) : Prop :=
  ∀ p row, mdata W !! p = Some row → row_assigned row = true →
    Forall (fun v => Z.abs v ≤ Z.of_nat (assigned_rows W))%Z row.

(** A write into the row [nb] replaces that row by one of its length. *)
Definition row_replaced (nb : nat) (old : list Z) (W X : matrix) : Prop :=
  ∃ row, mdata X = <[nb := row]> (mdata W) ∧ length row = length old ∧
         mcols X = mcols W.

(** *** Orientability *)

(** The face [f] has a side that runs from [s] to [d]. *)
Definition along (f : face) (s d : nat) : bool :=
  let '(f0, f1, f2) := f in
  bool_decide (f0 = s) && bool_decide (f1 = d)
  || bool_decide (f1 = s) && bool_decide (f2 = d)
  || bool_decide (f2 = s) && bool_decide (f0 = d).

(** The face of the half-edge [ei] runs from [s] to [d]. *)
Definition runs_along (F : list face) (s d ei : nat) : bool :=
  match F !! (ei mod length F) with
  | Some f => along f s d
  | None => false
  end.

(** As many half-edges of [adj] run from [s] to [d] as do not. *)
Definition balanced (F : list face) (s d : nat) (adj : list nat) : Prop :=
  length (filter (λ ei, runs_along F s d ei = true) adj)
  = length (filter (λ ei, runs_along F s d ei = false) adj).

(** *** Rows that a traversal keeps *)

(** The table [W'] has the shape of [W] and every row of [W] without
    [INVALID]. *)
Definition keeps_assigned (W W' : matrix) : Prop :=
  mcols W' = mcols W ∧ mrows W' = mrows W ∧
  ∀ p row, mdata W !! p = Some row → row_assigned row = true →
           mdata W' !! p = Some row.

(** *** The result of the two-colouring *)

(** Every entry is a colour, 1 or -1, or the 0 of a cell without one. *)
Definition colours_in_range (cell_labels : list Z) : Prop :=
  ∀ c v, cell_labels !! c = Some v → (v = 0 ∨ v = 1 ∨ v = -1)%Z.

(** The cells that have a colour in [cell_labels] have it in [cell_labels']. *)
Definition colours_kept (cell_labels cell_labels' : list Z) : Prop :=
  length cell_labels' = length cell_labels ∧
  ∀ c v, cell_labels !! c = Some v → v ≠ 0%Z → cell_labels' !! c = Some v.

(** The cell [c] has a colour and each of its neighbours has the other
    one. *)
Definition opposite_neighbours (cell_adjacency : list (list CellConnection))
    (cell_labels : list Z) (c : nat) : Prop :=
  ∃ v nbs, cell_labels !! c = Some v ∧ v ≠ 0%Z ∧
           cell_adjacency !! c = Some nbs ∧
           ∀ nb : CellConnection, nb ∈ nbs → cell_labels !! nb.1.1 = Some (- v)%Z.

(** *** The crossing rule *)

(** The row of [nb] in [W'] is derived from the row of [curr] in [W] by a
    forward or a backward crossing, the flags of the two incidences being
    [curr_ori] and [nb_ori]: the shared value is the front entry of [curr]
    for a forward and its back entry for a backward crossing; for a label
    other than that of [nb] both entries of [nb] are the shared value; for
    the label of [nb] the back entry is the front entry plus one, and the
    entry that is not the shared value is the shared value minus one for a
    forward crossing with equal flags, plus one with different flags, and
    the other way round for a backward crossing.  No other row changes. *)
Definition crossed (labels : list nat) (num_labels : nat) (forward : bool)
    (curr_ori nb_ori : bool) (curr nb : nat) (W W' : matrix) : Prop :=
  ∃ label, labels !! nb = Some label ∧
    (∀ r c, r ≠ nb → coeff W' r c = coeff W r c) ∧
    ∀ k, k < num_labels → ∃ shared front back,
      coeff W curr (k*2 + (if forward then 0 else 1)) = Some shared ∧
      coeff W' nb (k*2) = Some front ∧
      coeff W' nb (k*2 + 1) = Some back ∧
      if decide (k = label) then
        Int32.sub back front = 1%Z ∧
        match forward, eqb nb_ori curr_ori with
        | true, true | false, false =>
            back = shared ∧ front = Int32.add shared (-1)
        | true, false | false, true =>
            front = shared ∧ back = Int32.add shared 1
        end
      else front = shared ∧ back = shared.

(** What is done with the neighbour [nb], found at the position [i] of the
    curve: nothing when its row holds no [INVALID]; otherwise the row is
    derived by the crossing and [nb] is pushed onto the queue. *)
Definition neighbour_visited (labels : list nat) (num_labels : nat)
    (forward : bool) (orientation : list bool) (curr_ori : bool)
    (curr i nb : nat) (W : matrix) (Q : list nat) (W' : matrix)
    (Q' : list nat) : Prop :=
  ∃ row_nb, mdata W !! nb = Some row_nb ∧
    if row_assigned row_nb then W' = W ∧ Q' = Q
    else ∃ nb_ori, orientation !! i = Some nb_ori ∧ Q' = Q ++ [nb] ∧
           crossed labels num_labels forward curr_ori nb_ori curr nb W W'.

(** * Properties *)

(** ** The monad *)

Lemma bind_unfold {A B} (m : M A) (f : A → M B) : (m ≫= f) = bind m f.
Proof. reflexivity. Qed.

Lemma mret_unfold {A} (a : A) : mret a = ret a.
Proof. reflexivity. Qed.

Lemma bind_Ok {A B} (m : M A) (f : A → M B) (b : B) (l : list event) :
  (m ≫= f) = (Ok b, l) ↔
  ∃ a l1 l2, m = (Ok a, l1) ∧ f a = (Ok b, l2) ∧ l = l1 ++ l2.
Proof.
  rewrite bind_unfold. unfold bind. split.
  - destruct m as [[a| | | |] l1]; try discriminate.
    destruct (f a) as [o l2] eqn:Hf. intros [= -> <-]. eauto 6.
  - intros (a & l1 & l2 & -> & Hf & ->). by rewrite Hf.
Qed.

Lemma bind_ret_l {A B} (a : A) (f : A → M B) : (ret a ≫= f) = f a.
Proof. rewrite bind_unfold. unfold bind, ret. by destruct (f a). Qed.

Lemma bind_Ok_nil {A B} (m : M A) (f : A → M B) (a : A) :
  m = (Ok a, []) → (m ≫= f) = f a.
Proof. intros ->. apply bind_ret_l. Qed.

Lemma ret_Ok {A} (a b : A) (l : list event) : ret a = (Ok b, l) ↔ a = b ∧ l = [].
Proof. unfold ret. split; [by intros [= -> <-]|by intros [-> ->]]. Qed.

Lemma emit_bind {B} (e : event) (f : unit → M B) :
  (emit e ≫= f) = (outcome_of (f tt), e :: log_of (f tt)).
Proof. rewrite bind_unfold. unfold bind, emit. by destruct (f tt). Qed.

Lemma emit_bind_eq {B} (e : event) (f : unit → M B) (o : outcome B)
    (l : list event) :
  f tt = (o, l) → (emit e ≫= f) = (o, e :: l).
Proof. intros H. by rewrite emit_bind, H. Qed.

Lemma vget_Ok {A} (v : list A) (i : nat) (x : A) (l : list event) :
  vget v i = (Ok x, l) ↔ v !! i = Some x ∧ l = [].
Proof.
  unfold vget. destruct (v !! i) as [y|]; unfold ret, undefined; split.
  - by intros [= -> <-].
  - by intros [[= ->] ->].
  - discriminate.
  - by intros [? _].
Qed.

Lemma vget_Some {A} (v : list A) (i : nat) (x : A) :
  v !! i = Some x → vget v i = ret x.
Proof. unfold vget. by intros ->. Qed.

Lemma vset_Ok {A} (v : list A) (i : nat) (x : A) (v' : list A) (l : list event) :
  vset v i x = (Ok v', l) ↔ i < length v ∧ v' = <[i := x]> v ∧ l = [].
Proof.
  unfold vset. destruct (decide (i < length v)); unfold ret, undefined; split.
  - by intros [= <- <-].
  - by intros (_ & -> & ->).
  - discriminate.
  - by intros (? & _).
Qed.

Lemma vset_lt {A} (v : list A) (i : nat) (x : A) :
  i < length v → vset v i x = ret (<[i := x]> v).
Proof. unfold vset. intros. by rewrite decide_True. Qed.

Lemma umod_Ok (a b r : nat) (l : list event) :
  umod a b = (Ok r, l) ↔ b ≠ 0 ∧ r = a mod b ∧ l = [].
Proof.
  unfold umod. destruct (decide (b = 0)); unfold ret, undefined; split.
  - discriminate.
  - by intros (? & _).
  - by intros [= <- <-].
  - by intros (_ & -> & ->).
Qed.

(** ** Tables *)

Lemma coeff_mconst (r c : nat) (v : Z) (i j : nat) :
  i < r → j < c → coeff (mconst r c v) i j = Some v.
Proof.
  intros Hi Hj. unfold coeff, mconst. simpl.
  rewrite lookup_replicate_2 by done. simpl. by rewrite lookup_replicate_2.
Qed.

Lemma mrow_Ok (W : matrix) (r : nat) (row : list Z) (l : list event) :
  mrow W r = (Ok row, l) ↔ mdata W !! r = Some row ∧ l = [].
Proof. apply vget_Ok. Qed.

Lemma mget_Ok (W : matrix) (r c : nat) (v : Z) (l : list event) :
  mget W r c = (Ok v, l) ↔ coeff W r c = Some v ∧ l = [].
Proof.
  unfold mget, coeff. rewrite bind_Ok. split.
  - intros (row & l1 & l2 & [Hr ->]%mrow_Ok & [Hc ->]%vget_Ok & ->).
    by rewrite Hr.
  - intros [H ->]. destruct (mdata W !! r) as [row|] eqn:Hr; [|done].
    exists row, [], []. by rewrite mrow_Ok, vget_Ok.
Qed.

Lemma mget_coeff (W : matrix) (r c : nat) (v : Z) :
  coeff W r c = Some v → mget W r c = ret v.
Proof. intros. by apply mget_Ok. Qed.

Lemma mset_Ok (W : matrix) (r c : nat) (v : Z) (W' : matrix) (l : list event) :
  mset W r c v = (Ok W', l) ↔
  ∃ row, mdata W !! r = Some row ∧ c < length row ∧
         W' = Matrix (mcols W) (<[r := <[c := v]> row]> (mdata W)) ∧ l = [].
Proof.
  unfold mset. rewrite bind_Ok. split.
  - intros (row & l1 & l2 & [Hr ->]%mrow_Ok & H & ->).
    apply bind_Ok in H as (row' & l3 & l4 & (Hc & -> & ->)%vset_Ok & [<- ->]%ret_Ok & ->).
    eauto.
  - intros (row & Hr & Hc & -> & ->). exists row, [], []. rewrite mrow_Ok.
    split_and!; try done. by rewrite vset_lt, bind_ret_l.
Qed.

Lemma mset_row_Ok (W : matrix) (r : nat) (row : list Z) (W' : matrix)
    (l : list event) :
  mset_row W r row = (Ok W', l) ↔
  ∃ old, mdata W !! r = Some old ∧ length row = length old ∧
         W' = Matrix (mcols W) (<[r := row]> (mdata W)) ∧ l = [].
Proof.
  unfold mset_row. rewrite bind_Ok. split.
  - intros (old & l1 & l2 & [Hr ->]%mrow_Ok & H & ->).
    destruct (decide (length row = length old)); [|discriminate].
    apply ret_Ok in H as [<- ->]. eauto.
  - intros (old & Hr & Hl & -> & ->). exists old, [], []. rewrite mrow_Ok.
    by rewrite decide_True.
Qed.

Lemma coeff_insert_row (c0 : nat) (rows : list (list Z)) (r : nat)
    (row : list Z) (r' c' : nat) :
  r < length rows →
  coeff (Matrix c0 (<[r := row]> rows)) r' c' =
  if decide (r' = r) then row !! c' else coeff (Matrix c0 rows) r' c'.
Proof.
  intros Hr. unfold coeff. simpl. destruct (decide (r' = r)) as [->|Hne].
  - by rewrite list_lookup_insert_eq.
  - by rewrite list_lookup_insert_ne.
Qed.

Lemma coeff_mset (W W' : matrix) (r c : nat) (v : Z) (l : list event) (r' c' : nat) :
  mset W r c v = (Ok W', l) →
  coeff W' r' c' = if decide (r' = r ∧ c' = c) then Some v else coeff W r' c'.
Proof.
  intros (row & Hr & Hc & -> & _)%mset_Ok.
  rewrite coeff_insert_row by (by eapply lookup_lt_Some).
  destruct (decide (r' = r)) as [->|Hne].
  - destruct (decide (c' = c)) as [->|Hnc].
    + rewrite decide_True by done. by rewrite list_lookup_insert_eq.
    + rewrite decide_False by tauto. rewrite list_lookup_insert_ne by done.
      unfold coeff. by rewrite Hr.
  - rewrite decide_False by tauto. by destruct W.
Qed.

Lemma coeff_mset_row (W W' : matrix) (r : nat) (row : list Z) (l : list event)
    (r' c' : nat) :
  mset_row W r row = (Ok W', l) →
  coeff W' r' c' = if decide (r' = r) then row !! c' else coeff W r' c'.
Proof.
  intros (old & Hr & Hl & -> & _)%mset_row_Ok.
  rewrite coeff_insert_row by (by eapply lookup_lt_Some).
  destruct (decide (r' = r)); [done|by destruct W].
Qed.

Lemma maxCoeff_Ok (v : list nat) (m : nat) (l : list event) :
  maxCoeff v = (Ok m, l) →
  l = [] ∧ (∀ i x, v !! i = Some x → x ≤ m) ∧ ∃ i, v !! i = Some m.
Proof.
  destruct v as [|x v]; [discriminate|]. simpl. intros [= <- <-].
  split; [done|]. induction v as [|y v IH]; simpl.
  - split.
    + intros [|i] z; [by intros [= ->]|done].
    + by exists 0.
  - destruct IH as [IH1 [i IH2]]. split.
    + intros [|[|j]] z; simpl.
      * intros [= <-]. specialize (IH1 0 x eq_refl). lia.
      * intros [= <-]. lia.
      * intros Hz. specialize (IH1 (S j) z Hz). lia.
    + destruct (Nat.max_spec y (foldr Nat.max x v)) as [[_ ->]|[_ ->]].
      * destruct i as [|i]; [by exists 0|]. by exists (S (S i)).
      * by exists 1.
Qed.

Section SeedProperties.

Context {Scalar : Type} (ext : Collaborators Scalar).

(** C5: in the patch-wise propagator the patch [p] of the outer facet, of
    label [l], is seeded with zeros except for the pair of its own label,
    which is (-1, 0) when the outer facet is flipped and (0, 1) when it is
    not; every other patch starts with INVALID in every entry. *)
Theorem seed_patch_W_spec (V : list (Scalar * Scalar * Scalar)) (F : list face)
    (labels P : list nat) (max_patch max_label p l : nat) :
  maxCoeff P = ret max_patch →
  maxCoeff labels = ret max_label →
  P !! (outer_facet ext V F (seq 0 (length F))).1 = Some p →
  labels !! p = Some l →
  let flipped := (outer_facet ext V F (seq 0 (length F))).2 in
  let num_patches := max_patch + 1 in
  let num_labels := max_label + 1 in
  ∃ W, seed_patch_W num_patches num_labels p l flipped = (Ok W, []) ∧
       mrows W = num_patches ∧ mcols W = 2 * num_labels ∧
       (∀ k, k < num_labels →
          coeff W p (k*2) =
            Some (if decide (k = l) then (if flipped then -1 else 0)%Z else 0%Z) ∧
          coeff W p (k*2 + 1) =
            Some (if decide (k = l) then (if flipped then 0 else 1)%Z else 0%Z)) ∧
       (∀ q c, q < num_patches → q ≠ p → c < 2 * num_labels →
          coeff W q c = Some INVALID).
Proof.
  intros HP Hl Hp Hlab flipped num_patches num_labels.
  apply maxCoeff_Ok in HP as (_ & HP & _). apply maxCoeff_Ok in Hl as (_ & Hl & _).
  assert (p < num_patches) as Hpn by (specialize (HP _ _ Hp); unfold num_patches; lia).
  assert (l < num_labels) as Hln by (specialize (Hl _ _ Hlab); unfold num_labels; lia).
  clearbody flipped num_patches num_labels. clear HP Hl Hp Hlab.
  unfold seed_patch_W.
  set (W0 := mconst num_patches (2 * num_labels) INVALID).
  set (W1 := Matrix (2 * num_labels)
               (<[p := replicate (2 * num_labels) 0%Z]> (mdata W0))).
  assert (mset_row W0 p (replicate (2 * num_labels) 0%Z) = (Ok W1, [])) as H1.
  { apply mset_row_Ok. exists (replicate (2 * num_labels) INVALID).
    unfold W0, mconst; simpl. rewrite lookup_replicate_2 by done.
    by rewrite !length_replicate. }
  rewrite (bind_Ok_nil _ _ _ H1).
  assert (mdata W1 !! p = Some (replicate (2 * num_labels) 0%Z)) as Hrow.
  { unfold W1; simpl. rewrite list_lookup_insert_eq; [done|].
    unfold W0, mconst; simpl. by rewrite length_replicate. }
  set (c := if flipped then l * 2 else l * 2 + 1).
  set (v := (if flipped then -1 else 1)%Z).
  set (W2 := Matrix (mcols W1)
               (<[p := <[c := v]> (replicate (2 * num_labels) 0%Z)]> (mdata W1))).
  assert (c < 2 * num_labels) as Hc by (unfold c; destruct flipped; lia).
  assert (mset W1 p c v = (Ok W2, [])) as H2.
  { apply mset_Ok. exists (replicate (2 * num_labels) 0%Z).
    by rewrite length_replicate. }
  exists W2. split.
  { unfold c, v in H2. by destruct flipped. }
  split. { unfold W2, W1, W0, mrows, mconst. simpl.
           by rewrite !length_insert, length_replicate. }
  split; [done|]. split.
  - intros k Hk.
    rewrite !(coeff_mset _ _ _ _ _ _ _ _ H2), !(coeff_mset_row _ _ _ _ _ _ _ H1).
    rewrite !(decide_True (P := p = p)) by done.
    rewrite !lookup_replicate_2 by lia.
    unfold c, v. destruct flipped, (decide (k = l)) as [->|Hne];
      repeat case_decide; try done; lia.
  - intros q j Hq Hqp Hj.
    rewrite (coeff_mset _ _ _ _ _ _ _ _ H2), (coeff_mset_row _ _ _ _ _ _ _ H1).
    rewrite decide_False by tauto. rewrite decide_False by done.
    by apply coeff_mconst.
Qed.

End SeedProperties.

(** ** The crossing rule of the patch-wise traversal *)

Lemma foldM_nil {A S} (body : S → A → M S) (s : S) : foldM body [] s = ret s.
Proof. reflexivity. Qed.

Lemma foldM_cons {A S} (body : S → A → M S) (x : A) (l : list A) (s : S) :
  foldM body (x :: l) s = (body s x ≫= foldM body l).
Proof. reflexivity. Qed.

Lemma foldM_app {A S} (body : S → A → M S) (l1 l2 : list A) (s s1 s2 : S)
    (e1 e2 : list event) :
  foldM body l1 s = (Ok s1, e1) →
  foldM body l2 s1 = (Ok s2, e2) →
  foldM body (l1 ++ l2) s = (Ok s2, e1 ++ e2).
Proof.
  revert s e1. induction l1 as [|x l1 IH]; intros s e1; simpl.
  - by intros [<- ->]%ret_Ok.
  - intros (s' & ea & eb & Hx & Hl & ->)%bind_Ok H2.
    apply bind_Ok. exists s', ea, (eb ++ e2). split_and!; [done|by apply IH|].
    by rewrite app_assoc.
Qed.

Section PairWriter.

(** A loop over the labels that, at label [i], reads the entry
    [2 i + off] of the row [curr] and writes the entries [2 i] and
    [2 i + 1] of the row [next]. *)
Variables (curr next off : nat) (front back : nat → Z → Z).
Variable body : matrix → nat → M matrix.

Hypothesis curr_next : curr ≠ next.

Hypothesis body_spec : ∀ W i W' l,
  body W i = (Ok W', l) →
  l = [] ∧ mcols W' = mcols W ∧
  (∃ s, coeff W curr (i*2 + off) = Some s ∧
        coeff W' next (i*2) = Some (front i s) ∧
        coeff W' next (i*2 + 1) = Some (back i s)) ∧
  (∀ r c, r ≠ next ∨ (c ≠ i*2 ∧ c ≠ i*2 + 1) → coeff W' r c = coeff W r c).

Lemma pair_writer_spec (n a : nat) (W W' : matrix) (l : list event) :
  foldM body (seq a n) W = (Ok W', l) →
  l = [] ∧ mcols W' = mcols W ∧
  (∀ i, a ≤ i < a + n →
     ∃ s, coeff W curr (i*2 + off) = Some s ∧
          coeff W' next (i*2) = Some (front i s) ∧
          coeff W' next (i*2 + 1) = Some (back i s)) ∧
  (∀ r c, r ≠ next ∨ c < a*2 ∨ (a + n)*2 ≤ c → coeff W' r c = coeff W r c).
Proof.
  revert a W l. induction n as [|n IH]; intros a W l; simpl.
  - intros [<- ->]%ret_Ok. split_and!; try done. intros i Hi; lia.
  - intros (W1 & l1 & l2 & H1 & H2 & ->)%bind_Ok.
    apply body_spec in H1 as (-> & Hc1 & (s & Hs & Hf & Hb) & Hframe1).
    apply IH in H2 as (-> & Hc2 & Hrows & Hframe2).
    split_and!; [done|congruence| |].
    + intros i Hi. destruct (decide (i = a)) as [->|Hne].
      * exists s. split; [done|].
        rewrite !Hframe2 by lia. done.
      * destruct (Hrows i) as (s' & Hs' & Hf' & Hb'); [lia|].
        exists s'. split; [|done]. rewrite <- Hs'. symmetry. apply Hframe1.
        by left.
    + intros r c Hrc. rewrite Hframe2 by lia. apply Hframe1. lia.
Qed.

End PairWriter.

Lemma derive_next_body_spec (curr next label : nat) (cons : bool)
    (W : matrix) (i : nat) (W' : matrix) (l : list event) :
  (shared_winding_number ← mget W curr (i*2);
   if bool_decide (i = label) then
     W1 ← mset W next (i*2 + (if cons then 0 else 1)) shared_winding_number;
     mset W1 next (i*2 + (if cons then 1 else 0))
       (Int32.add shared_winding_number (if cons then 1 else -1))
   else
     W1 ← mset W next (i*2) shared_winding_number;
     mset W1 next (i*2 + 1) shared_winding_number) = (Ok W', l) →
  l = [] ∧ mcols W' = mcols W ∧
  (∃ s, coeff W curr (i*2 + 0) = Some s ∧
        coeff W' next (i*2) =
          Some (if decide (i = label)
                then (if cons then s else Int32.add s (-1)) else s) ∧
        coeff W' next (i*2 + 1) =
          Some (if decide (i = label)
                then (if cons then Int32.add s 1 else s) else s)) ∧
  (∀ r c, r ≠ next ∨ (c ≠ i*2 ∧ c ≠ i*2 + 1) → coeff W' r c = coeff W r c).
Proof.
  intros (s & l1 & l2 & [Hs ->]%mget_Ok & H & ->)%bind_Ok.
  assert (∃ c1 v1 c2 v2 W1 la lb,
            mset W next c1 v1 = (Ok W1, la) ∧ mset W1 next c2 v2 = (Ok W', lb) ∧
            l2 = la ++ lb ∧ c1 ≠ c2 ∧
            (c1 = i*2 ∨ c1 = i*2 + 1) ∧ (c2 = i*2 ∨ c2 = i*2 + 1) ∧
            (if decide (c1 = i*2) then v1 else v2) =
              (if decide (i = label)
               then (if cons then s else Int32.add s (-1)) else s) ∧
            (if decide (c1 = i*2) then v2 else v1) =
              (if decide (i = label)
               then (if cons then Int32.add s 1 else s) else s))
    as (c1 & v1 & c2 & v2 & W1 & la & lb & H1 & H2 & -> & Hne & Hc1 & Hc2 & Hv1 & Hv2).
  { case_bool_decide as Hi; apply bind_Ok in H as (W1 & la & lb & H1 & H2 & ->);
      do 7 eexists; (split; [exact H1|]); (split; [exact H2|]);
      (split; [done|]); rewrite ?(decide_True (P := i = label)) by done;
      rewrite ?(decide_False (P := i = label)) by done;
      destruct cons; repeat case_decide; split_and!; try done; lia. }
  pose proof H1 as (row1 & _ & _ & -> & ->)%mset_Ok.
  pose proof H2 as (row2 & _ & _ & HW' & ->)%mset_Ok.
  split; [done|]. split; [by rewrite HW'|]. split.
  - exists s. rewrite Nat.add_0_r. split; [done|].
    rewrite !(coeff_mset _ _ _ _ _ _ _ _ H2), !(coeff_mset _ _ _ _ _ _ _ _ H1).
    rewrite <- Hv1, <- Hv2.
    destruct Hc1 as [-> | ->], Hc2 as [-> | ->]; repeat case_decide;
      try done; lia.
  - intros r c Hrc.
    rewrite (coeff_mset _ _ _ _ _ _ _ _ H2), (coeff_mset _ _ _ _ _ _ _ _ H1).
    rewrite !decide_False; [done| |]; lia.
Qed.

Lemma derive_prev_body_spec (curr prev label : nat) (cons : bool)
    (W : matrix) (i : nat) (W' : matrix) (l : list event) :
  (shared_winding_number ← mget W curr (i*2 + 1);
   if bool_decide (i = label) then
     W1 ← mset W prev (i*2 + (if cons then 1 else 0)) shared_winding_number;
     mset W1 prev (i*2 + (if cons then 0 else 1))
       (Int32.add shared_winding_number (if cons then -1 else 1))
   else
     W1 ← mset W prev (i*2) shared_winding_number;
     mset W1 prev (i*2 + 1) shared_winding_number) = (Ok W', l) →
  l = [] ∧ mcols W' = mcols W ∧
  (∃ s, coeff W curr (i*2 + 1) = Some s ∧
        coeff W' prev (i*2) =
          Some (if decide (i = label)
                then (if cons then Int32.add s (-1) else s) else s) ∧
        coeff W' prev (i*2 + 1) =
          Some (if decide (i = label)
                then (if cons then s else Int32.add s 1) else s)) ∧
  (∀ r c, r ≠ prev ∨ (c ≠ i*2 ∧ c ≠ i*2 + 1) → coeff W' r c = coeff W r c).
Proof.
  intros (s & l1 & l2 & [Hs ->]%mget_Ok & H & ->)%bind_Ok.
  assert (∃ c1 v1 c2 v2 W1 la lb,
            mset W prev c1 v1 = (Ok W1, la) ∧ mset W1 prev c2 v2 = (Ok W', lb) ∧
            l2 = la ++ lb ∧ c1 ≠ c2 ∧
            (c1 = i*2 ∨ c1 = i*2 + 1) ∧ (c2 = i*2 ∨ c2 = i*2 + 1) ∧
            (if decide (c1 = i*2) then v1 else v2) =
              (if decide (i = label)
               then (if cons then Int32.add s (-1) else s) else s) ∧
            (if decide (c1 = i*2) then v2 else v1) =
              (if decide (i = label)
               then (if cons then s else Int32.add s 1) else s))
    as (c1 & v1 & c2 & v2 & W1 & la & lb & H1 & H2 & -> & Hne & Hc1 & Hc2 & Hv1 & Hv2).
  { case_bool_decide as Hi; apply bind_Ok in H as (W1 & la & lb & H1 & H2 & ->);
      do 7 eexists; (split; [exact H1|]); (split; [exact H2|]);
      (split; [done|]); rewrite ?(decide_True (P := i = label)) by done;
      rewrite ?(decide_False (P := i = label)) by done;
      destruct cons; repeat case_decide; split_and!; try done; lia. }
  pose proof H1 as (row1 & _ & _ & -> & ->)%mset_Ok.
  pose proof H2 as (row2 & _ & _ & HW' & ->)%mset_Ok.
  split; [done|]. split; [by rewrite HW'|]. split.
  - exists s. split; [done|].
    rewrite !(coeff_mset _ _ _ _ _ _ _ _ H2), !(coeff_mset _ _ _ _ _ _ _ _ H1).
    rewrite <- Hv1, <- Hv2.
    destruct Hc1 as [-> | ->], Hc2 as [-> | ->]; repeat case_decide;
      try done; lia.
  - intros r c Hrc.
    rewrite (coeff_mset _ _ _ _ _ _ _ _ H2), (coeff_mset _ _ _ _ _ _ _ _ H1).
    rewrite !decide_False; [done| |]; lia.
Qed.

(** What the forward derivation writes. *)
Lemma derive_next_spec (num_labels curr next label : nat) (cons : bool)
    (W W' : matrix) (l : list event) :
  curr ≠ next →
  derive_next num_labels curr next label cons W = (Ok W', l) →
  l = [] ∧ mcols W' = mcols W ∧
  (∀ i, i < num_labels →
     ∃ s, coeff W curr (i*2) = Some s ∧
          coeff W' next (i*2) =
            Some (if decide (i = label)
                  then (if cons then s else Int32.add s (-1)) else s) ∧
          coeff W' next (i*2 + 1) =
            Some (if decide (i = label)
                  then (if cons then Int32.add s 1 else s) else s)) ∧
  (∀ r c, r ≠ next ∨ num_labels*2 ≤ c → coeff W' r c = coeff W r c).
Proof.
  intros Hne H. unfold derive_next in H.
  eapply (pair_writer_spec curr next 0) in H as (-> & Hc & Hrows & Hframe);
    [|done|intros ?????; by apply derive_next_body_spec].
  split_and!; [done|done| |].
  - intros i Hi. destruct (Hrows i) as (s & Hs & ?); [lia|].
    rewrite Nat.add_0_r in Hs. eauto.
  - intros r c Hrc. apply Hframe. simpl. lia.
Qed.

(** What the backward derivation writes. *)
Lemma derive_prev_spec (num_labels curr prev label : nat) (cons : bool)
    (W W' : matrix) (l : list event) :
  curr ≠ prev →
  derive_prev num_labels curr prev label cons W = (Ok W', l) →
  l = [] ∧ mcols W' = mcols W ∧
  (∀ i, i < num_labels →
     ∃ s, coeff W curr (i*2 + 1) = Some s ∧
          coeff W' prev (i*2) =
            Some (if decide (i = label)
                  then (if cons then Int32.add s (-1) else s) else s) ∧
          coeff W' prev (i*2 + 1) =
            Some (if decide (i = label)
                  then (if cons then s else Int32.add s 1) else s)) ∧
  (∀ r c, r ≠ prev ∨ num_labels*2 ≤ c → coeff W' r c = coeff W r c).
Proof.
  intros Hne H. unfold derive_prev in H.
  eapply (pair_writer_spec curr prev 1) in H as (-> & Hc & Hrows & Hframe);
    [|done|intros ?????; by apply derive_prev_body_spec].
  split_and!; [done|done| |].
  - intros i Hi. apply Hrows. lia.
  - intros r c Hrc. apply Hframe. simpl. lia.
Qed.

Lemma winding_num_assigned_Ok (W : matrix) (p : nat) (a : bool) (l : list event) :
  winding_num_assigned W p = (Ok a, l) ↔
  ∃ row, mdata W !! p = Some row ∧ a = row_assigned row ∧ l = [].
Proof.
  unfold winding_num_assigned. rewrite bind_Ok. split.
  - intros (row & l1 & l2 & [Hr ->]%mrow_Ok & [<- ->]%ret_Ok & ->). eauto.
  - intros (row & Hr & -> & ->). exists row, [], []. by rewrite mrow_Ok.
Qed.

Lemma Int32_wrap_add_multiple (z k : Z) :
  Int32.wrap (z + k * Int32.modulus) = Int32.wrap z.
Proof.
  unfold Int32.wrap. f_equal.
  replace (z + k * Int32.modulus + Int32.half_modulus)%Z
    with (z + Int32.half_modulus + k * Int32.modulus)%Z by lia.
  apply Z_mod_plus_full.
Qed.

Lemma Int32_wrap_eq (z : Z) : ∃ k, Int32.wrap z = (z + k * Int32.modulus)%Z.
Proof.
  unfold Int32.wrap.
  exists (- ((z + Int32.half_modulus) / Int32.modulus))%Z.
  pose proof (Z_div_mod_eq_full (z + Int32.half_modulus) Int32.modulus). lia.
Qed.

Lemma Int32_wrap_in_range (z : Z) : Int32.in_range z → Int32.wrap z = z.
Proof.
  unfold Int32.in_range, Int32.wrap, Int32.min_int, Int32.max_int,
    Int32.half_modulus, Int32.modulus.
  intros H. rewrite Z.mod_small; lia.
Qed.

Lemma Int32_wrap_range (z : Z) : Int32.in_range (Int32.wrap z).
Proof.
  unfold Int32.in_range, Int32.wrap, Int32.min_int, Int32.max_int,
    Int32.half_modulus, Int32.modulus.
  pose proof (Z.mod_pos_bound (z + 2147483648) 4294967296). lia.
Qed.

Lemma Int32_sub_add_l (s d : Z) : Int32.sub (Int32.add s d) s = Int32.wrap d.
Proof.
  unfold Int32.sub, Int32.add. destruct (Int32_wrap_eq (s + d)) as [k ->].
  replace (s + d + k * Int32.modulus - s)%Z with (d + k * Int32.modulus)%Z by lia.
  apply Int32_wrap_add_multiple.
Qed.

Lemma Int32_sub_add_r (s d : Z) : Int32.sub s (Int32.add s d) = Int32.wrap (- d).
Proof.
  unfold Int32.sub, Int32.add. destruct (Int32_wrap_eq (s + d)) as [k ->].
  replace (s - (s + d + k * Int32.modulus))%Z with (- d + (- k) * Int32.modulus)%Z by lia.
  apply Int32_wrap_add_multiple.
Qed.

Lemma row_assigned_differs (W : matrix) (p q : nat) (rp rq : list Z) :
  mdata W !! p = Some rp → mdata W !! q = Some rq →
  row_assigned rp = true → row_assigned rq = false → p ≠ q.
Proof. intros Hp Hq Ha Hb ->. congruence. Qed.

(** The rule at one neighbour: a patch [curr] whose row is assigned derives
    a forward ([forward = true], through [visit_next]) or backward neighbour
    [nb] that is not assigned yet: for every label other than the label of [nb] both
    entries of [nb] become the shared value of [curr] (its front entry for
    the forward, its back entry for the backward neighbour); for the label
    of [nb] the back entry is the front entry plus one, and the entry that
    is not the shared value is the shared value minus one for a forward
    crossing with equal orientation flags, plus one with different flags,
    and the other way round for a backward crossing.  No other row changes,
    and a neighbour whose row is assigned is not written at all. *)
Lemma crossing_rule_at_neighbour (labels : list nat) (num_labels curr : nat)
    (orientation : list bool) (curr_ori : bool) (i nb : nat) (forward : bool)
    (W : matrix) (Q : list nat) (W' : matrix) (Q' : list nat) (l : list event) :
  (∃ row, mdata W !! curr = Some row ∧ row_assigned row = true) →
  (if forward then visit_next else visit_prev)
    labels num_labels curr orientation curr_ori i nb (W, Q) = (Ok (W', Q'), l) →
  ∃ row_nb, mdata W !! nb = Some row_nb ∧
    if row_assigned row_nb then W' = W ∧ Q' = Q ∧ l = []
    else ∃ nb_ori label,
      orientation !! i = Some nb_ori ∧ labels !! nb = Some label ∧
      Q' = Q ++ [nb] ∧ l = [] ∧
      (∀ r c, r ≠ nb → coeff W' r c = coeff W r c) ∧
      ∀ k, k < num_labels → ∃ shared front back,
        coeff W curr (k*2 + (if forward then 0 else 1)) = Some shared ∧
        coeff W' nb (k*2) = Some front ∧
        coeff W' nb (k*2 + 1) = Some back ∧
        if decide (k = label) then
          Int32.sub back front = 1%Z ∧
          match forward, eqb nb_ori curr_ori with
          | true, true | false, false =>
              back = shared ∧ front = Int32.add shared (-1)
          | true, false | false, true =>
              front = shared ∧ back = Int32.add shared 1
          end
        else front = shared ∧ back = shared.
Proof.
  intros (row & Hrow & Hassigned) H.
  assert (∃ row_nb, mdata W !! nb = Some row_nb ∧
            if row_assigned row_nb then W' = W ∧ Q' = Q ∧ l = []
            else ∃ nb_ori label la,
              orientation !! i = Some nb_ori ∧ labels !! nb = Some label ∧
              Q' = Q ++ [nb] ∧ l = la ∧ curr ≠ nb ∧
              (if forward then derive_next else derive_prev)
                num_labels curr nb label (negb (eqb nb_ori curr_ori)) W
              = (Ok W', la)) as (row_nb & Hnb & Hcase).
  { destruct forward; unfold visit_next, visit_prev in H;
      apply bind_Ok in H
        as (a & l1 & l2 & (row_nb & Hnb & -> & ->)%winding_num_assigned_Ok & H & ->);
      exists row_nb; (split; [done|]);
      destruct (row_assigned row_nb) eqn:Ha; simpl in H.
    1,3: by apply ret_Ok in H as [[= <- <-] ->].
    all: apply bind_Ok in H as (nb_ori & l3 & l4 & [Ho ->]%vget_Ok & H & ->);
      apply bind_Ok in H as (label & l5 & l6 & [Hl ->]%vget_Ok & H & ->);
      apply bind_Ok in H as (W1 & l7 & l8 & Hd & [[= <- <-] ->]%ret_Ok & ->);
      exists nb_ori, label, l7; rewrite app_nil_r; split_and!; try done;
      by eapply row_assigned_differs. }
  exists row_nb. split; [done|].
  destruct (row_assigned row_nb); [done|].
  destruct Hcase as (nb_ori & label & la & Ho & Hl & -> & -> & Hne & Hd).
  exists nb_ori, label. split_and!; try done.
  - destruct forward;
      [apply derive_next_spec in Hd as (-> & _)
      |apply derive_prev_spec in Hd as (-> & _)]; done.
  - intros r c Hr. destruct forward;
      [apply derive_next_spec in Hd as (_ & _ & _ & Hf)
      |apply derive_prev_spec in Hd as (_ & _ & _ & Hf)]; try done;
      apply Hf; by left.
  - intros k Hk. destruct forward.
    + apply derive_next_spec in Hd as (_ & _ & Hrows & _); [|done].
      destruct (Hrows k Hk) as (s & Hs & Hf & Hb). rewrite Nat.add_0_r.
      eexists s, _, _. split_and!; [done..|].
      destruct (decide (k = label)); [|done].
      destruct (eqb nb_ori curr_ori); simpl.
      * by rewrite Int32_sub_add_r.
      * by rewrite Int32_sub_add_l.
    + apply derive_prev_spec in Hd as (_ & _ & Hrows & _); [|done].
      destruct (Hrows k Hk) as (s & Hs & Hf & Hb).
      eexists s, _, _. split_and!; [done..|].
      destruct (decide (k = label)); [|done].
      destruct (eqb nb_ori curr_ori); simpl.
      * by rewrite Int32_sub_add_l.
      * by rewrite Int32_sub_add_r.
Qed.

(** ** The verification pass *)

Lemma assert_Ok (NDEBUG : bool) (c : M bool) (l : list event) :
  assert NDEBUG c = (Ok tt, l) ↔
  (NDEBUG = true ∧ l = []) ∨ (NDEBUG = false ∧ c = (Ok true, l)).
Proof.
  unfold assert. destruct NDEBUG.
  - rewrite ret_Ok. split; [intros [_ ->]; by left|by intros [[_ ->]|[? _]]].
  - rewrite bind_Ok. split.
    + intros ([] & l1 & l2 & Hc & H & ->); [|discriminate].
      apply ret_Ok in H as [_ ->]. rewrite app_nil_r. by right.
    + intros [[? _]|[_ ->]]; [done|]. exists true, l, [].
      by rewrite app_nil_r.
Qed.

Lemma assert_true (NDEBUG : bool) (c : M bool) :
  c = ret true → assert NDEBUG c = ret tt.
Proof. intros ->. unfold assert. destruct NDEBUG; [done|]. by rewrite bind_ret_l. Qed.

Lemma assert_NDEBUG (c : M bool) : assert true c = ret tt.
Proof. reflexivity. Qed.

Section Pass.

Variable NDEBUG : bool.
Variables (order : list nat) (orientation : list bool) (W : matrix).

Lemma consistent_at_labels_Ok (i curr next : nat) (ks : list nat) (b : bool)
    (l : list event) :
  consistent_at_labels order orientation W i curr next ks = (Ok b, l) →
  b = true ↔ ∀ k, k ∈ ks → agree order orientation W curr next k.
Proof.
  revert l. induction ks as [|k ks IH]; intros l; simpl.
  - intros [<- _]%ret_Ok. split; [|done]. intros _ k Hk. by apply elem_of_nil in Hk.
  - intros (p & l1 & l2 & [Hp ->]%vget_Ok & H & ->)%bind_Ok.
    apply bind_Ok in H as (bc & l3 & l4 & [Hbc ->]%vget_Ok & H & ->).
    apply bind_Ok in H as (a & l5 & l6 & [Ha ->]%mget_Ok & H & ->).
    apply bind_Ok in H as (q & l7 & l8 & [Hq ->]%vget_Ok & H & ->).
    apply bind_Ok in H as (bn & l9 & l10 & [Hbn ->]%vget_Ok & H & ->).
    apply bind_Ok in H as (a' & l11 & l12 & [Ha' ->]%mget_Ok & H & ->).
    destruct (decide (a ≠ a')) as [Hne|Heq].
    + injection H as <- <-.
      split; [done|]. intros Hall. exfalso.
      destruct (Hall k) as (p' & b' & q' & c' & x & ? & ? & ? & ? & Hx & Hx');
        [by left|]. simplify_eq; congruence.
    + apply dec_stable in Heq as <-. apply IH in H. rewrite H. split.
      * intros Hall k' [->|Hk']%elem_of_cons; [|by apply Hall].
        by exists p, bc, q, bn, a.
      * intros Hall k' Hk'. apply Hall. by right.
Qed.

Lemma consistent_at_positions_Ok (num_labels i : nat) (js : list nat) (b : bool)
    (l : list event) :
  consistent_at_positions order orientation W num_labels i js = (Ok b, l) →
  b = true ↔ ∀ j k, j ∈ js → k < num_labels →
               agree order orientation W j ((j + 1) mod length order) k.
Proof.
  revert l. induction js as [|j js IH]; intros l; simpl.
  - intros [<- _]%ret_Ok. split; [|done]. intros _ j k Hj. by apply elem_of_nil in Hj.
  - intros (next & l1 & l2 & (_ & -> & ->)%umod_Ok & H & ->)%bind_Ok.
    apply bind_Ok in H as (ok & l3 & l4 & Hok & H & ->).
    apply consistent_at_labels_Ok in Hok. destruct ok.
    + apply IH in H. rewrite H. destruct Hok as [Hok _]. split.
      * intros Hall j' k [->|Hj']%elem_of_cons Hk; [|by apply Hall].
        apply Hok; [done|]. apply elem_of_seq. lia.
      * intros Hall j' k Hj' Hk. apply Hall; [by right|done].
    + apply ret_Ok in H as [<- _]. split; [done|]. intros Hall.
      apply Hok. intros k [_ Hk]%elem_of_seq. apply Hall; [by left|lia].
Qed.

End Pass.

Lemma consistent_at_curves_Ok (NDEBUG : bool) (orders : list (list nat))
    (orientations : list (list bool)) (W : matrix) (num_labels : nat)
    (cs : list nat) (b : bool) (l : list event) :
  consistent_at_curves NDEBUG orders orientations W num_labels cs = (Ok b, l) →
  b = true ↔ ∀ i order orientation, i ∈ cs →
    orders !! i = Some order → orientations !! i = Some orientation →
    ∀ j k, j < length order → k < num_labels →
      agree order orientation W j ((j + 1) mod length order) k.
Proof.
  revert l. induction cs as [|i cs IH]; intros l; simpl.
  - intros [<- _]%ret_Ok. split; [|done]. intros _ i ?? Hi. by apply elem_of_nil in Hi.
  - intros (order & l1 & l2 & [Ho ->]%vget_Ok & H & ->)%bind_Ok.
    apply bind_Ok in H as (orientation & l3 & l4 & [Hor ->]%vget_Ok & H & ->).
    apply bind_Ok in H as ([] & l5 & l6 & _ & H & ->).
    apply bind_Ok in H as (ok & l7 & l8 & Hok & H & ->).
    apply consistent_at_positions_Ok in Hok. destruct ok.
    + apply IH in H. rewrite H. destruct Hok as [Hok _]. split.
      * intros Hall i' order' orientation' [->|Hi']%elem_of_cons Ho' Hor' j k Hj Hk;
          [|by eapply Hall]. simplify_eq. apply Hok; [done| |done].
        apply elem_of_seq. lia.
      * intros Hall i' order' orientation' Hi'. apply Hall. by right.
    + apply ret_Ok in H as [<- _]. split; [done|]. intros Hall.
      apply Hok. intros j k [_ Hj]%elem_of_seq Hk.
      eapply Hall; [by left|done|done|lia|done].
Qed.

(** The verification pass returns [true] exactly when the closure condition
    holds. *)
Lemma winding_number_assignment_is_consistent_Ok (NDEBUG : bool)
    (orders : list (list nat)) (orientations : list (list bool)) (W : matrix)
    (b : bool) (l : list event) :
  winding_number_assignment_is_consistent NDEBUG orders orientations W = (Ok b, l) →
  b = true ↔ closure_holds orders orientations W.
Proof.
  unfold winding_number_assignment_is_consistent. intros H.
  apply consistent_at_curves_Ok in H. rewrite H. unfold closure_holds. split.
  - intros Hall i order orientation Ho Hor j k Hj Hk.
    eapply Hall; try done. apply elem_of_seq. apply lookup_lt_Some in Ho. lia.
  - intros Hall i order orientation _ Ho Hor j k Hj Hk. by eapply Hall.
Qed.

Ltac inv_bind H :=
  let a := fresh "a" in
  let l1 := fresh "l" in
  let l2 := fresh "l" in
  let H1 := fresh "H" in
  apply bind_Ok in H as (a & l1 & l2 & H1 & H & ->).

Tactic Notation "bind_inv" hyp(H) "as" simple_intropattern(a)
    simple_intropattern(l1) simple_intropattern(H1) :=
  let l2 := fresh "l" in
  apply bind_Ok in H as (a & l1 & l2 & H1 & H & ->).

(** *** What can be thrown *)

Lemma throws_within_bind {A B} (S : string → Prop) (m : M A) (f : A → M B) :
  throws_within S m → (∀ a, throws_within S (f a)) → throws_within S (m ≫= f).
Proof.
  intros Hm Hf msg. rewrite bind_unfold. unfold bind.
  destruct m as [[a| | | |] l1]; simpl; try discriminate.
  - specialize (Hf a msg). destruct (f a) as [o l2]. exact Hf.
  - intros [= <-]. by apply Hm.
Qed.

Lemma throws_within_mono {A} (S T : string → Prop) (m : M A) :
  (∀ msg, S msg → T msg) → throws_within S m → throws_within T m.
Proof. intros HST Hm msg H. by apply HST, Hm. Qed.

Lemma throws_within_ret {A} (S : string → Prop) (a : A) : throws_within S (ret a).
Proof. intros msg. discriminate. Qed.

Lemma throws_within_emit (S : string → Prop) (e : event) : throws_within S (emit e).
Proof. intros msg. discriminate. Qed.

Lemma throws_within_undefined {A} (S : string → Prop) :
  throws_within S (@undefined A).
Proof. intros msg. discriminate. Qed.

Lemma throws_within_abort {A} (S : string → Prop) : throws_within S (@abort A).
Proof. intros msg. discriminate. Qed.

Lemma throws_within_diverge {A} (S : string → Prop) : throws_within S (@diverge A).
Proof. intros msg. discriminate. Qed.

Lemma throws_within_throw {A} (S : string → Prop) (msg : string) :
  S msg → throws_within S (@throw A msg).
Proof. intros H msg'. by intros [= <-]. Qed.

Lemma throws_within_vget {A} (S : string → Prop) (v : list A) (i : nat) :
  throws_within S (vget v i).
Proof. unfold vget. destruct (v !! i); intros msg; discriminate. Qed.

Lemma throws_within_vset {A} (S : string → Prop) (v : list A) (i : nat) (x : A) :
  throws_within S (vset v i x).
Proof. unfold vset. case_decide; intros msg; discriminate. Qed.

Lemma throws_within_umod (S : string → Prop) (a b : nat) : throws_within S (umod a b).
Proof. unfold umod. case_decide; intros msg; discriminate. Qed.

Lemma throws_within_to_index (S : string → Prop) (z : Z) :
  throws_within S (to_index z).
Proof. unfold to_index. case_decide; intros msg; discriminate. Qed.

Lemma throws_within_maxCoeff (S : string → Prop) (v : list nat) :
  throws_within S (maxCoeff v).
Proof. destruct v; intros msg; discriminate. Qed.

Lemma throws_within_minCoeff (S : string → Prop) (v : list nat) :
  throws_within S (minCoeff v).
Proof. destruct v; intros msg; discriminate. Qed.

Lemma throws_within_mrow (S : string → Prop) (W : matrix) (r : nat) :
  throws_within S (mrow W r).
Proof. apply throws_within_vget. Qed.

Lemma throws_within_mget (S : string → Prop) (W : matrix) (r c : nat) :
  throws_within S (mget W r c).
Proof.
  apply throws_within_bind; [apply throws_within_mrow|].
  intros row. apply throws_within_vget.
Qed.

Lemma throws_within_mset (S : string → Prop) (W : matrix) (r c : nat) (v : Z) :
  throws_within S (mset W r c v).
Proof.
  apply throws_within_bind; [apply throws_within_mrow|]. intros row.
  apply throws_within_bind; [apply throws_within_vset|]. intros row'.
  apply throws_within_ret.
Qed.

Lemma throws_within_mset_row (S : string → Prop) (W : matrix) (r : nat)
    (row : list Z) :
  throws_within S (mset_row W r row).
Proof.
  apply throws_within_bind; [apply throws_within_mrow|]. intros old.
  case_decide; [apply throws_within_ret|apply throws_within_undefined].
Qed.

Lemma throws_within_assert (S : string → Prop) (NDEBUG : bool) (c : M bool) :
  throws_within S c → throws_within S (assert NDEBUG c).
Proof.
  intros Hc. unfold assert. destruct NDEBUG; [apply throws_within_ret|].
  apply throws_within_bind; [done|].
  intros []; [apply throws_within_ret|apply throws_within_abort].
Qed.

Lemma throws_within_foldM {A St} (S : string → Prop) (body : St → A → M St)
    (l : list A) (s : St) :
  (∀ s x, throws_within S (body s x)) → throws_within S (foldM body l s).
Proof.
  intros Hb. revert s. induction l as [|x l IH]; intros s; simpl.
  - apply throws_within_ret.
  - apply throws_within_bind; [apply Hb|apply IH].
Qed.

Lemma throws_within_forM {A B} (S : string → Prop) (l : list A) (body : A → M B) :
  (∀ x, throws_within S (body x)) → throws_within S (forM l body).
Proof.
  intros Hb. induction l as [|x l IH]; simpl.
  - apply throws_within_ret.
  - apply throws_within_bind; [apply Hb|]. intros y.
    apply throws_within_bind; [apply IH|]. intros ys. apply throws_within_ret.
Qed.

Create HintDb throws.

(** Steps through a computation built from the primitives above. *)
Ltac throws_step :=
  first
    [ solve [auto with throws nocore]
    | apply throws_within_ret | apply throws_within_emit
    | apply throws_within_undefined | apply throws_within_abort
    | apply throws_within_diverge
    | apply throws_within_vget | apply throws_within_vset
    | apply throws_within_umod | apply throws_within_to_index
    | apply throws_within_maxCoeff | apply throws_within_minCoeff
    | apply throws_within_mrow | apply throws_within_mget
    | apply throws_within_mset | apply throws_within_mset_row
    | apply throws_within_assert
    | apply throws_within_foldM; intros
    | apply throws_within_forM; intros
    | apply throws_within_bind; [|intros] ].

Ltac throws_auto :=
  repeat first
    [ throws_step
    | match goal with
      | |- throws_within _ (match ?x with _ => _ end) => destruct x
      | |- throws_within _ (from_option _ _ ?x) => destruct x; simpl
      | |- throws_within _ ?m =>
          match m with
          | context [match ?x with _ => _ end] => is_var x; destruct x
          end; cbn beta iota
      end ].

Lemma winding_number_assignment_is_consistent_no_throw (NDEBUG : bool)
    (orders : list (list nat)) (orientations : list (list bool)) (W : matrix) :
  throws_within (fun _ => False)
    (winding_number_assignment_is_consistent NDEBUG orders orientations W).
Proof.
  unfold winding_number_assignment_is_consistent.
  generalize (mcols W / 2) as num_labels. intros num_labels.
  generalize (seq 0 (length orders)) as cs.
  assert (∀ order orientation i curr next ks,
            throws_within (fun _ => False)
              (consistent_at_labels order orientation W i curr next ks)) as Hl.
  { intros order orientation i curr next ks.
    induction ks as [|k ks IH]; simpl; [throws_auto|].
    do 6 (apply throws_within_bind; [throws_auto|intros]).
    case_decide; [throws_auto|done]. }
  assert (∀ order orientation i js,
            throws_within (fun _ => False)
              (consistent_at_positions order orientation W num_labels i js)) as Hp.
  { intros order orientation i js.
    induction js as [|j js IH]; simpl; [throws_auto|].
    apply throws_within_bind; [throws_auto|intros].
    apply throws_within_bind; [apply Hl|intros []]; [done|throws_auto]. }
  intros cs. induction cs as [|i cs IH]; simpl; [throws_auto|].
  do 3 (apply throws_within_bind; [throws_auto|intros]).
  apply throws_within_bind; [apply Hp|intros []]; [done|throws_auto].
Qed.

(** *** The pass returns *)

Lemma consistent_at_labels_total (order : list nat) (orientation : list bool)
    (W : matrix) (i curr next : nat) (ks : list nat) (p q : nat) (bc bn : bool)
    (rp rq : list Z) :
  order !! curr = Some p → orientation !! curr = Some bc →
  order !! next = Some q → orientation !! next = Some bn →
  mdata W !! p = Some rp → mdata W !! q = Some rq →
  (∀ k, k ∈ ks → k*2 + 1 < length rp ∧ k*2 + 1 < length rq) →
  ∃ b l, consistent_at_labels order orientation W i curr next ks = (Ok b, l).
Proof.
  intros Hp Hbc Hq Hbn Hrp Hrq. induction ks as [|k ks IH]; intros Hks; simpl.
  - by eexists _, _.
  - destruct (Hks k) as [Hkp Hkq]; [by left|].
    destruct (lookup_lt_is_Some_2 rp (k*2 + (if bc then 0 else 1))) as [a Ha];
      [destruct bc; lia|].
    destruct (lookup_lt_is_Some_2 rq (k*2 + (if bn then 1 else 0))) as [a' Ha'];
      [destruct bn; lia|].
    rewrite (vget_Some _ _ _ Hp), bind_ret_l, (vget_Some _ _ _ Hbc), bind_ret_l.
    rewrite (mget_coeff W p _ a), bind_ret_l by (unfold coeff; by rewrite Hrp).
    rewrite (vget_Some _ _ _ Hq), bind_ret_l, (vget_Some _ _ _ Hbn), bind_ret_l.
    rewrite (mget_coeff W q _ a'), bind_ret_l by (unfold coeff; by rewrite Hrq).
    case_decide; [by eexists _, _|]. apply IH. intros k' Hk'. apply Hks. by right.
Qed.

Lemma consistent_at_positions_total (order : list nat) (orientation : list bool)
    (W : matrix) (num_labels i : nat) (js : list nat) :
  length orientation = length order →
  (∀ p, p ∈ order → ∃ row, mdata W !! p = Some row ∧ num_labels*2 ≤ length row) →
  (∀ j, j ∈ js → j < length order) →
  ∃ b l, consistent_at_positions order orientation W num_labels i js = (Ok b, l).
Proof.
  intros Hlen Hrows. induction js as [|j js IH]; intros Hjs; simpl.
  - by eexists _, _.
  - assert (j < length order) as Hj by (apply Hjs; by left).
    assert ((j + 1) mod length order < length order) as Hn
      by (apply Nat.mod_upper_bound; lia).
    destruct (lookup_lt_is_Some_2 order j Hj) as [p Hp].
    destruct (lookup_lt_is_Some_2 order _ Hn) as [q Hq].
    destruct (lookup_lt_is_Some_2 orientation j) as [bc Hbc]; [lia|].
    destruct (lookup_lt_is_Some_2 orientation ((j + 1) mod length order))
      as [bn Hbn]; [lia|].
    destruct (Hrows p) as (rp & Hrp & Hlp); [by eapply list_elem_of_lookup_2|].
    destruct (Hrows q) as (rq & Hrq & Hlq); [by eapply list_elem_of_lookup_2|].
    unfold umod. rewrite decide_False by lia. rewrite bind_ret_l.
    destruct (consistent_at_labels_total order orientation W i j
                ((j + 1) mod length order) (seq 0 num_labels) p q bc bn rp rq)
      as (b & l & Hb); try done.
    { intros k [_ Hk]%elem_of_seq. lia. }
    destruct b.
    + destruct IH as (b' & l' & Hb'); [intros j' Hj'; apply Hjs; by right|].
      exists b', (l ++ l'). apply bind_Ok. by exists true, l, l'.
    + exists false, (l ++ []). apply bind_Ok. by exists false, l, [].
Qed.

Lemma consistent_at_curves_total (NDEBUG : bool) (orders : list (list nat))
    (orientations : list (list bool)) (W : matrix) (num_labels : nat)
    (cs : list nat) :
  num_labels = mcols W / 2 →
  pass_in_range orders orientations W →
  (∀ i, i ∈ cs → i < length orders) →
  ∃ b l, consistent_at_curves NDEBUG orders orientations W num_labels cs = (Ok b, l).
Proof.
  intros Hnl Hin. induction cs as [|i cs IH]; intros Hcs; simpl.
  - by eexists _, _.
  - destruct (lookup_lt_is_Some_2 orders i) as [order Ho]; [apply Hcs; by left|].
    destruct (Hin i order Ho) as (orientation & Hor & Hlen & Hrows).
    rewrite (vget_Some _ _ _ Ho), bind_ret_l, (vget_Some _ _ _ Hor), bind_ret_l.
    rewrite assert_true, bind_ret_l by (by rewrite bool_decide_eq_true_2).
    destruct (consistent_at_positions_total order orientation W num_labels i
                (seq 0 (length order))) as (b & l & Hb); [done| |..].
    { intros p Hp. destruct (Hrows p Hp) as (row & Hrow & Hl).
      exists row. split; [done|]. rewrite Hl, Hnl.
      pose proof (Nat.div_mod_eq (mcols W) 2). lia. }
    { intros j [_ Hj]%elem_of_seq. lia. }
    destruct b.
    + destruct IH as (b' & l' & Hb'); [intros i' Hi'; apply Hcs; by right|].
      exists b', (l ++ l'). apply bind_Ok. by exists true, l, l'.
    + exists false, (l ++ []). apply bind_Ok. by exists false, l, [].
Qed.

Lemma winding_number_assignment_is_consistent_total (NDEBUG : bool)
    (orders : list (list nat)) (orientations : list (list bool)) (W : matrix) :
  pass_in_range orders orientations W →
  ∃ b l, winding_number_assignment_is_consistent NDEBUG orders orientations W
         = (Ok b, l).
Proof.
  intros Hin. apply consistent_at_curves_total; [done|done|].
  intros i [_ Hi]%elem_of_seq. lia.
Qed.

Lemma row_assigned_seed (n c : nat) (v : Z) :
  v ≠ INVALID → row_assigned (<[c := v]> (replicate n 0%Z)) = true.
Proof.
  intros Hv. unfold row_assigned. apply forallb_forall. intros x Hx.
  apply list_elem_of_In, list_elem_of_lookup in Hx as [i Hi].
  destruct (decide (i = c)) as [->|Hne].
  - rewrite list_lookup_insert_eq in Hi.
    + injection Hi as <-. apply negb_true_iff, Z.eqb_neq. done.
    + apply lookup_lt_Some in Hi. by rewrite length_insert in Hi.
  - rewrite list_lookup_insert_ne in Hi by done.
    apply lookup_replicate in Hi as [-> _]. done.
Qed.

Lemma seed_patch_W_data (num_patches num_labels p lab : nat) (flipped : bool)
    (W : matrix) (l : list event) :
  seed_patch_W num_patches num_labels p lab flipped = (Ok W, l) →
  mdata W =
    <[p := <[(if flipped then lab * 2 else lab * 2 + 1) :=
               (if flipped then -1 else 1)%Z]> (replicate (2 * num_labels) 0%Z)]>
      (replicate num_patches (replicate (2 * num_labels) INVALID)).
Proof.
  unfold seed_patch_W. intros H. inv_bind H.
  apply mset_row_Ok in H0 as (old & Hold & _ & -> & ->).
  assert (p < length (replicate num_patches (replicate (2 * num_labels) INVALID)))
    as Hp by (by eapply lookup_lt_Some).
  destruct flipped; apply mset_Ok in H as (row & Hrow & _ & -> & _);
    simpl in *; rewrite list_lookup_insert_eq in Hrow by done;
    injection Hrow as <-; by rewrite list_insert_insert_eq.
Qed.

Section PatchWiseFlag.

Context {Scalar : Type} (ext : Collaborators Scalar).
Variables (NDEBUG : bool) (fuel : nat).
Variables (V : list (Scalar * Scalar * Scalar)) (F : list face).
Variables (uE : list edge) (uE2E : list (list nat)).
Variables (labels P : list nat) (intersection_curves : list (list nat)).

(** C4: the verification pass returns, without throwing, [true] exactly
    when the closure condition holds for every curve, every pair of
    consecutive positions and every label; the patch-wise propagator returns
    the flag of the pass on the orders it built and the table it filled;
    without intersection curves the flag is [true]. *)
Theorem consistency_flag :
  (∀ orders orientations W, pass_in_range orders orientations W →
     ∃ b l, winding_number_assignment_is_consistent NDEBUG orders orientations W
              = (Ok b, l) ∧
            (b = true ↔ closure_holds orders orientations W)) ∧
  (∀ orders orientations W msg,
     outcome_of (winding_number_assignment_is_consistent NDEBUG orders orientations W)
     ≠ Throw msg) ∧
  (∀ b W l,
     propagate_winding_numbers_single_component_patch_wise ext NDEBUG fuel
       V F uE uE2E labels P intersection_curves = (Ok (b, W), l) →
     ∃ max_patch orders orientations pca l0,
       maxCoeff P = ret max_patch ∧
       order_curves ext NDEBUG V F uE uE2E P intersection_curves (max_patch + 1)
         = (Ok (orders, orientations, pca), l0) ∧
       (b = true ↔ closure_holds orders orientations W) ∧
       (intersection_curves = [] → b = true)) ∧
  (∀ max_patch max_label p lab,
     intersection_curves = [] →
     maxCoeff P = ret max_patch → maxCoeff labels = ret max_label →
     P !! (outer_facet ext V F (seq 0 (length F))).1 = Some p →
     labels !! p = Some lab →
     2 ≤ fuel →
     NDEBUG = true ∨ (max_patch = 0 ∧ length labels = 1) →
     ∃ W, propagate_winding_numbers_single_component_patch_wise ext NDEBUG fuel
            V F uE uE2E labels P intersection_curves
          = (Ok (true, W), [Call "outer_facet"])).
Proof.
  split_and!.
  - intros orders orientations W Hin.
    destruct (winding_number_assignment_is_consistent_total NDEBUG _ _ _ Hin)
      as (b & l & Hb).
    exists b, l. split; [done|].
    by eapply winding_number_assignment_is_consistent_Ok.
  - intros orders orientations W msg Hmsg.
    by eapply winding_number_assignment_is_consistent_no_throw.
  - intros b W l H.
    unfold propagate_winding_numbers_single_component_patch_wise in H.
    inv_bind H. apply maxCoeff_Ok in H0 as Hmax. destruct Hmax as (-> & _).
    inv_bind H. inv_bind H. destruct a1 as [[orders orientations] pca].
    inv_bind H. inv_bind H.
    destruct (outer_facet ext V F (seq 0 (num_faces F))) as [idx flipped].
    do 6 inv_bind H. apply ret_Ok in H as [[= <- <-] ->].
    exists a, orders, orientations, pca, l1. split; [done|]. split; [done|].
    pose proof (winding_number_assignment_is_consistent_Ok _ _ _ _ _ _ H10) as Hiff.
    split; [done|]. intros ->. apply Hiff.
    unfold order_curves in H2. simpl in H2. apply ret_Ok in H2 as [[= <- <- <-] _].
    intros i order orientation Hi. by rewrite lookup_nil in Hi.
  - intros max_patch max_label p lab -> HP Hl Hp Hlab Hfuel Hdbg.
    unfold propagate_winding_numbers_single_component_patch_wise.
    destruct (seed_patch_W_spec ext V F labels P max_patch max_label p lab)
      as (W0 & HW0 & Hrows & Hcols & Hown & Hother); try done.
    rewrite HP, bind_ret_l.
    assert (assert NDEBUG (ret (bool_decide (length labels = max_patch + 1)))
            = ret tt) as ->.
    { destruct Hdbg as [->|[-> Hlen]]; [done|].
      apply assert_true. by rewrite bool_decide_eq_true_2. }
    rewrite bind_ret_l. unfold order_curves. simpl foldM. rewrite bind_ret_l.
    rewrite Hl, bind_ret_l. exists W0. apply emit_bind_eq.
    unfold num_faces.
    destruct (outer_facet ext V F (seq 0 (length F))) as [idx flipped].
    simpl in Hp, HW0, Hown.
    rewrite (vget_Some _ _ _ Hp), bind_ret_l, (vget_Some _ _ _ Hlab), bind_ret_l.
    rewrite (bind_Ok_nil _ _ _ HW0).
    destruct fuel as [|[|n]]; [lia..|]. cbn [patch_bfs].
    rewrite (vget_Some _ _ _ Hlab), bind_ret_l.
    assert (p < max_patch + 1) as Hpn.
    { apply maxCoeff_Ok in HP as (_ & HP & _). specialize (HP _ _ Hp). lia. }
    rewrite (vget_Some (replicate (max_patch + 1) []) p [])
      by (by apply lookup_replicate_2).
    rewrite bind_ret_l, foldM_nil, bind_ret_l. cbn beta iota. rewrite ?bind_ret_l.
    assert (assert NDEBUG (ret (all_assigned W0)) = ret tt) as ->.
    { destruct Hdbg as [->|[-> Hlen]]; [done|].
      apply assert_true. f_equal.
      assert (p = 0) as -> by lia.
      apply seed_patch_W_data in HW0. unfold all_assigned. rewrite HW0. simpl.
      rewrite andb_true_r. apply row_assigned_seed. by destruct flipped. }
    by rewrite bind_ret_l.
Qed.

End PatchWiseFlag.

(** ** Exceptions of the propagation *)

Section Exceptions.

Context {Scalar : Type} (ext : Collaborators Scalar).
Variables (NDEBUG : bool) (fuel : nat).

Let edge_exception (msg : string) : Prop :=
  msg = "Edge does not belong to face."%string.

Lemma order_curves_throws (V : list (Scalar * Scalar * Scalar)) (F : list face)
    (uE : list edge) (uE2E : list (list nat)) (P : list nat)
    (curves : list (list nat)) (num_patches : nat) :
  throws_within edge_exception
    (order_curves ext NDEBUG V F uE uE2E P curves num_patches).
Proof.
  unfold order_curves, order_curve, compute_signed_index,
    is_positively_orientated, edge_index_to_face_index, compute_unsigned_index.
  throws_auto. by apply throws_within_throw.
Qed.

#[local] Hint Resolve order_curves_throws : throws.

Lemma derive_next_throws (num_labels curr nb label : nat) (cons : bool)
    (W : matrix) (S : string → Prop) :
  throws_within S (derive_next num_labels curr nb label cons W).
Proof. unfold derive_next. throws_auto. Qed.

#[local] Hint Resolve derive_next_throws : throws.

Lemma derive_prev_throws (num_labels curr nb label : nat) (cons : bool)
    (W : matrix) (S : string → Prop) :
  throws_within S (derive_prev num_labels curr nb label cons W).
Proof. unfold derive_prev. throws_auto. Qed.

#[local] Hint Resolve derive_prev_throws : throws.

Lemma visit_curve_throws (labels : list nat) (orders : list (list nat))
    (orientations : list (list bool)) (num_labels curr : nat)
    (st : matrix * list nat) (curve_idx : nat) (S : string → Prop) :
  throws_within S
    (visit_curve NDEBUG labels orders orientations num_labels curr st curve_idx).
Proof.
  unfold visit_curve, visit_next, visit_prev, winding_num_assigned.
  throws_auto.
Qed.

#[local] Hint Resolve visit_curve_throws : throws.

Lemma patch_bfs_throws (labels : list nat) (orders : list (list nat))
    (orientations : list (list bool)) (pca : list (list nat)) (num_labels n : nat)
    (st : matrix * list nat) (S : string → Prop) :
  throws_within S (patch_bfs NDEBUG labels orders orientations pca num_labels n st).
Proof.
  revert st. induction n as [|n IH]; intros [W [|curr Q]]; simpl; throws_auto.
Qed.

#[local] Hint Resolve patch_bfs_throws : throws.

Lemma patch_wise_throws (V : list (Scalar * Scalar * Scalar)) (F : list face)
    (uE : list edge) (uE2E : list (list nat)) (labels P : list nat)
    (curves : list (list nat)) :
  throws_within edge_exception
    (propagate_winding_numbers_single_component_patch_wise ext NDEBUG fuel
       V F uE uE2E labels P curves).
Proof.
  unfold propagate_winding_numbers_single_component_patch_wise, seed_patch_W.
  throws_auto.
  eapply throws_within_mono;
    [|apply winding_number_assignment_is_consistent_no_throw]. done.
Qed.

#[local] Hint Resolve patch_wise_throws : throws.

Lemma single_component_throws (V : list (Scalar * Scalar * Scalar))
    (F : list face) (labels : list nat) :
  throws_within edge_exception
    (propagate_winding_numbers_single_component ext NDEBUG fuel V F labels).
Proof.
  unfold propagate_winding_numbers_single_component, patch_labels_of,
    expand_to_faces.
  throws_auto.
Qed.

Lemma single_component_throws_propagation (V : list (Scalar * Scalar * Scalar))
    (F : list face) (labels : list nat) :
  throws_within propagation_exception
    (propagate_winding_numbers_single_component ext NDEBUG fuel V F labels).
Proof. eapply throws_within_mono; [|apply single_component_throws]. by right. Qed.

#[local] Hint Resolve single_component_throws_propagation : throws.

Lemma correct_nesting_throws (V : list (Scalar * Scalar * Scalar)) (W : matrix)
    (num_labels num_components : nat) (components : list (list nat))
    (comp_faces : list (list face)) (S : string → Prop) :
  throws_within S
    (correct_nesting ext V W num_labels num_components components comp_faces).
Proof.
  unfold correct_nesting, ambient_corrections, apply_corrections,
    accumulate_from_component, accumulate_pair, sample_component, madd_at, madd_row.
  throws_auto.
Qed.

#[local] Hint Resolve correct_nesting_throws : throws.

Lemma propagate_winding_numbers_throws (V : list (Scalar * Scalar * Scalar))
    (F : list face) (labels : list nat) :
  throws_within propagation_exception
    (propagate_winding_numbers ext NDEBUG fuel V F labels).
Proof.
  unfold propagate_winding_numbers, check_edge_degrees, gather_components,
    component_faces_and_labels, propagate_component, mset_block, mcol.
  throws_auto. apply throws_within_throw. by left.
Qed.

End Exceptions.

(** ** The check of the edge degrees *)

Lemma check_edge_degrees_odd (uE2E : list (list nat)) :
  (∃ adj, adj ∈ uE2E ∧ length adj mod 2 = 1) →
  check_edge_degrees uE2E = throw odd_edge_message.
Proof.
  unfold check_edge_degrees. intros (adj & Hadj & Hodd).
  induction uE2E as [|x uE2E IH]; [by apply elem_of_nil in Hadj|].
  simpl. case_decide as Hx; [done|]. rewrite bind_ret_l.
  apply IH. apply elem_of_cons in Hadj as [->|?]; [contradiction|done].
Qed.

Lemma check_edge_degrees_even (uE2E : list (list nat)) :
  (∀ adj, adj ∈ uE2E → length adj mod 2 = 0) →
  check_edge_degrees uE2E = ret tt.
Proof.
  unfold check_edge_degrees. induction uE2E as [|x uE2E IH]; intros Hall; [done|].
  rewrite foldM_cons. rewrite decide_False by (rewrite (Hall x); [lia|by left]).
  rewrite bind_ret_l. apply IH. intros adj Hadj. apply Hall. by right.
Qed.

Lemma odd_edge_message_not_edge :
  odd_edge_message ≠ "Edge does not belong to face."%string.
Proof. discriminate. Qed.

Section EdgeDegrees.

Context {Scalar : Type} (ext : Collaborators Scalar).
Variables (NDEBUG : bool) (fuel : nat).
Variables (V : list (Scalar * Scalar * Scalar)) (F : list face) (labels : list nat).

Lemma check_edge_degrees_throws (S : string → Prop) (uE2E : list (list nat)) :
  ((∃ adj, adj ∈ uE2E ∧ length adj mod 2 = 1) → S odd_edge_message) →
  throws_within S (check_edge_degrees uE2E).
Proof.
  unfold check_edge_degrees. induction uE2E as [|x uE2E IH]; intros HS; simpl.
  - throws_auto.
  - case_decide as Hx.
    + apply throws_within_throw. apply HS. exists x. split; [by left|done].
    + rewrite bind_ret_l. apply IH. intros (adj & Hadj & Hodd). apply HS.
      exists adj. split; [by right|done].
Qed.

Lemma propagate_winding_numbers_throws_cases (S : string → Prop) :
  ((∃ adj, adj ∈ (unique_edge_map ext F).2 ∧ length adj mod 2 = 1) →
     S odd_edge_message) →
  S "Edge does not belong to face."%string →
  throws_within S (propagate_winding_numbers ext NDEBUG fuel V F labels).
Proof.
  intros Hodd Hedge.
  assert (∀ V F labels, throws_within S
            (propagate_winding_numbers_single_component ext NDEBUG fuel V F labels))
    as Hsingle.
  { intros V' F' labels'. eapply throws_within_mono;
      [|apply single_component_throws]. by intros msg ->. }
  unfold propagate_winding_numbers.
  apply throws_within_bind; [throws_step|intros _].
  revert Hodd. destruct (unique_edge_map ext F) as [[[E uE] EMAP] uE2E].
  intros Hodd. simpl in Hodd. cbn beta iota.
  apply throws_within_bind; [by apply check_edge_degrees_throws|intros _].
  pose proof (correct_nesting_throws ext) as Hnest.
  unfold gather_components, component_faces_and_labels, propagate_component,
    mset_block, mcol.
  throws_auto.
Qed.

(** C3: when some undirected edge has an odd number of half-edges,
    [propagate_winding_numbers] throws right after the call of
    [unique_edge_map], before the components are extracted and before any
    propagation; when every edge has an even number of half-edges the check
    passes and the function does not throw that error. *)
Theorem odd_degree_is_rejected_first :
  let uE2E := (unique_edge_map ext F).2 in
  ((∃ adj, adj ∈ uE2E ∧ length adj mod 2 = 1) →
     propagate_winding_numbers ext NDEBUG fuel V F labels
     = (Throw odd_edge_message, [Call "unique_edge_map"])) ∧
  ((∀ adj, adj ∈ uE2E → length adj mod 2 = 0) →
     check_edge_degrees uE2E = ret tt ∧
     outcome_of (propagate_winding_numbers ext NDEBUG fuel V F labels)
     ≠ Throw odd_edge_message).
Proof.
  intros uE2E. split.
  - intros Hodd. unfold propagate_winding_numbers. apply emit_bind_eq.
    subst uE2E. destruct (unique_edge_map ext F) as [[[E uE] EMAP] uE2E].
    simpl in Hodd. by rewrite (check_edge_degrees_odd _ Hodd).
  - intros Heven. split; [by apply check_edge_degrees_even|].
    intros Hthrow.
    apply (propagate_winding_numbers_throws_cases
             (fun msg => msg = odd_edge_message →
                ∃ adj, adj ∈ uE2E ∧ length adj mod 2 = 1)) in Hthrow.
    + destruct Hthrow as (adj & Hadj & Hodd); [done|].
      rewrite (Heven adj Hadj) in Hodd. discriminate.
    + done.
    + intros Heq. by destruct odd_edge_message_not_edge.
Qed.

End EdgeDegrees.

(** ** The result of [propagate_winding_numbers] *)

Lemma foldM_invariant {A St} (I : St → Prop) (body : St → A → M St)
    (xs : list A) (s s' : St) (l : list event) :
  (∀ s x s' l, body s x = (Ok s', l) → I s → I s') →
  foldM body xs s = (Ok s', l) → I s → I s'.
Proof.
  intros Hbody. revert s l. induction xs as [|x xs IH]; intros s l; simpl.
  - by intros [<- _]%ret_Ok.
  - intros H Hs. inv_bind H. eapply IH; [done|]. by eapply Hbody.
Qed.

Lemma foldM_silent {A St} (body : St → A → M St) (xs : list A) (s s' : St)
    (l : list event) :
  (∀ s x s' l, body s x = (Ok s', l) → l = []) →
  foldM body xs s = (Ok s', l) → l = [].
Proof.
  intros Hbody. revert s l. induction xs as [|x xs IH]; intros s l; simpl.
  - by intros [_ ->]%ret_Ok.
  - intros H. inv_bind H. apply Hbody in H0 as ->. by apply IH in H as ->.
Qed.

Lemma forM_silent {A B} (body : A → M B) (xs : list A) (ys : list B)
    (l : list event) :
  (∀ x y l, body x = (Ok y, l) → l = []) →
  forM xs body = (Ok ys, l) → l = [].
Proof.
  intros Hbody. revert ys l. induction xs as [|x xs IH]; intros ys l; simpl.
  - by intros [_ ->]%ret_Ok.
  - intros H. bind_inv H as y ? Hy. apply Hbody in Hy as ->.
    bind_inv H as ys' ? Hys. apply IH in Hys as ->.
    by apply ret_Ok in H as [_ ->].
Qed.

Lemma has_shape_mconst (r c : nat) (v : Z) : has_shape (mconst r c v) r c.
Proof.
  split_and!; [done|by apply length_replicate|].
  intros i row [-> _]%lookup_replicate. apply length_replicate.
Qed.

Lemma has_shape_insert (W : matrix) (r c i : nat) (row : list Z) :
  has_shape W r c → length row = c →
  has_shape (Matrix (mcols W) (<[i := row]> (mdata W))) r c.
Proof.
  intros (Hc & Hr & Hrows) Hlen. split_and!; [done| |].
  - unfold mrows in *. simpl. by rewrite length_insert.
  - simpl. intros j row' Hj. destruct (decide (j = i)) as [->|Hne].
    + apply list_lookup_insert_Some in Hj as [(_ & <- & _)|[? _]]; done.
    + rewrite list_lookup_insert_ne in Hj by done. by eapply Hrows.
Qed.

Lemma mset_block_Ok (W : matrix) (fid width : nat) (row : list Z) (W' : matrix)
    (l : list event) :
  mset_block W fid width row = (Ok W', l) →
  ∃ old, mdata W !! fid = Some old ∧ length row = width ∧ width ≤ length old ∧
         W' = Matrix (mcols W) (<[fid := row ++ drop width old]> (mdata W)) ∧
         l = [].
Proof.
  unfold mset_block. intros H. inv_bind H. apply mrow_Ok in H0 as [Hold ->].
  case_decide as Hw; [|discriminate]. apply ret_Ok in H as [<- ->].
  exists a. by destruct Hw.
Qed.

Lemma has_shape_mset_block (W : matrix) (fid width : nat) (row : list Z)
    (W' : matrix) (l : list event) (r c : nat) :
  mset_block W fid width row = (Ok W', l) → has_shape W r c → has_shape W' r c.
Proof.
  intros (old & Hold & Hrow & Hw & -> & _)%mset_block_Ok Hs.
  apply has_shape_insert; [done|]. destruct Hs as (_ & _ & Hrows).
  rewrite length_app, length_drop, Hrow, <- (Hrows _ _ Hold). lia.
Qed.

Lemma madd_row_Ok (W : matrix) (fid : nat) (correction : list Z) (W' : matrix)
    (l : list event) :
  madd_row W fid correction = (Ok W', l) →
  ∃ old, mdata W !! fid = Some old ∧ length correction = length old ∧
         W' = Matrix (mcols W) (<[fid := zip_with Int32.add old correction]> (mdata W)) ∧
         l = [].
Proof.
  unfold madd_row. intros H. inv_bind H. apply mrow_Ok in H0 as [Hold ->].
  case_decide as Hw; [|discriminate].
  apply mset_row_Ok in H as (old & Hold' & _ & -> & ->). simplify_eq. eauto.
Qed.

Lemma has_shape_madd_row (W : matrix) (fid : nat) (correction : list Z)
    (W' : matrix) (l : list event) (r c : nat) :
  madd_row W fid correction = (Ok W', l) → has_shape W r c → has_shape W' r c.
Proof.
  intros (old & Hold & Hlen & -> & _)%madd_row_Ok Hs.
  apply has_shape_insert; [done|]. destruct Hs as (_ & _ & Hrows).
  rewrite length_zip_with, Hlen, (Hrows _ _ Hold). lia.
Qed.

Lemma has_shape_apply_corrections (components : list (list nat))
    (num_components : nat) (ambient W W' : matrix) (l : list event) (r c : nat) :
  apply_corrections components num_components ambient W = (Ok W', l) →
  has_shape W r c → has_shape W' r c ∧ l = [].
Proof.
  unfold apply_corrections. intros H Hs. split.
  - eapply (foldM_invariant (fun W => has_shape W r c)); [|exact H|done].
    clear. intros W i W' l H HW. do 2 inv_bind H.
    eapply (foldM_invariant (fun W => has_shape W r c)); [|exact H|done].
    intros ????. apply has_shape_madd_row.
  - eapply foldM_silent; [|exact H]. clear. intros W i W' l H.
    inv_bind H. apply vget_Ok in H0 as [_ ->]. inv_bind H.
    apply mrow_Ok in H0 as [_ ->]. simpl.
    eapply foldM_silent; [|exact H]. intros ???? (? & _ & _ & _ & ->)%madd_row_Ok.
    done.
Qed.

Section EntryPoint.

Context {Scalar : Type} (ext : Collaborators Scalar).
Variables (NDEBUG : bool) (fuel : nat).

Lemma propagate_component_Ok (V : list (Scalar * Scalar * Scalar))
    (components : list (list nat)) (comp_faces : list (list face))
    (comp_labels : list (list nat)) (W : matrix) (Ws : list matrix) (i : nat)
    (W' : matrix) (Ws' : list matrix) (l : list event) :
  propagate_component ext NDEBUG fuel V components comp_faces comp_labels
    (W, Ws) i = (Ok (W', Ws'), l) →
  ∃ faces_i labels_i is_consistent Ws_i l0 comp max_label,
    comp_faces !! i = Some faces_i ∧ comp_labels !! i = Some labels_i ∧
    propagate_winding_numbers_single_component ext NDEBUG fuel V faces_i labels_i
      = (Ok (is_consistent, Ws_i), l0) ∧
    components !! i = Some comp ∧ maxCoeff labels_i = ret max_label ∧
    foldM (fun W j =>
             fid ← vget comp j;
             row ← mrow Ws_i j;
             mset_block W fid ((max_label + 1) * 2) row)
          (seq 0 (length faces_i)) W = (Ok W', []) ∧
    Ws' = Ws ++ [Ws_i] ∧
    if is_consistent then l = l0
    else ∃ col, mcol Ws_i 1 = ret col ∧
                l = l0 ++ inconsistency_report i faces_i col.
Proof.
  unfold propagate_component. intros H.
  bind_inv H as faces_i ? Hf. apply vget_Ok in Hf as [Hf ->].
  bind_inv H as labels_i ? Hl. apply vget_Ok in Hl as [Hl ->].
  bind_inv H as [is_consistent Ws_i] l0 Hsingle.
  bind_inv H as max_label ? Hmax. pose proof Hmax as (-> & _)%maxCoeff_Ok.
  bind_inv H as [] la Ha. assert (la = []) as ->.
  { apply assert_Ok in Ha as [[_ ->]|[_ [_ ->]%ret_Ok]]; done. }
  bind_inv H as [] lb Hb. assert (lb = []) as ->.
  { apply assert_Ok in Hb as [[_ ->]|[_ [_ ->]%ret_Ok]]; done. }
  bind_inv H as comp ? Hc. apply vget_Ok in Hc as [Hc ->].
  bind_inv H as W1 lc Hcopy. assert (lc = []) as ->.
  { eapply foldM_silent; [|exact Hcopy]. clear. intros W j W' l H.
    bind_inv H as fid ? Hfid. apply vget_Ok in Hfid as [_ ->].
    bind_inv H as row ? Hrow. apply mrow_Ok in Hrow as [_ ->].
    by apply mset_block_Ok in H as (? & _ & _ & _ & _ & ->). }
  bind_inv H as [] lr Hreport. apply ret_Ok in H as [[= <- <-] ->].
  exists faces_i, labels_i, is_consistent, Ws_i, l0, comp, max_label.
  split_and!; try done.
  destruct is_consistent; cbn [negb] in Hreport.
  - apply ret_Ok in Hreport as [_ ->]. simpl. by rewrite !app_nil_r.
  - bind_inv Hreport as [] le He. injection He as <-.
    bind_inv Hreport as col lcol Hcol.
    assert (lcol = []) as ->.
    { eapply forM_silent; [|exact Hcol]. by intros ??? [_ ->]%vget_Ok. }
    bind_inv Hreport as [] lf Hf'. injection Hf' as <-.
    injection Hreport as <-.
    exists col. split; [done|]. simpl. by rewrite ?app_nil_r.
Qed.

(** C1 (amended): [propagate_winding_numbers] returns [void]: what the
    caller receives is the table [W] of one row per face and
    [2 * num_labels] columns.  The only exceptions are the one of the degree
    check and the one of an edge that is not in its face: a component whose
    propagation returns [false] raises nothing; the function writes
    [debug_wn.obj], prints column 1 of the table of the component and the
    message "Component i has inconsistant winding number assignment.", and
    copies the table of the component into [W] as for a consistent one. *)
Theorem inconsistency_is_printed_not_returned :
  (∀ V F labels W l,
     propagate_winding_numbers ext NDEBUG fuel V F labels = (Ok W, l) →
     ∃ max_label, maxCoeff labels = ret max_label ∧
                  has_shape W (length F) (2 * (max_label + 1))) ∧
  (∀ V F labels,
     throws_within propagation_exception
       (propagate_winding_numbers ext NDEBUG fuel V F labels)) ∧
  (∀ V components comp_faces comp_labels W Ws i W' Ws' l,
     propagate_component ext NDEBUG fuel V components comp_faces comp_labels
       (W, Ws) i = (Ok (W', Ws'), l) →
     ∃ faces_i labels_i is_consistent Ws_i l0 comp max_label,
       comp_faces !! i = Some faces_i ∧ comp_labels !! i = Some labels_i ∧
       propagate_winding_numbers_single_component ext NDEBUG fuel V faces_i labels_i
         = (Ok (is_consistent, Ws_i), l0) ∧
       components !! i = Some comp ∧ maxCoeff labels_i = ret max_label ∧
       foldM (fun W j =>
                fid ← vget comp j;
                row ← mrow Ws_i j;
                mset_block W fid ((max_label + 1) * 2) row)
             (seq 0 (length faces_i)) W = (Ok W', []) ∧
       Ws' = Ws ++ [Ws_i] ∧
       if is_consistent then l = l0
       else ∃ col, mcol Ws_i 1 = ret col ∧
                   l = l0 ++ inconsistency_report i faces_i col).
Proof.
  split_and!.
  - intros V F labels W l H. unfold propagate_winding_numbers in H.
    bind_inv H as [] ? _. destruct (unique_edge_map ext F) as [[[E uE] EMAP] uE2E].
    bind_inv H as [] ? _. bind_inv H as [] ? _. bind_inv H as [] ? _.
    destruct (facet_components ext _) as [C counts].
    bind_inv H as components ? _.
    bind_inv H as [comp_faces comp_labels] ? _.
    bind_inv H as max_label ? Hmax. pose proof Hmax as (-> & _)%maxCoeff_Ok.
    bind_inv H as [W1 Ws] ? Hloop.
    exists max_label. split; [done|].
    assert (has_shape W1 (length F) (2 * (max_label + 1))) as Hs.
    { change (has_shape (W1, Ws).1 (length F) (2 * (max_label + 1))).
      eapply (foldM_invariant
                (fun st => has_shape st.1 (length F) (2 * (max_label + 1))));
        [|exact Hloop|apply has_shape_mconst].
      clear. intros [W Ws] i [W' Ws'] l H HW.
      apply propagate_component_Ok in H
        as (faces_i & labels_i & b & Ws_i & l0 & comp & ml & _ & _ & _ & _ & _ & H & _).
      simpl in *.
      eapply (foldM_invariant (fun W => has_shape W _ _)); [|exact H|done].
      clear. intros W j W' l H HW.
      bind_inv H as fid ? _. bind_inv H as row ? _.
      by eapply has_shape_mset_block. }
    unfold correct_nesting in H. bind_inv H as ambient ? _.
    by eapply has_shape_apply_corrections.
  - intros V F labels. apply propagate_winding_numbers_throws.
  - intros. by apply propagate_component_Ok.
Qed.

End EntryPoint.

(** ** Checks on the concrete meshes *)

Section ConcreteChecks.

Import Examples.

(** On the two tetrahedra that share an edge the seed of patch 0 is (0, 1)
    and patch 1 starts unassigned. *)
Lemma seed_patch_W_spec_witness :
  ∃ W, seed_patch_W 2 1 0 0 false = (Ok W, []) ∧
       coeff W 0 0 = Some 0%Z ∧ coeff W 0 1 = Some 1%Z ∧
       coeff W 1 0 = Some INVALID ∧ coeff W 1 1 = Some INVALID.
Proof.
  destruct (seed_patch_W_spec ex V_two F_two [0; 0] P_two 1 0 0 0)
    as (W & HW & _ & _ & Hown & Hother); [reflexivity..|].
  exists W. split; [exact HW|].
  destruct (Hown 0) as [H0 H1]; [lia|].
  split; [exact H0|]. split; [exact H1|].
  split; apply Hother; lia.
Defined.

(** On the two tetrahedra with a face turned over the pass finds positions
    1 and 2 of the curve in disagreement; without curves the flag is true. *)
Lemma consistency_flag_witness :
  (∃ W l, propagate_winding_numbers_single_component_patch_wise ex true 10
            V_two F_flip uE_flip uE2E_flip [0; 0] P_flip curves_flip
          = (Ok (false, W), l) ∧
          ¬ closure_holds [[0; 1; 1; 0]] [[true; false; false; false]] W) ∧
  (∃ W, propagate_winding_numbers_single_component_patch_wise ex true 10
          V_nested F_outer uE_outer uE2E_outer [0] P_outer []
        = (Ok (true, W), [Call "outer_facet"])).
Proof.
  destruct (consistency_flag ex true 10 V_two F_flip uE_flip uE2E_flip [0; 0]
              P_flip curves_flip) as (_ & _ & Hflag & _).
  destruct (consistency_flag ex true 10 V_nested F_outer uE_outer uE2E_outer [0]
              P_outer []) as (_ & _ & _ & Hnone).
  split.
  - eexists _, _. split; [vm_compute; reflexivity|].
    edestruct Hflag as (mp & orders & orientations & pca & l0 & Hmp & Horders & Hiff & _);
      [vm_compute; reflexivity|].
    injection Hmp as <-. vm_compute in Horders.
    injection Horders as <- <- _ _. intros Hc. by apply Hiff in Hc.
  - apply (Hnone 0 0 0 0); try reflexivity; [lia|by left].
Defined.

(** A single triangle is rejected right after [unique_edge_map]; the two
    tetrahedra pass the check. *)
Lemma odd_degree_is_rejected_first_witness :
  propagate_winding_numbers ex true 10 V_triangle F_triangle [0]
  = (Throw odd_edge_message, [Call "unique_edge_map"]) ∧
  check_edge_degrees uE2E_two = ret tt.
Proof.
  split.
  - apply (odd_degree_is_rejected_first ex true 10 V_triangle F_triangle [0]).
    exists [2]. split; [by left|reflexivity].
  - apply (odd_degree_is_rejected_first ex true 10 V_two F_two labels8).
    intros adj Hadj. vm_compute in Hadj.
    repeat (apply elem_of_cons in Hadj as [->|Hadj]; [reflexivity|]).
    by apply elem_of_nil in Hadj.
Defined.

(** C1, as stated, fails: with or without a face turned over the two
    tetrahedra give the caller the same result, although the propagation of
    the first mesh is consistent and that of the second is not.  No flag can
    be read off what [propagate_winding_numbers] returns. *)
Lemma consistency_flag_is_not_returned :
  ¬ ∃ flag : outcome matrix → bool,
      ∀ F, F ∈ [F_two; F_flip] →
        ∃ W, outcome_of (propagate_winding_numbers_single_component ex true 10
                           V_two F labels8)
             = Ok (flag (outcome_of (propagate_winding_numbers ex true 10
                                       V_two F labels8)), W).
Proof.
  intros [flag Hflag].
  destruct (Hflag F_two) as [W1 H1]; [by left|].
  destruct (Hflag F_flip) as [W2 H2]; [by right; left|].
  vm_compute in H1, H2. congruence.
Qed.

(** The inconsistent mesh: no exception, the report on standard output, and
    a table of 8 rows and 2 columns. *)
Lemma inconsistency_is_printed_not_returned_witness :
  ∃ W l, propagate_winding_numbers ex true 10 V_two F_flip labels8 = (Ok W, l) ∧
         has_shape W 8 2 ∧
         inconsistent_component_message 0 ∈ l.
Proof.
  destruct (inconsistency_is_printed_not_returned ex true 10) as (Hshape & _ & _).
  eexists _, _. split; [vm_compute; reflexivity|]. split.
  - edestruct (Hshape V_two F_flip labels8) as (ml & Hml & Hs);
      [vm_compute; reflexivity|].
    injection Hml as <-. exact Hs.
  - vm_compute. repeat first [by left|right].
Defined.

End ConcreteChecks.

(** ** Loops over the labels that update a pair of columns of one row *)

Section PairLoop.

Variables (r : nat) (body : matrix → nat → M matrix).
Variable post : nat → option Z → option Z → option Z → option Z → Prop.

Hypothesis body_spec : ∀ A k A' l,
  body A k = (Ok A', l) →
  l = [] ∧ mcols A' = mcols A ∧
  post k (coeff A r (k*2)) (coeff A r (k*2 + 1))
         (coeff A' r (k*2)) (coeff A' r (k*2 + 1)) ∧
  (∀ r' c, r' ≠ r ∨ (c ≠ k*2 ∧ c ≠ k*2 + 1) → coeff A' r' c = coeff A r' c).

Lemma pair_loop_spec (n a : nat) (A A' : matrix) (l : list event) :
  foldM body (seq a n) A = (Ok A', l) →
  l = [] ∧ mcols A' = mcols A ∧
  (∀ k, a ≤ k < a + n →
     post k (coeff A r (k*2)) (coeff A r (k*2 + 1))
            (coeff A' r (k*2)) (coeff A' r (k*2 + 1))) ∧
  (∀ r' c, r' ≠ r ∨ c < a*2 ∨ (a + n)*2 ≤ c → coeff A' r' c = coeff A r' c).
Proof.
  revert a A l. induction n as [|n IH]; intros a A l; simpl.
  - intros [<- ->]%ret_Ok. split_and!; try done. intros k Hk; lia.
  - intros H. bind_inv H as A1 l1 H1.
    apply body_spec in H1 as (-> & Hc1 & Hpost & Hframe1).
    apply IH in H as (-> & Hc2 & Hposts & Hframe2).
    split_and!; [done|congruence| |].
    + intros k Hk. destruct (decide (k = a)) as [->|Hne].
      * rewrite !(Hframe2 r) by lia. done.
      * rewrite <- !(Hframe1 r) by lia. apply Hposts. lia.
    + intros r' c Hrc. rewrite Hframe2 by lia. apply Hframe1. lia.
Qed.

End PairLoop.

Lemma Int32_add_add (a c d : Z) :
  Int32.add (Int32.add a c) d = Int32.add a (c + d).
Proof.
  unfold Int32.add. destruct (Int32_wrap_eq (a + c)) as [k ->].
  replace (a + c + k * Int32.modulus + d)%Z
    with (a + (c + d) + k * Int32.modulus)%Z by lia.
  apply Int32_wrap_add_multiple.
Qed.

Lemma Int32_sub_add_add (a b c : Z) :
  Int32.sub (Int32.add a c) (Int32.add b c) = Int32.sub a b.
Proof.
  unfold Int32.sub, Int32.add.
  destruct (Int32_wrap_eq (a + c)) as [k ->], (Int32_wrap_eq (b + c)) as [k' ->].
  replace (a + c + k * Int32.modulus - (b + c + k' * Int32.modulus))%Z
    with (a - b + (k - k') * Int32.modulus)%Z by lia.
  apply Int32_wrap_add_multiple.
Qed.

Lemma Int32_add_0_r (a : Z) : Int32.in_range a → Int32.add a 0 = a.
Proof. intros H. unfold Int32.add. rewrite Z.add_0_r. by apply Int32_wrap_in_range. Qed.

(** ** The nesting correction *)

Lemma madd_at_Ok (A : matrix) (r c : nat) (v : Z) (A' : matrix) (l : list event) :
  madd_at A r c v = (Ok A', l) →
  l = [] ∧ mcols A' = mcols A ∧
  ∃ old, coeff A r c = Some old ∧
    ∀ r' c', coeff A' r' c' =
      if decide (r' = r ∧ c' = c) then Some (Int32.add old v) else coeff A r' c'.
Proof.
  unfold madd_at. intros H. bind_inv H as old ? Hold.
  apply mget_Ok in Hold as [Hold ->].
  pose proof H as (row & _ & _ & -> & ->)%mset_Ok.
  split_and!; [done|done|]. exists old. split; [done|].
  intros r' c'. by eapply coeff_mset.
Qed.

Lemma accumulate_pair_spec (W : matrix) (num_labels : nat) (comp : list nat)
    (fid : nat) (ori : bool) (j : nat) (A A' : matrix) (l : list event) :
  accumulate_pair W num_labels comp fid ori j A = (Ok A', l) →
  l = [] ∧ mcols A' = mcols A ∧
  (∀ k, k < num_labels →
     ∃ f correction old0 old1,
       comp !! fid = Some f ∧
       coeff W f (k*2 + (if ori then 0 else 1)) = Some correction ∧
       coeff A j (k*2) = Some old0 ∧ coeff A j (k*2 + 1) = Some old1 ∧
       coeff A' j (k*2) = Some (Int32.add old0 correction) ∧
       coeff A' j (k*2 + 1) = Some (Int32.add old1 correction)) ∧
  (∀ r c, r ≠ j ∨ num_labels*2 ≤ c → coeff A' r c = coeff A r c).
Proof.
  unfold accumulate_pair. intros H.
  eapply (pair_loop_spec j _
            (fun k o0 o1 n0 n1 =>
               ∃ f correction old0 old1,
                 comp !! fid = Some f ∧
                 coeff W f (k*2 + (if ori then 0 else 1)) = Some correction ∧
                 o0 = Some old0 ∧ o1 = Some old1 ∧
                 n0 = Some (Int32.add old0 correction) ∧
                 n1 = Some (Int32.add old1 correction))) in H
    as (-> & Hc & Hpost & Hframe).
  - split_and!; [done|done| |].
    + intros k Hk. apply Hpost. lia.
    + intros r' c Hrc. apply Hframe. simpl. lia.
  - clear. intros A k A' l H.
    bind_inv H as f ? Hf. apply vget_Ok in Hf as [Hf ->].
    bind_inv H as correction ? Hc. apply mget_Ok in Hc as [Hc ->].
    bind_inv H as A1 l1 H1.
    apply madd_at_Ok in H1 as (-> & Hc1 & old0 & Ho0 & H1).
    apply madd_at_Ok in H as (-> & Hc2 & old1 & Ho1 & H2).
    rewrite H1 in Ho1. rewrite decide_False in Ho1 by lia.
    split_and!; [done|congruence| |].
    + exists f, correction, old0, old1. rewrite !H2, !H1.
      rewrite (decide_False (P := j = j ∧ k*2 = k*2 + 1)) by lia.
      rewrite !decide_True by done. done.
    + intros r' c Hrc. rewrite H2, H1. rewrite !decide_False; [done|lia..].
Qed.

Lemma foldM_prefix_invariant {A St} (I : list A → St → Prop)
    (body : St → A → M St) (xs : list A) (s s' : St) (l : list event) :
  (∀ done x rest s s' l,
     xs = done ++ x :: rest → I done s → body s x = (Ok s', l) →
     I (done ++ [x]) s') →
  I [] s → foldM body xs s = (Ok s', l) → I xs s'.
Proof.
  intros Hbody.
  assert (∀ ys done s l,
            xs = done ++ ys → I done s → foldM body ys s = (Ok s', l) → I xs s')
    as Hgen.
  { induction ys as [|x ys IH]; intros done s0 l0 Hxs HI; simpl.
    - intros [<- _]%ret_Ok. by rewrite Hxs, app_nil_r.
    - intros H. bind_inv H as s1 l1 H1.
      eapply (IH (done ++ [x])); [by rewrite <- app_assoc| |done].
      by eapply Hbody. }
  intros HI H. by apply (Hgen xs [] s l).
Qed.

Lemma foldM_log {A St} (e : list event) (body : St → A → M St) (xs : list A)
    (s s' : St) (l : list event) :
  (∀ s x s' l, body s x = (Ok s', l) → l = e) →
  foldM body xs s = (Ok s', l) → l = concat (replicate (length xs) e).
Proof.
  intros Hbody. revert s l. induction xs as [|x xs IH]; intros s l; simpl.
  - by intros [_ ->]%ret_Ok.
  - intros H. bind_inv H as s1 l1 H1. apply Hbody in H1 as ->.
    by apply IH in H as ->.
Qed.

Section RowsLoop.

(** A loop over distinct rows [j] whose body changes the row [j] only. *)
Variable body : matrix → nat → M matrix.
Variable post : nat → (nat → option Z) → (nat → option Z) → Prop.

Hypothesis post_ext : ∀ j f f' g g',
  (∀ c, f c = f' c) → (∀ c, g c = g' c) → post j f g → post j f' g'.

Hypothesis body_spec : ∀ A j A' l,
  body A j = (Ok A', l) →
  l = [] ∧ mcols A' = mcols A ∧
  post j (coeff A j) (coeff A' j) ∧
  (∀ r c, r ≠ j → coeff A' r c = coeff A r c).

Lemma rows_loop_spec (js : list nat) (A A' : matrix) (l : list event) :
  NoDup js →
  foldM body js A = (Ok A', l) →
  l = [] ∧ mcols A' = mcols A ∧
  (∀ j, j ∈ js → post j (coeff A j) (coeff A' j)) ∧
  (∀ r c, r ∉ js → coeff A' r c = coeff A r c).
Proof.
  revert A l. induction js as [|j js IH]; intros A l Hnd; simpl.
  - intros [<- ->]%ret_Ok. split_and!; try done. intros j Hj.
    by apply elem_of_nil in Hj.
  - apply NoDup_cons in Hnd as [Hj Hnd]. intros H. bind_inv H as A1 l1 H1.
    apply body_spec in H1 as (-> & Hc1 & Hpost & Hframe1).
    apply IH in H as (-> & Hc2 & Hposts & Hframe2); [|done].
    split_and!; [done|congruence| |].
    + intros j' [->|Hj']%elem_of_cons.
      * eapply post_ext; [| |exact Hpost]; [done|].
        intros c. symmetry. by apply Hframe2.
      * eapply post_ext; [| |exact (Hposts j' Hj')]; [|done].
        intros c. apply Hframe1. intros ->. done.
    + intros r c Hr. apply not_elem_of_cons in Hr as [Hrj Hr].
      rewrite Hframe2 by done. by apply Hframe1.
Qed.

End RowsLoop.

Section Nesting.

Context {Scalar : Type} (ext : Collaborators Scalar).
Variables (V : list (Scalar * Scalar * Scalar)) (W : matrix).
Variables (num_labels num_components : nat) (components : list (list nat)).
Variable comp_faces : list (list face).

Lemma sample_component_silent (cid : nat) (p : Scalar * Scalar * Scalar)
    (l : list event) :
  sample_component ext V comp_faces cid = (Ok p, l) → l = [].
Proof.
  unfold sample_component. intros H.
  bind_inv H as faces ? Hf. apply vget_Ok in Hf as [_ ->].
  bind_inv H as [[f0 f1] f2] ? Hf. apply vget_Ok in Hf as [_ ->].
  bind_inv H as [[x0 y0] z0] ? Hf. apply vget_Ok in Hf as [_ ->].
  bind_inv H as [[x1 y1] z1] ? Hf. apply vget_Ok in Hf as [_ ->].
  bind_inv H as [[x2 y2] z2] ? Hf. apply vget_Ok in Hf as [_ ->].
  by apply ret_Ok in H as [_ ->].
Qed.

(** What one pass over the other components adds to the corrections. *)
Lemma accumulate_from_component_spec (A : matrix) (i : nat) (A' : matrix)
    (l : list event) :
  accumulate_from_component ext V W num_labels num_components components
    comp_faces A i = (Ok A', l) →
  l = [Call "closest_facet"] ∧ mcols A' = mcols A ∧
  (∀ j k, j < num_components → j ≠ i → k < num_labels →
     ∃ correction old0 old1,
       queried_correction ext V W num_components components comp_faces i j k
         = Some correction ∧
       coeff A j (k*2) = Some old0 ∧ coeff A j (k*2 + 1) = Some old1 ∧
       coeff A' j (k*2) = Some (Int32.add old0 correction) ∧
       coeff A' j (k*2 + 1) = Some (Int32.add old1 correction)) ∧
  (∀ r c, r = i ∨ num_components ≤ r ∨ num_labels*2 ≤ c →
     coeff A' r c = coeff A r c).
Proof.
  unfold accumulate_from_component. intros H.
  bind_inv H as samples ls Hs.
  assert (ls = []) as ->
    by (eapply forM_silent; [|exact Hs]; apply sample_component_silent).
  bind_inv H as faces_i ? Hf. apply vget_Ok in Hf as [Hf ->].
  bind_inv H as [] le He. injection He as <-.
  destruct (closest_facet ext V faces_i samples) as [fids orientation] eqn:Hclosest.
  bind_inv H as comp ? Hc. apply vget_Ok in Hc as [Hc ->].
  set (post := fun (j : nat) (old new : nat → option Z) =>
         (∀ k, k < num_labels →
            ∃ correction old0 old1,
              queried_correction ext V W num_components components comp_faces
                i j k = Some correction ∧
              old (k*2) = Some old0 ∧ old (k*2 + 1) = Some old1 ∧
              new (k*2) = Some (Int32.add old0 correction) ∧
              new (k*2 + 1) = Some (Int32.add old1 correction)) ∧
         (∀ c, num_labels*2 ≤ c → new c = old c)).
  assert (∀ j f f' g g',
            (∀ c, f c = f' c) → (∀ c, g c = g' c) → post j f g → post j f' g')
    as Hext.
  { clear. intros j f f' g g' Hf Hg [Hpost Hfr]. split.
    - intros k Hk. destruct (Hpost k Hk) as (c & o0 & o1 & ? & ? & ? & ? & ?).
      exists c, o0, o1. rewrite <- !Hf, <- !Hg. done.
    - intros c Hc. rewrite <- Hf, <- Hg. by apply Hfr. }
  eapply (rows_loop_spec _ post Hext) in H as (-> & Hcols & Hposts & Hframe);
    [| |apply NoDup_filter, NoDup_seq].
  - split_and!; [done|done| |].
    + intros j k Hj Hne Hk. apply Hposts; [|done].
      apply list_elem_of_filter. split; [done|]. apply elem_of_seq. lia.
    + intros r c [->|[Hr|Hc']].
      * apply Hframe. intros [? _]%list_elem_of_filter. done.
      * apply Hframe. intros [_ [_ ?]%elem_of_seq]%list_elem_of_filter. lia.
      * destruct (decide (r ∈ filter (λ j, i ≠ j) (seq 0 num_components)))
          as [Hin|Hnin]; [|by apply Hframe].
        by apply (Hposts r Hin).
  - intros A0 j A1 l1 H1.
    bind_inv H1 as fid ? Hfid. apply vget_Ok in Hfid as [Hfid ->].
    bind_inv H1 as ori ? Hori. apply vget_Ok in Hori as [Hori ->].
    apply accumulate_pair_spec in H1 as (-> & Hcols & Hpost & Hframe).
    split_and!; [done|done| |].
    + split.
      * intros k Hk.
        destruct (Hpost k Hk) as (f & c & o0 & o1 & Hcf & Hw & H0 & H1 & H0' & H1').
        exists c, o0, o1. split_and!; try done.
        unfold queried_correction, queried_face. simpl.
        rewrite Hs. simpl. rewrite Hf, Hc. simpl. rewrite Hclosest.
        rewrite Hfid. simpl. rewrite Hori. simpl. rewrite Hcf. simpl. done.
      * intros c Hc'. apply Hframe. by right.
    + intros r c Hr. apply Hframe. by left.
Qed.

Lemma paired_mconst (r c : nat) (v : Z) : paired (mconst r (2 * c) v).
Proof.
  intros j k. destruct (decide (j < r ∧ k < c)) as [[Hj Hk]|Hn].
  - rewrite !coeff_mconst by lia. done.
  - unfold coeff, mconst. cbn [mdata].
    destruct (replicate r (replicate (2 * c) v) !! j) as [row|] eqn:Hrow; [|done].
    apply lookup_replicate in Hrow as [-> Hj]. cbn [mbind option_bind].
    rewrite (lookup_ge_None_2 _ (k*2)) by (rewrite length_replicate; lia).
    rewrite (lookup_ge_None_2 _ (k*2 + 1)) by (rewrite length_replicate; lia).
    done.
Qed.

Lemma paired_accumulate_from_component (A : matrix) (i : nat) (A' : matrix)
    (l : list event) :
  accumulate_from_component ext V W num_labels num_components components
    comp_faces A i = (Ok A', l) →
  paired A → paired A'.
Proof.
  intros (_ & _ & Hpost & Hframe)%accumulate_from_component_spec HA j k.
  destruct (decide (j < num_components ∧ j ≠ i ∧ k < num_labels)) as [(?&?&?)|Hn].
  - destruct (Hpost j k) as (c & o0 & o1 & _ & Ho0 & Ho1 & -> & ->); try done.
    specialize (HA j k). rewrite Ho0, Ho1 in HA. by injection HA as ->.
  - rewrite !Hframe by lia. apply HA.
Qed.

(** The corrections after the block [if (num_components > 1)]. *)
Lemma ambient_corrections_spec (A : matrix) (l : list event) :
  ambient_corrections ext V W num_labels num_components components comp_faces
    = (Ok A, l) →
  paired A ∧
  (num_components ≤ 1 → A = mconst num_components (2 * num_labels) 0%Z ∧ l = []) ∧
  (1 < num_components →
     l = concat (replicate num_components [Call "closest_facet"]) ∧
     ∀ j k, j < num_components → k < num_labels →
       coeff A j (k*2) =
         total_queried ext V W num_components components comp_faces j k ∧
       coeff A j (k*2 + 1) =
         total_queried ext V W num_components components comp_faces j k).
Proof.
  unfold ambient_corrections. intros H. case_decide as Hn.
  - split_and!; [|lia|intros _; split].
    + eapply (foldM_invariant paired); [|exact H|apply paired_mconst].
      intros ????. apply paired_accumulate_from_component.
    + apply (foldM_log [Call "closest_facet"]) in H as ->;
        [by rewrite length_seq|].
      by intros ???? (-> & _)%accumulate_from_component_spec.
    + unfold total_queried.
      eapply (foldM_prefix_invariant
                (fun done A => ∀ j k, j < num_components → k < num_labels →
                   coeff A j (k*2) =
                     foldl (add_queried ext V W num_components components
                              comp_faces j k) (Some 0%Z) done ∧
                   coeff A j (k*2 + 1) =
                     foldl (add_queried ext V W num_components components
                              comp_faces j k) (Some 0%Z) done));
        [|idtac|exact H].
      * clear. intros done i rest A A' l _ HI
          (_ & _ & Hpost & Hframe)%accumulate_from_component_spec j k Hj Hk.
        rewrite !foldl_app. simpl. unfold add_queried at 1 3.
        destruct (HI j k Hj Hk) as [HI0 HI1].
        set (acc := foldl _ _ done) in *. case_decide as Hij.
        -- subst i. rewrite !Hframe by (by left). done.
        -- destruct (Hpost j k) as (c & o0 & o1 & -> & Ho0 & Ho1 & -> & ->);
             [done..|].
           rewrite <- HI0, Ho0. rewrite Ho1 in HI1. rewrite Ho0 in HI0.
           rewrite <- HI1 in HI0. by injection HI0 as ->.
      * intros j k Hj Hk. simpl. rewrite !coeff_mconst by lia. done.
  - apply ret_Ok in H as [<- ->]. split_and!; [apply paired_mconst|done|lia].
Qed.

Lemma madd_row_coeff (Wc : matrix) (f : nat) (corr : list Z) (W2 : matrix)
    (l : list event) :
  madd_row Wc f corr = (Ok W2, l) →
  l = [] ∧ mcols W2 = mcols Wc ∧
  (∀ c, coeff W2 f c = (a ← coeff Wc f c; x ← corr !! c; Some (Int32.add a x))) ∧
  (∀ c, is_Some (coeff Wc f c) ↔ is_Some (corr !! c)) ∧
  (∀ r c, r ≠ f → coeff W2 r c = coeff Wc r c).
Proof.
  intros (old & Hold & Hlen & -> & ->)%madd_row_Ok.
  assert (f < length (mdata Wc)) as Hf by (by eapply lookup_lt_Some).
  split_and!; [done|done| | |].
  - intros c. rewrite coeff_insert_row by done. rewrite decide_True by done.
    rewrite lookup_zip_with. unfold coeff. by rewrite Hold.
  - intros c. unfold coeff. rewrite Hold. simpl.
    rewrite !lookup_lt_is_Some. lia.
  - intros r c Hr. rewrite coeff_insert_row by done.
    rewrite decide_False by done. by destruct Wc.
Qed.

(** The corrections of one component, added to its faces. *)
Lemma apply_component_spec (comp : list nat) (corr : list Z) (Wc W2 : matrix)
    (l : list event) :
  NoDup comp →
  foldM (fun W fid => madd_row W fid corr) comp Wc = (Ok W2, l) →
  l = [] ∧
  (∀ f c, f ∈ comp →
     coeff W2 f c = (a ← coeff Wc f c; x ← corr !! c; Some (Int32.add a x)) ∧
     (is_Some (coeff Wc f c) ↔ is_Some (corr !! c))) ∧
  (∀ f c, f ∉ comp → coeff W2 f c = coeff Wc f c).
Proof.
  intros Hnd H.
  set (post := fun (f : nat) (old new : nat → option Z) =>
         ∀ c, new c = (a ← old c; x ← corr !! c; Some (Int32.add a x)) ∧
              (is_Some (old c) ↔ is_Some (corr !! c))).
  assert (∀ j f f' g g',
            (∀ c, f c = f' c) → (∀ c, g c = g' c) → post j f g → post j f' g')
    as Hext.
  { intros j f f' g g' Hf Hg Hpost c. rewrite <- Hf, <- Hg. apply Hpost. }
  eapply (rows_loop_spec _ post Hext) in H as (-> & _ & Hposts & Hframe);
    [|clear -post|done].
  - split_and!; [done| |done]. intros f c Hf. by apply Hposts.
  - intros A j A' l (-> & Hc & Hrow & Hsome & Hframe)%madd_row_coeff.
    split_and!; [done|done| |done]. intros c. split; [apply Hrow|apply Hsome].
Qed.

Lemma apply_corrections_spec (A Wc W2 : matrix) (l : list event) :
  apply_corrections components num_components A Wc = (Ok W2, l) →
  disjoint_components num_components components →
  (∀ i comp f c, i < num_components → components !! i = Some comp → f ∈ comp →
     coeff W2 f c = (a ← coeff Wc f c; x ← coeff A i c; Some (Int32.add a x)) ∧
     (is_Some (coeff Wc f c) ↔ is_Some (coeff A i c))) ∧
  (∀ f c, (∀ i comp, i < num_components → components !! i = Some comp → f ∉ comp) →
     coeff W2 f c = coeff Wc f c).
Proof.
  unfold apply_corrections. intros H [Hnodup Hdisj].
  eapply (foldM_prefix_invariant
            (fun done Wx =>
               (∀ i comp f c, i ∈ done → components !! i = Some comp → f ∈ comp →
                  coeff Wx f c =
                    (a ← coeff Wc f c; x ← coeff A i c; Some (Int32.add a x)) ∧
                  (is_Some (coeff Wc f c) ↔ is_Some (coeff A i c))) ∧
               (∀ f c, (∀ i comp, i ∈ done → components !! i = Some comp → f ∉ comp) →
                  coeff Wx f c = coeff Wc f c))) in H.
  - destruct H as [H1 H2]. split.
    + intros i comp f c Hi. apply H1. apply elem_of_seq. lia.
    + intros f c Hf. apply H2. intros i comp [_ Hi]%elem_of_seq. apply Hf. lia.
  - clear H. intros done i rest Wx Wy l' Hseq [HI1 HI2] H.
    assert (i < num_components ∧ (i ∉ done) ∧
            (∀ i', i' ∈ done → i' < num_components))
      as (Hi & Hidone & Hdone).
    { pose proof (NoDup_seq 0 num_components) as Hnd. rewrite Hseq in Hnd.
      apply NoDup_app in Hnd as (_ & Hnd & _). split_and!.
      - assert (i ∈ seq 0 num_components) as [_ ?]%elem_of_seq; [|lia].
        rewrite Hseq. apply elem_of_app. right. by left.
      - intros Hin. apply (Hnd i Hin). by left.
      - intros i' Hi'. assert (i' ∈ seq 0 num_components) as [_ ?]%elem_of_seq; [|lia].
        rewrite Hseq. apply elem_of_app. by left. }
    bind_inv H as comp ? Hc. apply vget_Ok in Hc as [Hc ->].
    bind_inv H as corr ? Hr. apply mrow_Ok in Hr as [Hr ->].
    apply apply_component_spec in H as (_ & Hin & Hout); [|by eapply Hnodup].
    assert (∀ c, coeff A i c = corr !! c) as HA
      by (intros c; unfold coeff; by rewrite Hr).
    split.
    + intros i' comp' f c [Hi'|Hi']%elem_of_app Hc' Hf.
      * rewrite Hout; [by apply (HI1 i' comp')|]. intros Hfc.
        apply Hidone. by rewrite <- (Hdisj i' i comp' comp f) by auto.
      * apply list_elem_of_singleton in Hi' as ->.
        simplify_eq. destruct (Hin f c Hf) as [-> Hs]. rewrite !HA.
        assert (coeff Wx f c = coeff Wc f c) as Hwx.
        { apply HI2. intros i' comp' Hi' Hc' Hf'.
          apply Hidone. by rewrite (Hdisj i i' comp comp' f) by auto. }
        rewrite Hwx in Hs |- *. done.
    + intros f c Hf. rewrite Hout.
      * apply HI2. intros i' comp' Hi'. apply Hf. apply elem_of_app. by left.
      * apply (Hf i comp); [|done]. apply elem_of_app. right. by left.
  - split; [intros i comp f c Hi; by apply elem_of_nil in Hi|done].
Qed.

Lemma ambient_corrections_defined (A : matrix) (l : list event) :
  ambient_corrections ext V W num_labels num_components components comp_faces
    = (Ok A, l) →
  ∀ j c, j < num_components → c < 2 * num_labels → is_Some (coeff A j c).
Proof.
  unfold ambient_corrections. intros H.
  assert (∀ j c, j < num_components → c < 2 * num_labels →
            is_Some (coeff (mconst num_components (2 * num_labels) 0%Z) j c)) as H0.
  { intros j c Hj Hc. rewrite coeff_mconst by done. by eexists. }
  case_decide; [|by apply ret_Ok in H as [<- _]].
  eapply (foldM_invariant
            (fun A => ∀ j c, j < num_components → c < 2 * num_labels →
                        is_Some (coeff A j c))); [|exact H|exact H0].
  clear. intros A i A' l (_ & _ & Hpost & Hframe)%accumulate_from_component_spec
    HA j c Hj Hc.
  destruct (decide (j = i)) as [->|Hne].
  - rewrite Hframe by (by left). by apply HA.
  - assert (c = (c / 2) * 2 ∨ c = (c / 2) * 2 + 1) as Hpar
      by (pose proof (Nat.div_mod_eq c 2); pose proof (Nat.mod_upper_bound c 2); lia).
    destruct (Hpost j (c / 2)) as (x & o0 & o1 & _ & _ & _ & H0 & H1); [done..| |].
    { apply Nat.Div0.div_lt_upper_bound. lia. }
    destruct Hpar as [-> | ->]; by eexists.
Qed.

Lemma apply_corrections_silent (A Wc W2 : matrix) (l : list event) :
  apply_corrections components num_components A Wc = (Ok W2, l) → l = [].
Proof.
  unfold apply_corrections. intros H.
  eapply foldM_silent; [|exact H]. clear. intros Wx i Wy l H.
  bind_inv H as comp ? Hc. apply vget_Ok in Hc as [_ ->].
  bind_inv H as corr ? Hr. apply mrow_Ok in Hr as [_ ->]. simpl.
  eapply foldM_silent; [|exact H]. intros ???? (? & _ & _ & _ & ->)%madd_row_Ok.
  done.
Qed.

Lemma coeff_mconst_Some (r c : nat) (v : Z) (i j : nat) (x : Z) :
  coeff (mconst r c v) i j = Some x → x = v.
Proof.
  unfold coeff, mconst. cbn [mdata]. intros H.
  destruct (replicate r (replicate c v) !! i) as [row|] eqn:Hrow; [|done].
  apply lookup_replicate in Hrow as [-> _]. simpl in H.
  by apply lookup_replicate in H as [-> _].
Qed.

(** For several components the nesting corrector adds to both entries of
    every face [f] of a component [j], for every label [k], what its loops
    have read for the pairs [(i, j)]; all queries come first, the table is
    changed afterwards.  For at most one component nothing is queried and
    the table keeps its values. *)
Lemma correct_nesting_adds_the_queried (W' : matrix) (l : list event) :
  correct_nesting ext V W num_labels num_components components comp_faces
    = (Ok W', l) →
  disjoint_components num_components components →
  (1 < num_components →
     l = concat (replicate num_components [Call "closest_facet"]) ∧
     ∀ j comp f k, j < num_components → components !! j = Some comp → f ∈ comp →
       k < num_labels →
       ∃ c a b,
         total_queried ext V W num_components components comp_faces j k = Some c ∧
         coeff W f (k*2) = Some a ∧ coeff W f (k*2 + 1) = Some b ∧
         coeff W' f (k*2) = Some (Int32.add a c) ∧
         coeff W' f (k*2 + 1) = Some (Int32.add b c)) ∧
  (num_components ≤ 1 →
     l = [] ∧
     ∀ f c a, coeff W f c = Some a → Int32.in_range a → coeff W' f c = Some a).
Proof.
  unfold correct_nesting. intros H Hdisj.
  bind_inv H as A la HA.
  pose proof (ambient_corrections_defined _ _ HA) as Hdef.
  pose proof HA as (_ & Hone & Hmany)%ambient_corrections_spec.
  pose proof H as ->%apply_corrections_silent.
  apply apply_corrections_spec in H as [Hin Hout]; [|done].
  rewrite app_nil_r. split.
  - intros Hn. destruct (Hmany Hn) as [-> Htotal]. split; [done|].
    intros j comp f k Hj Hcomp Hf Hk.
    destruct (Htotal j k Hj Hk) as [Ht0 Ht1].
    destruct (Hdef j (k*2)) as [c Hc]; [done|lia|].
    destruct (Hin j comp f (k*2)) as [Hv0 Hs0]; [done..|].
    destruct (Hin j comp f (k*2 + 1)) as [Hv1 Hs1]; [done..|].
    rewrite <- Ht1, <- Ht0, Hc in *.
    destruct Hs0 as [_ [a Ha]]; [done|]. destruct Hs1 as [_ [b Hb]]; [done|].
    exists c, a, b. rewrite Hv0, Hv1, Ha, Hb. done.
  - intros Hn. destruct (Hone Hn) as [-> ->]. split; [done|].
    intros f c a Ha Hrange.
    destruct (components !! 0) as [comp|] eqn:Hcomp.
    + destruct (decide (0 < num_components ∧ f ∈ comp)) as [[H0 Hf]|Hnot].
      * destruct (Hin 0 comp f c) as [Hv Hs]; [done..|].
        rewrite Hv, Ha. destruct Hs as [[x Hx] _]; [by rewrite Ha|].
        rewrite Hx. apply coeff_mconst_Some in Hx as ->. simpl.
        by rewrite Int32_add_0_r.
      * rewrite Hout; [done|]. intros i comp' Hi Hc' Hf.
        assert (i = 0) as -> by lia. simplify_eq. apply Hnot. split; [lia|done].
    + rewrite Hout; [done|]. intros i comp' Hi Hc' Hf.
      assert (i = 0) as -> by lia. congruence.
Qed.

Lemma pairs_kept_or_offset_refl (Wa : matrix) : pairs_kept_or_offset Wa Wa.
Proof. intros f k a b Ha Hb. exists a, b. split_and!; [done..|]. by left. Qed.

Lemma offset_pair_trans (a b a1 b1 a2 b2 : Z) :
  offset_pair a b a1 b1 → offset_pair a1 b1 a2 b2 → offset_pair a b a2 b2.
Proof.
  intros (c & -> & ->) (d & -> & ->). exists (c + d)%Z.
  by rewrite !Int32_add_add.
Qed.

Lemma pairs_kept_or_offset_trans (Wa Wb Wc : matrix) :
  pairs_kept_or_offset Wa Wb → pairs_kept_or_offset Wb Wc →
  pairs_kept_or_offset Wa Wc.
Proof.
  intros Hab Hbc f k a b Ha Hb.
  destruct (Hab f k a b Ha Hb) as (a1 & b1 & Ha1 & Hb1 & H1).
  destruct (Hbc f k a1 b1 Ha1 Hb1) as (a2 & b2 & Ha2 & Hb2 & H2).
  exists a2, b2. split_and!; [done..|].
  destruct H1 as [[-> ->]|H1]; [done|].
  destruct H2 as [[-> ->]|H2]; [by right|]. right. by eapply offset_pair_trans.
Qed.

Lemma row_offset_then_kept (Wa Wb Wc : matrix) (f : nat) :
  row_offset Wa Wb f → pairs_kept_or_offset Wb Wc → row_offset Wa Wc f.
Proof.
  intros Hab Hbc k a b Ha Hb.
  destruct (Hab k a b Ha Hb) as (a1 & b1 & Ha1 & Hb1 & H1).
  destruct (Hbc f k a1 b1 Ha1 Hb1) as (a2 & b2 & Ha2 & Hb2 & H2).
  exists a2, b2. split_and!; [done..|].
  destruct H2 as [[-> ->]|H2]; [done|]. by eapply offset_pair_trans.
Qed.

Lemma kept_then_row_offset (Wa Wb Wc : matrix) (f : nat) :
  pairs_kept_or_offset Wa Wb → row_offset Wb Wc f → row_offset Wa Wc f.
Proof.
  intros Hab Hbc k a b Ha Hb.
  destruct (Hab f k a b Ha Hb) as (a1 & b1 & Ha1 & Hb1 & H1).
  destruct (Hbc k a1 b1 Ha1 Hb1) as (a2 & b2 & Ha2 & Hb2 & H2).
  exists a2, b2. split_and!; [done..|].
  destruct H1 as [[-> ->]|H1]; [done|]. by eapply offset_pair_trans.
Qed.

Lemma madd_row_offset (Wa : matrix) (f : nat) (corr : list Z) (Wb : matrix)
    (l : list event) :
  madd_row Wa f corr = (Ok Wb, l) →
  (∀ k, corr !! (k*2) = corr !! (k*2 + 1)) →
  row_offset Wa Wb f ∧ pairs_kept_or_offset Wa Wb.
Proof.
  intros (_ & _ & Hrow & Hsome & Hframe)%madd_row_coeff Hpaired.
  assert (row_offset Wa Wb f) as Hoff.
  { intros k a b Ha Hb.
    destruct (Hsome (k*2 + 1)) as [[x Hx] _]; [by rewrite Hb|].
    exists (Int32.add a x), (Int32.add b x).
    rewrite !Hrow, Ha, Hb, Hpaired, Hx. split_and!; [done..|]. by exists x. }
  split; [done|]. intros f' k a b Ha Hb.
  destruct (decide (f' = f)) as [->|Hne].
  - destruct (Hoff k a b Ha Hb) as (a' & b' & ? & ? & ?). exists a', b'. auto.
  - exists a, b. rewrite !Hframe by done. split_and!; [done..|]. by left.
Qed.

Lemma apply_component_offset (comp : list nat) (corr : list Z) (Wx Wy : matrix)
    (l : list event) :
  foldM (fun W fid => madd_row W fid corr) comp Wx = (Ok Wy, l) →
  (∀ k, corr !! (k*2) = corr !! (k*2 + 1)) →
  pairs_kept_or_offset Wx Wy ∧ ∀ f, f ∈ comp → row_offset Wx Wy f.
Proof.
  intros H Hcorr. revert Wx l H.
  induction comp as [|f comp IH]; intros Wx l; simpl.
  - intros [<- _]%ret_Ok. split; [apply pairs_kept_or_offset_refl|].
    intros f Hf. by apply elem_of_nil in Hf.
  - intros H. bind_inv H as W1 l1 H1.
    apply madd_row_offset in H1 as [Hoff Hkept]; [|done].
    apply IH in H as [Hrest Hrows]. split.
    + by eapply pairs_kept_or_offset_trans.
    + intros f' [->|Hf']%elem_of_cons.
      * by eapply row_offset_then_kept.
      * eapply kept_then_row_offset; [done|]. by apply Hrows.
Qed.

(** The last loop keeps every pair or adds one integer to both entries,
    and it adds to every face of a component. *)
Lemma apply_corrections_offset (A Wa Wb : matrix) (l : list event) :
  apply_corrections components num_components A Wa = (Ok Wb, l) →
  paired A →
  pairs_kept_or_offset Wa Wb ∧
  ∀ i comp f, i < num_components → components !! i = Some comp → f ∈ comp →
    row_offset Wa Wb f.
Proof.
  unfold apply_corrections. intros H HA.
  eapply (foldM_prefix_invariant
            (fun done Wx =>
               pairs_kept_or_offset Wa Wx ∧
               ∀ i comp f, i ∈ done → components !! i = Some comp → f ∈ comp →
                 row_offset Wa Wx f)) in H.
  - destruct H as [H1 H2]. split; [done|]. intros i comp f Hi.
    apply H2. apply elem_of_seq. lia.
  - clear H. intros done i rest Wx Wy l' _ [HI1 HI2] H.
    bind_inv H as comp ? Hc. apply vget_Ok in Hc as [Hc ->].
    bind_inv H as corr ? Hr. apply mrow_Ok in Hr as [Hr ->].
    assert (∀ k, corr !! (k*2) = corr !! (k*2 + 1)) as Hcorr.
    { intros k. specialize (HA i k). unfold coeff in HA. by rewrite Hr in HA. }
    apply apply_component_offset in H as [Hxy Hcomp]; [|done].
    split; [by eapply pairs_kept_or_offset_trans|].
    intros i' comp' f [Hi'|Hi']%elem_of_app Hc' Hf.
    + eapply row_offset_then_kept; [|done]. by eapply HI2.
    + apply list_elem_of_singleton in Hi' as ->. simplify_eq.
      eapply kept_then_row_offset; [done|]. by apply Hcomp.
  - split; [apply pairs_kept_or_offset_refl|].
    intros i comp f Hi. by apply elem_of_nil in Hi.
Qed.

(** C10: the nesting correction adds, for every label, one integer to both
    the front and the back entry of every face of a component, and the
    difference of the two entries of every face is the same before and
    after it. *)
Theorem nesting_keeps_differences (W' : matrix) (l : list event) :
  correct_nesting ext V W num_labels num_components components comp_faces
    = (Ok W', l) →
  (∀ i comp f k a b,
     i < num_components → components !! i = Some comp → f ∈ comp →
     coeff W f (k*2) = Some a → coeff W f (k*2 + 1) = Some b →
     ∃ c, coeff W' f (k*2) = Some (Int32.add a c) ∧
          coeff W' f (k*2 + 1) = Some (Int32.add b c)) ∧
  (∀ f k a b,
     coeff W f (k*2) = Some a → coeff W f (k*2 + 1) = Some b →
     ∃ a' b', coeff W' f (k*2) = Some a' ∧ coeff W' f (k*2 + 1) = Some b' ∧
              Int32.sub a' b' = Int32.sub a b).
Proof.
  unfold correct_nesting. intros H.
  bind_inv H as A la HA.
  apply ambient_corrections_spec in HA as (HA & _).
  apply apply_corrections_offset in H as [Hkept Hoff]; [|done].
  split.
  - intros i comp f k a b Hi Hc Hf Ha Hb.
    destruct (Hoff i comp f Hi Hc Hf k a b Ha Hb) as (a' & b' & Ha' & Hb' & c & -> & ->).
    by exists c.
  - intros f k a b Ha Hb.
    destruct (Hkept f k a b Ha Hb) as (a' & b' & Ha' & Hb' & Hcase).
    exists a', b'. split_and!; [done..|].
    destruct Hcase as [[-> ->]|(c & -> & ->)]; [done|].
    apply Int32_sub_add_add.
Qed.

End Nesting.

(** The components that [propagate_winding_numbers] gathers do not share
    faces. *)
Lemma gather_components_disjoint (C : list nat) (num_components num_faces : nat)
    (components : list (list nat)) (l : list event) :
  gather_components C num_components num_faces = (Ok components, l) →
  disjoint_components num_components components.
Proof.
  unfold gather_components. intros H.
  assert (∀ c comp, components !! c = Some comp →
            NoDup comp ∧ ∀ f, f ∈ comp → f ∈ seq 0 num_faces ∧ C !! f = Some c)
    as Hinv.
  { eapply (foldM_prefix_invariant
              (fun done comps =>
                 ∀ c comp, comps !! c = Some comp →
                   NoDup comp ∧ ∀ f, f ∈ comp → f ∈ done ∧ C !! f = Some c));
      [| |exact H].
    - clear H. intros done x rest comps comps' l' Hseq HI H.
      assert (x ∉ done) as Hx.
      { pose proof (NoDup_seq 0 num_faces) as Hnd. rewrite Hseq in Hnd.
        apply NoDup_app in Hnd as (_ & Hnd & _). intros Hin.
        apply (Hnd x Hin). by left. }
      bind_inv H as c ? Hc. apply vget_Ok in Hc as [Hc ->].
      bind_inv H as comp ? Hcomp. apply vget_Ok in Hcomp as [Hcomp ->].
      apply ret_Ok in H as [<- _].
      intros c' comp' Hc'. destruct (decide (c' = c)) as [->|Hne].
      + rewrite list_lookup_insert_eq in Hc' by (by eapply lookup_lt_Some).
        injection Hc' as <-. destruct (HI c comp Hcomp) as [Hnd Hin]. split.
        * apply NoDup_app. split_and!; [done| |apply NoDup_singleton].
          intros f Hf Hfx. apply list_elem_of_singleton in Hfx as ->.
          by destruct (Hin x Hf).
        * intros f [Hf|Hf]%elem_of_app.
          -- destruct (Hin f Hf). split; [|done]. apply elem_of_app. by left.
          -- apply list_elem_of_singleton in Hf as ->.
             split; [|done]. apply elem_of_app. right. by left.
      + rewrite list_lookup_insert_ne in Hc' by done.
        destruct (HI c' comp' Hc') as [Hnd Hin]. split; [done|].
        intros f Hf. destruct (Hin f Hf). split; [|done]. apply elem_of_app. by left.
    - intros c comp [-> _]%lookup_replicate. split; [apply NoDup_nil_2|].
      intros f Hf. by apply elem_of_nil in Hf. }
  split.
  - intros i comp _ Hc. by apply (Hinv i comp).
  - intros i i' comp comp' f _ _ Hc Hc' Hf Hf'.
    destruct (Hinv i comp Hc) as [_ Hi]. destruct (Hinv i' comp' Hc') as [_ Hi'].
    destruct (Hi f Hf) as [_ H1]. destruct (Hi' f Hf') as [_ H2]. congruence.
Qed.

Section NestingChecks.

Import Examples.

(** On the nested tetrahedra the difference front - back of face 4 is -1
    before and after the correction. *)
Lemma nesting_keeps_differences_witness :
  ∃ W' a' b', correct_nesting ex V_nested
          (Matrix 2 (replicate 8 [0; 1]%Z)) 1 2 [[0; 1; 2; 3]; [4; 5; 6; 7]]
          [F_outer; F_inner]
        = (Ok W', [Call "closest_facet"; Call "closest_facet"]) ∧
        coeff W' 4 0 = Some a' ∧ coeff W' 4 1 = Some b' ∧
        Int32.sub a' b' = Int32.sub 0 1.
Proof.
  edestruct (nesting_keeps_differences ex V_nested
               (Matrix 2 (replicate 8 [0; 1]%Z)) 1 2
               [[0; 1; 2; 3]; [4; 5; 6; 7]] [F_outer; F_inner]) as [_ Hdiff];
    [vm_compute; reflexivity|].
  destruct (Hdiff 4 0 0%Z 1%Z) as (a' & b' & Ha' & Hb' & Hsub);
    [reflexivity|reflexivity|].
  eexists _, a', b'. split; [reflexivity|]. split_and!; [exact Ha'|exact Hb'|exact Hsub].
Defined.

End NestingChecks.

(** ** The cell-wise propagation *)

Section ColumnLoop.

(** A loop over the labels that, at label [k], reads the entry [k] of the
    row [curr] and writes the entry [k] of the row [r]. *)
Variables (curr r : nat) (body : matrix → nat → M matrix).
Variable post : nat → option Z → option Z → Prop.

Hypothesis body_spec : ∀ A k A' l,
  body A k = (Ok A', l) →
  l = [] ∧ mcols A' = mcols A ∧
  post k (coeff A curr k) (coeff A' r k) ∧
  (∀ r' c, r' ≠ r ∨ c ≠ k → coeff A' r' c = coeff A r' c).

Lemma column_loop_spec (n a : nat) (A A' : matrix) (l : list event) :
  foldM body (seq a n) A = (Ok A', l) →
  l = [] ∧ mcols A' = mcols A ∧
  (∀ k, a ≤ k < a + n → post k (coeff A curr k) (coeff A' r k)) ∧
  (∀ r' c, r' ≠ r ∨ c < a ∨ a + n ≤ c → coeff A' r' c = coeff A r' c).
Proof.
  revert a A l. induction n as [|n IH]; intros a A l; simpl.
  - intros [<- ->]%ret_Ok. split_and!; try done. intros k Hk; lia.
  - intros H. bind_inv H as A1 l1 H1.
    apply body_spec in H1 as (-> & Hc1 & Hpost & Hframe1).
    apply IH in H as (-> & Hc2 & Hposts & Hframe2).
    split_and!; [done|congruence| |].
    + intros k Hk. destruct (decide (k = a)) as [->|Hne].
      * rewrite (Hframe2 r) by lia. done.
      * rewrite <- (Hframe1 curr) by lia. apply Hposts. lia.
    + intros r' c Hrc. rewrite Hframe2 by lia. apply Hframe1. lia.
Qed.

End ColumnLoop.

(** The increment of the label [i] when the patch of label [label] is
    crossed in the direction [direction]. *)
Lemma cell_visit_neighbor_new (NDEBUG : bool) (patch_labels : list nat)
    (num_labels curr_cell : nat) (per_cell_W : matrix)
    (neighbor_cell : nat) (direction : bool) (patch_idx : nat)
    (row : list Z) (W' : matrix) (l : list event) :
  mdata per_cell_W !! neighbor_cell = Some row →
  existsb (fun x => (x =? INVALID)%Z) row = true →
  cell_visit_neighbor NDEBUG patch_labels num_labels curr_cell per_cell_W
    (neighbor_cell, direction, patch_idx) = (Ok W', l) →
  l = [] ∧
  (∀ i, i < num_labels →
     ∃ c label,
       coeff per_cell_W curr_cell i = Some c ∧
       patch_labels !! patch_idx = Some label ∧
       coeff W' neighbor_cell i =
         Some (Int32.add c (if decide (label = i)
                            then (if direction then -1 else 1) else 0)%Z)) ∧
  (∀ r c, r ≠ neighbor_cell → coeff W' r c = coeff per_cell_W r c).
Proof.
  intros Hrow Hinv H. unfold cell_visit_neighbor in H.
  bind_inv H as row' ? Hr. apply mrow_Ok in Hr as [Hr ->].
  assert (row' = row) as -> by congruence. rewrite Hinv in H.
  bind_inv H as curr_row ? Hcr. apply mrow_Ok in Hcr as [Hcr ->].
  bind_inv H as W1 l1 H1.
  pose proof (fun r c => coeff_mset_row _ _ _ _ _ r c H1) as HW1.
  apply mset_row_Ok in H1 as (_ & _ & _ & _ & ->).
  assert (∀ c, coeff W1 curr_cell c = coeff per_cell_W curr_cell c) as Hcurr.
  { intros c. rewrite HW1. case_decide as Hcn; [|done].
    unfold coeff. by rewrite Hcr. }
  eapply (column_loop_spec curr_cell neighbor_cell _
            (fun i old new =>
               ∃ c label, old = Some c ∧ patch_labels !! patch_idx = Some label ∧
                 new = Some (Int32.add c (if decide (label = i)
                                          then (if direction then -1 else 1)
                                          else 0)%Z))) in H
    as (-> & _ & Hpost & Hframe).
  - split_and!; [done| |].
    + intros i Hi. destruct (Hpost i) as (c & label & Hc & Hl & Hn); [lia|].
      exists c, label. by rewrite <- Hcurr.
    + intros r c Hr'. rewrite Hframe by (by left). rewrite HW1.
      by rewrite decide_False.
  - clear. intros A k A' l H.
    bind_inv H as label ? Hl. apply vget_Ok in Hl as [Hl ->].
    bind_inv H as c ? Hc. apply mget_Ok in Hc as [Hc ->].
    pose proof (fun r' c' => coeff_mset _ _ _ _ _ _ r' c' H) as HA'.
    apply mset_Ok in H as (row & _ & _ & -> & ->).
    split_and!; [done|done| |].
    + exists c, label. split_and!; [done|done|].
      rewrite HA'. rewrite decide_True by done. f_equal. f_equal.
      case_bool_decide; by case_decide.
    + intros r' c' Hrc. rewrite HA'. rewrite decide_False; [done|]. lia.
Qed.

(** The rows of the faces, read off the rows of the cells. *)
Lemma faces_from_cells_spec (num_labels : nat) (P : list nat)
    (per_patch_cells : list (nat * nat)) (num_faces : nat) (per_cell_W W : matrix)
    (l : list event) :
  faces_from_cells num_labels P per_patch_cells num_faces per_cell_W = (Ok W, l) →
  l = [] ∧ mcols W = num_labels * 2 ∧
  ∀ i j, i < num_faces → j < num_labels →
    ∃ patch positive_cell negative_cell front back,
      P !! i = Some patch ∧
      per_patch_cells !! patch = Some (positive_cell, negative_cell) ∧
      coeff per_cell_W positive_cell j = Some front ∧
      coeff per_cell_W negative_cell j = Some back ∧
      coeff W i (j*2) = Some front ∧ coeff W i (j*2 + 1) = Some back.
Proof.
  unfold faces_from_cells. intros H.
  set (post := fun (i : nat) (old new : nat → option Z) =>
         ∀ j, j < num_labels →
           ∃ patch positive_cell negative_cell front back,
             P !! i = Some patch ∧
             per_patch_cells !! patch = Some (positive_cell, negative_cell) ∧
             coeff per_cell_W positive_cell j = Some front ∧
             coeff per_cell_W negative_cell j = Some back ∧
             new (j*2) = Some front ∧ new (j*2 + 1) = Some back).
  assert (∀ i f f' g g',
            (∀ c, f c = f' c) → (∀ c, g c = g' c) → post i f g → post i f' g')
    as Hext.
  { intros i f f' g g' Hf Hg Hpost j Hj.
    destruct (Hpost j Hj) as (p & pc & nc & fr & ba & ?).
    exists p, pc, nc, fr, ba. by rewrite <- !Hg. }
  eapply (rows_loop_spec _ post Hext) in H as (-> & Hcols & Hposts & _);
    [|clear -post|apply NoDup_seq].
  - split_and!; [done|done|]. intros i j Hi Hj. apply Hposts; [|done].
    apply elem_of_seq. lia.
  - intros A i A' l H.
    bind_inv H as patch ? Hp. apply vget_Ok in Hp as [Hp ->].
    bind_inv H as [positive_cell negative_cell] ? Hc.
    apply vget_Ok in Hc as [Hc ->].
    eapply (pair_loop_spec i _
              (fun j _ _ n0 n1 =>
                 ∃ front back,
                   coeff per_cell_W positive_cell j = Some front ∧
                   coeff per_cell_W negative_cell j = Some back ∧
                   n0 = Some front ∧ n1 = Some back)) in H
      as (-> & Hcols & Hpost & Hframe).
    + split_and!; [done|done| |].
      * intros j Hj. destruct (Hpost j) as (fr & ba & ?); [lia|].
        by exists patch, positive_cell, negative_cell, fr, ba.
      * intros r c Hr. apply Hframe. by left.
    + clear. intros A j A' l H.
      bind_inv H as front ? Hf. apply mget_Ok in Hf as [Hf ->].
      bind_inv H as A1 l1 H1.
      bind_inv H as back ? Hb. apply mget_Ok in Hb as [Hb ->].
      pose proof (fun r c => coeff_mset _ _ _ _ _ _ r c H1) as HA1.
      pose proof (fun r c => coeff_mset _ _ _ _ _ _ r c H) as HA'.
      apply mset_Ok in H1 as (? & _ & _ & -> & ->).
      apply mset_Ok in H as (? & _ & _ & -> & ->).
      split_and!; [done|done| |].
      * exists front, back. rewrite !HA', !HA1.
        rewrite (decide_False (P := i = i ∧ j*2 = j*2 + 1)) by lia.
        by rewrite !decide_True.
      * intros r c Hrc. rewrite HA', HA1. rewrite !decide_False; [done|lia..].
Qed.

Lemma seed_cell_W_spec (num_labels num_cells infinity_cell : nat) :
  infinity_cell < num_cells →
  ∃ W0, seed_cell_W num_labels num_cells infinity_cell = (Ok W0, []) ∧
        (∀ i, i < num_labels → coeff W0 infinity_cell i = Some 0%Z) ∧
        (∀ c i, c < num_cells → c ≠ infinity_cell → i < num_labels →
           coeff W0 c i = Some INVALID).
Proof.
  intros Hc. unfold seed_cell_W.
  set (W0 := Matrix num_labels
               (<[infinity_cell := replicate num_labels 0%Z]>
                  (replicate num_cells (replicate num_labels INVALID)))).
  assert (mset_row (mconst num_cells num_labels INVALID) infinity_cell
            (replicate num_labels 0%Z) = (Ok W0, [])) as H.
  { apply mset_row_Ok. exists (replicate num_labels INVALID).
    unfold mconst; simpl. rewrite lookup_replicate_2 by done.
    by rewrite !length_replicate. }
  exists W0. split; [done|]. split.
  - intros i Hi. rewrite (coeff_mset_row _ _ _ _ _ _ _ H).
    rewrite decide_True by done. by apply lookup_replicate_2.
  - intros c i Hc' Hne Hi. rewrite (coeff_mset_row _ _ _ _ _ _ _ H).
    rewrite decide_False by done. by apply coeff_mconst.
Qed.

(** The traversal of the cells pushes nothing: it visits the neighbours of
    the seed and ends. *)
Lemma cell_bfs_single_pass (NDEBUG : bool) (patch_labels : list nat)
    (num_labels : nat) (cell_adjacency : list (list CellConnection)) (n : nat)
    (per_cell_W : matrix) (curr_cell : nat) :
  cell_bfs NDEBUG patch_labels num_labels cell_adjacency (S (S n)) per_cell_W
    [curr_cell] =
  (neighbors ← vget cell_adjacency curr_cell;
   foldM (cell_visit_neighbor NDEBUG patch_labels num_labels curr_cell)
     neighbors per_cell_W).
Proof.
  simpl. destruct (vget cell_adjacency curr_cell) as [[neighbors| | | |] l1];
    try done.
  rewrite !bind_unfold. unfold bind.
  destruct (foldM _ neighbors per_cell_W) as [[W| | | |] l2]; try done.
  simpl. by rewrite app_nil_r.
Qed.

Lemma seed_cell_W_Ok (num_labels num_cells infinity_cell : nat) (W0 : matrix)
    (l : list event) :
  seed_cell_W num_labels num_cells infinity_cell = (Ok W0, l) →
  l = [] ∧ infinity_cell < num_cells ∧
  (∀ i, i < num_labels → coeff W0 infinity_cell i = Some 0%Z) ∧
  (∀ c i, c < num_cells → c ≠ infinity_cell → i < num_labels →
     coeff W0 c i = Some INVALID).
Proof.
  intros H. assert (infinity_cell < num_cells) as Hc.
  { unfold seed_cell_W in H. apply mset_row_Ok in H as (old & Hold & _).
    apply lookup_lt_Some in Hold. unfold mconst in Hold. simpl in Hold.
    by rewrite length_replicate in Hold. }
  destruct (seed_cell_W_spec num_labels num_cells infinity_cell Hc)
    as (W0' & HW0' & Hzero & Hinv).
  rewrite H in HW0'. injection HW0' as -> ->. done.
Qed.


(** ** The two-colouring of the cells *)

Lemma calm_bind {A B} (m : M A) (f : A → M B) :
  calm m → (∀ a, calm (f a)) → calm (m ≫= f).
Proof.
  unfold calm. rewrite bind_unfold. unfold bind.
  destruct m as [[a| | | |] l1]; simpl; try done.
  intros _ Hf. specialize (Hf a). by destruct (f a) as [[]].
Qed.

Lemma calm_Ok {A} (a : A) (l : list event) : calm (Ok a, l).
Proof. done. Qed.

Lemma calm_vget {A} (v : list A) (i : nat) : calm (vget v i).
Proof. unfold vget. by destruct (v !! i). Qed.

Lemma calm_vset {A} (v : list A) (i : nat) (x : A) : calm (vset v i x).
Proof. unfold vset. by case_decide. Qed.

Lemma calm_to_index (z : Z) : calm (to_index z).
Proof. unfold to_index. by case_decide. Qed.

Lemma calm_maxCoeff (v : list nat) : calm (maxCoeff v).
Proof. by destruct v. Qed.

Lemma calm_mrow (W : matrix) (r : nat) : calm (mrow W r).
Proof. apply calm_vget. Qed.

Lemma calm_mget (W : matrix) (r c : nat) : calm (mget W r c).
Proof. apply calm_bind; [apply calm_mrow|intros; apply calm_vget]. Qed.

Lemma calm_mset (W : matrix) (r c : nat) (v : Z) : calm (mset W r c v).
Proof.
  apply calm_bind; [apply calm_mrow|intros].
  apply calm_bind; [apply calm_vset|intros]. done.
Qed.

Lemma calm_mset_row (W : matrix) (r : nat) (row : list Z) : calm (mset_row W r row).
Proof. apply calm_bind; [apply calm_mrow|intros]. by case_decide. Qed.

Lemma calm_assert (c : M bool) : calm (assert true c).
Proof. done. Qed.

Lemma calm_foldM {A St} (body : St → A → M St) (l : list A) (s : St) :
  (∀ s x, calm (body s x)) → calm (foldM body l s).
Proof.
  intros Hb. revert s. induction l as [|x l IH]; intros s; simpl; [done|].
  apply calm_bind; [apply Hb|apply IH].
Qed.

Lemma calm_forM {A B} (l : list A) (body : A → M B) :
  (∀ x, calm (body x)) → calm (forM l body).
Proof.
  intros Hb. induction l as [|x l IH]; simpl; [done|].
  apply calm_bind; [apply Hb|intros]. apply calm_bind; [apply IH|intros]. done.
Qed.

Create HintDb calm.

#[global] Hint Resolve calm_Ok calm_vget calm_vset calm_to_index calm_maxCoeff
  calm_mrow calm_mget calm_mset calm_mset_row calm_assert : calm.

Ltac calm_auto :=
  repeat first
    [ solve [auto with calm nocore]
    | done
    | apply calm_foldM; intros
    | apply calm_forM; intros
    | apply calm_bind; [|intros]
    | match goal with
      | |- calm (match ?x with _ => _ end) => destruct x
      | |- calm ?m =>
          match m with
          | context [match ?x with _ => _ end] => is_var x; destruct x
          end; cbn beta iota
      end ].

Section Colouring.

Context {Scalar : Type} (ext : Collaborators Scalar).
Variable fuel : nat.

Lemma trace_parents_loop_calm (parents : list Z) (n : nat) (path : list nat)
    (back : nat) :
  calm (trace_parents_loop parents n path back).
Proof.
  revert path back. induction n as [|n IH]; intros path back; simpl; [done|].
  calm_auto.
Qed.

#[local] Hint Resolve trace_parents_loop_calm : calm.

Lemma report_odd_cycle_calm (F : list face) (P : list nat)
    (per_patch_cells : list (nat * nat)) (num_patches : nat) (parents : list Z)
    (curr_idx neighbor_cell : nat) :
  calm (report_odd_cycle fuel F P per_patch_cells num_patches parents
          curr_idx neighbor_cell).
Proof. unfold report_odd_cycle, trace_parents, save_cell, emit. calm_auto. Qed.

#[local] Hint Resolve report_odd_cycle_calm : calm.

Lemma colour_bfs_calm (F : list face) (P : list nat)
    (per_patch_cells : list (nat * nat)) (num_patches : nat)
    (cell_adjacency : list (list CellConnection)) (n : nat) (st : colouring) :
  calm (colour_bfs true fuel F P per_patch_cells num_patches cell_adjacency n st).
Proof.
  revert st. induction n as [|n IH]; intros [[cell_labels parents] [|curr Q]];
    simpl; try done.
  unfold colour_neighbor. calm_auto.
Qed.

#[local] Hint Resolve colour_bfs_calm : calm.

Lemma cell_bfs_calm (patch_labels : list nat) (num_labels : nat)
    (cell_adjacency : list (list CellConnection)) (n : nat) (per_cell_W : matrix)
    (Q : list nat) :
  calm (cell_bfs true patch_labels num_labels cell_adjacency n per_cell_W Q).
Proof.
  revert per_cell_W Q. induction n as [|n IH]; intros W [|curr Q]; simpl; try done.
  unfold cell_visit_neighbor. calm_auto.
Qed.

#[local] Hint Resolve cell_bfs_calm : calm.

(** With [NDEBUG] defined the function neither throws nor aborts. *)
Lemma propagate_winding_numbers_beta_calm (V : list (Scalar * Scalar * Scalar))
    (F : list face) (labels : list nat) :
  calm (propagate_winding_numbers_beta ext true fuel V F labels).
Proof.
  unfold propagate_winding_numbers_beta, beta_validate, beta_propagate_cells,
    faces_from_cells, build_cell_adjacency, check_odd_cycle, patch_labels_of,
    seed_cell_W, emit.
  calm_auto.
Qed.

End Colouring.


(** ** The log of the first part *)

Lemma logs_within_bind {A B} (S : event → Prop) (m : M A) (f : A → M B) :
  logs_within S m → (∀ a, logs_within S (f a)) → logs_within S (m ≫= f).
Proof.
  unfold logs_within. rewrite bind_unfold. unfold bind.
  destruct m as [[a| | | |] l1]; simpl; try done.
  intros H1 Hf. specialize (Hf a). destruct (f a) as [o l2]; simpl in *.
  by apply Forall_app.
Qed.

Lemma logs_within_nil {A} (S : event → Prop) (o : outcome A) :
  logs_within S (o, []).
Proof. by apply Forall_nil. Qed.

Lemma logs_within_ret {A} (S : event → Prop) (a : A) : logs_within S (ret a).
Proof. apply logs_within_nil. Qed.

Lemma logs_within_abort {A} (S : event → Prop) : logs_within S (@abort A).
Proof. apply logs_within_nil. Qed.

Lemma logs_within_undefined {A} (S : event → Prop) : logs_within S (@undefined A).
Proof. apply logs_within_nil. Qed.

Lemma logs_within_diverge {A} (S : event → Prop) : logs_within S (@diverge A).
Proof. apply logs_within_nil. Qed.

Lemma logs_within_throw {A} (S : event → Prop) (msg : string) :
  logs_within S (@throw A msg).
Proof. apply logs_within_nil. Qed.

Lemma logs_within_emit (S : event → Prop) (e : event) :
  S e → logs_within S (emit e).
Proof. intros He. by apply Forall_singleton. Qed.

Lemma logs_within_vget {A} (S : event → Prop) (v : list A) (i : nat) :
  logs_within S (vget v i).
Proof. unfold vget. destruct (v !! i); apply logs_within_nil. Qed.

Lemma logs_within_vset {A} (S : event → Prop) (v : list A) (i : nat) (x : A) :
  logs_within S (vset v i x).
Proof. unfold vset. case_decide; apply logs_within_nil. Qed.

Lemma logs_within_to_index (S : event → Prop) (z : Z) : logs_within S (to_index z).
Proof. unfold to_index. case_decide; apply logs_within_nil. Qed.

Lemma logs_within_assert (S : event → Prop) (NDEBUG : bool) (c : M bool) :
  logs_within S c → logs_within S (assert NDEBUG c).
Proof.
  intros Hc. unfold assert. destruct NDEBUG; [apply logs_within_nil|].
  apply logs_within_bind; [done|]. intros []; apply logs_within_nil.
Qed.

Lemma logs_within_foldM {A St} (S : event → Prop) (body : St → A → M St)
    (l : list A) (s : St) :
  (∀ s x, logs_within S (body s x)) → logs_within S (foldM body l s).
Proof.
  intros Hb. revert s. induction l as [|x l IH]; intros s; simpl.
  - apply logs_within_nil.
  - apply logs_within_bind; [apply Hb|apply IH].
Qed.

Lemma logs_within_forM {A B} (S : event → Prop) (l : list A) (body : A → M B) :
  (∀ x, logs_within S (body x)) → logs_within S (forM l body).
Proof.
  intros Hb. induction l as [|x l IH]; simpl; [apply logs_within_nil|].
  apply logs_within_bind; [apply Hb|intros].
  apply logs_within_bind; [apply IH|intros]. apply logs_within_nil.
Qed.

Lemma logs_within_mono {A} (S T : event → Prop) (m : M A) :
  (∀ e, S e → T e) → logs_within S m → logs_within T m.
Proof. intros HST Hm. eapply Forall_impl; [exact Hm|exact HST]. Qed.

Lemma logs_within_silent {A} (m : M A) :
  logs_within (fun _ => False) m → log_of m = [].
Proof.
  unfold logs_within. destruct (log_of m) as [|e l]; [done|].
  by intros [[] _]%Forall_cons.
Qed.

Lemma logs_within_mget (S : event → Prop) (W : matrix) (r c : nat) :
  logs_within S (mget W r c).
Proof.
  apply logs_within_bind; [apply logs_within_vget|intros; apply logs_within_vget].
Qed.

Lemma logs_within_mset (S : event → Prop) (W : matrix) (r c : nat) (v : Z) :
  logs_within S (mset W r c v).
Proof.
  apply logs_within_bind; [apply logs_within_vget|intros].
  apply logs_within_bind; [apply logs_within_vset|intros]. apply logs_within_nil.
Qed.

Lemma logs_within_mset_row (S : event → Prop) (W : matrix) (r : nat)
    (row : list Z) :
  logs_within S (mset_row W r row).
Proof.
  apply logs_within_bind; [apply logs_within_vget|intros].
  case_decide; apply logs_within_nil.
Qed.

Create HintDb logs.

Lemma logs_within_umod (S : event → Prop) (a b : nat) : logs_within S (umod a b).
Proof. unfold umod. case_decide; apply logs_within_nil. Qed.

Lemma logs_within_maxCoeff (S : event → Prop) (v : list nat) :
  logs_within S (maxCoeff v).
Proof. destruct v; apply logs_within_nil. Qed.

Lemma logs_within_mrow (S : event → Prop) (W : matrix) (r : nat) :
  logs_within S (mrow W r).
Proof. apply logs_within_vget. Qed.

#[global] Hint Resolve logs_within_nil logs_within_ret logs_within_abort
  logs_within_undefined logs_within_diverge logs_within_throw logs_within_vget logs_within_vset
  logs_within_to_index logs_within_umod logs_within_maxCoeff logs_within_mrow
  logs_within_mget logs_within_mset logs_within_mset_row : logs.

Ltac logs_auto :=
  repeat first
    [ solve [auto with logs nocore]
    | apply logs_within_emit; first [done|discriminate]
    | apply logs_within_assert
    | apply logs_within_foldM; intros
    | apply logs_within_forM; intros
    | apply logs_within_bind; [|intros]
    | match goal with
      | |- logs_within _ (match ?x with _ => _ end) => destruct x
      | |- logs_within _ ?m =>
          match m with
          | context [match ?x with _ => _ end] => is_var x; destruct x
          end; cbn beta iota
      end ].

Section SilentParts.

Variable S : event → Prop.

Lemma is_orientable_logs (F : list face) (uE : list edge) (uE2E : list (list nat)) :
  logs_within S (is_orientable F uE uE2E).
Proof.
  unfold is_orientable. generalize (seq 0 (length uE)).
  intros es. induction es as [|i es IH]; simpl; [apply logs_within_nil|].
  unfold is_consistent_edge, throw. logs_auto.
Qed.

Lemma build_cell_adjacency_logs (per_patch_cells : list (nat * nat))
    (num_cells num_patches : nat) :
  logs_within S (build_cell_adjacency per_patch_cells num_cells num_patches).
Proof. unfold build_cell_adjacency. logs_auto. Qed.

Lemma trace_parents_loop_logs (parents : list Z) (n : nat) (path : list nat)
    (back : nat) :
  logs_within S (trace_parents_loop parents n path back).
Proof.
  revert path back. induction n as [|n IH]; intros path back; simpl;
    [apply logs_within_nil|].
  logs_auto.
Qed.

Lemma patch_labels_of_logs (NDEBUG : bool) (num_patches : nat)
    (P labels : list nat) (num_faces : nat) :
  logs_within S (patch_labels_of NDEBUG num_patches P labels num_faces).
Proof. unfold patch_labels_of. logs_auto. Qed.

Lemma cell_bfs_logs (NDEBUG : bool) (patch_labels : list nat) (num_labels : nat)
    (cell_adjacency : list (list CellConnection)) (n : nat) (per_cell_W : matrix)
    (Q : list nat) :
  logs_within S
    (cell_bfs NDEBUG patch_labels num_labels cell_adjacency n per_cell_W Q).
Proof.
  revert per_cell_W Q. induction n as [|n IH]; intros W [|curr Q]; simpl;
    try apply logs_within_nil.
  unfold cell_visit_neighbor. logs_auto.
Qed.

Lemma faces_from_cells_logs (num_labels : nat) (P : list nat)
    (per_patch_cells : list (nat * nat)) (num_faces : nat) (per_cell_W : matrix) :
  logs_within S
    (faces_from_cells num_labels P per_patch_cells num_faces per_cell_W).
Proof. unfold faces_from_cells. logs_auto. Qed.

End SilentParts.

#[global] Hint Resolve is_orientable_logs build_cell_adjacency_logs
  trace_parents_loop_logs patch_labels_of_logs cell_bfs_logs
  faces_from_cells_logs : logs.

Section ValidateLog.

Context {Scalar : Type} (ext : Collaborators Scalar).
Variables (NDEBUG : bool) (fuel : nat).

Let quiet (e : event) : Prop := e ≠ Call "outer_facet".

Lemma colour_bfs_logs (F : list face) (P : list nat)
    (per_patch_cells : list (nat * nat)) (num_patches : nat)
    (cell_adjacency : list (list CellConnection)) (n : nat) (st : colouring) :
  logs_within quiet
    (colour_bfs NDEBUG fuel F P per_patch_cells num_patches cell_adjacency n st).
Proof.
  revert st. induction n as [|n IH]; intros [[cell_labels parents] [|curr Q]];
    simpl; try apply logs_within_nil.
  unfold colour_neighbor, report_odd_cycle, trace_parents, save_cell, abort.
  logs_auto.
Qed.

#[local] Hint Resolve colour_bfs_logs : logs.

(** The first part never logs the call of [outer_facet]. *)
Lemma beta_validate_logs (V : list (Scalar * Scalar * Scalar)) (F : list face) :
  logs_within quiet (beta_validate ext NDEBUG fuel V F).
Proof. unfold beta_validate, check_odd_cycle. logs_auto. Qed.

(** The second part logs that call and nothing else. *)
Lemma beta_propagate_cells_log (V : list (Scalar * Scalar * Scalar))
    (F : list face) (labels P : list nat) (per_patch_cells : list (nat * nat))
    (num_patches num_cells : nat) (cell_adjacency : list (list CellConnection)) :
  log_of (beta_propagate_cells ext NDEBUG fuel V F labels P per_patch_cells
            num_patches num_cells cell_adjacency) = [Call "outer_facet"].
Proof.
  unfold beta_propagate_cells. rewrite emit_bind. simpl. f_equal.
  apply logs_within_silent. unfold seed_cell_W. logs_auto.
Qed.

End ValidateLog.

(** ** Runs that return *)

Lemma returns_mono {A} (m : M A) (Q R : A → list event → Prop) :
  returns m R → (∀ a l, R a l → Q a l) → returns m Q.
Proof. intros (a & l & -> & HR) HQ. exists a, l. auto. Qed.

Lemma returns_ret {A} (a : A) (Q : A → list event → Prop) :
  Q a [] → returns (ret a) Q.
Proof. intros HQ. by exists a, []. Qed.

Lemma returns_emit (e : event) (Q : unit → list event → Prop) :
  Q tt [e] → returns (emit e) Q.
Proof. intros HQ. by exists tt, [e]. Qed.

Lemma returns_bind {A B} (m : M A) (f : A → M B) (R : A → list event → Prop)
    (Q : B → list event → Prop) :
  returns m R →
  (∀ a l1, R a l1 → returns (f a) (fun b l2 => Q b (l1 ++ l2))) →
  returns (m ≫= f) Q.
Proof.
  intros (a & l1 & -> & HR) Hf.
  destruct (Hf a l1 HR) as (b & l2 & Hb & HQ).
  exists b, (l1 ++ l2). split; [|done].
  rewrite bind_unfold. unfold bind. by rewrite Hb.
Qed.

Lemma returns_emit_bind {B} (e : event) (f : unit → M B)
    (Q : B → list event → Prop) :
  returns (f tt) (fun b l => Q b (e :: l)) → returns (emit e ≫= f) Q.
Proof.
  intros (b & l & Hb & HQ). exists b, (e :: l). split; [|done].
  by apply emit_bind_eq.
Qed.

Lemma returns_vget {A} (v : list A) (i : nat) (Q : A → list event → Prop) :
  i < length v → (∀ x, v !! i = Some x → Q x []) → returns (vget v i) Q.
Proof.
  intros Hi HQ. destruct (lookup_lt_is_Some_2 v i Hi) as [x Hx].
  exists x, []. split; [by apply vget_Some|auto].
Qed.

Lemma returns_vset {A} (v : list A) (i : nat) (x : A)
    (Q : list A → list event → Prop) :
  i < length v → Q (<[i := x]> v) [] → returns (vset v i x) Q.
Proof. intros Hi HQ. exists (<[i := x]> v), []. split; [by apply vset_lt|done]. Qed.

Lemma returns_vget_bind {A B} (v : list A) (i : nat) (f : A → M B)
    (Q : B → list event → Prop) :
  i < length v → (∀ x, v !! i = Some x → returns (f x) Q) →
  returns (vget v i ≫= f) Q.
Proof.
  intros Hi HQ. destruct (lookup_lt_is_Some_2 v i Hi) as [x Hx].
  rewrite (vget_Some _ _ _ Hx), bind_ret_l. auto.
Qed.

Lemma returns_vset_bind {A B} (v : list A) (i : nat) (x : A)
    (f : list A → M B) (Q : B → list event → Prop) :
  i < length v → returns (f (<[i := x]> v)) Q → returns (vset v i x ≫= f) Q.
Proof. intros Hi HQ. by rewrite vset_lt, bind_ret_l. Qed.

Lemma returns_to_index (z : Z) (Q : nat → list event → Prop) :
  (0 ≤ z)%Z → Q (Z.to_nat z) [] → returns (to_index z) Q.
Proof.
  intros Hz HQ. exists (Z.to_nat z), []. split; [|done].
  unfold to_index. by rewrite decide_False by lia.
Qed.

Lemma returns_maxCoeff (v : list nat) (Q : nat → list event → Prop) :
  0 < length v → (∀ m, Q m []) → returns (maxCoeff v) Q.
Proof.
  intros Hv HQ. destruct v as [|x v]; [simpl in Hv; lia|].
  exists (foldr Nat.max x v), []. split; [done|apply HQ].
Qed.

Lemma returns_assert_NDEBUG (c : M bool) (Q : unit → list event → Prop) :
  Q tt [] → returns (assert true c) Q.
Proof. intros HQ. by exists tt, []. Qed.

Lemma returns_foldM {A St} (I : St → list event → Prop) (body : St → A → M St)
    (xs : list A) (s : St) :
  I s [] →
  (∀ s l x, x ∈ xs → I s l → returns (body s x) (fun s' l' => I s' (l ++ l'))) →
  returns (foldM body xs s) I.
Proof.
  revert s I. induction xs as [|x xs IH]; intros s I Hs Hbody; simpl.
  - by apply returns_ret.
  - eapply returns_bind.
    + apply (Hbody s [] x); [by left|done].
    + intros s1 l1 H1. simpl in H1. apply IH; [by rewrite app_nil_r|].
      intros s2 l2 y Hy H2. eapply returns_mono.
      * apply (Hbody s2 (l1 ++ l2) y); [by right|done].
      * intros s3 l3 H3. simpl in H3. by rewrite <- app_assoc in H3.
Qed.

Lemma returns_forM {A B} (R : A → B → Prop) (body : A → M B) (xs : list A) :
  (∀ x, x ∈ xs → returns (body x) (fun y l => R x y ∧ l = [])) →
  returns (forM xs body) (fun ys l => Forall2 R xs ys ∧ l = []).
Proof.
  induction xs as [|x xs IH]; intros Hbody; simpl.
  - apply returns_ret. by split.
  - eapply returns_bind; [apply Hbody; by left|].
    intros y ? [Hy ->]. eapply returns_bind.
    + apply IH. intros x' Hx'. apply Hbody. by right.
    + intros ys ? [Hys ->]. apply returns_ret. split; [by constructor|done].
Qed.

(** Steps that log nothing. *)
Lemma returns_bind_silent {A B} (m : M A) (f : A → M B) (R : A → Prop)
    (Q : B → list event → Prop) :
  returns m (fun a l => R a ∧ l = []) →
  (∀ a, R a → returns (f a) Q) →
  returns (m ≫= f) Q.
Proof.
  intros Hm Hf. eapply returns_bind; [exact Hm|].
  intros a ? [Ha ->]. by apply Hf.
Qed.

Lemma returns_foldM_silent {A St} (I : St → Prop) (body : St → A → M St)
    (xs : list A) (s : St) :
  I s →
  (∀ s x, x ∈ xs → I s → returns (body s x) (fun s' l => I s' ∧ l = [])) →
  returns (foldM body xs s) (fun s' l => I s' ∧ l = []).
Proof.
  intros Hs Hbody. apply returns_foldM; [done|].
  intros s1 ? x Hx [H1 ->]. by apply Hbody.
Qed.

(** *** Tables of a given shape *)

Lemma returns_mrow (W : matrix) (r c i : nat) (Q : list Z → list event → Prop) :
  has_shape W r c → i < r →
  (∀ row, mdata W !! i = Some row → length row = c → Q row []) →
  returns (mrow W i) Q.
Proof.
  intros (_ & Hr & Hrows) Hi HQ. apply returns_vget; [by rewrite <- Hr in Hi|].
  intros row Hrow. apply HQ; [done|]. by eapply Hrows.
Qed.

Lemma returns_mget (W : matrix) (r c i j : nat) :
  has_shape W r c → i < r → j < c →
  returns (mget W i j) (fun v l => coeff W i j = Some v ∧ l = []).
Proof.
  intros HW Hi Hj. unfold mget.
  eapply returns_bind_silent with
    (R := fun row => mdata W !! i = Some row ∧ length row = c).
  - eapply returns_mrow; [done..|]. auto.
  - intros row (Hrow & Hlen). apply returns_vget; [lia|].
    intros v Hv. split; [|done]. unfold coeff. by rewrite Hrow.
Qed.

Lemma returns_mset (W : matrix) (r c i j : nat) (v : Z) :
  has_shape W r c → i < r → j < c →
  returns (mset W i j v) (fun W' l => has_shape W' r c ∧ l = []).
Proof.
  intros HW Hi Hj. unfold mset.
  eapply returns_bind_silent with (R := fun row => length row = c).
  - eapply returns_mrow; [done..|]. auto.
  - intros row Hlen.
    apply returns_vset_bind; [lia|]. apply returns_ret. split; [|done].
    apply has_shape_insert; [done|]. by rewrite length_insert.
Qed.

Lemma returns_mset_row (W : matrix) (r c i : nat) (row : list Z) :
  has_shape W r c → i < r → length row = c →
  returns (mset_row W i row) (fun W' l => has_shape W' r c ∧ l = []).
Proof.
  intros HW Hi Hlen. unfold mset_row.
  eapply returns_bind_silent with (R := fun old => length old = c).
  - eapply returns_mrow; [done..|]. auto.
  - intros old Hold. rewrite decide_True by congruence.
    apply returns_ret. split; [|done]. by apply has_shape_insert.
Qed.

(** ** The diagnostic of an odd cycle *)

Section Report.

Variables (fuel : nat) (F : list face) (P : list nat).
Variables (per_patch_cells : list (nat * nat)) (num_patches : nat).

Hypothesis cells_length : length per_patch_cells = num_patches.
Hypothesis P_length : length P = length F.

(** [save_cell] writes one file. *)
Lemma save_cell_returns (filename : string) (cell_id : nat) :
  returns (save_cell F P per_patch_cells num_patches filename cell_id)
    (fun _ l => ∃ faces, l = [WritePLY filename faces]).
Proof.
  unfold save_cell.
  set (I := fun (faces : list nat) (l : list event) =>
              Forall (fun j => j < length F) faces ∧ l = []).
  eapply returns_bind with (R := I).
  - apply returns_foldM; [by split|].
    intros faces ? i Hi [Hfaces ->]. apply elem_of_seq in Hi.
    apply returns_vget_bind; [lia|]. intros [c0 c1] _.
    destruct (bool_decide (c0 = cell_id) || bool_decide (c1 = cell_id));
      [|by apply returns_ret].
    apply returns_foldM; [by split|].
    intros faces' ? j Hj [Hfaces' Hl]. simpl in Hl. subst.
    apply elem_of_seq in Hj.
    apply returns_vget_bind; [lia|]. intros p _.
    apply returns_ret. split; [|done].
    case_bool_decide; [|done]. apply Forall_app. split; [done|].
    apply Forall_singleton. lia.
  - intros faces ? [Hfaces ->].
    eapply returns_bind.
    + apply (returns_forM (fun _ _ => True)). intros j Hj.
      apply returns_vget; [by eapply Forall_forall in Hfaces|done].
    + intros cell_faces ? [_ ->]. apply returns_emit. by exists cell_faces.
Qed.

Lemma trace_parents_loop_silent (parents : list Z) (n : nat) (path : list nat)
    (back : nat) :
  log_of (trace_parents_loop parents n path back) = [].
Proof.
  revert path back. induction n as [|n IH]; intros path back; simpl; [done|].
  unfold vget. destruct (parents !! back) as [p|]; [|done].
  rewrite bind_ret_l. case_decide; [|done].
  unfold to_index. case_decide; [done|]. by rewrite bind_ret_l.
Qed.

(** The loop that prints and exports the cells of the path. *)
Lemma report_cells_returns (path : list nat) :
  returns
    (foldM (fun (_ : unit) cell_id =>
              emit (Cout [TNat cell_id; TStr " "]);;
              save_cell F P per_patch_cells num_patches
                ("cell_" ++ string_of_nat cell_id ++ ".ply")%string cell_id)
       path tt)
    (fun _ l => printed_cells l = path ∧ exported_files l = map cell_file path).
Proof.
  induction path as [|c path IH]; [by apply returns_ret|].
  rewrite foldM_cons.
  eapply returns_bind with
    (R := fun _ l => ∃ faces,
            l = [Cout [TNat c; TStr " "]; WritePLY (cell_file c) faces]).
  - apply returns_emit_bind. eapply returns_mono; [apply save_cell_returns|].
    intros [] l [faces ->]. by exists faces.
  - intros [] ? [faces ->]. cbn beta. eapply returns_mono; [apply IH|].
    intros [] l [Hprinted Hfiles]. simpl. by rewrite Hprinted, Hfiles.
Qed.

(** The diagnostic: the alarm on [cerr], then the cells of the path from
    the root of the current cell to the current cell and from the neighbour
    to its root, each printed and exported, then the end of the line. *)
Lemma report_odd_cycle_returns (parents : list Z) (curr_idx neighbor_cell : nat)
    (path path2 : list nat) :
  trace_parents fuel parents curr_idx = (Ok path, []) →
  trace_parents fuel parents neighbor_cell = (Ok path2, []) →
  returns
    (report_odd_cycle fuel F P per_patch_cells num_patches parents curr_idx
       neighbor_cell)
    (fun _ l => ∃ l', l = odd_cycle_alarm :: l' ++ [Cout [TEndl]] ∧
                      printed_cells l' = reverse path ++ path2 ∧
                      exported_files l' = map cell_file (reverse path ++ path2)).
Proof.
  intros Hpath Hpath2. unfold report_odd_cycle.
  apply returns_emit_bind.
  rewrite (bind_Ok_nil _ _ _ Hpath). cbn zeta.
  rewrite (bind_Ok_nil _ _ _ Hpath2). cbn zeta.
  eapply returns_bind; [apply report_cells_returns|].
  intros [] l' [Hprinted Hfiles]. apply returns_emit. by exists l'.
Qed.

End Report.

(** ** The two-colouring returns *)

Lemma zeros_le (cell_labels : list Z) : zeros cell_labels ≤ length cell_labels.
Proof. apply length_filter. Qed.

Lemma zeros_insert (cell_labels : list Z) (c : nat) (v : Z) :
  cell_labels !! c = Some 0%Z → v ≠ 0%Z →
  zeros cell_labels = S (zeros (<[c := v]> cell_labels)).
Proof.
  intros Hc Hv. unfold zeros.
  rewrite insert_take_drop by by eapply lookup_lt_Some.
  rewrite <- (take_drop_middle cell_labels c 0%Z Hc) at 1.
  rewrite !filter_app, !length_app, filter_cons_True by done.
  rewrite (filter_cons_False _ v) by done. simpl. lia.
Qed.

Lemma labelled_insert_ne (cell_labels : list Z) (c nb : nat) (v : Z) :
  labelled cell_labels c → cell_labels !! nb = Some 0%Z →
  labelled (<[nb := v]> cell_labels) c.
Proof.
  intros (x & Hx & Hne) Hnb. exists x. split; [|done].
  rewrite list_lookup_insert_ne; [done|]. intros ->. congruence.
Qed.

Lemma labelled_insert_eq (cell_labels : list Z) (nb : nat) (v : Z) :
  nb < length cell_labels → v ≠ 0%Z → labelled (<[nb := v]> cell_labels) nb.
Proof. intros Hnb Hv. exists v. by rewrite list_lookup_insert_eq. Qed.

Lemma labelled_lt (cell_labels : list Z) (c : nat) :
  labelled cell_labels c → c < length cell_labels.
Proof. intros (x & Hx & _). by eapply lookup_lt_Some. Qed.

Lemma chain_insert (cell_labels parents : list Z) (c d nb : nat) (v p : Z) :
  chain cell_labels parents c d → cell_labels !! nb = Some 0%Z →
  chain (<[nb := v]> cell_labels) (<[nb := p]> parents) c d.
Proof.
  intros Hchain Hnb. induction Hchain as [c Hc Hp|c q d Hc Hp Hne _ IH].
  - apply chain_root; [by apply labelled_insert_ne|].
    rewrite list_lookup_insert_ne; [done|].
    intros ->. destruct Hc as (x & Hx & ?). congruence.
  - eapply chain_step; [by apply labelled_insert_ne| |done|done].
    rewrite list_lookup_insert_ne; [done|].
    intros ->. destruct Hc as (x & Hx & ?). congruence.
Qed.

Lemma colouring_inv_replicate (num_cells : nat) :
  colouring_inv num_cells (replicate num_cells 0%Z) (replicate num_cells (-1)%Z).
Proof.
  split_and!; [by rewrite length_replicate..| |].
  - intros c v [-> _]%lookup_replicate. by left.
  - intros c (v & [-> _]%lookup_replicate & Hv). done.
Qed.

(** A cell without a colour gets one, with itself or a coloured cell as its
    parent. *)
Lemma colouring_inv_insert (num_cells : nat) (cell_labels parents : list Z)
    (nb p : nat) (v : Z) :
  colouring_inv num_cells cell_labels parents →
  cell_labels !! nb = Some 0%Z → (v = 1 ∨ v = -1)%Z →
  p = nb ∨ labelled cell_labels p →
  colouring_inv num_cells (<[nb := v]> cell_labels) (<[nb := Z.of_nat p]> parents).
Proof.
  intros (Hlen & Hlenp & Hvals & Hchains) Hnb Hv Hp.
  assert (v ≠ 0%Z) as Hv0 by lia.
  pose proof (zeros_insert cell_labels nb v Hnb Hv0) as Hz.
  pose proof (zeros_le cell_labels) as Hle.
  pose proof (lookup_lt_Some _ _ _ Hnb) as Hlt.
  split_and!; [by rewrite length_insert..| |].
  - intros c x Hx. destruct (decide (c = nb)) as [->|Hne].
    + rewrite list_lookup_insert_eq in Hx by done. simplify_eq. lia.
    + rewrite list_lookup_insert_ne in Hx by done. by eapply Hvals.
  - intros c Hc. destruct (decide (c = nb)) as [->|Hne].
    + destruct (decide (p = nb)) as [->|Hpne].
      * exists 0. split; [|lia]. apply chain_root; [done|].
        rewrite list_lookup_insert_eq; [done|lia].
      * destruct Hp as [?|Hp]; [done|].
        destruct (Hchains p Hp) as (d & Hd & Hbound).
        exists (S d). split; [|lia].
        eapply chain_step; [done| |done|by apply chain_insert].
        rewrite list_lookup_insert_eq; [done|lia].
    + assert (labelled cell_labels c) as Hc'.
      { destruct Hc as (x & Hx & ?). exists x.
        by rewrite list_lookup_insert_ne in Hx. }
      destruct (Hchains c Hc') as (d & Hd & Hbound).
      exists d. split; [by apply chain_insert|lia].
Qed.

Lemma trace_parents_loop_returns (cell_labels parents : list Z) (c d : nat) :
  chain cell_labels parents c d →
  ∀ n path, d < n →
    ∃ path', trace_parents_loop parents n path c = (Ok path', []).
Proof.
  induction 1 as [c Hc Hp|c p d Hc Hp Hne _ IH]; intros [|n] path Hn; try lia;
    simpl; rewrite (vget_Some _ _ _ Hp), bind_ret_l.
  - rewrite decide_False by (intros Hf; by apply Hf). by eexists.
  - rewrite decide_True by lia.
    unfold to_index. rewrite decide_False by lia. rewrite bind_ret_l.
    rewrite Nat2Z.id. apply IH. lia.
Qed.

Section ColouringReturns.

Variables (fuel : nat) (F : list face) (P : list nat).
Variables (per_patch_cells : list (nat * nat)) (num_patches num_cells : nat).
Variable cell_adjacency : list (list CellConnection).

Hypothesis cells_length : length per_patch_cells = num_patches.
Hypothesis P_length : length P = length F.
Hypothesis enough_fuel : num_cells < fuel.
Hypothesis cells_are_ints : (Z.of_nat num_cells ≤ Int32.max_int)%Z.
Hypothesis adjacency : adjacency_in_range num_cells num_patches cell_adjacency.

(** The state of the loop over the neighbours of [curr_idx]. *)
Let visiting (curr_idx : nat) (curr_label : Z) (measure : nat) (st : colouring)
  : Prop :=
  let '(cell_labels, parents, Q) := st in
  colouring_inv num_cells cell_labels parents ∧
  Forall (labelled cell_labels) Q ∧
  cell_labels !! curr_idx = Some curr_label ∧ curr_label ≠ 0%Z ∧
  zeros cell_labels + length Q = measure.

Lemma colour_neighbor_returns (curr_idx : nat) (curr_label : Z) (measure : nat)
    (st : colouring) (neighbor : CellConnection) :
  visiting curr_idx curr_label measure st → neighbor.1.1 < num_cells →
  returns
    (colour_neighbor true fuel F P per_patch_cells num_patches curr_idx
       curr_label st neighbor)
    (fun st' _ => visiting curr_idx curr_label measure st').
Proof.
  destruct st as [[cell_labels parents] Q], neighbor as [[nb direction] patch].
  simpl. intros (Hinv & HQ & Hcurr & Hcurr0 & Hmeasure) Hnb.
  pose proof Hinv as (Hlen & Hlenp & Hvals & Hchains).
  assert (labelled cell_labels curr_idx) as Hlab by by exists curr_label.
  assert (curr_idx < num_cells) as Hcurr_lt.
  { rewrite <- Hlen. by apply labelled_lt. }
  apply returns_vget_bind; [lia|].
  intros label Hlabel. case_decide as Hzero.
  - subst label.
    assert (Int32.mul curr_label (-1) = 1 ∨ Int32.mul curr_label (-1) = -1)%Z
      as Hmul.
    { destruct (Hvals _ _ Hcurr) as [->|[->| ->]]; [done|by right|by left]. }
    assert (Int32.mul curr_label (-1) ≠ 0)%Z as Hmul0 by lia.
    apply returns_vset_bind; [lia|]. apply returns_vset_bind; [lia|].
    rewrite Int32_wrap_in_range by (unfold Int32.in_range, Int32.min_int; lia).
    apply returns_ret. split_and!.
    + apply colouring_inv_insert; [done..|by right].
    + apply Forall_app. split.
      * eapply Forall_impl; [exact HQ|]. intros c Hc.
        by apply labelled_insert_ne.
      * apply Forall_singleton. apply labelled_insert_eq; [lia|done].
    + rewrite list_lookup_insert_ne; [done|]. intros ->. congruence.
    + done.
    + rewrite length_app. simpl.
      pose proof (zeros_insert cell_labels nb _ Hlabel Hmul0). lia.
  - eapply returns_bind with (R := fun _ _ => True).
    { case_decide; [|by apply returns_ret].
      destruct (Hchains curr_idx Hlab) as (d & Hd & Hbound).
      destruct (Hchains nb) as (d2 & Hd2 & Hbound2); [by exists label|].
      destruct (trace_parents_loop_returns _ _ _ _ Hd fuel [curr_idx])
        as [path Hpath]; [lia|].
      destruct (trace_parents_loop_returns _ _ _ _ Hd2 fuel [nb])
        as [path2 Hpath2]; [lia|].
      eapply returns_mono;
        [by eapply (report_odd_cycle_returns fuel F P per_patch_cells)|done]. }
    intros _ ? _. by apply (returns_ret (cell_labels, parents, Q)).
Qed.

Lemma colour_bfs_returns (n : nat) (cell_labels parents : list Z) (Q : list nat) :
  colouring_inv num_cells cell_labels parents →
  Forall (labelled cell_labels) Q →
  zeros cell_labels + length Q < n →
  returns
    (colour_bfs true fuel F P per_patch_cells num_patches cell_adjacency n
       (cell_labels, parents, Q))
    (fun st' _ => colouring_inv num_cells st'.1.1 st'.1.2).
Proof.
  revert cell_labels parents Q.
  induction n as [|n IH]; intros cell_labels parents Q Hinv HQ Hn; [lia|].
  destruct Q as [|curr_idx Q]; simpl; [by apply returns_ret|].
  apply Forall_cons in HQ as [Hcurr HQ].
  pose proof Hinv as (Hlen & _).
  pose proof (labelled_lt _ _ Hcurr) as Hlt.
  destruct Hcurr as (curr_label & Hcurr & Hcurr0).
  destruct adjacency as [Hadj_len Hadj].
  rewrite (vget_Some _ _ _ Hcurr), bind_ret_l.
  eapply returns_bind with
    (R := fun nbs l => Forall (fun nb : CellConnection => nb.1.1 < num_cells) nbs).
  { apply returns_vget; [lia|]. intros nbs Hnbs.
    eapply Forall_lookup_1 in Hadj; [|done].
    eapply Forall_impl; [exact Hadj|]. by intros ? [? _]. }
  intros nbs ? Hnbs.
  eapply returns_bind with
    (R := fun st _ => visiting curr_idx curr_label (zeros cell_labels + length Q) st).
  { apply returns_foldM; [done|].
    intros st ? nb Hnb Hst. apply colour_neighbor_returns; [done|].
    by eapply Forall_forall in Hnbs. }
  intros [[cell_labels' parents'] Q'] ? (Hinv' & HQ' & _ & _ & Hmeasure).
  eapply returns_mono; [apply IH; [done..|simpl in Hn; lia]|done].
Qed.

Lemma check_odd_cycle_returns :
  returns
    (check_odd_cycle true fuel F P per_patch_cells num_patches cell_adjacency
       num_cells)
    (fun _ _ => True).
Proof.
  unfold check_odd_cycle.
  eapply returns_mono; [|done].
  apply (returns_foldM (fun st _ => colouring_inv num_cells st.1 st.2));
    [apply colouring_inv_replicate|].
  intros [cell_labels parents] ? i Hi Hinv. apply elem_of_seq in Hi. simpl in Hinv.
  pose proof Hinv as (Hlen & Hlenp & _).
  apply returns_vget_bind; [lia|].
  intros label Hlabel. case_decide as Hzero; [|by apply returns_ret].
  subst label. apply returns_vset_bind; [lia|]. apply returns_vset_bind; [lia|].
  rewrite Int32_wrap_in_range by (unfold Int32.in_range, Int32.min_int; lia).
  assert (colouring_inv num_cells (<[i := 1%Z]> cell_labels)
            (<[i := Z.of_nat i]> parents)) as Hinv'.
  { apply colouring_inv_insert; [done..|by left|by left]. }
  eapply returns_bind.
  - apply colour_bfs_returns; [done| |].
    + apply Forall_singleton. apply labelled_insert_eq; [lia|done].
    + pose proof (zeros_insert cell_labels i 1%Z Hlabel). 
      pose proof (zeros_le cell_labels). simpl. lia.
  - intros [[cell_labels' parents'] Q'] ? Hinv''. apply returns_ret. done.
Qed.

End ColouringReturns.

(** ** The cell-wise propagation returns *)

Lemma set_emplace_Forall (R : CellConnection → Prop) (x : CellConnection)
    (s : list CellConnection) :
  R x → Forall R s → Forall R (set_emplace x s).
Proof.
  intros Hx. induction 1 as [|y s Hy Hs IH]; simpl.
  - by apply Forall_singleton.
  - destruct (connection_lt x y); [by repeat constructor|].
    destruct (connection_lt y x); by constructor.
Qed.

Lemma build_cell_adjacency_returns (per_patch_cells : list (nat * nat))
    (num_cells num_patches : nat) :
  length per_patch_cells = num_patches →
  Forall (fun c : nat * nat => c.1 < num_cells ∧ c.2 < num_cells)
    per_patch_cells →
  returns (build_cell_adjacency per_patch_cells num_cells num_patches)
    (fun cell_adjacency l =>
       adjacency_in_range num_cells num_patches cell_adjacency ∧ l = []).
Proof.
  intros Hlen Hcells. unfold build_cell_adjacency.
  apply returns_foldM_silent.
  { split; [by rewrite length_replicate|].
    apply Forall_replicate. constructor. }
  intros adj i Hi [Hadj_len Hadj]. apply elem_of_seq in Hi.
  apply returns_vget_bind; [lia|]. intros [positive_cell negative_cell] Hc.
  eapply Forall_lookup_1 in Hcells as [Hpos Hneg]; [|done]. simpl in Hpos, Hneg.
  apply returns_vget_bind; [lia|]. intros adj_pos Hadj_pos.
  apply returns_vset_bind; [lia|].
  apply returns_vget_bind; [rewrite length_insert; lia|]. intros adj_neg Hadj_neg.
  apply returns_vset; [rewrite length_insert; lia|].
  split; [|done]. split; [by rewrite !length_insert|].
  assert (Forall (Forall (fun nb : CellConnection =>
                            nb.1.1 < num_cells ∧ nb.2 < num_patches))
            (<[positive_cell := set_emplace (negative_cell, false, i) adj_pos]> adj))
    as Hadj'.
  { apply Forall_insert; [done|]. apply set_emplace_Forall; [simpl; lia|].
    by eapply Forall_lookup_1 in Hadj. }
  apply Forall_insert; [done|]. apply set_emplace_Forall; [simpl; lia|].
  by eapply Forall_lookup_1 in Hadj'.
Qed.

Lemma patch_labels_of_returns (num_patches : nat) (P labels : list nat)
    (num_faces : nat) :
  length P = num_faces → Forall (fun p => p < num_patches) P →
  length labels = num_faces →
  returns (patch_labels_of true num_patches P labels num_faces)
    (fun patch_labels l =>
       (length patch_labels = num_patches ∧
        Forall (fun x => 0 ≤ x)%Z patch_labels) ∧ l = []).
Proof.
  intros HP Hpatches Hlabels. unfold patch_labels_of.
  apply (returns_foldM_silent
           (fun patch_labels => length patch_labels = num_patches ∧
                                Forall (fun x => 0 ≤ x)%Z patch_labels)).
  { split; [by rewrite length_replicate|]. apply Forall_replicate. done. }
  intros patch_labels i Hi (Hlen & Hpos). apply elem_of_seq in Hi.
  apply returns_vget_bind; [lia|]. intros p Hp.
  eapply Forall_lookup_1 in Hpatches; [|done].
  apply returns_vget_bind; [lia|]. intros l Hl.
  apply returns_vget_bind; [lia|]. intros li Hli.
  case_decide.
  - apply returns_vset; [lia|]. split_and!; [by rewrite length_insert| |done].
    apply Forall_insert; [done|lia].
  - rewrite assert_NDEBUG, bind_ret_l. by apply returns_ret.
Qed.

Lemma has_shape_seed (num_labels num_cells infinity_cell : nat) (W0 : matrix)
    (l : list event) :
  seed_cell_W num_labels num_cells infinity_cell = (Ok W0, l) →
  has_shape W0 num_cells num_labels.
Proof.
  unfold seed_cell_W. intros (old & _ & _ & -> & _)%mset_row_Ok.
  apply (has_shape_insert (mconst num_cells num_labels INVALID)).
  - apply has_shape_mconst.
  - by rewrite length_replicate.
Qed.

Section CellWiseReturns.

Variables (patch_labels : list nat) (num_labels num_cells : nat).

Lemma cell_visit_neighbor_returns (curr_cell : nat) (per_cell_W : matrix)
    (neighbor : CellConnection) :
  has_shape per_cell_W num_cells num_labels →
  curr_cell < num_cells → neighbor.1.1 < num_cells →
  neighbor.2 < length patch_labels →
  returns
    (cell_visit_neighbor true patch_labels num_labels curr_cell per_cell_W
       neighbor)
    (fun W' l => has_shape W' num_cells num_labels ∧ l = []).
Proof.
  destruct neighbor as [[neighbor_cell direction] patch_idx]. simpl.
  intros HW Hcurr Hnb Hpatch.
  eapply returns_bind_silent with (R := fun _ => True).
  { eapply returns_mrow; [done..|]. done. }
  intros row _. destruct (existsb _ row).
  - eapply returns_bind_silent with (R := fun r => length r = num_labels).
    { eapply returns_mrow; [done..|]. done. }
    intros curr_row Hlen.
    eapply returns_bind_silent; [by eapply returns_mset_row|].
    intros W1 HW1. apply returns_foldM_silent; [done|].
    intros W2 i Hi HW2. apply elem_of_seq in Hi.
    apply returns_vget_bind; [lia|]. intros label _.
    eapply returns_bind_silent; [eapply returns_mget; [done|lia..]|].
    intros c _. eapply returns_mset; [done|lia..].
  - eapply returns_bind_silent with (R := fun _ => True).
    + apply (returns_foldM_silent (fun _ => True)); [done|].
      intros [] i Hi _. apply returns_vget_bind; [lia|]. intros label _.
      case_bool_decide; by apply (returns_ret tt).
    + intros [] _. by apply returns_ret.
Qed.

Lemma cell_bfs_returns (cell_adjacency : list (list CellConnection)) (n : nat)
    (per_cell_W : matrix) (curr_cell : nat) :
  adjacency_in_range num_cells (length patch_labels) cell_adjacency →
  has_shape per_cell_W num_cells num_labels →
  curr_cell < num_cells →
  returns
    (cell_bfs true patch_labels num_labels cell_adjacency (S (S n)) per_cell_W
       [curr_cell])
    (fun W' l => has_shape W' num_cells num_labels ∧ l = []).
Proof.
  intros [Hadj_len Hadj] HW Hcurr. rewrite cell_bfs_single_pass.
  apply returns_vget_bind; [lia|]. intros neighbors Hneighbors.
  eapply Forall_lookup_1 in Hadj; [|done].
  apply returns_foldM_silent; [done|].
  intros W' nb Hnb HW'.
  eapply Forall_forall in Hadj as [? ?]; [|done].
  by apply cell_visit_neighbor_returns.
Qed.

Lemma faces_from_cells_returns (P : list nat)
    (per_patch_cells : list (nat * nat)) (num_faces : nat) (per_cell_W : matrix) :
  has_shape per_cell_W num_cells num_labels →
  length P = num_faces → Forall (fun p => p < length per_patch_cells) P →
  Forall (fun c : nat * nat => c.1 < num_cells ∧ c.2 < num_cells)
    per_patch_cells →
  returns (faces_from_cells num_labels P per_patch_cells num_faces per_cell_W)
    (fun W l => has_shape W num_faces (num_labels * 2) ∧ l = []).
Proof.
  intros HW HP Hpatches Hcells. unfold faces_from_cells.
  apply returns_foldM_silent; [apply has_shape_mconst|].
  intros W i Hi HW'. apply elem_of_seq in Hi.
  apply returns_vget_bind; [lia|]. intros patch Hpatch.
  eapply Forall_lookup_1 in Hpatches; [|done].
  apply returns_vget_bind; [lia|]. intros [positive_cell negative_cell] Hc.
  eapply Forall_lookup_1 in Hcells as [Hpos Hneg]; [|done]. simpl in Hpos, Hneg.
  apply returns_foldM_silent; [done|].
  intros W1 j Hj HW1. apply elem_of_seq in Hj.
  eapply returns_bind_silent; [eapply returns_mget; [done|lia..]|].
  intros front _.
  eapply returns_bind_silent; [eapply returns_mset; [done|lia..]|].
  intros W2 HW2.
  eapply returns_bind_silent; [eapply returns_mget; [done|lia..]|].
  intros back _. eapply returns_mset; [done|lia..].
Qed.

End CellWiseReturns.

Section BetaReturns.

Context {Scalar : Type} (ext : Collaborators Scalar).
Variable fuel : nat.

(** With [NDEBUG] defined, on the tables of well-formed collaborators and
    with enough fuel, the function returns a table with a row per face. *)
Lemma propagate_winding_numbers_beta_returns
    (V : list (Scalar * Scalar * Scalar)) (F : list face) (labels : list nat) :
  cells_well_formed ext fuel V F labels →
  returns (propagate_winding_numbers_beta ext true fuel V F labels)
    (fun W _ => mrows W = length F).
Proof.
  unfold cells_well_formed, propagate_winding_numbers_beta, beta_validate,
    beta_propagate_cells.
  destruct (unique_edge_map ext F) as [[[E uE] EMAP] uE2E].
  destruct (extract_manifold_patches ext F EMAP uE2E) as [num_patches P].
  destruct (extract_cells ext V F P E uE uE2E EMAP) as [num_cells per_patch_cells].
  destruct (outer_facet ext V F (seq 0 (length F))) as [outer flipped].
  intros Hwf. simpl in Hwf.
  destruct Hwf as (HP & Hpatches & Hlen & Hcells & Houter & Hlabels & Hfuel & Hint).
  eapply returns_bind with
    (R := fun r _ => ∃ adj, r = (P, per_patch_cells, num_patches, num_cells, adj) ∧
                            adjacency_in_range num_cells num_patches adj).
  { apply returns_emit_bind. rewrite assert_NDEBUG, bind_ret_l.
    apply returns_emit_bind. apply returns_emit_bind.
    eapply returns_bind_silent; [by apply build_cell_adjacency_returns|].
    intros adj Hadj.
    eapply returns_bind; [by apply (check_odd_cycle_returns fuel F P)|].
    intros ? ? _. apply returns_ret. by exists adj. }
  intros ? ? (adj & -> & Hadj).
  eapply returns_bind with
    (R := fun r _ => has_shape r.2 num_cells r.1).
  { apply returns_emit_bind.
    apply returns_vget_bind; [lia|]. intros outer_patch Houter_patch.
    pose proof Hpatches as Hpatches'.
    eapply Forall_lookup_1 in Hpatches'; [|done].
    apply returns_vget_bind; [lia|]. intros cells Hcells_outer.
    pose proof Hcells as Hcells'.
    eapply Forall_lookup_1 in Hcells' as [Hpos Hneg]; [|done].
    eapply returns_bind_silent; [by apply patch_labels_of_returns|].
    intros patch_labels0 (Hpl_len & Hpl_pos).
    rewrite assert_NDEBUG, bind_ret_l.
    eapply returns_bind_silent.
    { apply (returns_forM (fun _ _ => True)). intros z Hz.
      eapply Forall_forall in Hpl_pos; [|done].
      by apply returns_to_index. }
    intros patch_labels Hpl. apply Forall2_length in Hpl.
    eapply returns_bind_silent with (R := fun _ => True);
      [apply returns_maxCoeff; [lia|done]|].
    intros max_label _.
    set (infinity_cell := if flipped then cells.2 else cells.1).
    assert (infinity_cell < num_cells) as Hinf.
    { unfold infinity_cell. by destruct flipped. }
    destruct (seed_cell_W_spec (max_label + 1) num_cells infinity_cell Hinf)
      as (W0 & HW0 & _).
    rewrite (bind_Ok_nil _ _ _ HW0).
    destruct fuel as [|[|n]]; [lia..|].
    eapply returns_bind_silent.
    { apply (cell_bfs_returns patch_labels (max_label + 1) num_cells);
        [by rewrite <- Hpl, Hpl_len|by eapply has_shape_seed|done]. }
    intros W1 HW1. by apply returns_ret. }
  intros [num_labels per_cell_W] ? HW. simpl in HW.
  eapply returns_mono.
  - eapply faces_from_cells_returns; [done..|by rewrite Hlen|done].
  - intros W ? [(_ & Hrows & _) _]. done.
Qed.

End BetaReturns.

(** ** The cell-wise propagation: seed, step and output *)

Section CellWiseClaim.

Context {Scalar : Type} (ext : Collaborators Scalar).
Variables (NDEBUG : bool) (fuel : nat).

(** The seed, the step and the output of [propagate_winding_numbers_beta]:
    the cell on the outer side of the outer facet (the front cell of its
    patch, the back cell when the facet is flipped) is seeded with zeros; a
    cell that the traversal visits for the first time gets the row of the
    source cell with the label of the crossed patch changed by -1 for a set
    direction flag (from the back cell to the front cell) and by +1
    otherwise, the other labels copied; and the row of a face holds, for every label [j], the value of
    the front cell of its patch in column [2 j] and that of the back cell
    in column [2 j + 1].  With [NDEBUG] defined, on the tables of
    well-formed collaborators and with fuel for more rounds than there are
    cells, the function returns such a table. *)
Lemma cell_wise_seed_step_output :
  (∀ V F labels P per_patch_cells num_patches num_cells cell_adjacency
     num_labels per_cell_W l,
     beta_propagate_cells ext NDEBUG fuel V F labels P per_patch_cells
       num_patches num_cells cell_adjacency = (Ok (num_labels, per_cell_W), l) →
     ∃ outer_patch cells patch_labels W0 lb,
       P !! (outer_facet ext V F (seq 0 (length F))).1 = Some outer_patch ∧
       per_patch_cells !! outer_patch = Some cells ∧
       let infinity_cell :=
         if (outer_facet ext V F (seq 0 (length F))).2 then cells.2 else cells.1 in
       seed_cell_W num_labels num_cells infinity_cell = (Ok W0, []) ∧
       (∀ i, i < num_labels → coeff W0 infinity_cell i = Some 0%Z) ∧
       cell_bfs NDEBUG patch_labels num_labels cell_adjacency fuel W0
         [infinity_cell] = (Ok per_cell_W, lb)) ∧
  (∀ patch_labels num_labels curr_cell per_cell_W neighbor_cell direction
     patch_idx row W' l,
     mdata per_cell_W !! neighbor_cell = Some row →
     existsb (fun x => (x =? INVALID)%Z) row = true →
     cell_visit_neighbor NDEBUG patch_labels num_labels curr_cell per_cell_W
       (neighbor_cell, direction, patch_idx) = (Ok W', l) →
     (∀ i, i < num_labels →
        ∃ c label,
          coeff per_cell_W curr_cell i = Some c ∧
          patch_labels !! patch_idx = Some label ∧
          coeff W' neighbor_cell i =
            Some (Int32.add c (if decide (label = i)
                               then (if direction then -1 else 1) else 0)%Z) ∧
          (label ≠ i → Int32.in_range c → coeff W' neighbor_cell i = Some c)) ∧
     (∀ r c, r ≠ neighbor_cell → coeff W' r c = coeff per_cell_W r c)) ∧
  (∀ num_labels P per_patch_cells num_faces per_cell_W W l,
     faces_from_cells num_labels P per_patch_cells num_faces per_cell_W
       = (Ok W, l) →
     ∀ i j, i < num_faces → j < num_labels →
       ∃ patch positive_cell negative_cell front back,
         P !! i = Some patch ∧
         per_patch_cells !! patch = Some (positive_cell, negative_cell) ∧
         coeff per_cell_W positive_cell j = Some front ∧
         coeff per_cell_W negative_cell j = Some back ∧
         coeff W i (j*2) = Some front ∧ coeff W i (j*2 + 1) = Some back) ∧
  (NDEBUG = true → ∀ V F labels,
     cells_well_formed ext fuel V F labels →
     returns (propagate_winding_numbers_beta ext NDEBUG fuel V F labels)
       (fun W _ => mrows W = length F)).
Proof.
  split_and!.
  - intros V F labels P per_patch_cells num_patches num_cells cell_adjacency
      num_labels per_cell_W l H.
    unfold beta_propagate_cells in H.
    bind_inv H as [] ? _.
    destruct (outer_facet ext V F (seq 0 (length F))) as [idx flipped].
    bind_inv H as outer_patch ? Hp. apply vget_Ok in Hp as [Hp ->].
    bind_inv H as cells ? Hc. apply vget_Ok in Hc as [Hc ->].
    bind_inv H as pl0 ? _. bind_inv H as [] ? _.
    bind_inv H as patch_labels ? _.
    bind_inv H as max_label ? _.
    bind_inv H as W0 lw HW0. bind_inv H as W1 lb Hbfs.
    apply ret_Ok in H as [[= <- <-] _].
    pose proof HW0 as (-> & _ & Hzero & _)%seed_cell_W_Ok.
    exists outer_patch, cells, patch_labels, W0, lb. simpl. done.
  - intros patch_labels num_labels curr_cell per_cell_W neighbor_cell direction
      patch_idx row W' l Hrow Hinv H.
    eapply cell_visit_neighbor_new in H as (_ & Hnew & Hframe); [|done..].
    split; [|done]. intros i Hi.
    destruct (Hnew i Hi) as (c & label & Hc & Hl & Hn).
    exists c, label. split_and!; [done..|].
    intros Hne Hrange. rewrite Hn, decide_False by done.
    by rewrite Int32_add_0_r.
  - intros num_labels P per_patch_cells num_faces per_cell_W W l H.
    by apply faces_from_cells_spec in H as (_ & _ & H).
  - intros HN V F labels Hwf. rewrite HN.
    by apply propagate_winding_numbers_beta_returns.
Qed.

End CellWiseClaim.

Section CellWiseChecks.

Import Examples.

(** From the seeded cell 0 across patch 0, of label 0, with the flag unset:
    the neighbour gets 0 + 1 for label 0 and the 0 of label 1. *)
Lemma cell_wise_seed_step_output_check :
  ∃ W', cell_visit_neighbor false [0; 1] 2 0
          (Matrix 2 [[0; 0]; [INVALID; INVALID]; [INVALID; INVALID]]%Z)
          (1, false, 0) = (Ok W', []) ∧
        coeff W' 1 0 = Some (Int32.add 0 1) ∧ coeff W' 1 1 = Some 0%Z.
Proof.
  eexists. split; [vm_compute; reflexivity|].
  destruct (cell_wise_seed_step_output ex false 0) as (_ & Hstep & _ & _).
  edestruct (Hstep [0; 1] 2 0
               (Matrix 2 [[0; 0]; [INVALID; INVALID]; [INVALID; INVALID]]%Z)
               1 false 0) as [Hnew _];
    [reflexivity|reflexivity|vm_compute; reflexivity|].
  destruct (Hnew 0) as (c0 & l0 & Hc0 & Hl0 & H0 & _); [lia|].
  destruct (Hnew 1) as (c1 & l1 & Hc1 & Hl1 & _ & H1); [lia|].
  vm_compute in Hc0, Hl0, Hc1, Hl1. simplify_eq.
  split; [exact H0|]. apply H1; [done|]. vm_compute. by split.
Defined.

End CellWiseChecks.

(** ** With assertions, the alarm is the end *)

Lemma stops_at_bind {A B} (e : event) (m : M A) (f : A → M B) :
  stops_at e m → (∀ a, stops_at e (f a)) → stops_at e (m ≫= f).
Proof.
  unfold stops_at. rewrite bind_unfold. unfold bind.
  destruct m as [[a| | | |] l1]; simpl; try done.
  intros Hm Hf. specialize (Hf a). destruct (f a) as [o l2]; simpl in *.
  intros [H1|H2]%elem_of_app b ->.
  - by eapply Hm.
  - by eapply Hf.
Qed.

Lemma stops_at_logs {A} (e : event) (m : M A) :
  logs_within (fun x => x ≠ e) m → stops_at e m.
Proof.
  intros Hm He. eapply Forall_forall in Hm; [|exact He]. done.
Qed.

Lemma stops_at_foldM {A St} (e : event) (body : St → A → M St) (l : list A)
    (s : St) :
  (∀ s x, stops_at e (body s x)) → stops_at e (foldM body l s).
Proof.
  intros Hb. revert s. induction l as [|x l IH]; intros s; simpl.
  - apply stops_at_logs, logs_within_nil.
  - apply stops_at_bind; [apply Hb|apply IH].
Qed.

Lemma outcome_bind_abort {A B} (m : M A) (b : B) :
  outcome_of (m ≫= fun _ => abort) ≠ Ok b.
Proof. rewrite bind_unfold. unfold bind. by destruct m as [[]]. Qed.

Section Detection.

Variables (fuel : nat) (F : list face) (P : list nat).
Variables (per_patch_cells : list (nat * nat)) (num_patches : nat).

(** The step of the two-colouring at a neighbour that has the colour of
    the current cell. *)
Lemma colour_neighbor_same_colour (NDEBUG : bool) (curr_idx : nat) (curr_label : Z)
    (cell_labels parents : list Z) (Q : list nat) (neighbor : CellConnection)
    (label : Z) :
  cell_labels !! neighbor.1.1 = Some label → label ≠ 0%Z →
  label ≠ Int32.mul curr_label (-1) →
  colour_neighbor NDEBUG fuel F P per_patch_cells num_patches curr_idx curr_label
    (cell_labels, parents, Q) neighbor =
  (report_odd_cycle fuel F P per_patch_cells num_patches parents curr_idx
     neighbor.1.1;;
   if NDEBUG then ret (cell_labels, parents, Q) else abort).
Proof.
  intros Hlabel Hzero Hsame. unfold colour_neighbor.
  rewrite (vget_Some _ _ _ Hlabel), bind_ret_l.
  rewrite decide_False, decide_True by done.
  rewrite bool_decide_eq_false_2 by done.
  unfold assert. destruct NDEBUG; [by rewrite bind_ret_l|].
  by rewrite !bind_ret_l.
Qed.

Lemma colour_neighbor_stops (curr_idx : nat) (curr_label : Z) (st : colouring)
    (neighbor : CellConnection) :
  stops_at odd_cycle_alarm
    (colour_neighbor false fuel F P per_patch_cells num_patches curr_idx
       curr_label st neighbor).
Proof.
  destruct st as [[cell_labels parents] Q].
  destruct (cell_labels !! neighbor.1.1) as [label|] eqn:Hlabel.
  - destruct (decide (label = 0%Z)) as [->|Hzero];
      [|destruct (decide (label = Int32.mul curr_label (-1))) as [Heq|Hsame]].
    + apply stops_at_logs. unfold colour_neighbor.
      rewrite (vget_Some _ _ _ Hlabel), bind_ret_l, decide_True by done.
      logs_auto.
    + apply stops_at_logs. unfold colour_neighbor.
      rewrite (vget_Some _ _ _ Hlabel), bind_ret_l, decide_False by done.
      rewrite decide_False by (intros Hf; by apply Hf).
      unfold assert. logs_auto.
    + rewrite (colour_neighbor_same_colour _ _ _ _ _ _ _ label) by done.
      intros _ a. apply outcome_bind_abort.
  - apply stops_at_logs. unfold colour_neighbor, vget. rewrite Hlabel.
    apply logs_within_nil.
Qed.

Lemma colour_bfs_stops (cell_adjacency : list (list CellConnection)) (n : nat)
    (st : colouring) :
  stops_at odd_cycle_alarm
    (colour_bfs false fuel F P per_patch_cells num_patches cell_adjacency n st).
Proof.
  revert st.
  induction n as [|n IH]; intros [[cell_labels parents] [|curr Q]]; simpl;
    try (apply stops_at_logs, logs_within_nil).
  apply stops_at_bind; [apply stops_at_logs; logs_auto|intros curr_label].
  apply stops_at_bind; [apply stops_at_logs; logs_auto|intros neighbors].
  apply stops_at_bind; [|done].
  apply stops_at_foldM. intros. apply colour_neighbor_stops.
Qed.

Lemma check_odd_cycle_stops (cell_adjacency : list (list CellConnection))
    (num_cells : nat) :
  stops_at odd_cycle_alarm
    (check_odd_cycle false fuel F P per_patch_cells num_patches cell_adjacency
       num_cells).
Proof.
  unfold check_odd_cycle. apply stops_at_foldM.
  intros [cell_labels parents] i.
  apply stops_at_bind; [apply stops_at_logs; logs_auto|intros label].
  case_decide; [|apply stops_at_logs; logs_auto].
  apply stops_at_bind; [apply stops_at_logs; logs_auto|intros ?].
  apply stops_at_bind; [apply stops_at_logs; logs_auto|intros ?].
  apply stops_at_bind; [apply colour_bfs_stops|].
  intros [[? ?] ?]. apply stops_at_logs; logs_auto.
Qed.

End Detection.

Section OddCycleClaim.

Context {Scalar : Type} (ext : Collaborators Scalar).
Variables (NDEBUG : bool) (fuel : nat).

Lemma beta_validate_stops (V : list (Scalar * Scalar * Scalar)) (F : list face) :
  stops_at odd_cycle_alarm (beta_validate ext false fuel V F).
Proof.
  unfold beta_validate.
  apply stops_at_bind; [apply stops_at_logs; logs_auto|intros _].
  destruct (unique_edge_map ext F) as [[[E uE] EMAP] uE2E].
  apply stops_at_bind; [apply stops_at_logs; logs_auto|intros _].
  apply stops_at_bind; [apply stops_at_logs; logs_auto|intros _].
  destruct (extract_manifold_patches ext F EMAP uE2E) as [num_patches P].
  apply stops_at_bind; [apply stops_at_logs; logs_auto|intros _].
  destruct (extract_cells ext V F P E uE uE2E EMAP) as [num_cells per_patch_cells].
  apply stops_at_bind; [apply stops_at_logs; logs_auto|intros cell_adjacency].
  apply stops_at_bind; [apply check_odd_cycle_stops|intros ?].
  apply stops_at_logs; logs_auto.
Qed.

(** The check is the last step of the first part. *)
Lemma beta_validate_Ok (V : list (Scalar * Scalar * Scalar)) (F : list face)
    (P : list nat) (per_patch_cells : list (nat * nat))
    (num_patches num_cells : nat) (cell_adjacency : list (list CellConnection))
    (lv : list event) :
  beta_validate ext NDEBUG fuel V F
    = (Ok (P, per_patch_cells, num_patches, num_cells, cell_adjacency), lv) →
  ∃ res lc,
    check_odd_cycle NDEBUG fuel F P per_patch_cells num_patches cell_adjacency
      num_cells = (Ok res, lc) ∧
    lv = [Call "unique_edge_map"; Call "extract_manifold_patches";
          Call "extract_cells"] ++ lc.
Proof.
  unfold beta_validate. intros H.
  bind_inv H as [] l1 H1. injection H1 as <-.
  destruct (unique_edge_map ext F) as [[[E uE] EMAP] uE2E].
  bind_inv H as [] l2 H2.
  assert (l2 = []) as ->.
  { pose proof (logs_within_assert (fun _ => False) NDEBUG _
                  (is_orientable_logs _ F uE uE2E)) as Hlog.
    apply logs_within_silent in Hlog. by rewrite H2 in Hlog. }
  bind_inv H as [] l3 H3. injection H3 as <-.
  destruct (extract_manifold_patches ext F EMAP uE2E) as [num_patches' P'].
  bind_inv H as [] l4 H4. injection H4 as <-.
  destruct (extract_cells ext V F P' E uE uE2E EMAP) as [num_cells' cells'].
  bind_inv H as adj l5 H5.
  assert (l5 = []) as ->.
  { pose proof (build_cell_adjacency_logs (fun _ => False) cells' num_cells'
                  num_patches') as Hlog.
    apply logs_within_silent in Hlog. by rewrite H5 in Hlog. }
  bind_inv H as res lc Hcheck. apply ret_Ok in H as [[= <- <- <- <- <-] ->].
  exists res, lc. split; [done|]. simpl. by rewrite app_nil_r.
Qed.

(** The log of a run in which the second part started. *)
Lemma beta_log_order (V : list (Scalar * Scalar * Scalar)) (F : list face)
    (labels : list nat) :
  Call "outer_facet" ∈
    log_of (propagate_winding_numbers_beta ext NDEBUG fuel V F labels) →
  ∃ r lv,
    beta_validate ext NDEBUG fuel V F = (Ok r, lv) ∧
    (Call "outer_facet" ∉ lv) ∧
    log_of (propagate_winding_numbers_beta ext NDEBUG fuel V F labels)
      = lv ++ [Call "outer_facet"].
Proof.
  unfold propagate_winding_numbers_beta.
  pose proof (beta_validate_logs ext NDEBUG fuel V F) as Hquiet.
  destruct (beta_validate ext NDEBUG fuel V F) as [r lv] eqn:Hv.
  unfold logs_within in Hquiet. simpl in Hquiet.
  assert (Call "outer_facet" ∉ lv) as Hnot.
  { intros Hin. eapply Forall_forall in Hquiet; [|exact Hin]. done. }
  rewrite bind_unfold. unfold bind.
  destruct r as [[[[[P cells] num_patches] num_cells] adj]| | | |]; try done.
  intros _. eexists _, lv. split; [done|]. split; [done|].
  pose proof (beta_propagate_cells_log ext NDEBUG fuel V F labels P cells
                num_patches num_cells adj) as Hlog.
  rewrite bind_unfold. unfold bind.
  destruct (beta_propagate_cells _ _ _ _ _ _ _ _ _ _ _)
    as [[[num_labels per_cell_W]| | | |] lp]; simpl in Hlog; subst lp;
    try done.
  pose proof (logs_within_silent _
                (faces_from_cells_logs (fun _ => False) num_labels P cells
                   (length F) per_cell_W)) as Hsilent.
  destruct (faces_from_cells _ _ _ _ _) as [o lf]. simpl in *. by subst lf.
Qed.

(** A run that returns has started the second part. *)
Lemma beta_Ok_log (V : list (Scalar * Scalar * Scalar)) (F : list face)
    (labels : list nat) (W : matrix) :
  outcome_of (propagate_winding_numbers_beta ext NDEBUG fuel V F labels) = Ok W →
  Call "outer_facet" ∈
    log_of (propagate_winding_numbers_beta ext NDEBUG fuel V F labels).
Proof.
  destruct (propagate_winding_numbers_beta ext NDEBUG fuel V F labels)
    as [o l] eqn:H.
  simpl. intros ->. unfold propagate_winding_numbers_beta in H.
  bind_inv H as [[[[P cells] num_patches] num_cells] adj] lv Hv.
  bind_inv H as [num_labels per_cell_W] lp Hp.
  pose proof (beta_propagate_cells_log ext NDEBUG fuel V F labels P cells
                num_patches num_cells adj) as Hlog.
  rewrite Hp in Hlog. simpl in Hlog. subst lp.
  apply elem_of_app. right. apply elem_of_app. left. by left.
Qed.

End OddCycleClaim.

Section OddCycleTheorem.

Context {Scalar : Type} (ext : Collaborators Scalar).
Variable fuel : nat.

(** C8 (amended), the two builds told apart: in
    [propagate_winding_numbers_beta]
    the call of [outer_facet], with which the cell-wise propagation starts,
    is logged only after the two-colouring of the cells has returned, and
    after everything that the check logs.  At a neighbour that has the
    colour of the current cell the check prints the alarm on [cerr], then
    the cells on the path from the root of the current cell to the current
    cell and from the neighbour to its root, each of them also exported to
    its file, then the end of the line; the assertion that follows ends
    the program when assertions are enabled and is skipped when [NDEBUG] is
    defined.  With [NDEBUG] defined the function never ends in an exception
    or a failed assertion, and on the tables of well-formed collaborators
    it returns a table with one row per face; with assertions enabled a
    run that prints the alarm returns nothing and the cell-wise propagation
    does not start. *)
Theorem odd_cycle_is_reported :
  (∀ NDEBUG V F labels,
     Call "outer_facet" ∈
       log_of (propagate_winding_numbers_beta ext NDEBUG fuel V F labels) →
     ∃ P per_patch_cells num_patches num_cells cell_adjacency lv res lc,
       beta_validate ext NDEBUG fuel V F
         = (Ok (P, per_patch_cells, num_patches, num_cells, cell_adjacency), lv) ∧
       check_odd_cycle NDEBUG fuel F P per_patch_cells num_patches
         cell_adjacency num_cells = (Ok res, lc) ∧
       lv = [Call "unique_edge_map"; Call "extract_manifold_patches";
             Call "extract_cells"] ++ lc ∧
       (Call "outer_facet" ∉ lv) ∧
       log_of (propagate_winding_numbers_beta ext NDEBUG fuel V F labels)
         = lv ++ [Call "outer_facet"]) ∧
  (∀ NDEBUG F P per_patch_cells num_patches curr_idx curr_label cell_labels
     parents Q neighbor label path path2,
     length per_patch_cells = num_patches → length P = length F →
     cell_labels !! neighbor.1.1 = Some label → label ≠ 0%Z →
     label ≠ Int32.mul curr_label (-1) →
     trace_parents fuel parents curr_idx = (Ok path, []) →
     trace_parents fuel parents neighbor.1.1 = (Ok path2, []) →
     ∃ l',
       colour_neighbor NDEBUG fuel F P per_patch_cells num_patches curr_idx
         curr_label (cell_labels, parents, Q) neighbor
       = (if NDEBUG then Ok (cell_labels, parents, Q) else Abort,
          odd_cycle_alarm :: l' ++ [Cout [TEndl]]) ∧
       printed_cells l' = reverse path ++ path2 ∧
       exported_files l' = map cell_file (reverse path ++ path2)) ∧
  (∀ V F labels,
     calm (propagate_winding_numbers_beta ext true fuel V F labels) ∧
     (cells_well_formed ext fuel V F labels →
      returns (propagate_winding_numbers_beta ext true fuel V F labels)
        (fun W _ => mrows W = length F))) ∧
  (∀ V F labels,
     odd_cycle_alarm ∈
       log_of (propagate_winding_numbers_beta ext false fuel V F labels) →
     (Call "outer_facet" ∉
        log_of (propagate_winding_numbers_beta ext false fuel V F labels)) ∧
     ∀ W, outcome_of (propagate_winding_numbers_beta ext false fuel V F labels)
          ≠ Ok W).
Proof.
  split_and!.
  - intros NDEBUG V F labels Hin.
    destruct (beta_log_order ext NDEBUG fuel V F labels Hin)
      as ([[[[P cells] num_patches] num_cells] adj] & lv & Hv & Hnot & Hlog).
    destruct (beta_validate_Ok ext NDEBUG fuel V F _ _ _ _ _ _ Hv)
      as (res & lc & Hcheck & Hlv).
    by exists P, cells, num_patches, num_cells, adj, lv, res, lc.
  - intros NDEBUG F P cells num_patches curr_idx curr_label cell_labels parents
      Q neighbor label path path2 Hcells HP Hlabel Hzero Hsame Hpath Hpath2.
    rewrite (colour_neighbor_same_colour _ _ _ _ _ _ _ _ _ _ _ _ label) by done.
    destruct (report_odd_cycle_returns fuel F P cells num_patches Hcells HP
                parents curr_idx neighbor.1.1 path path2 Hpath Hpath2)
      as ([] & l & Hreport & l' & -> & Hprinted & Hfiles).
    exists l'. split; [|done].
    rewrite bind_unfold. unfold bind. rewrite Hreport.
    destruct NDEBUG; simpl; by rewrite app_nil_r.
  - intros V F labels. split.
    + apply propagate_winding_numbers_beta_calm.
    + apply propagate_winding_numbers_beta_returns.
  - intros V F labels Halarm.
    assert (Call "outer_facet" ∉
              log_of (propagate_winding_numbers_beta ext false fuel V F labels))
      as Hnot.
    { intros Hin.
      destruct (beta_log_order ext false fuel V F labels Hin)
        as (r & lv & Hv & _ & Hlog).
      rewrite Hlog in Halarm. apply elem_of_app in Halarm as [Hlv|Hcall].
      - pose proof (beta_validate_stops ext fuel V F) as Hstops.
        unfold stops_at in Hstops. rewrite Hv in Hstops. by eapply Hstops.
      - by apply list_elem_of_singleton in Hcall. }
    split; [done|]. intros W HW. by apply beta_Ok_log in HW.
Qed.

End OddCycleTheorem.

Section OddCycleChecks.

Import Examples.

(** C8, as stated, fails: on two coincident triangles, where both sides
    of the patch are the same cell, the run with assertions ends at the
    alarm, before the call of [outer_facet]. *)
Lemma odd_cycle_aborts_with_assertions :
  propagate_winding_numbers_beta ex false 10 V_triangle F_pillow [0; 0] =
  (Abort,
   [Call "unique_edge_map"; Call "extract_manifold_patches"; Call "extract_cells";
    odd_cycle_alarm;
    Cout [TNat 0; TStr " "]; WritePLY "cell_0.ply" [(0, 1, 2); (0, 2, 1)];
    Cout [TNat 0; TStr " "]; WritePLY "cell_0.ply" [(0, 1, 2); (0, 2, 1)];
    Cout [TEndl]]).
Proof. vm_compute. reflexivity. Qed.

(** On the same mesh with [NDEBUG] defined the alarm is followed by the
    cells 0 and 0, and the function returns a table with two rows. *)
Lemma odd_cycle_is_reported_witness :
  (∃ l', colour_neighbor true 10 F_pillow P_pillow [(0, 0)] 1 0 1%Z
           ([1%Z], [0%Z], []) (0, false, 0)
         = (Ok ([1%Z], [0%Z], []), odd_cycle_alarm :: l' ++ [Cout [TEndl]]) ∧
         printed_cells l' = [0; 0]) ∧
  returns (propagate_winding_numbers_beta ex true 10 V_triangle F_pillow [0; 0])
    (fun W _ => mrows W = 2).
Proof.
  destruct (odd_cycle_is_reported ex 10) as (_ & Hdetect & Hreturns & _).
  split.
  - destruct (Hdetect true F_pillow P_pillow [(0, 0)] 1 0 1%Z [1%Z] [0%Z] []
                (0, false, 0) 1%Z [0] [0]) as (l' & Hstep & Hprinted & _);
      [reflexivity|reflexivity|reflexivity|done|done|reflexivity|reflexivity|].
    exists l'. split; [exact Hstep|exact Hprinted].
  - apply (Hreturns V_triangle F_pillow [0; 0]).
    unfold cells_well_formed. simpl.
    split_and!; [reflexivity|repeat constructor|reflexivity|repeat constructor
                |lia|reflexivity|lia|done].
Defined.

End OddCycleChecks.

(** ** The traversal of the patches reaches every patch *)

Lemma row_assigned_Forall (row : list Z) :
  row_assigned row = true ↔ Forall (fun v => v ≠ INVALID) row.
Proof.
  unfold row_assigned. rewrite forallb_forall, Forall_forall. split.
  - intros H v Hv. apply list_elem_of_In, H in Hv.
    by apply negb_true_iff, Z.eqb_neq in Hv.
  - intros H v Hv. apply list_elem_of_In, H in Hv.
    by apply negb_true_iff, Z.eqb_neq.
Qed.

Lemma row_assigned_replicate (n : nat) :
  0 < n → row_assigned (replicate n INVALID) = false.
Proof. destruct n; [lia|done]. Qed.

Lemma assigned_rows_le (W : matrix) : assigned_rows W ≤ mrows W.
Proof. apply length_filter. Qed.

Lemma assigned_rows_insert (c : nat) (data : list (list Z)) (p : nat)
    (old new : list Z) :
  data !! p = Some old → row_assigned old = false → row_assigned new = true →
  assigned_rows (Matrix c (<[p := new]> data)) = S (assigned_rows (Matrix c data)).
Proof.
  intros Hp Hold Hnew. unfold assigned_rows. simpl.
  rewrite <- (take_drop_middle data p old Hp) at 2.
  rewrite insert_take_drop by by eapply lookup_lt_Some.
  rewrite !filter_app, !length_app, filter_cons_True by done.
  rewrite (filter_cons_False _ old) by congruence. simpl. lia.
Qed.

Lemma assigned_rows_pos (W : matrix) (p : nat) :
  assigned W p → 0 < assigned_rows W.
Proof.
  intros (row & Hrow & Ha). unfold assigned_rows.
  assert (row ∈ filter (fun row => row_assigned row = true) (mdata W)) as Hin.
  { apply list_elem_of_filter. split; [done|]. by eapply list_elem_of_lookup_2. }
  destruct (filter _ (mdata W)); [by apply elem_of_nil in Hin|simpl; lia].
Qed.

Lemma assigned_rows_lt (W : matrix) (p : nat) (old : list Z) :
  mdata W !! p = Some old → row_assigned old = false →
  assigned_rows W < mrows W.
Proof.
  intros Hp Hold. unfold assigned_rows, mrows.
  rewrite <- (take_drop_middle (mdata W) p old Hp).
  rewrite !filter_app, !length_app, (filter_cons_False _ old) by congruence.
  pose proof (length_filter (fun row => row_assigned row = true)
                (take p (mdata W))).
  pose proof (length_filter (fun row => row_assigned row = true)
                (drop (S p) (mdata W))).
  simpl. lia.
Qed.

Lemma row_replaced_refl (nb : nat) (old : list Z) (W : matrix) :
  mdata W !! nb = Some old → row_replaced nb old W W.
Proof. intros Hold. exists old. by rewrite list_insert_id. Qed.

Lemma row_replaced_mset (nb : nat) (old : list Z) (W X X' : matrix) (c : nat)
    (v : Z) (l : list event) :
  mdata W !! nb = Some old → row_replaced nb old W X →
  mset X nb c v = (Ok X', l) → row_replaced nb old W X'.
Proof.
  intros Hold (row & Hdata & Hlen & Hcols) (row' & Hrow' & _ & -> & _)%mset_Ok.
  rewrite Hdata in Hrow'.
  rewrite list_lookup_insert_eq in Hrow' by by eapply lookup_lt_Some.
  injection Hrow' as <-.
  exists (<[c := v]> row). simpl. rewrite Hdata, list_insert_insert_eq.
  by rewrite length_insert.
Qed.

Lemma derive_row_replaced (forward : bool) (num_labels curr nb label : nat)
    (cons : bool) (old : list Z) (W W' : matrix) (l : list event) :
  mdata W !! nb = Some old →
  (if forward then derive_next else derive_prev)
    num_labels curr nb label cons W = (Ok W', l) →
  row_replaced nb old W W'.
Proof.
  intros Hold H.
  destruct forward; unfold derive_next, derive_prev in H;
    (eapply (foldM_invariant (row_replaced nb old W)) in H;
       [exact H| |by apply row_replaced_refl]);
    clear H; intros X i X' l' H HX;
    bind_inv H as s ? _; case_bool_decide; bind_inv H as X1 ? H1;
    eapply row_replaced_mset in H1; try done;
    eapply row_replaced_mset in H; done.
Qed.

Section Traversal.

Variables (NDEBUG : bool) (labels : list nat).
Variables (orders : list (list nat)) (orientations : list (list bool)).
Variable patch_curve_adjacency : list (list nat).
Variables (num_patches num_labels : nat).

Hypothesis patches_are_few : (Z.of_nat num_patches < Int32.max_int)%Z.

(** The table of the traversal. *)
Let table (W : matrix) : Prop :=
  has_shape W num_patches (2 * num_labels) ∧ bounded_rows W.

Let grows (W W' : matrix) : Prop := ∀ p, assigned W p → assigned W' p.

(** What one of the two visits at a curve does. *)
Lemma visit_neighbour_spec (forward : bool) (curr : nat) (orientation : list bool)
    (curr_ori : bool) (i nb : nat) (W : matrix) (Q : list nat) (W' : matrix)
    (Q' : list nat) (l : list event) :
  table W → assigned W curr →
  (if forward then visit_next else visit_prev)
    labels num_labels curr orientation curr_ori i nb (W, Q) = (Ok (W', Q'), l) →
  table W' ∧ grows W W' ∧ assigned W' nb ∧
  ((W' = W ∧ Q' = Q) ∨
   (Q' = Q ++ [nb] ∧ ∀ p, assigned W' p → assigned W p ∨ p = nb)).
Proof.
  intros [Hshape Hbound] (row & Hrow & Ha) H.
  assert (∃ row_nb, mdata W !! nb = Some row_nb ∧
            if row_assigned row_nb then W' = W ∧ Q' = Q
            else ∃ label cons la,
              Q' = Q ++ [nb] ∧ curr ≠ nb ∧
              (if forward then derive_next else derive_prev)
                num_labels curr nb label cons W = (Ok W', la))
    as (row_nb & Hnb & Hcase).
  { destruct forward; unfold visit_next, visit_prev in H;
      apply bind_Ok in H
        as (a & l1 & l2 & (row_nb & Hnb & -> & ->)%winding_num_assigned_Ok & H & ->);
      exists row_nb; (split; [done|]);
      destruct (row_assigned row_nb) eqn:Hb; simpl in H.
    1,3: by apply ret_Ok in H as [[= <- <-] _].
    all: bind_inv H as nb_ori ? _; bind_inv H as label ? _;
      bind_inv H as W1 la Hd; apply ret_Ok in H as [[= <- <-] _];
      exists label, (negb (eqb nb_ori curr_ori)), la; split_and!; try done;
      by eapply row_assigned_differs. }
  destruct (row_assigned row_nb) eqn:Hb.
  { destruct Hcase as [-> ->].
    split_and!; [by split|by intros ? ?|by exists row_nb|by left]. }
  destruct Hcase as (label & cons & la & -> & Hne & Hd).
  pose proof (derive_row_replaced forward _ _ _ _ _ _ _ _ _ Hnb Hd)
    as (row' & Hdata & Hlen & Hcols).
  destruct Hshape as (Hc & Hr & Hrows).
  pose proof (Hrows _ _ Hnb) as Hlen_nb.
  pose proof (assigned_rows_lt W nb row_nb Hnb Hb) as Hlt.
  assert (nb < length (mdata W)) as Hnb_lt by by eapply lookup_lt_Some.
  (* the entries of the new row *)
  assert (Forall (fun v => v ≠ INVALID ∧
                           (Z.abs v ≤ Z.of_nat (S (assigned_rows W)))%Z) row')
    as Hentries.
  { apply Forall_lookup. intros c v Hv.
    assert (c < 2 * num_labels) as Hclt.
    { apply lookup_lt_Some in Hv. lia. }
    assert (coeff W' nb c = Some v) as Hcoeff.
    { unfold coeff. rewrite Hdata, list_lookup_insert_eq by done. done. }
    assert (∃ s off,
              coeff W curr ((c / 2) * 2 + off) = Some s ∧
              (v = s ∨ v = Int32.add s 1 ∨ v = Int32.add s (-1))) as
        (s & off & Hs & Hv').
    { assert (c / 2 < num_labels) as Hk by (apply Nat.Div0.div_lt_upper_bound; lia).
      assert (c = (c / 2) * 2 ∨ c = (c / 2) * 2 + 1) as Hc2.
      { pose proof (Nat.div_mod_eq c 2). pose proof (Nat.mod_upper_bound c 2). lia. }
      destruct forward.
      - apply derive_next_spec in Hd as (_ & _ & Hnew & _); [|done].
        destruct (Hnew _ Hk) as (s & Hs & Hf & Hbk).
        exists s, 0. rewrite Nat.add_0_r. split; [done|].
        destruct Hc2 as [Hc2|Hc2]; rewrite Hc2 in Hcoeff.
        + rewrite Hf in Hcoeff. injection Hcoeff as <-.
          repeat case_decide; destruct cons; auto.
        + rewrite Hbk in Hcoeff. injection Hcoeff as <-.
          repeat case_decide; destruct cons; auto.
      - apply derive_prev_spec in Hd as (_ & _ & Hnew & _); [|done].
        destruct (Hnew _ Hk) as (s & Hs & Hf & Hbk).
        exists s, 1. split; [done|].
        destruct Hc2 as [Hc2|Hc2]; rewrite Hc2 in Hcoeff.
        + rewrite Hf in Hcoeff. injection Hcoeff as <-.
          repeat case_decide; destruct cons; auto.
        + rewrite Hbk in Hcoeff. injection Hcoeff as <-.
          repeat case_decide; destruct cons; auto. }
    unfold coeff in Hs. rewrite Hrow in Hs. simpl in Hs.
    pose proof (Hbound _ _ Hrow Ha) as Hb_curr.
    eapply Forall_lookup_1 in Hb_curr; [|exact Hs].
    unfold mrows in *. unfold INVALID, Int32.max_int in *.
    assert (Int32.add s 1 = s + 1 ∧ Int32.add s (-1) = s - 1)%Z as [Hp1 Hm1].
    { unfold Int32.add. rewrite !Int32_wrap_in_range; [lia| |];
        unfold Int32.in_range, Int32.min_int, Int32.max_int; lia. }
    rewrite Hp1, Hm1 in Hv'. lia. }
  assert (row_assigned row' = true) as Ha'.
  { apply row_assigned_Forall. eapply Forall_impl; [exact Hentries|]. by intros ? []. }
  assert (assigned_rows W' = S (assigned_rows W)) as Hcount.
  { destruct W' as [c' data']. simpl in Hdata, Hcols. subst.
    destruct W as [cw dw]. simpl in *. by eapply assigned_rows_insert. }
  assert (∀ p r, p ≠ nb → mdata W' !! p = Some r ↔ mdata W !! p = Some r)
    as Hother.
  { intros p r Hp. by rewrite Hdata, list_lookup_insert_ne. }
  split_and!.
  - split.
    + split_and!; [congruence| |].
      * unfold mrows. by rewrite Hdata, length_insert.
      * intros p r Hp. destruct (decide (p = nb)) as [->|Hpne].
        -- rewrite Hdata, list_lookup_insert_eq in Hp by done.
           injection Hp as <-. lia.
        -- apply Hother in Hp; [|done]. by eapply Hrows.
    + intros p r Hp Hr'. rewrite Hcount.
      destruct (decide (p = nb)) as [->|Hpne].
      * rewrite Hdata, list_lookup_insert_eq in Hp by done.
        injection Hp as <-. eapply Forall_impl; [exact Hentries|]. by intros ? [].
      * apply Hother in Hp; [|done].
        eapply Forall_impl; [exact (Hbound _ _ Hp Hr')|]. intros v Hv. simpl in Hv. lia.
  - intros p (r & Hp & Hr'). exists r. split; [|done].
    apply Hother; [|done]. intros ->. congruence.
  - exists row'. split; [|done]. by rewrite Hdata, list_lookup_insert_eq.
  - right. split; [done|]. intros p (r & Hp & Hr').
    destruct (decide (p = nb)) as [->|Hpne]; [by right|left].
    exists r. split; [|done]. by apply Hother.
Qed.

Variable outer : nat.

Let reached (p : nat) : Prop := visited orders patch_curve_adjacency outer p.

(** The table and the queue after some visits: the table has grown, and
    the patches that are new in it are those that were pushed, all of them
    reached from [outer]. *)
Let extends (W : matrix) (Q : list nat) (W' : matrix) (Q' : list nat) : Prop :=
  table W' ∧ grows W W' ∧
  ∃ new, Q' = Q ++ new ∧ Forall (fun p => assigned W' p ∧ reached p) new ∧
         ∀ p, assigned W' p → assigned W p ∨ p ∈ new.

Lemma extends_refl (W : matrix) (Q : list nat) : table W → extends W Q W Q.
Proof.
  intros HW. split_and!; [done|by intros ? ?|].
  exists []. rewrite app_nil_r. split_and!; [done|constructor|by left].
Qed.

Lemma extends_trans (W1 W2 W3 : matrix) (Q1 Q2 Q3 : list nat) :
  extends W1 Q1 W2 Q2 → extends W2 Q2 W3 Q3 → extends W1 Q1 W3 Q3.
Proof.
  intros (_ & Hg12 & new1 & -> & Hnew1 & Hold1)
         (HW3 & Hg23 & new2 & -> & Hnew2 & Hold2).
  split_and!; [done|by intros p Hp; apply Hg23, Hg12|].
  exists (new1 ++ new2). rewrite app_assoc. split_and!; [done| |].
  - apply Forall_app. split; [|done].
    eapply Forall_impl; [exact Hnew1|]. intros p [Hp ?]. split; [|done].
    by apply Hg23.
  - intros p Hp. destruct (Hold2 p Hp) as [Hp2|Hin].
    + destruct (Hold1 p Hp2) as [?|Hin]; [by left|right].
      apply elem_of_app. by left.
    + right. apply elem_of_app. by right.
Qed.

Lemma visit_neighbour_extends (forward : bool) (curr : nat)
    (orientation : list bool) (curr_ori : bool) (i nb : nat) (W : matrix)
    (Q : list nat) (W' : matrix) (Q' : list nat) (l : list event) :
  table W → assigned W curr → reached nb →
  (if forward then visit_next else visit_prev)
    labels num_labels curr orientation curr_ori i nb (W, Q) = (Ok (W', Q'), l) →
  extends W Q W' Q' ∧ assigned W' nb.
Proof.
  intros HW Hcurr Hreached H.
  destruct (visit_neighbour_spec _ _ _ _ _ _ _ _ _ _ _ HW Hcurr H)
    as (HW' & Hgrows & Hnb & [[-> ->]|[-> Hnew]]).
  - split; [by apply extends_refl|done].
  - split; [|done]. split_and!; [done..|].
    exists [nb]. split_and!; [done|by apply Forall_singleton|].
    intros p Hp. destruct (Hnew p Hp) as [?| ->]; [by left|right]. by left.
Qed.

(** The visits at one curve of the dequeued patch: its two neighbours in
    the order of the curve have their rows afterwards. *)
Lemma visit_curve_extends (curr : nat) (curves : list nat) (W : matrix)
    (Q : list nat) (curve_idx : nat) (W' : matrix) (Q' : list nat)
    (l : list event) :
  table W → assigned W curr → reached curr →
  patch_curve_adjacency !! curr = Some curves → curve_idx ∈ curves →
  visit_curve NDEBUG labels orders orientations num_labels curr (W, Q) curve_idx
    = (Ok (W', Q'), l) →
  extends W Q W' Q' ∧
  ∀ order, orders !! curve_idx = Some order →
    ∀ q, found_next_to order curr q → assigned W' q.
Proof.
  intros HW Hcurr Hreached Hcurves Hin H. unfold visit_curve in H.
  bind_inv H as order ? Ho. apply vget_Ok in Ho as [Ho ->].
  bind_inv H as orientation ? Hor. apply vget_Ok in Hor as [Hor ->].
  bind_inv H as [] ? _. bind_inv H as [] ? _.
  bind_inv H as curr_i ? Hfound.
  destruct (find_position order curr) as [ci|] eqn:Hpos; [|discriminate].
  simpl in Hfound. apply ret_Ok in Hfound as [-> ->].
  bind_inv H as curr_ori ? _.
  bind_inv H as next_i ? Hnext. bind_inv H as prev_i ? Hprev.
  bind_inv H as next_patch ? Hnp. apply vget_Ok in Hnp as [Hnp ->].
  bind_inv H as prev_patch ? Hpp. apply vget_Ok in Hpp as [Hpp ->].
  assert ((next_i = (curr_i + 1) mod length order ∧
           prev_i = (curr_i + length order - 1) mod length order) ∨
          (next_i = (curr_i + length order - 1) mod length order ∧
           prev_i = (curr_i + 1) mod length order)) as Hpositions.
  { destruct curr_ori;
      apply umod_Ok in Hnext as (_ & -> & _);
      apply umod_Ok in Hprev as (_ & -> & _); tauto. }
  assert (∀ q, found_next_to order curr q ↔ q = next_patch ∨ q = prev_patch)
    as Hneighbours.
  { intros q. split.
    - intros (ci' & Hpos' & Hq). assert (ci' = curr_i) as -> by congruence.
      destruct Hpositions as [[-> ->]|[-> ->]], Hq as [Hq|Hq];
        [left|right|right|left]; congruence.
    - intros Hq. exists curr_i. split; [done|].
      destruct Hpositions as [[-> ->]|[-> ->]], Hq as [-> | ->]; tauto. }
  assert (∀ q, q = next_patch ∨ q = prev_patch → reached q) as Hstep.
  { intros q Hq. eapply visited_step; [exact Hreached|].
    exists curves, curve_idx, order. split_and!; [done..|]. by apply Hneighbours. }
  bind_inv H as [W1 Q1] ? H1.
  apply (visit_neighbour_extends true) in H1 as [Hext1 Hnext_a];
    [|done|done|apply Hstep; by left].
  pose proof Hext1 as (HW1 & Hg1 & _).
  apply (visit_neighbour_extends false) in H as [Hext2 Hprev_a];
    [|done|by apply Hg1|apply Hstep; by right].
  pose proof Hext2 as (_ & Hg2 & _).
  split; [by eapply extends_trans|].
  intros order' Ho' q Hq. assert (order' = order) as -> by congruence.
  apply Hneighbours in Hq as [-> | ->]; [by apply Hg2|done].
Qed.

(** The loop over the curves of the dequeued patch. *)
Lemma visit_curves_extends (curr : nat) (all_curves curves : list nat)
    (W : matrix) (Q : list nat) (W' : matrix) (Q' : list nat) (l : list event) :
  table W → assigned W curr → reached curr →
  patch_curve_adjacency !! curr = Some all_curves →
  (∀ c, c ∈ curves → c ∈ all_curves) →
  foldM (visit_curve NDEBUG labels orders orientations num_labels curr) curves
    (W, Q) = (Ok (W', Q'), l) →
  extends W Q W' Q' ∧
  ∀ curve_idx order, curve_idx ∈ curves → orders !! curve_idx = Some order →
    ∀ q, found_next_to order curr q → assigned W' q.
Proof.
  intros HW Hcurr Hreached Hall. revert W Q l HW Hcurr.
  induction curves as [|c curves IH]; intros W Q l HW Hcurr Hsub H.
  - apply ret_Ok in H as [[= <- <-] _]. split; [by apply extends_refl|].
    intros ? ? Hin. by apply elem_of_nil in Hin.
  - rewrite foldM_cons in H. bind_inv H as [W1 Q1] ? H1.
    eapply visit_curve_extends in H1 as [Hext1 Hc];
      [|done|done|done|done|apply Hsub; by left].
    pose proof Hext1 as (HW1 & Hg1 & _).
    apply IH in H as [Hext2 Hcs];
      [|done|by apply Hg1|intros; apply Hsub; by right].
    pose proof Hext2 as (_ & Hg2 & _).
    split; [by eapply extends_trans|].
    intros curve_idx order [->|Hin]%elem_of_cons Ho q Hq.
    + apply Hg2. by eapply Hc.
    + by eapply Hcs.
Qed.

(** Every patch with a row is reached from [outer], and is in the queue or
    has all its neighbours with rows. *)
Let closed (W : matrix) (p : nat) : Prop :=
  ∀ q, visited_from orders patch_curve_adjacency p q → assigned W q.

Let frontier (W : matrix) (Q : list nat) : Prop :=
  table W ∧ Forall (assigned W) Q ∧
  ∀ p, assigned W p → reached p ∧ (p ∈ Q ∨ closed W p).

Lemma patch_bfs_closed (n : nat) (W : matrix) (Q : list nat) (W' : matrix)
    (l : list event) :
  frontier W Q →
  patch_bfs NDEBUG labels orders orientations patch_curve_adjacency num_labels
    n (W, Q) = (Ok W', l) →
  table W' ∧ grows W W' ∧ ∀ p, assigned W' p → reached p ∧ closed W' p.
Proof.
  revert W Q l. induction n as [|n IH]; intros W Q l (HW & HQ & Hfront) H;
    [discriminate|].
  destruct Q as [|curr Q]; simpl in H.
  - apply ret_Ok in H as [<- _]. split_and!; [done|by intros ? ?|].
    intros p Hp. destruct (Hfront p Hp) as [? [Hin|?]]; [|done].
    by apply elem_of_nil in Hin.
  - apply Forall_cons in HQ as [Hcurr HQ].
    destruct (Hfront curr Hcurr) as [Hreached _].
    bind_inv H as curr_label ? _.
    bind_inv H as curves ? Hcurves. apply vget_Ok in Hcurves as [Hcurves ->].
    bind_inv H as [W1 Q1] ? H1.
    eapply visit_curves_extends in H1
      as [(HW1 & Hg1 & new & -> & Hnew & Hold) Hneighbours]; [|done..].
    apply IH in H as (HW' & Hg & Hclosed).
    + split_and!; [done|by intros p Hp; apply Hg, Hg1|done].
    + split_and!; [done| |].
      * apply Forall_app. split.
        -- eapply Forall_impl; [exact HQ|]. intros p Hp. by apply Hg1.
        -- eapply Forall_impl; [exact Hnew|]. by intros p [].
      * intros p Hp. destruct (Hold p Hp) as [Hp0|Hin].
        -- destruct (Hfront p Hp0) as [Hr [[->|Hin]%elem_of_cons|Hcl]].
           ++ split; [done|right].
              intros q (cs & c & order & Hcs & Hc & Ho & Hq).
              assert (cs = curves) as -> by congruence. by eapply Hneighbours.
           ++ split; [done|left]. apply elem_of_app. by left.
           ++ split; [done|right]. intros q Hq. by apply Hg1, Hcl.
        -- eapply Forall_forall in Hnew as [_ Hr]; [|exact Hin].
           split; [done|left]. apply elem_of_app. by right.
Qed.

(** After the traversal the patches with rows are those reached from
    [outer]. *)
Lemma patch_bfs_reaches (n : nat) (W0 : matrix) (W' : matrix) (l : list event) :
  table W0 → (∀ p, assigned W0 p ↔ p = outer) →
  patch_bfs NDEBUG labels orders orientations patch_curve_adjacency num_labels
    n (W0, [outer]) = (Ok W', l) →
  table W' ∧ ∀ p, assigned W' p ↔ reached p.
Proof.
  intros HW0 Hseed H. apply patch_bfs_closed in H as (HW' & Hg & Hclosed).
  - split; [done|]. intros p. split; [by intros [? _]%Hclosed|].
    induction 1 as [|p q _ IH Hq].
    + apply Hg. by apply Hseed.
    + destruct (Hclosed p IH) as [_ Hcl]. by apply Hcl.
  - split_and!; [done| |].
    + apply Forall_singleton. by apply Hseed.
    + intros p ->%Hseed. split; [constructor|left; by left].
Qed.

End Traversal.

(** The table that the seed leaves. *)
Lemma seed_patch_W_frontier (num_patches num_labels outer lab : nat)
    (flipped : bool) (W0 : matrix) (l : list event) :
  0 < num_labels →
  seed_patch_W num_patches num_labels outer lab flipped = (Ok W0, l) →
  has_shape W0 num_patches (2 * num_labels) ∧ bounded_rows W0 ∧
  ∀ p, assigned W0 p ↔ p = outer ∧ outer < num_patches.
Proof.
  intros Hnl H. pose proof (seed_patch_W_data _ _ _ _ _ _ _ H) as Hdata.
  set (c := if flipped then lab * 2 else lab * 2 + 1) in *.
  set (v := (if flipped then -1 else 1)%Z) in *.
  set (seed := <[c := v]> (replicate (2 * num_labels) 0%Z)) in *.
  assert (mcols W0 = 2 * num_labels) as Hcols.
  { unfold seed_patch_W in H. bind_inv H as W1 ? H1.
    apply mset_row_Ok in H1 as (? & _ & _ & -> & _).
    destruct flipped; by apply mset_Ok in H as (? & _ & _ & -> & _). }
  assert (row_assigned seed = true) as Hseed.
  { apply row_assigned_seed. unfold v. by destruct flipped. }
  assert (∀ p, assigned W0 p ↔ p = outer ∧ outer < num_patches) as Hassigned.
  { intros p. unfold assigned. rewrite Hdata. split.
    - intros (row & Hrow & Ha).
      apply list_lookup_insert_Some in Hrow as [(-> & _ & Hlt)|(Hne & Hrow)].
      + by rewrite length_replicate in Hlt.
      + apply lookup_replicate in Hrow as [-> _].
        rewrite row_assigned_replicate in Ha by lia. done.
    - intros [-> Hlt]. exists seed. split; [|done].
      apply list_lookup_insert_eq. by rewrite length_replicate. }
  split_and!; [split_and!| |done].
  - done.
  - unfold mrows. by rewrite Hdata, length_insert, length_replicate.
  - intros p row. rewrite Hdata.
    intros [(_ & <- & _)|(_ & [-> _]%lookup_replicate)]%list_lookup_insert_Some.
    + unfold seed. by rewrite length_insert, length_replicate.
    + by rewrite length_replicate.
  - intros p row Hrow Ha.
    assert (assigned W0 p) as Hp by by exists row.
    pose proof (assigned_rows_pos _ _ Hp) as Hpos.
    apply Hassigned in Hp as [-> Hlt].
    rewrite Hdata, list_lookup_insert_eq in Hrow
      by by rewrite length_replicate.
    injection Hrow as <-. apply Forall_lookup. intros k x Hx. unfold seed in Hx.
    apply list_lookup_insert_Some in Hx as [(_ & <- & _)|(_ & [-> _]%lookup_replicate)].
    + unfold v. destruct flipped; lia.
    + lia.
Qed.

Lemma all_assigned_rows (W : matrix) :
  all_assigned W = true ↔ ∀ p, p < mrows W → assigned W p.
Proof.
  unfold all_assigned. rewrite forallb_forall. split.
  - intros H p Hp. destruct (lookup_lt_is_Some_2 (mdata W) p Hp) as [row Hrow].
    exists row. split; [done|]. apply H. by eapply list_elem_of_In, list_elem_of_lookup_2.
  - intros H row [p Hp]%list_elem_of_In%list_elem_of_lookup.
    destruct (H p) as (row' & Hrow' & Ha); [by eapply lookup_lt_Some|].
    congruence.
Qed.

Section PatchTraversalClaim.

Context {Scalar : Type} (ext : Collaborators Scalar).
Variable fuel : nat.
Variables (V : list (Scalar * Scalar * Scalar)) (F : list face).
Variables (uE : list edge) (uE2E : list (list nat)).
Variables (labels P : list nat) (intersection_curves : list (list nat)).

(** After a traversal that returns, from the table of the seed and with
    fewer patches than [INVALID], the patches whose rows hold no [INVALID]
    are the patches that the traversal has come to; with assertions enabled
    the propagator returns only a complete table. *)
Lemma traversal_assigns_the_visited :
  (∀ NDEBUG orders orientations patch_curve_adjacency num_patches num_labels
     outer lab flipped W0 l0 W' l',
     0 < num_labels → (Z.of_nat num_patches < Int32.max_int)%Z →
     seed_patch_W num_patches num_labels outer lab flipped = (Ok W0, l0) →
     patch_bfs NDEBUG labels orders orientations patch_curve_adjacency
       num_labels fuel (W0, [outer]) = (Ok W', l') →
     (∀ p, assigned W' p ↔ visited orders patch_curve_adjacency outer p) ∧
     (all_assigned W' = true ↔
      ∀ p, p < num_patches → visited orders patch_curve_adjacency outer p) ∧
     ((∀ p, p < num_patches → visited orders patch_curve_adjacency outer p) →
      assert NDEBUG (ret (all_assigned W')) = ret tt)) ∧
  (∀ b W l,
     propagate_winding_numbers_single_component_patch_wise ext false fuel
       V F uE uE2E labels P intersection_curves = (Ok (b, W), l) →
     all_assigned W = true ∧
     ∃ max_patch orders orientations patch_curve_adjacency l0 outer,
       maxCoeff P = ret max_patch ∧
       order_curves ext false V F uE uE2E P intersection_curves (max_patch + 1)
         = (Ok (orders, orientations, patch_curve_adjacency), l0) ∧
       P !! (outer_facet ext V F (seq 0 (length F))).1 = Some outer ∧
       ((Z.of_nat (max_patch + 1) < Int32.max_int)%Z →
        ∀ p, p ≤ max_patch → visited orders patch_curve_adjacency outer p)).
Proof.
  assert (∀ NDEBUG orders orientations patch_curve_adjacency num_patches
            num_labels outer lab flipped W0 l0 W' l',
            0 < num_labels → (Z.of_nat num_patches < Int32.max_int)%Z →
            seed_patch_W num_patches num_labels outer lab flipped = (Ok W0, l0) →
            patch_bfs NDEBUG labels orders orientations patch_curve_adjacency
              num_labels fuel (W0, [outer]) = (Ok W', l') →
            (∀ p, assigned W' p ↔ visited orders patch_curve_adjacency outer p) ∧
            (all_assigned W' = true ↔
             ∀ p, p < num_patches →
               visited orders patch_curve_adjacency outer p)) as Hbfs.
  { intros NDEBUG orders orientations pca num_patches num_labels outer lab
      flipped W0 l0 W' l' Hlabels Hfew Hseed H.
    assert (outer < num_patches) as Houter.
    { unfold seed_patch_W in Hseed. bind_inv Hseed as W1 ? H1.
      apply mset_row_Ok in H1 as (old & Hold & _).
      apply lookup_lt_Some in Hold. unfold mconst in Hold. simpl in Hold.
      by rewrite length_replicate in Hold. }
    apply seed_patch_W_frontier in Hseed as (Hshape & Hbound & Hassigned);
      [|done].
    eapply (patch_bfs_reaches _ _ _ _ _ num_patches) in H
      as [[(_ & Hrows & _) _] Hreached]; [|done|by split|].
    - split; [done|]. rewrite all_assigned_rows, Hrows.
      split; intros Hall p Hp; by apply Hreached, Hall.
    - intros p. rewrite Hassigned. tauto. }
  split.
  - intros NDEBUG orders orientations pca num_patches num_labels outer lab
      flipped W0 l0 W' l' Hlabels Hfew Hseed H.
    destruct (Hbfs _ _ _ _ _ _ _ _ _ _ _ _ _ Hlabels Hfew Hseed H)
      as [Hassigned Hall].
    split_and!; [done..|]. intros Hreach. apply Hall in Hreach.
    rewrite Hreach. by destruct NDEBUG.
  - intros b W l H.
    unfold propagate_winding_numbers_single_component_patch_wise in H.
    bind_inv H as max_patch ? Hmax.
    assert (maxCoeff P = ret max_patch) as Hmax'.
    { destruct P; [discriminate|]. by injection Hmax as <- <-. }
    bind_inv H as [] ? _.
    bind_inv H as [[orders orientations] pca] l0 Horders.
    bind_inv H as max_label ? _. bind_inv H as [] ? _.
    destruct (outer_facet ext V F (seq 0 (num_faces F))) as [idx flipped] eqn:Hof.
    bind_inv H as outer ? Houter. apply vget_Ok in Houter as [Houter ->].
    bind_inv H as lab ? _.
    bind_inv H as W0 ? Hseed. bind_inv H as W1 ? Hbfs1.
    bind_inv H as [] ? Hassert.
    apply assert_Ok in Hassert as [[? _]|[_ Hassert]]; [done|].
    apply ret_Ok in Hassert as [Hall _].
    bind_inv H as consistent ? _. apply ret_Ok in H as [[= <- <-] _].
    split; [done|].
    exists max_patch, orders, orientations, pca, l0, outer.
    split_and!; [done|done| |].
    + unfold num_faces in Hof. by rewrite Hof.
    + intros Hfew p Hp.
      assert (0 < max_label + 1) as Hlabels by lia.
      destruct (Hbfs _ _ _ _ _ _ _ _ _ _ _ _ _ Hlabels Hfew Hseed Hbfs1)
        as [_ Hreach].
      apply Hreach; [done|lia].
Qed.

End PatchTraversalClaim.

Section PatchTraversalChecks.

Import Examples.

(** C9, as stated, fails: on the nested tetrahedra, two patches without a
    curve, the propagator with [NDEBUG] defined returns the table with the
    row of the inner patch unassigned. *)
Lemma unassigned_patch_is_returned :
  propagate_winding_numbers_single_component_patch_wise ex true 10
    V_nested F_nested uE_nested uE2E_nested [0; 0] P_nested []
  = (Ok (true, Matrix 2 [[0; 1]; [INVALID; INVALID]]%Z), [Call "outer_facet"]).
Proof. vm_compute. reflexivity. Qed.

End PatchTraversalChecks.

(** * Further properties of the code *)

(** ** Half-edges and signed face indices *)

Lemma udiv_Ok (a b r : nat) (l : list event) :
  udiv a b = (Ok r, l) ↔ b ≠ 0 ∧ r = a / b ∧ l = [].
Proof.
  unfold udiv. destruct (decide (b = 0)); unfold ret, undefined; split.
  - discriminate.
  - by intros (? & _).
  - by intros [= <- <-].
  - by intros (_ & -> & ->).
Qed.

(** The index built from a face and a corner decodes to them. *)
Lemma half_edge_index_decode (F : list face) (fi ci : nat) :
  fi < length F →
  edge_index_to_face_index F (face_and_corner_index_to_edge_index F fi ci)
    = ret fi ∧
  edge_index_to_corner_index F (face_and_corner_index_to_edge_index F fi ci)
    = ret ci.
Proof.
  unfold edge_index_to_face_index, edge_index_to_corner_index,
    face_and_corner_index_to_edge_index, num_faces, umod, udiv.
  intros Hfi. rewrite !decide_False by lia. split; f_equal.
  - rewrite Nat.add_comm, Nat.Div0.mod_add. by apply Nat.mod_small.
  - rewrite Nat.div_add_l by lia. rewrite Nat.div_small by done. lia.
Qed.

(** X1: a half-edge index encodes a face and a corner: the index built
    from the face [fi] and the corner [ci] decodes to [fi] and [ci], and
    every index is the index built from what it decodes to.  Without faces
    the decoding divides by zero. *)
Theorem half_edge_index_round_trip (F : list face) :
  (∀ fi ci, fi < length F →
     edge_index_to_face_index F (face_and_corner_index_to_edge_index F fi ci)
       = ret fi ∧
     edge_index_to_corner_index F (face_and_corner_index_to_edge_index F fi ci)
       = ret ci) ∧
  (∀ ei fi ci l1 l2,
     edge_index_to_face_index F ei = (Ok fi, l1) →
     edge_index_to_corner_index F ei = (Ok ci, l2) →
     face_and_corner_index_to_edge_index F fi ci = ei ∧ fi < length F) ∧
  (length F = 0 → ∀ ei,
     edge_index_to_face_index F ei = undefined ∧
     edge_index_to_corner_index F ei = undefined).
Proof.
  split_and!; [apply half_edge_index_decode|..];
    unfold edge_index_to_face_index, edge_index_to_corner_index,
      face_and_corner_index_to_edge_index, num_faces, umod, udiv.
  - intros ei fi ci l1 l2. case_decide; [discriminate|].
    intros [= <- _] [= <- _]. split.
    + pose proof (Nat.div_mod_eq ei (length F)). lia.
    + apply Nat.mod_upper_bound. done.
  - intros HF ei. by rewrite !decide_True.
Qed.

Lemma half_edge_index_round_trip_witness :
  edge_index_to_face_index [(0, 1, 2); (0, 2, 3)]
    (face_and_corner_index_to_edge_index [(0, 1, 2); (0, 2, 3)] 1 2) = ret 1 ∧
  edge_index_to_corner_index [(0, 1, 2); (0, 2, 3)]
    (face_and_corner_index_to_edge_index [(0, 1, 2); (0, 2, 3)] 1 2) = ret 2.
Proof.
  apply (half_edge_index_round_trip [(0, 1, 2); (0, 2, 3)]). simpl. lia.
Defined.

Lemma face_vertex_lt (f : face) (c : nat) :
  c < 3 → ∃ v, face_vertex f c = ret v.
Proof. intros Hc. destruct c as [|[|[|c]]]; simpl; eauto. lia. Qed.

(** X2: the end points that [get_edge_end_points] gives for the half-edge
    of a corner of a face are the two other corners in order; against this
    edge the face is consistent in the sense of [is_orientable], never
    raising "Invalid face!!", and the test of the patch-wise propagator
    answers without raising "Edge does not belong to face.", with [false]
    when the three corners of the face differ. *)
Theorem own_half_edge_orientation (F : list face) (fi ci : nat)
    (f0 f1 f2 : nat) :
  F !! fi = Some (f0, f1, f2) → ci < 3 →
  ∃ s d b,
    get_edge_end_points F (face_and_corner_index_to_edge_index F fi ci)
      = ret (s, d) ∧
    (s, d) = match ci with 0 => (f1, f2) | 1 => (f2, f0) | _ => (f0, f1) end ∧
    is_consistent_edge F fi s d = ret true ∧
    is_positively_orientated F fi s d = ret b ∧
    (f0 ≠ f1 → f1 ≠ f2 → f2 ≠ f0 → b = false).
Proof.
  intros Hf Hci. pose proof (lookup_lt_Some _ _ _ Hf) as Hfi.
  destruct (half_edge_index_decode F fi ci Hfi) as [Hface Hcorner].
  assert (∀ s d, (s = f0 ∧ d = f1) ∨ (s = f1 ∧ d = f2) ∨ (s = f2 ∧ d = f0) →
            is_consistent_edge F fi s d = ret true ∧
            ∃ b, is_positively_orientated F fi s d = ret b ∧
                 (f0 ≠ f1 → f1 ≠ f2 → f2 ≠ f0 → b = false)) as Hown.
  { intros s d Hsd. unfold is_consistent_edge, is_positively_orientated.
    unfold face in *. rewrite (vget_Some _ _ _ Hf), !bind_ret_l. split.
    - destruct Hsd as [[-> ->]|[[-> ->]|[-> ->]]];
        repeat (case_bool_decide; simpl; try done).
    - destruct Hsd as [[-> ->]|[[-> ->]|[-> ->]]];
        repeat (case_bool_decide; simpl; try done);
        eexists; (split; [done|]); intros; congruence. }
  assert (∀ s d, face_vertex (f0, f1, f2) ((ci + 1) mod 3) = ret s →
                 face_vertex (f0, f1, f2) ((ci + 2) mod 3) = ret d →
            get_edge_end_points F (face_and_corner_index_to_edge_index F fi ci)
              = ret (s, d)) as Hpoints.
  { intros s d Hs Hd. unfold get_edge_end_points.
    rewrite Hface, bind_ret_l, Hcorner, bind_ret_l. unfold face in *.
    by rewrite (vget_Some _ _ _ Hf), bind_ret_l, Hs, bind_ret_l, Hd, bind_ret_l. }
  destruct ci as [|[|[|ci]]]; [| | |lia].
  - destruct (Hown f1 f2) as (Hc & b & Hb & Hfalse); [tauto|].
    exists f1, f2, b. split_and!; [by apply Hpoints|done..].
  - destruct (Hown f2 f0) as (Hc & b & Hb & Hfalse); [tauto|].
    exists f2, f0, b. split_and!; [by apply Hpoints|done..].
  - destruct (Hown f0 f1) as (Hc & b & Hb & Hfalse); [tauto|].
    exists f0, f1, b. split_and!; [by apply Hpoints|done..].
Qed.

Lemma own_half_edge_orientation_witness :
  ∃ s d b,
    get_edge_end_points [(0, 1, 2); (0, 2, 3)]
      (face_and_corner_index_to_edge_index [(0, 1, 2); (0, 2, 3)] 1 0)
      = ret (s, d) ∧
    (s, d) = (2, 3) ∧
    is_consistent_edge [(0, 1, 2); (0, 2, 3)] 1 s d = ret true ∧
    is_positively_orientated [(0, 1, 2); (0, 2, 3)] 1 s d = ret b ∧
    (0 ≠ 2 → 2 ≠ 3 → 3 ≠ 0 → b = false).
Proof.
  apply (own_half_edge_orientation [(0, 1, 2); (0, 2, 3)] 1 0 0 2 3);
    [reflexivity|lia].
Defined.

(** X3: the signed index of a face around an edge decodes to the face, and
    its sign is the answer of the orientation test: positive exactly when
    the face is positively oriented.  It is never zero. *)
Theorem signed_index_round_trip (F : list face) (fi s d : nat) (z : Z)
    (l : list event) :
  (Z.of_nat fi < Int32.max_int)%Z →
  compute_signed_index F fi s d = (Ok z, l) →
  compute_unsigned_index z = ret fi ∧
  is_positively_orientated F fi s d = (Ok (bool_decide (0 < z)%Z), l) ∧
  z ≠ 0%Z.
Proof.
  intros Hfi H. unfold compute_signed_index in H.
  bind_inv H as pos l1 Hpos. apply ret_Ok in H as [<- ->].
  rewrite app_nil_r.
  assert (Int32.wrap (Z.of_nat (fi + 1)) = Z.of_nat fi + 1)%Z as ->.
  { rewrite Int32_wrap_in_range; [lia|].
    unfold Int32.in_range, Int32.min_int, Int32.max_int in *. lia. }
  assert (Int32.mul (Z.of_nat fi + 1) (if pos then 1 else -1)
          = if pos then Z.of_nat fi + 1 else - (Z.of_nat fi + 1))%Z as ->.
  { unfold Int32.mul. rewrite Int32_wrap_in_range; [by destruct pos; lia|].
    unfold Int32.in_range, Int32.min_int, Int32.max_int in *. destruct pos; lia. }
  unfold compute_unsigned_index, to_index.
  destruct pos.
  - rewrite decide_False by lia. rewrite bool_decide_eq_true_2 by lia.
    split_and!; [|done|lia]. f_equal. f_equal. lia.
  - rewrite decide_False by lia. rewrite bool_decide_eq_false_2 by lia.
    split_and!; [|done|lia]. f_equal. f_equal. lia.
Qed.

Lemma signed_index_round_trip_witness :
  compute_unsigned_index (-2) = ret 1 ∧
  is_positively_orientated [(0, 1, 2); (0, 2, 3)] 1 0 2
    = (Ok (bool_decide (0 < -2)%Z), []) ∧
  (-2 ≠ 0)%Z.
Proof.
  apply (signed_index_round_trip [(0, 1, 2); (0, 2, 3)] 1 0 2 (-2) []);
    [vm_compute; reflexivity|vm_compute; reflexivity].
Defined.

(** ** The orders of the curves *)

Lemma forM_Forall2 {A B} (body : A → M B) (xs : list A) (ys : list B)
    (l : list event) :
  forM xs body = (Ok ys, l) →
  Forall2 (fun x y => ∃ l', body x = (Ok y, l')) xs ys.
Proof.
  revert ys l. induction xs as [|x xs IH]; intros ys l; simpl.
  - intros [<- _]%ret_Ok. constructor.
  - intros H. bind_inv H as y ly Hy. bind_inv H as ys' ? Hys.
    apply ret_Ok in H as [<- _]. constructor; [by exists ly|by eapply IH].
Qed.

Section OrderCurves.

Context {Scalar : Type} (ext : Collaborators Scalar).
Variable NDEBUG : bool.
Variables (V : list (Scalar * Scalar * Scalar)) (F : list face).
Variables (uE : list edge) (uE2E : list (list nat)).
Variables (P : list nat) (intersection_curves : list (list nat)).

Lemma order_curve_Ok (pca : list (list nat)) (i : nat) (order : list nat)
    (orientation : list bool) (pca' : list (list nat)) (l : list event) :
  order_curve ext NDEBUG V F uE uE2E P intersection_curves pca i
    = (Ok (order, orientation, pca'), l) →
  length order = length orientation ∧ length pca' = length pca ∧
  (∀ p, p ∈ order → p ∈ P) ∧
  (∀ p cs, pca' !! p = Some cs →
     ∃ cs0 k, pca !! p = Some cs0 ∧ cs = cs0 ++ replicate k i).
Proof.
  unfold order_curve. intros H.
  bind_inv H as curve ? _. bind_inv H as uei ? _.
  bind_inv H as [s d] ? _. bind_inv H as edges ? _.
  bind_inv H as [adj_faces pca1] ? Hloop.
  bind_inv H as [] ? _.
  bind_inv H as [] ? _. bind_inv H as [] ? _.
  bind_inv H as orientation' ? Hori. bind_inv H as order' ? Hord.
  apply ret_Ok in H as [[= <- <- <-] _].
  apply forM_Forall2 in Hori, Hord.
  split_and!.
  - apply Forall2_length in Hori, Hord. congruence.
  - eapply (foldM_invariant
              (fun st : list Z * list (list nat) => length st.2 = length pca))
      in Hloop; [done| |done].
    intros [a q] ei [a' q'] l' Hbody Hlen. simpl in *.
    bind_inv Hbody as fi ? _. bind_inv Hbody as signed_fi ? _.
    bind_inv Hbody as p ? _. bind_inv Hbody as curves_of_p ? _.
    apply ret_Ok in Hbody as [[= <- <-] _]. by rewrite length_insert.
  - intros p Hp. apply list_elem_of_lookup in Hp as [k Hk].
    eapply Forall2_lookup_r in Hord as (index & _ & l' & Hbody); [|exact Hk].
    bind_inv Hbody as a ? _. bind_inv Hbody as fi ? _.
    apply vget_Ok in Hbody as [Hbody _]. by eapply list_elem_of_lookup_2.
  - set (I := fun st : list Z * list (list nat) =>
                ∀ p cs, st.2 !! p = Some cs →
                  ∃ cs0 k, pca !! p = Some cs0 ∧ cs = cs0 ++ replicate k i).
    assert (I (adj_faces, pca1)) as Hres; [|exact Hres].
    eapply (foldM_invariant I); [|exact Hloop|].
    + intros [a q] ei [a' q'] l' Hbody Hinv. unfold I in *. simpl in *.
      bind_inv Hbody as fi ? _. bind_inv Hbody as signed_fi ? _.
      bind_inv Hbody as p ? _. bind_inv Hbody as curves_of_p ? Hcs.
      apply vget_Ok in Hcs as [Hcs _].
      apply ret_Ok in Hbody as [[= <- <-] _].
      intros p' cs Hp'. destruct (decide (p' = p)) as [->|Hne].
      * rewrite list_lookup_insert_eq in Hp' by by eapply lookup_lt_Some.
        injection Hp' as <-. destruct (Hinv _ _ Hcs) as (cs0 & k & Hcs0 & ->).
        exists cs0, (S k). split; [done|].
        rewrite <- app_assoc. f_equal.
        change [i] with (replicate 1 i). rewrite <- replicate_add.
        f_equal. lia.
      * rewrite list_lookup_insert_ne in Hp' by done. by apply Hinv.
    + intros p cs Hp. exists cs, 0. split; [done|].
      by rewrite app_nil_r.
Qed.

(** X4: the tables that the loop over the curves builds have the sizes the
    traversal relies on: one order and one list of flags per curve, of
    equal lengths, so the assertions on these sizes cannot fail; one list
    of curves per patch, holding indices of curves only; and the entries of
    the orders are patches of [P]. *)
Theorem order_curves_shapes (num_patches : nat) (orders : list (list nat))
    (orientations : list (list bool)) (pca : list (list nat)) (l : list event) :
  order_curves ext NDEBUG V F uE uE2E P intersection_curves num_patches
    = (Ok (orders, orientations, pca), l) →
  length orders = length intersection_curves ∧
  length orientations = length intersection_curves ∧
  length pca = num_patches ∧
  (∀ i order orientation,
     orders !! i = Some order → orientations !! i = Some orientation →
     length order = length orientation) ∧
  (∀ i order p, orders !! i = Some order → p ∈ order → p ∈ P) ∧
  (∀ p curves c, pca !! p = Some curves → c ∈ curves →
     c < length intersection_curves).
Proof.
  unfold order_curves. intros H.
  set (I := fun (done : list nat)
                (st : list (list nat) * list (list bool) * list (list nat)) =>
         length st.1.1 = length done ∧ length st.1.2 = length done ∧
         length st.2 = num_patches ∧
         (∀ i order orientation,
            st.1.1 !! i = Some order → st.1.2 !! i = Some orientation →
            length order = length orientation) ∧
         (∀ i order p, st.1.1 !! i = Some order → p ∈ order → p ∈ P) ∧
         (∀ p curves c, st.2 !! p = Some curves → c ∈ curves → c ∈ done)).
  assert (I (seq 0 (length intersection_curves)) (orders, orientations, pca))
    as (Ho & Hr & Hp & Hlen & Hin & Hcurves).
  { eapply (foldM_prefix_invariant I); [| |exact H].
    - clear H. intros done i rest [[os rs] q] [[os' rs'] q'] l' _
        (Ho & Hr & Hq & Hlen & Hin & Hcurves) H. simpl in *.
      bind_inv H as [[order orientation] q1] ? Hcurve.
      apply ret_Ok in H as [[= <- <- <-] _].
      apply order_curve_Ok in Hcurve as (Hlen1 & Hq1 & Hin1 & Hcs1).
      unfold I. simpl. rewrite !length_app. simpl.
      split_and!; [lia|lia|congruence| | |].
      + intros k o r Hko Hkr.
        destruct (decide (k < length os)) as [Hk|Hk].
        * rewrite lookup_app_l in Hko by done.
          rewrite lookup_app_l in Hkr by lia. by eapply Hlen.
        * rewrite lookup_app_r in Hko by lia.
          rewrite lookup_app_r in Hkr by lia.
          rewrite Ho in Hko. rewrite Hr in Hkr.
          apply list_lookup_singleton_Some in Hko as [_ <-].
          by apply list_lookup_singleton_Some in Hkr as [_ <-].
      + intros k o p Hko Hp.
        destruct (decide (k < length os)) as [Hk|Hk].
        * rewrite lookup_app_l in Hko by done. by eapply Hin.
        * rewrite lookup_app_r in Hko by lia.
          apply list_lookup_singleton_Some in Hko as [_ <-]. by apply Hin1.
      + intros p cs c Hp Hc.
        destruct (Hcs1 _ _ Hp) as (cs0 & k & Hcs0 & ->).
        apply elem_of_app in Hc as [Hc|Hc]; apply elem_of_app.
        * left. by eapply Hcurves.
        * right. apply elem_of_replicate in Hc as [-> _]. by left.
    - unfold I. simpl. split_and!; try done.
      + by rewrite length_replicate.
      + intros p cs c [-> _]%lookup_replicate Hc. by apply elem_of_nil in Hc. }
  simpl in *. rewrite length_seq in Ho, Hr.
  split_and!; try done.
  intros p cs c Hpc Hc. apply (Hcurves p cs c Hpc), elem_of_seq in Hc. lia.
Qed.

End OrderCurves.

Section OrderCurvesChecks.

Import Examples.

Lemma order_curves_shapes_witness :
  length [[0; 1; 1; 0]] = length curves_two ∧ length [[0; 0]; [0; 0]] = 2 ∧
  ∀ p curves c, [[0; 0]; [0; 0]] !! p = Some curves → c ∈ curves →
    c < length curves_two.
Proof.
  destruct (order_curves_shapes ex false V_two F_two uE_two uE2E_two P_two
              curves_two 2 [[0; 1; 1; 0]] [[true; false; true; false]]
              [[0; 0]; [0; 0]] [Call "order_facets_around_edge"])
    as (Ho & _ & Hp & _ & _ & Hc); [vm_compute; reflexivity|].
  split_and!; [exact Ho|exact Hp|exact Hc].
Defined.

End OrderCurvesChecks.

(** ** The connected components *)

Lemma filter_all {A} (P : A → Prop) `{∀ x, Decision (P x)} (l : list A) :
  Forall P l → filter P l = l.
Proof.
  induction 1 as [|x l Hx _ IH]; [done|].
  by rewrite filter_cons_True, IH.
Qed.

Lemma filter_none {A} (P : A → Prop) `{∀ x, Decision (P x)} (l : list A) :
  Forall (fun x => ¬ P x) l → filter P l = [].
Proof.
  induction 1 as [|x l Hx _ IH]; [done|].
  by rewrite filter_cons_False, IH.
Qed.

(** X5: the loop that gathers the components puts into component [c] the
    faces whose entry of [C] is [c], in increasing order: the components
    are a partition of the faces. *)
Theorem gather_components_spec (C : list nat) (num_components num_faces : nat)
    (components : list (list nat)) (l : list event) :
  gather_components C num_components num_faces = (Ok components, l) →
  l = [] ∧ length components = num_components ∧
  (∀ c comp, components !! c = Some comp →
     comp = filter (fun f => C !! f = Some c) (seq 0 num_faces)) ∧
  (∀ f, f < num_faces →
     ∃ c comp, C !! f = Some c ∧ components !! c = Some comp ∧ f ∈ comp).
Proof.
  unfold gather_components. intros H.
  assert (l = []) as ->.
  { eapply foldM_silent; [|exact H]. intros comps i comps' l' Hbody.
    bind_inv Hbody as c ? Hc. apply vget_Ok in Hc as [_ ->].
    bind_inv Hbody as comp ? Hcomp. apply vget_Ok in Hcomp as [_ ->].
    by apply ret_Ok in Hbody as [_ ->]. }
  set (I := fun (done : list nat) (comps : list (list nat)) =>
         length comps = num_components ∧
         (∀ c comp, comps !! c = Some comp →
            comp = filter (fun f => C !! f = Some c) done) ∧
         (∀ f, f ∈ done →
            ∃ c, C !! f = Some c ∧ c < num_components)).
  assert (I (seq 0 num_faces) components) as (Hlen & Hcomps & Hfaces).
  { eapply (foldM_prefix_invariant I); [| |exact H].
    - clear H. intros done i rest comps comps' l' _ (Hlen & Hcomps & Hfaces) H.
      bind_inv H as c ? Hc. apply vget_Ok in Hc as [Hc _].
      bind_inv H as comp ? Hcomp. apply vget_Ok in Hcomp as [Hcomp _].
      apply ret_Ok in H as [<- _].
      pose proof (lookup_lt_Some _ _ _ Hcomp) as Hlt.
      split_and!.
      + by rewrite length_insert.
      + intros c' comp' Hc'. rewrite filter_app.
        destruct (decide (c' = c)) as [->|Hne].
        * rewrite list_lookup_insert_eq in Hc' by done. injection Hc' as <-.
          rewrite (filter_cons_True _ i) by done.
          by rewrite <- (Hcomps _ _ Hcomp).
        * rewrite list_lookup_insert_ne in Hc' by done.
          rewrite (filter_cons_False _ i) by congruence.
          rewrite app_nil_r. by apply Hcomps.
      + intros f [Hf| ->%list_elem_of_singleton]%elem_of_app; [by apply Hfaces|].
        exists c. split; [done|lia].
    - split_and!.
      + by rewrite length_replicate.
      + by intros c comp [-> _]%lookup_replicate.
      + intros f Hf. by apply elem_of_nil in Hf. }
  split_and!; [done..|].
  intros f Hf.
  destruct (Hfaces f) as (c & Hc & Hlt); [apply elem_of_seq; lia|].
  destruct (lookup_lt_is_Some_2 components c) as [comp Hcomp]; [lia|].
  exists c, comp. split_and!; [done..|].
  rewrite (Hcomps _ _ Hcomp). apply list_elem_of_filter. split; [done|].
  apply elem_of_seq. lia.
Qed.

(** X6: the faces and the labels of a component are listed in the order of
    the component: entry [j] of the lists of component [i] is the row of
    [F] and the label of the face [components[i][j]]. *)
Theorem component_faces_and_labels_spec (F : list face) (labels : list nat)
    (components : list (list nat)) (num_components : nat)
    (comp_faces : list (list face)) (comp_labels : list (list nat))
    (l : list event) :
  component_faces_and_labels F labels components num_components
    = (Ok (comp_faces, comp_labels), l) →
  length comp_faces = num_components ∧ length comp_labels = num_components ∧
  ∀ i, i < num_components →
    ∃ comp faces_i labels_i,
      components !! i = Some comp ∧
      comp_faces !! i = Some faces_i ∧ comp_labels !! i = Some labels_i ∧
      Forall2 (fun f row => F !! f = Some row) comp faces_i ∧
      Forall2 (fun f lab => labels !! f = Some lab) comp labels_i.
Proof.
  unfold component_faces_and_labels. intros H.
  set (I := fun (done : list nat) (st : list (list face) * list (list nat)) =>
         length st.1 = length done ∧ length st.2 = length done ∧
         ∀ k i, done !! k = Some i →
           ∃ comp faces_i labels_i,
             components !! i = Some comp ∧
             st.1 !! k = Some faces_i ∧ st.2 !! k = Some labels_i ∧
             Forall2 (fun f row => F !! f = Some row) comp faces_i ∧
             Forall2 (fun f lab => labels !! f = Some lab) comp labels_i).
  assert (I (seq 0 num_components) (comp_faces, comp_labels))
    as (Hf & Hl & Hall).
  { eapply (foldM_prefix_invariant I); [| |exact H].
    - clear H. intros done i rest [cf cl] [cf' cl'] l' _ (Hf & Hl & Hall) H.
      simpl in *.
      bind_inv H as comp ? Hcomp. apply vget_Ok in Hcomp as [Hcomp _].
      bind_inv H as fl ? Hfl. apply ret_Ok in H as [[= <- <-] _].
      apply forM_Forall2 in Hfl.
      unfold I. simpl. rewrite !length_app. simpl. split_and!; [lia..|].
      intros k i' Hk. destruct (decide (k < length done)) as [Hlt|Hge].
      + rewrite lookup_app_l in Hk by done.
        destruct (Hall k i' Hk) as (c & fs & ls & ? & ? & ? & ? & ?).
        exists c, fs, ls. rewrite !lookup_app_l by lia. done.
      + rewrite lookup_app_r in Hk by lia.
        apply list_lookup_singleton_Some in Hk as [Hk0 <-].
        exists comp, (fl.*1), (fl.*2).
        rewrite !lookup_app_r by lia.
        replace (k - length cf) with 0 by lia.
        replace (k - length cl) with 0 by lia.
        split_and!; [done..| |].
        * apply Forall2_fmap_r. eapply Forall2_impl; [exact Hfl|].
          intros f [row lab] (l0 & Hbody). simpl.
          bind_inv Hbody as row' ? Hrow. apply vget_Ok in Hrow as [Hrow _].
          bind_inv Hbody as lab' ? _. by apply ret_Ok in Hbody as [[= <- <-] _].
        * apply Forall2_fmap_r. eapply Forall2_impl; [exact Hfl|].
          intros f [row lab] (l0 & Hbody). simpl.
          bind_inv Hbody as row' ? _.
          bind_inv Hbody as lab' ? Hlab. apply vget_Ok in Hlab as [Hlab _].
          by apply ret_Ok in Hbody as [[= <- <-] _].
    - split_and!; [done..|]. intros k i Hk. by rewrite lookup_nil in Hk. }
  simpl in *. rewrite length_seq in Hf, Hl. split_and!; [done..|].
  intros i Hi. apply (Hall i i). by apply lookup_seq_lt.
Qed.

(** X7: [index_without_i i j] is the position of the component [j] among
    the components other than [i]; so the row of the samples, and of the
    answers of the containment query, that the code reads for [j] is the
    one of the representative point of [j]. *)
Theorem index_without_i_position (n i j : nat) :
  j < n → j ≠ i →
  filter (fun j => i ≠ j) (seq 0 n) !! index_without_i i j = Some j.
Proof.
  intros Hj Hne. unfold index_without_i.
  destruct (decide (n ≤ i)) as [Hi|Hi].
  - rewrite filter_all.
    + rewrite decide_True by lia. by apply lookup_seq_lt.
    + apply Forall_forall. intros k Hk%elem_of_seq. lia.
  - replace n with (i + (1 + (n - i - 1))) by lia.
    rewrite !seq_app, !filter_app. simpl.
    rewrite (filter_all _ (seq 0 i));
      [|apply Forall_forall; intros k Hk%elem_of_seq; lia].
    rewrite (filter_cons_False _ i) by (intros Hf; by apply Hf).
    rewrite (filter_all _ (seq (i + 1) _));
      [|apply Forall_forall; intros k Hk%elem_of_seq; lia].
    rewrite filter_nil, app_nil_l.
    case_decide.
    + rewrite lookup_app_l by (rewrite length_seq; lia).
      by apply lookup_seq_lt.
    + rewrite lookup_app_r by (rewrite length_seq; lia).
      rewrite length_seq. rewrite lookup_seq_lt by lia. f_equal. lia.
Qed.

Lemma index_without_i_position_witness :
  filter (fun j => 1 ≠ j) (seq 0 4) !! index_without_i 1 3 = Some 3.
Proof. apply index_without_i_position; lia. Defined.

Section ComponentsChecks.

Import Examples.

Lemma gather_components_spec_witness :
  [4; 5; 6; 7] = filter (fun f => C_nested !! f = Some 1) (seq 0 8).
Proof.
  destruct (gather_components_spec C_nested 2 8 [[0; 1; 2; 3]; [4; 5; 6; 7]] [])
    as (_ & _ & Hcomps & _); [vm_compute; reflexivity|].
  by apply (Hcomps 1).
Defined.

Lemma component_faces_and_labels_spec_witness :
  ∃ comp faces_i labels_i,
    [[0; 1; 2; 3]; [4; 5; 6; 7]] !! 1 = Some comp ∧
    [F_outer; F_inner] !! 1 = Some faces_i ∧
    [[0; 0; 0; 0]; [0; 0; 0; 0]] !! 1 = Some labels_i ∧
    Forall2 (fun f row => F_nested !! f = Some row) comp faces_i ∧
    Forall2 (fun f lab => labels8 !! f = Some lab) comp labels_i.
Proof.
  destruct (component_faces_and_labels_spec F_nested labels8
              [[0; 1; 2; 3]; [4; 5; 6; 7]] 2 [F_outer; F_inner]
              [[0; 0; 0; 0]; [0; 0; 0; 0]] []) as (_ & _ & Hall);
    [vm_compute; reflexivity|].
  apply (Hall 1). lia.
Defined.

End ComponentsChecks.

(** ** The labels of the patches and the rows of the faces *)

(** X8: the loop that labels the patches gives a patch the label of its
    first face and leaves a patch without faces at [INVALID]; with
    assertions enabled it returns only when every face has the label of
    its patch.  The labels are taken to be smaller than [INVALID]. *)
Theorem patch_labels_of_spec (NDEBUG : bool) (num_patches : nat)
    (P labels : list nat) (num_faces : nat) (patch_labels : list Z)
    (l : list event) :
  (∀ i li, labels !! i = Some li → Z.of_nat li ≠ INVALID) →
  patch_labels_of NDEBUG num_patches P labels num_faces = (Ok patch_labels, l) →
  length patch_labels = num_patches ∧
  (∀ p, p < num_patches → (∀ i, i < num_faces → P !! i ≠ Some p) →
     patch_labels !! p = Some INVALID) ∧
  (∀ i p, i < num_faces → P !! i = Some p →
     (∀ j, j < i → P !! j ≠ Some p) →
     ∃ li, labels !! i = Some li ∧ patch_labels !! p = Some (Z.of_nat li)) ∧
  (NDEBUG = false →
   ∀ i p, i < num_faces → P !! i = Some p →
     ∃ li, labels !! i = Some li ∧ patch_labels !! p = Some (Z.of_nat li)).
Proof.
  intros Hvalid H. unfold patch_labels_of in H.
  set (I := fun (done : list nat) (pl : list Z) =>
         length pl = num_patches ∧
         (∀ p, p < num_patches → (∀ i, i ∈ done → P !! i ≠ Some p) →
            pl !! p = Some INVALID) ∧
         (∀ i p, i ∈ done → P !! i = Some p →
            (∀ j, j ∈ done → j < i → P !! j ≠ Some p) →
            ∃ li, labels !! i = Some li ∧ pl !! p = Some (Z.of_nat li)) ∧
         (NDEBUG = false →
          ∀ i p, i ∈ done → P !! i = Some p →
            ∃ li, labels !! i = Some li ∧ pl !! p = Some (Z.of_nat li))).
  assert (I (seq 0 num_faces) patch_labels) as (Hlen & Hnone & Hfirst & Hall).
  { eapply (foldM_prefix_invariant I); [| |exact H].
    - clear H. intros done i rest pl pl' l' Hsplit (Hlen & Hnone & Hfirst & Hall) H.
      assert (∀ j, j ∈ done → j < i) as Hdone.
      { intros j Hj. apply list_elem_of_lookup in Hj as [k Hk].
        assert (seq 0 num_faces !! k = Some j) as Hk'.
        { rewrite Hsplit. by apply lookup_app_l_Some. }
        assert (seq 0 num_faces !! length done = Some i) as Hi'.
        { rewrite Hsplit. by rewrite list_lookup_middle. }
        apply lookup_lt_Some in Hk.
        apply lookup_seq in Hk' as [-> _]. apply lookup_seq in Hi' as [-> _].
        lia. }
      bind_inv H as p ? Hp. apply vget_Ok in Hp as [Hp _].
      bind_inv H as old ? Hold. apply vget_Ok in Hold as [Hold _].
      bind_inv H as li ? Hli. apply vget_Ok in Hli as [Hli _].
      pose proof (lookup_lt_Some _ _ _ Hold) as Hplt.
      case_decide as Hinv.
      + subst old. apply vset_Ok in H as (_ & -> & _).
        assert (∀ j, j ∈ done → P !! j ≠ Some p) as Hfresh.
        { intros j Hj Hpj.
          assert (∃ j0, j0 ∈ done ∧ P !! j0 = Some p ∧
                        ∀ j1, j1 ∈ done → j1 < j0 → P !! j1 ≠ Some p)
            as (j0 & Hj0 & Hpj0 & Hmin).
          { clear -Hj Hpj. revert Hj Hpj.
            induction (lt_wf j) as [j _ IH]. intros Hj Hpj.
            destruct (decide (Exists (fun j1 => j1 < j ∧ P !! j1 = Some p) done))
              as [(j1 & Hj1 & Hlt & Hp1)%Exists_exists|Hnone].
            - by apply (IH j1).
            - exists j. split_and!; [done..|].
              intros j1 Hj1 Hlt Hp1. apply Hnone, Exists_exists. by exists j1. }
          destruct (Hfirst j0 p Hj0 Hpj0 Hmin) as (lj & Hlj & Hpl).
          rewrite Hold in Hpl. injection Hpl as Hpl.
          by eapply Hvalid. }
        split_and!.
        * by rewrite length_insert.
        * intros p' Hp' Hno. rewrite list_lookup_insert_ne.
          -- apply Hnone; [done|]. intros j Hj. apply Hno.
             apply elem_of_app. by left.
          -- intros ->. apply (Hno i); [|done]. apply elem_of_app. right. by left.
        * intros j p' [Hj| ->%list_elem_of_singleton]%elem_of_app Hpj Hmin.
          -- assert (p' ≠ p) as Hne by (intros ->; by eapply Hfresh).
             rewrite list_lookup_insert_ne by done.
             apply Hfirst; [done..|]. intros j1 Hj1. apply Hmin.
             apply elem_of_app. by left.
          -- assert (p' = p) as -> by congruence.
             exists li. by rewrite list_lookup_insert_eq.
        * intros HN j p' [Hj| ->%list_elem_of_singleton]%elem_of_app Hpj.
          -- assert (p' ≠ p) as Hne by (intros ->; by eapply Hfresh).
             rewrite list_lookup_insert_ne by done. by apply Hall.
          -- assert (p' = p) as -> by congruence.
             exists li. by rewrite list_lookup_insert_eq.
      + bind_inv H as [] ? Hassert. apply ret_Ok in H as [<- _].
        assert (∃ j, j ∈ done ∧ P !! j = Some p) as (j & Hj & Hpj).
        { destruct (decide (Exists (fun j => P !! j = Some p) done))
            as [Hex%Exists_exists|Hno]; [done|].
          rewrite Hnone in Hold; [congruence|lia|].
          intros j Hj Hpj. apply Hno, Exists_exists. by exists j. }
        split_and!.
        * done.
        * intros p' Hp' Hno. apply Hnone; [done|]. intros j1 Hj1. apply Hno.
          apply elem_of_app. by left.
        * intros j1 p' [Hj1| ->%list_elem_of_singleton]%elem_of_app Hpj1 Hmin.
          -- apply Hfirst; [done..|]. intros j2 Hj2. apply Hmin.
             apply elem_of_app. by left.
          -- assert (p' = p) as -> by congruence.
             exfalso. apply (Hmin j); [|by apply Hdone|done].
             apply elem_of_app. by left.
        * intros HN j1 p' [Hj1| ->%list_elem_of_singleton]%elem_of_app Hpj1.
          -- by apply Hall.
          -- assert (p' = p) as -> by congruence.
             apply assert_Ok in Hassert as [[? _]|[_ Hassert]]; [congruence|].
             apply ret_Ok in Hassert as [Heq _].
             apply bool_decide_eq_true in Heq. exists li. by rewrite <- Heq.
    - split_and!.
      + by rewrite length_replicate.
      + intros p Hp _. by apply lookup_replicate_2.
      + intros i p Hi. by apply elem_of_nil in Hi.
      + intros _ i p Hi. by apply elem_of_nil in Hi. }
  split_and!.
  - done.
  - intros p Hp Hno. apply Hnone; [done|].
    intros i Hi%elem_of_seq. apply Hno. lia.
  - intros i p Hi Hp Hmin. apply Hfirst; [apply elem_of_seq; lia|done|].
    intros j _. apply Hmin.
  - intros HN i p Hi Hp. apply Hall; [done|apply elem_of_seq; lia|done].
Qed.

Lemma patch_labels_of_spec_witness :
  ∃ li, [0; 0; 0; 0; 1; 1; 1; 1] !! 5 = Some li ∧
        [0%Z; 1%Z] !! 1 = Some (Z.of_nat li).
Proof.
  destruct (patch_labels_of_spec false 2 Examples.P_nested
              [0; 0; 0; 0; 1; 1; 1; 1] 8 [0%Z; 1%Z] []) as (_ & _ & _ & Hall).
  - intros i li Hi. apply list_elem_of_lookup_2 in Hi.
    repeat (apply elem_of_cons in Hi as [->|Hi]; [done|]).
    by apply elem_of_nil in Hi.
  - vm_compute. reflexivity.
  - apply (Hall eq_refl 5 1); [lia|reflexivity].
Defined.

(** X9: [propagate_winding_numbers_single_component] returns the flag of
    the patch-wise propagator and gives every face the row of its patch. *)
Theorem faces_get_patch_rows {Scalar : Type} (ext : Collaborators Scalar)
    (NDEBUG : bool) (fuel : nat) (V : list (Scalar * Scalar * Scalar))
    (F : list face) (labels : list nat) (b : bool) (W : matrix)
    (l : list event) :
  propagate_winding_numbers_single_component ext NDEBUG fuel V F labels
    = (Ok (b, W), l) →
  let '(E, uE, EMAP, uE2E) := unique_edge_map ext F in
  let P := (extract_manifold_patches ext F EMAP uE2E).2 in
  let curves := extract_non_manifold_edge_curves ext F EMAP uE2E in
  ∃ patch_labels winding_numbers l0,
    propagate_winding_numbers_single_component_patch_wise ext NDEBUG fuel
      V F uE uE2E patch_labels P curves = (Ok (b, winding_numbers), l0) ∧
    mrows W = length F ∧
    ∀ i, i < length F →
      ∃ p row, P !! i = Some p ∧ mdata winding_numbers !! p = Some row ∧
               mdata W !! i = Some row.
Proof.
  unfold propagate_winding_numbers_single_component. intros H.
  bind_inv H as [] ? _.
  destruct (unique_edge_map ext F) as [[[E uE] EMAP] uE2E].
  bind_inv H as [] ? _.
  destruct (extract_manifold_patches ext F EMAP uE2E) as [num_patches P].
  bind_inv H as [] ? _. bind_inv H as [] ? _. bind_inv H as [] ? _.
  bind_inv H as patch_labels0 ? _. bind_inv H as [] ? _.
  bind_inv H as patch_labels ? _. bind_inv H as max_label ? _.
  bind_inv H as [is_consistent winding_numbers] lpw Hpw.
  bind_inv H as [] ? _. bind_inv H as [] ? _.
  bind_inv H as W1 ? Hexpand. bind_inv H as [] ? _.
  apply ret_Ok in H as [[= <- <-] _].
  simpl. exists patch_labels, winding_numbers, lpw. split; [done|].
  unfold expand_to_faces in Hexpand.
  set (I := fun (done : list nat) (X : matrix) =>
         mrows X = length F ∧
         ∀ i, i ∈ done →
           ∃ p row, P !! i = Some p ∧ mdata winding_numbers !! p = Some row ∧
                    mdata X !! i = Some row).
  assert (I (seq 0 (length F)) W1) as [Hrows Hall].
  { eapply (foldM_prefix_invariant I); [| |exact Hexpand].
    - clear Hexpand. intros done i rest X X' l' Hsplit [Hrows Hall] H.
      assert (i ∉ done) as Hfresh.
      { pose proof (NoDup_seq 0 (length F)) as Hnd. rewrite Hsplit in Hnd.
        apply NoDup_app in Hnd as (_ & Hnd & _). intros Hin.
        apply (Hnd i Hin). by left. }
      bind_inv H as p ? Hp. apply vget_Ok in Hp as [Hp _].
      bind_inv H as row ? Hrow. apply mrow_Ok in Hrow as [Hrow _].
      apply mset_row_Ok in H as (old & Hold & _ & -> & _).
      pose proof (lookup_lt_Some _ _ _ Hold) as Hlt.
      split.
      + unfold mrows in *. simpl. by rewrite length_insert.
      + intros j [Hj| ->%list_elem_of_singleton]%elem_of_app; simpl.
        * destruct (Hall j Hj) as (q & r & ? & ? & ?). exists q, r.
          rewrite list_lookup_insert_ne by (intros ->; done). done.
        * exists p, row. by rewrite list_lookup_insert_eq.
    - split.
      + unfold mrows, mconst. simpl. by rewrite length_replicate.
      + intros i Hi. by apply elem_of_nil in Hi. }
  split; [done|]. intros i Hi. apply Hall, elem_of_seq. lia.
Qed.

Section FaceRowsChecks.

Import Examples.

Lemma faces_get_patch_rows_witness :
  ∃ p row, P_two !! 5 = Some p ∧
           [[0; 1]; [0; 1]]%Z !! p = Some row ∧
           replicate 8 [0; 1]%Z !! 5 = Some row.
Proof.
  pose proof (faces_get_patch_rows ex false 10 V_two F_two labels8 true
                (Matrix 2 (replicate 8 [0; 1]%Z))
                [Call "unique_edge_map"; Call "extract_manifold_patches";
                 Call "extract_non_manifold_edge_curves";
                 Call "order_facets_around_edge"; Call "outer_facet"]) as Hrows.
  simpl in Hrows.
  destruct Hrows as (patch_labels & wn & l0 & Hpw & _ & Hall);
    [vm_compute; reflexivity|].
  destruct (Hall 5) as (p & row & Hp & Hrow & HW); [lia|].
  exists p, row. split_and!; [exact Hp| |exact HW].
  vm_compute in Hp. injection Hp as <-.
  vm_compute in HW. injection HW as <-.
  reflexivity.
Defined.

End FaceRowsChecks.

(** ** The graph of the cells *)

Lemma connection_lt_trichotomy (x y : CellConnection) :
  connection_lt x y = false → connection_lt y x = false → x = y.
Proof.
  destruct x as [[a0 a1] a2], y as [[b0 b1] b2]. unfold connection_lt.
  destruct (a0 <? b0) eqn:H0; [done|]. destruct (b0 <? a0) eqn:H0'; [done|].
  apply Nat.ltb_ge in H0, H0'.
  destruct a1, b1; simpl; try done;
    destruct (a2 <? b2) eqn:H2; try done;
    destruct (b2 <? a2) eqn:H2'; try done;
    apply Nat.ltb_ge in H2, H2'; intros _ _; repeat f_equal; lia.
Qed.

Lemma elem_of_set_emplace (x y : CellConnection) (s : list CellConnection) :
  y ∈ set_emplace x s ↔ y = x ∨ y ∈ s.
Proof.
  induction s as [|z s IH]; simpl.
  - rewrite list_elem_of_singleton, elem_of_nil. tauto.
  - destruct (connection_lt x z) eqn:Hxz; [by rewrite elem_of_cons|].
    destruct (connection_lt z x) eqn:Hzx.
    + rewrite !elem_of_cons, IH. tauto.
    + rewrite (connection_lt_trichotomy x z) by done.
      rewrite !elem_of_cons. tauto.
Qed.

(** X10: the graph of the cells has, for every patch with the front cell
    [pos] and the back cell [neg], the connection to [neg] across the patch
    with the flag unset at [pos] and the connection to [pos] with the flag
    set at [neg], and no other connection: the graph is symmetric, with
    opposite flags on the two directions. *)
Theorem build_cell_adjacency_spec (per_patch_cells : list (nat * nat))
    (num_cells num_patches : nat)
    (cell_adjacency : list (list CellConnection)) (l : list event) :
  build_cell_adjacency per_patch_cells num_cells num_patches
    = (Ok cell_adjacency, l) →
  length cell_adjacency = num_cells ∧
  (∀ c nb,
     (∃ nbs, cell_adjacency !! c = Some nbs ∧ nb ∈ nbs) ↔
     ∃ i pos neg, i < num_patches ∧ per_patch_cells !! i = Some (pos, neg) ∧
       ((c = pos ∧ nb = (neg, false, i)) ∨ (c = neg ∧ nb = (pos, true, i)))) ∧
  (∀ c n i,
     (∃ nbs, cell_adjacency !! c = Some nbs ∧ (n, false, i) ∈ nbs) ↔
     (∃ nbs, cell_adjacency !! n = Some nbs ∧ (c, true, i) ∈ nbs)).
Proof.
  unfold build_cell_adjacency. intros H.
  set (edge_of := fun (done : list nat) (c : nat) (nb : CellConnection) =>
         ∃ i pos neg, i ∈ done ∧ per_patch_cells !! i = Some (pos, neg) ∧
           ((c = pos ∧ nb = (neg, false, i)) ∨ (c = neg ∧ nb = (pos, true, i)))).
  set (I := fun (done : list nat) (adj : list (list CellConnection)) =>
         length adj = num_cells ∧
         ∀ c nb, (∃ nbs, adj !! c = Some nbs ∧ nb ∈ nbs) ↔ edge_of done c nb).
  assert (∀ (adj : list (list CellConnection)) t s x c nb,
            adj !! t = Some s →
            (∃ nbs, <[t := set_emplace x s]> adj !! c = Some nbs ∧ nb ∈ nbs) ↔
            (c = t ∧ nb = x) ∨ (∃ nbs, adj !! c = Some nbs ∧ nb ∈ nbs))
    as Hemplace.
  { intros adj t s x c nb Ht. pose proof (lookup_lt_Some _ _ _ Ht) as Hlt.
    destruct (decide (c = t)) as [->|Hne].
    - rewrite list_lookup_insert_eq by done. split.
      + intros (nbs & [= <-] & [->|Hin]%elem_of_set_emplace); [by left|].
        right. by exists s.
      + intros [[_ ->]|(nbs & Hnbs & Hin)].
        * eexists. split; [done|]. apply elem_of_set_emplace. by left.
        * eexists. split; [done|]. apply elem_of_set_emplace. right.
          congruence.
    - rewrite list_lookup_insert_ne by done. split; [by right|].
      by intros [[? _]|?]. }
  assert (I (seq 0 num_patches) cell_adjacency) as [Hlen Hedges].
  { eapply (foldM_prefix_invariant I); [| |exact H].
    - clear H. intros done i rest adj adj' l' _ [Hlen Hedges] H.
      bind_inv H as [pos neg] ? Hc. apply vget_Ok in Hc as [Hc _].
      bind_inv H as adj_pos ? Hpos. apply vget_Ok in Hpos as [Hpos _].
      bind_inv H as adj1 ? H1. apply vset_Ok in H1 as (_ & -> & _).
      bind_inv H as adj_neg ? Hneg. apply vget_Ok in Hneg as [Hneg _].
      apply vset_Ok in H as (_ & -> & _).
      split; [by rewrite !length_insert|].
      intros c nb. rewrite (Hemplace _ _ _ _ _ _ Hneg).
      rewrite (Hemplace _ _ _ _ _ _ Hpos), Hedges. unfold edge_of. split.
      + intros [[-> ->]|[[-> ->]|(k & p & n & Hk & Hkc & Hcase)]].
        * exists i, pos, neg. split_and!; [|done|by right].
          apply elem_of_app. right. by left.
        * exists i, pos, neg. split_and!; [|done|by left].
          apply elem_of_app. right. by left.
        * exists k, p, n. split_and!; [|done..]. apply elem_of_app. by left.
      + intros (k & p & n & [Hk| ->%list_elem_of_singleton]%elem_of_app & Hkc & Hcase).
        * right. right. by exists k, p, n.
        * assert (p = pos ∧ n = neg) as [-> ->] by (split; congruence).
          destruct Hcase as [[-> ->]|[-> ->]]; [right; by left|by left].
    - split; [by rewrite length_replicate|].
      intros c nb. split.
      + intros (nbs & [-> _]%lookup_replicate & Hin). by apply elem_of_nil in Hin.
      + intros (k & _ & _ & Hk & _). by apply elem_of_nil in Hk. }
  assert (∀ c nb,
            (∃ nbs, cell_adjacency !! c = Some nbs ∧ nb ∈ nbs) ↔
            ∃ i pos neg, i < num_patches ∧ per_patch_cells !! i = Some (pos, neg) ∧
              ((c = pos ∧ nb = (neg, false, i)) ∨ (c = neg ∧ nb = (pos, true, i))))
    as Hspec.
  { intros c nb. rewrite Hedges. unfold edge_of. split.
    - intros (i & p & n & Hi%elem_of_seq & ?). exists i, p, n. split; [lia|done].
    - intros (i & p & n & Hi & ?). exists i, p, n. split; [|done].
      apply elem_of_seq. lia. }
  split_and!; [done..|].
  intros c n i. rewrite !Hspec. split.
  - intros (k & p & q & Hk & Hkc & [[? [= ? ?]]|[_ [=]]]). subst.
    exists k, p, q. split_and!; [done..|by right].
  - intros (k & p & q & Hk & Hkc & [[_ [=]]|[? [= ? ?]]]). subst.
    exists k, p, q. split_and!; [done..|by left].
Qed.

Lemma build_cell_adjacency_spec_witness :
  (∃ nbs, [[(1, false, 0); (2, false, 1)]; [(0, true, 0)]; [(0, true, 1)]] !! 0
            = Some nbs ∧ (2, false, 1) ∈ nbs) ↔
  (∃ nbs, [[(1, false, 0); (2, false, 1)]; [(0, true, 0)]; [(0, true, 1)]] !! 2
            = Some nbs ∧ (0, true, 1) ∈ nbs).
Proof.
  destruct (build_cell_adjacency_spec [(0, 1); (0, 2)] 3 2
              [[(1, false, 0); (2, false, 1)]; [(0, true, 0)]; [(0, true, 1)]] [])
    as (_ & _ & Hsym); [vm_compute; reflexivity|].
  apply (Hsym 0 2 1).
Defined.

(** ** The report of the verification pass *)

Section PassReport.

Variables (order : list nat) (orientation : list bool) (W : matrix).

Lemma consistent_at_labels_report (i curr next : nat) (ks : list nat) (b : bool)
    (l : list event) :
  consistent_at_labels order orientation W i curr next ks = (Ok b, l) →
  if b then l = [] else
    ∃ done k rest p bp q bq a c,
      ks = done ++ k :: rest ∧
      (∀ k', k' ∈ done → agree order orientation W curr next k') ∧
      order !! curr = Some p ∧ orientation !! curr = Some bp ∧
      order !! next = Some q ∧ orientation !! next = Some bq ∧
      coeff W p (k*2 + (if bp : bool then 0 else 1)) = Some a ∧
      coeff W q (k*2 + (if bq : bool then 1 else 0)) = Some c ∧ a ≠ c ∧
      l = [Cout [TStr "edge: "; TNat i; TEndl];
           Cout [TInt a; TStr " != "; TInt c; TEndl]].
Proof.
  revert l. induction ks as [|k ks IH]; intros l; simpl.
  - by intros [<- <-]%ret_Ok.
  - intros (p & l1 & l2 & [Hp ->]%vget_Ok & H & ->)%bind_Ok.
    apply bind_Ok in H as (bc & l3 & l4 & [Hbc ->]%vget_Ok & H & ->).
    apply bind_Ok in H as (a & l5 & l6 & [Ha ->]%mget_Ok & H & ->).
    apply bind_Ok in H as (q & l7 & l8 & [Hq ->]%vget_Ok & H & ->).
    apply bind_Ok in H as (bn & l9 & l10 & [Hbn ->]%vget_Ok & H & ->).
    apply bind_Ok in H as (a' & l11 & l12 & [Ha' ->]%mget_Ok & H & ->).
    destruct (decide (a ≠ a')) as [Hne|Heq].
    + injection H as <- <-.
      exists [], k, ks, p, bc, q, bn, a, a'. split_and!; try done.
      intros k' Hk'. by apply elem_of_nil in Hk'.
    + apply dec_stable in Heq as <-. apply IH in H. simpl. destruct b; [done|].
      destruct H as (done & k0 & rest & p' & bp & q' & bq & x & c & -> & Hdone & H).
      exists (k :: done), k0, rest, p', bp, q', bq, x, c.
      split_and!; [done| |apply H..].
      intros k' [->|Hk']%elem_of_cons; [|by apply Hdone].
      by exists p, bc, q, bn, a.
Qed.

Lemma consistent_at_positions_report (num_labels i : nat) (js : list nat)
    (b : bool) (l : list event) :
  consistent_at_positions order orientation W num_labels i js = (Ok b, l) →
  if b then l = [] else
    ∃ done j rest k p bp q bq a c,
      js = done ++ j :: rest ∧ k < num_labels ∧
      (∀ j' k', j' ∈ done → k' < num_labels →
         agree order orientation W j' ((j' + 1) mod length order) k') ∧
      (∀ k', k' < k → agree order orientation W j ((j + 1) mod length order) k') ∧
      order !! j = Some p ∧ orientation !! j = Some bp ∧
      order !! ((j + 1) mod length order) = Some q ∧
      orientation !! ((j + 1) mod length order) = Some bq ∧
      coeff W p (k*2 + (if bp : bool then 0 else 1)) = Some a ∧
      coeff W q (k*2 + (if bq : bool then 1 else 0)) = Some c ∧ a ≠ c ∧
      l = [Cout [TStr "edge: "; TNat i; TEndl];
           Cout [TInt a; TStr " != "; TInt c; TEndl]].
Proof.
  revert l. induction js as [|j js IH]; intros l; simpl.
  - by intros [<- <-]%ret_Ok.
  - intros (next & l1 & l2 & (_ & -> & ->)%umod_Ok & H & ->)%bind_Ok.
    apply bind_Ok in H as (ok & l3 & l4 & Hok & H & ->).
    pose proof (consistent_at_labels_Ok _ _ _ _ _ _ _ _ _ Hok) as Hall.
    apply consistent_at_labels_report in Hok. destruct ok.
    + subst l3. apply IH in H. simpl. destruct b; [done|].
      destruct H as (done & j0 & rest & k & p & bp & q & bq & a & c & -> & Hk
                     & Hdone & H).
      exists (j :: done), j0, rest, k, p, bp, q, bq, a, c.
      split_and!; [done|done| |apply H..].
      intros j' k' [->|Hj']%elem_of_cons Hk'; [|by apply Hdone].
      apply Hall; [done|]. apply elem_of_seq. lia.
    + apply ret_Ok in H as [<- ->].
      destruct Hok as (done & k & rest & p & bp & q & bq & a & c & Hks & Hdone
                       & Hp & Hbp & Hq & Hbq & Ha & Hc & Hne & ->).
      assert (done = seq 0 k ∧ k < num_labels) as [-> Hk].
      { assert (seq 0 num_labels !! length done = Some k) as Hlook.
        { rewrite Hks. by apply list_lookup_middle. }
        apply lookup_seq in Hlook as [Hlook Hlt]. simpl in Hlook. split; [|lia].
        apply (f_equal (take (length done))) in Hks.
        rewrite take_app_length, take_seq in Hks. rewrite <- Hks.
        f_equal. lia. }
      exists [], j, js, k, p, bp, q, bq, a, c. rewrite app_nil_r.
      split_and!; try done.
      * intros j' k' Hj'. by apply elem_of_nil in Hj'.
      * intros k' Hk'. apply Hdone, elem_of_seq. lia.
Qed.

End PassReport.

Lemma consistent_at_curves_report (NDEBUG : bool) (orders : list (list nat))
    (orientations : list (list bool)) (W : matrix) (num_labels : nat)
    (cs : list nat) (b : bool) (l : list event) :
  consistent_at_curves NDEBUG orders orientations W num_labels cs = (Ok b, l) →
  if b then l = [] else
    ∃ done i rest order orientation j k p bp q bq a c,
      cs = done ++ i :: rest ∧
      orders !! i = Some order ∧ orientations !! i = Some orientation ∧
      j < length order ∧ k < num_labels ∧
      (∀ i' order' orientation' j' k',
         i' ∈ done → orders !! i' = Some order' →
         orientations !! i' = Some orientation' →
         j' < length order' → k' < num_labels →
         agree order' orientation' W j' ((j' + 1) mod length order') k') ∧
      (∀ j' k', j' < j → k' < num_labels →
         agree order orientation W j' ((j' + 1) mod length order) k') ∧
      (∀ k', k' < k → agree order orientation W j ((j + 1) mod length order) k') ∧
      order !! j = Some p ∧ orientation !! j = Some bp ∧
      order !! ((j + 1) mod length order) = Some q ∧
      orientation !! ((j + 1) mod length order) = Some bq ∧
      coeff W p (k*2 + (if bp : bool then 0 else 1)) = Some a ∧
      coeff W q (k*2 + (if bq : bool then 1 else 0)) = Some c ∧ a ≠ c ∧
      l = [Cout [TStr "edge: "; TNat i; TEndl];
           Cout [TInt a; TStr " != "; TInt c; TEndl]].
Proof.
  revert l. induction cs as [|i cs IH]; intros l; simpl.
  - by intros [<- <-]%ret_Ok.
  - intros (order & l1 & l2 & [Ho ->]%vget_Ok & H & ->)%bind_Ok.
    apply bind_Ok in H as (orientation & l3 & l4 & [Hor ->]%vget_Ok & H & ->).
    apply bind_Ok in H as ([] & l5 & l6 & Hassert & H & ->).
    assert (l5 = []) as ->.
    { unfold assert, ret, bind, abort in Hassert.
      destruct NDEBUG; [congruence|].
      destruct (bool_decide _); simpl in Hassert; congruence. }
    apply bind_Ok in H as (ok & l7 & l8 & Hok & H & ->).
    pose proof (consistent_at_positions_Ok _ _ _ _ _ _ _ _ Hok) as Hall.
    apply consistent_at_positions_report in Hok. destruct ok.
    + subst l7. apply IH in H. simpl. destruct b; [done|].
      destruct H as (done & i0 & rest & order0 & orientation0 & j & k & p & bp
                     & q & bq & a & c & -> & Ho0 & Hor0 & Hj & Hk & Hdone & H).
      exists (i :: done), i0, rest, order0, orientation0, j, k, p, bp, q, bq, a, c.
      split_and!; [done|done|done|done|done| |apply H..].
      intros i' order' orientation' j' k' [->|Hi']%elem_of_cons Ho' Hor' Hj' Hk';
        [|by eapply Hdone].
      simplify_eq. apply Hall; [done| |done]. apply elem_of_seq. lia.
    + apply ret_Ok in H as [<- ->].
      destruct Hok as (done & j & rest & k & p & bp & q & bq & a & c & Hjs & Hk
                       & Hdone & Hks & Hp & Hbp & Hq & Hbq & Ha & Hc & Hne & ->).
      assert (done = seq 0 j ∧ j < length order) as [-> Hj].
      { assert (seq 0 (length order) !! length done = Some j) as Hlook.
        { rewrite Hjs. by apply list_lookup_middle. }
        apply lookup_seq in Hlook as [Hlook Hlt]. simpl in Hlook. split; [|lia].
        apply (f_equal (take (length done))) in Hjs.
        rewrite take_app_length, take_seq in Hjs. rewrite <- Hjs.
        f_equal. lia. }
      exists [], i, cs, order, orientation, j, k, p, bp, q, bq, a, c.
      split_and!; try done.
      * intros i' ???? Hi'. by apply elem_of_nil in Hi'.
      * intros j' k' Hj' Hk'. apply Hdone; [|done]. apply elem_of_seq. lia.
Qed.

(** X11: the verification pass prints nothing when it returns [true]; when
    it returns [false] it has printed exactly two lines, the index of a
    curve and the two entries that differ, and these belong to the first
    disagreement in the order of the loops: every earlier curve, every
    earlier position of the curve and every earlier label at the position
    satisfies the closure condition. *)
Theorem first_disagreement_is_reported (NDEBUG : bool)
    (orders : list (list nat)) (orientations : list (list bool)) (W : matrix)
    (b : bool) (l : list event) :
  winding_number_assignment_is_consistent NDEBUG orders orientations W = (Ok b, l) →
  if b then l = [] else
    ∃ i order orientation j k p bp q bq a c,
      orders !! i = Some order ∧ orientations !! i = Some orientation ∧
      j < length order ∧ k < mcols W / 2 ∧
      (∀ i' order' orientation' j' k',
         i' < i → orders !! i' = Some order' →
         orientations !! i' = Some orientation' →
         j' < length order' → k' < mcols W / 2 →
         agree order' orientation' W j' ((j' + 1) mod length order') k') ∧
      (∀ j' k', j' < j → k' < mcols W / 2 →
         agree order orientation W j' ((j' + 1) mod length order) k') ∧
      (∀ k', k' < k → agree order orientation W j ((j + 1) mod length order) k') ∧
      order !! j = Some p ∧ orientation !! j = Some bp ∧
      order !! ((j + 1) mod length order) = Some q ∧
      orientation !! ((j + 1) mod length order) = Some bq ∧
      coeff W p (k*2 + (if bp : bool then 0 else 1)) = Some a ∧
      coeff W q (k*2 + (if bq : bool then 1 else 0)) = Some c ∧ a ≠ c ∧
      l = [Cout [TStr "edge: "; TNat i; TEndl];
           Cout [TInt a; TStr " != "; TInt c; TEndl]].
Proof.
  unfold winding_number_assignment_is_consistent. intros H.
  apply consistent_at_curves_report in H. destruct b; [done|].
  destruct H as (done & i & rest & order & orientation & j & k & p & bp & q & bq
                 & a & c & Hcs & Ho & Hor & Hj & Hk & Hdone & H).
  assert (done = seq 0 i) as ->.
  { assert (seq 0 (length orders) !! length done = Some i) as Hlook.
    { rewrite Hcs. by apply list_lookup_middle. }
    apply lookup_seq in Hlook as [Hlook Hlt]. simpl in Hlook.
    apply (f_equal (take (length done))) in Hcs.
    rewrite take_app_length, take_seq in Hcs. rewrite <- Hcs. f_equal. lia. }
  exists i, order, orientation, j, k, p, bp, q, bq, a, c.
  split_and!; [done|done|done|done| |apply H..].
  intros i' order' orientation' j' k' Hi'. apply Hdone, elem_of_seq. lia.
Qed.

Lemma first_disagreement_is_reported_witness :
  ∃ i a c,
    [Cout [TStr "edge: "; TNat 0; TEndl]; Cout [TInt 1; TStr " != "; TInt 0; TEndl]]
    = [Cout [TStr "edge: "; TNat i; TEndl];
       Cout [TInt a; TStr " != "; TInt c; TEndl]] ∧ a ≠ c.
Proof.
  pose proof (first_disagreement_is_reported false [[0; 1]] [[true; true]]
                (Matrix 2 [[1; 0]; [1; 0]]%Z) false
                [Cout [TStr "edge: "; TNat 0; TEndl];
                 Cout [TInt 1; TStr " != "; TInt 0; TEndl]]) as Hreport.
  simpl in Hreport.
  destruct Hreport as (i & ? & ? & ? & ? & ? & ? & ? & ? & a & c & H);
    [vm_compute; reflexivity|].
  exists i, a, c. split; apply H.
Defined.

(** ** Orientability *)

Lemma is_consistent_edge_along (F : list face) (fid s d : nat) (f : face) :
  F !! fid = Some f → along f s d || along f d s = true →
  is_consistent_edge F fid s d = ret (along f s d).
Proof.
  intros Hf. unfold is_consistent_edge. rewrite (vget_Some _ _ _ Hf), bind_ret_l.
  destruct f as [[f0 f1] f2]. unfold along.
  repeat (case_bool_decide; simpl; try done).
Qed.

Lemma count_half_edges (F : list face) (s d : nat) (adj : list nat) (c : Z) :
  F ≠ [] →
  (∀ ei f, ei ∈ adj → F !! (ei mod length F) = Some f →
           along f s d || along f d s = true) →
  (Z.abs c + Z.of_nat (length adj) ≤ Int32.max_int)%Z →
  foldM (fun (count : Z) ei =>
           fid ← umod ei (length F);
           c ← is_consistent_edge F fid s d;
           ret (if c : bool then Int32.add count 1 else Int32.sub count 1))
        adj c
  = ret (c + Z.of_nat (length (filter (λ ei, runs_along F s d ei = true) adj))
           - Z.of_nat (length (filter (λ ei, runs_along F s d ei = false) adj)))%Z.
Proof.
  intros HF. revert c. induction adj as [|ei adj IH]; intros c Hedge Hc.
  - simpl. f_equal. lia.
  - rewrite foldM_cons.
    assert (umod ei (length F) = ret (ei mod length F)) as ->.
    { unfold umod. rewrite decide_False; [done|by destruct F]. }
    rewrite bind_ret_l.
    destruct (lookup_lt_is_Some_2 F (ei mod length F)) as [f Hf].
    { apply Nat.mod_upper_bound. by destruct F. }
    rewrite (is_consistent_edge_along F _ s d f Hf), bind_ret_l, bind_ret_l
      by (eapply Hedge; [by left|done]).
    simpl in Hc. unfold Int32.max_int in Hc.
    rewrite IH.
    + rewrite !filter_cons.
      assert (runs_along F s d ei = along f s d) as ->
        by (unfold runs_along; by rewrite Hf).
      f_equal. unfold Int32.add, Int32.sub, Int32.wrap, Int32.half_modulus,
        Int32.modulus.
      destruct (along f s d); simpl.
      * rewrite Z.mod_small by lia. lia.
      * rewrite Z.mod_small by lia. lia.
    + intros ei' f' Hei'. apply Hedge. by right.
    + unfold Int32.add, Int32.sub, Int32.wrap, Int32.half_modulus,
        Int32.modulus, Int32.max_int.
      destruct (along f s d); rewrite Z.mod_small by lia; lia.
Qed.

Lemma orientable_at_edges_spec (F : list face) (uE : list edge)
    (uE2E : list (list nat)) (es : list nat) :
  F ≠ [] →
  (∀ i, i ∈ es → i < length uE ∧ i < length uE2E) →
  (∀ i s d adj ei f,
     i ∈ es → uE !! i = Some (s, d) → uE2E !! i = Some adj → ei ∈ adj →
     F !! (ei mod length F) = Some f → along f s d || along f d s = true) →
  (∀ i adj, i ∈ es → uE2E !! i = Some adj →
            (Z.of_nat (length adj) ≤ Int32.max_int)%Z) →
  ∃ b, orientable_at_edges F uE uE2E es = ret b ∧
       (b = true ↔ ∀ i s d adj, i ∈ es → uE !! i = Some (s, d) →
                     uE2E !! i = Some adj → balanced F s d adj).
Proof.
  intros HF. induction es as [|i es IH]; intros Hin Hedge Hlen.
  - exists true. split; [done|]. split; [|done].
    intros _ i ??? Hi. by apply elem_of_nil in Hi.
  - destruct (Hin i) as [Hi Hi']; [by left|].
    destruct (lookup_lt_is_Some_2 _ _ Hi) as [[s d] Hsd].
    destruct (lookup_lt_is_Some_2 _ _ Hi') as [adj Hadj].
    simpl. rewrite (vget_Some _ _ _ Hsd), bind_ret_l.
    rewrite (vget_Some _ _ _ Hadj), bind_ret_l.
    rewrite (count_half_edges F s d adj 0), bind_ret_l; [|done| |].
    + destruct (decide _) as [Hne|Heq].
      * exists false. split; [done|]. split; [done|]. intros Hall. exfalso.
        apply Hne. specialize (Hall i s d adj). unfold balanced in Hall.
        rewrite Hall; [lia|by left|done|done].
      * apply dec_stable in Heq.
        destruct IH as (b & -> & Hb).
        { intros i' Hi''. apply Hin. by right. }
        { intros i' ????? Hi''. apply Hedge. by right. }
        { intros i' ? Hi''. apply Hlen. by right. }
        exists b. split; [done|]. rewrite Hb. split.
        -- intros Hall i' s' d' adj' [->|Hi'']%elem_of_cons Hsd' Hadj';
             [|by eapply Hall].
           unfold edge in *. rewrite Hsd in Hsd'. rewrite Hadj in Hadj'.
           injection Hsd' as <- <-. injection Hadj' as <-.
           unfold balanced. lia.
        -- intros Hall i' ??? Hi''. apply Hall. by right.
    + intros ei f Hei. eapply Hedge; [by left|done..].
    + specialize (Hlen i adj). simpl. apply Hlen; [by left|done].
Qed.

(** X12: on a mesh with faces, when every unique edge has its list of
    half-edges, every face of such a half-edge contains the edge, and no list
    is longer than the largest [int], [is_orientable] returns without
    printing, and it returns [true] exactly when at every unique edge as many
    adjacent faces run along the edge as run against it. *)
Theorem is_orientable_spec (F : list face) (uE : list edge)
    (uE2E : list (list nat)) :
  F ≠ [] → length uE ≤ length uE2E →
  (∀ i s d adj ei f,
     uE !! i = Some (s, d) → uE2E !! i = Some adj → ei ∈ adj →
     F !! (ei mod length F) = Some f → along f s d || along f d s = true) →
  (∀ i adj, i < length uE → uE2E !! i = Some adj →
            (Z.of_nat (length adj) ≤ Int32.max_int)%Z) →
  ∃ b, is_orientable F uE uE2E = (Ok b, []) ∧
       (b = true ↔ ∀ i s d adj, uE !! i = Some (s, d) →
                     uE2E !! i = Some adj → balanced F s d adj).
Proof.
  intros HF Hlen Hedge Hadj. unfold is_orientable.
  destruct (orientable_at_edges_spec F uE uE2E (seq 0 (length uE)) HF)
    as (b & Hb & Hiff).
  - intros i Hi%elem_of_seq. lia.
  - intros i s d adj ei f _. apply Hedge.
  - intros i adj Hi%elem_of_seq. apply Hadj. lia.
  - exists b. split; [done|]. rewrite Hiff. split.
    + intros Hall i s d adj Hsd. apply Hall; [|done]. apply elem_of_seq.
      pose proof (lookup_lt_Some uE i _ Hsd). lia.
    + intros Hall i s d adj _. apply Hall.
Qed.

Section OrientableChecks.

Import Examples.

Lemma is_orientable_spec_witness :
  ∃ b, is_orientable F_flip uE_flip uE2E_flip = (Ok b, []) ∧
       (b = true ↔ ∀ i s d adj, uE_flip !! i = Some (s, d) →
                     uE2E_flip !! i = Some adj → balanced F_flip s d adj).
Proof.
  apply is_orientable_spec.
  - discriminate.
  - vm_compute. lia.
  - intros i s d adj ei f Hsd Hadj Hei Hf.
    assert (i < 11) as Hi by (apply lookup_lt_Some in Hsd; vm_compute in Hsd; lia).
    revert Hf.
    do 11 (destruct i as [|i];
           [vm_compute in Hsd, Hadj; simplify_eq;
            repeat (apply elem_of_cons in Hei as [->|Hei];
                    [vm_compute; by intros [= <-]|]);
            by apply elem_of_nil in Hei|]).
    lia.
  - intros i adj Hi Hadj.
    assert (i < 11) as Hi' by (vm_compute in Hi; lia).
    do 11 (destruct i as [|i]; [vm_compute in Hadj; simplify_eq; vm_compute; done|]).
    lia.
Defined.

End OrientableChecks.

(** ** What the traversals leave alone *)

Lemma keeps_assigned_refl (W : matrix) : keeps_assigned W W.
Proof. by split_and!. Qed.

Lemma keeps_assigned_trans (W X Y : matrix) :
  keeps_assigned W X → keeps_assigned X Y → keeps_assigned W Y.
Proof.
  intros (Hc1 & Hr1 & H1) (Hc2 & Hr2 & H2).
  split_and!; [congruence|congruence|]. intros p row Hp Ha. apply H2; [|done]. by apply H1.
Qed.

Lemma visit_neighbour_keeps (forward : bool) (labels : list nat)
    (num_labels curr : nat) (orientation : list bool) (curr_ori : bool)
    (i nb : nat) (W : matrix) (Q : list nat) (W' : matrix) (Q' : list nat)
    (l : list event) :
  (if forward then visit_next else visit_prev)
    labels num_labels curr orientation curr_ori i nb (W, Q) = (Ok (W', Q'), l) →
  keeps_assigned W W'.
Proof.
  intros H.
  assert (∃ row_nb, mdata W !! nb = Some row_nb ∧
            if row_assigned row_nb then W' = W
            else ∃ label cons la,
              (if forward then derive_next else derive_prev)
                num_labels curr nb label cons W = (Ok W', la))
    as (row_nb & Hnb & Hcase).
  { destruct forward; unfold visit_next, visit_prev in H;
      apply bind_Ok in H
        as (a & l1 & l2 & (row_nb & Hnb & -> & ->)%winding_num_assigned_Ok & H & ->);
      exists row_nb; (split; [done|]);
      destruct (row_assigned row_nb) eqn:Hb; simpl in H.
    1,3: by apply ret_Ok in H as [[= <- <-] _].
    all: bind_inv H as nb_ori ? _; bind_inv H as label ? _;
      bind_inv H as W1 la Hd; apply ret_Ok in H as [[= <- <-] _];
      by exists label, (negb (eqb nb_ori curr_ori)), la. }
  destruct (row_assigned row_nb) eqn:Hb.
  { subst W'. apply keeps_assigned_refl. }
  destruct Hcase as (label & cons & la & Hd).
  pose proof (derive_row_replaced forward _ _ _ _ _ _ _ _ _ Hnb Hd)
    as (row' & Hdata & Hlen & Hcols).
  split_and!; [done|by unfold mrows; rewrite Hdata, length_insert|].
  intros p row Hp Ha. rewrite Hdata.
  rewrite list_lookup_insert_ne; [done|]. intros <-. congruence.
Qed.

Lemma visit_curve_keeps (NDEBUG : bool) (labels : list nat)
    (orders : list (list nat)) (orientations : list (list bool))
    (num_labels curr : nat) (W : matrix) (Q : list nat) (curve_idx : nat)
    (W' : matrix) (Q' : list nat) (l : list event) :
  visit_curve NDEBUG labels orders orientations num_labels curr (W, Q) curve_idx
    = (Ok (W', Q'), l) →
  keeps_assigned W W'.
Proof.
  intros H. unfold visit_curve in H.
  bind_inv H as order ? _. bind_inv H as orientation ? _.
  bind_inv H as [] ? _. bind_inv H as [] ? _.
  bind_inv H as curr_i ? _. bind_inv H as curr_ori ? _.
  bind_inv H as next_i ? _. bind_inv H as prev_i ? _.
  bind_inv H as next_patch ? _. bind_inv H as prev_patch ? _.
  bind_inv H as [W1 Q1] ? H1.
  apply (visit_neighbour_keeps true) in H1.
  apply (visit_neighbour_keeps false) in H.
  by eapply keeps_assigned_trans.
Qed.

Lemma patch_bfs_keeps (NDEBUG : bool) (labels : list nat)
    (orders : list (list nat)) (orientations : list (list bool))
    (patch_curve_adjacency : list (list nat)) (num_labels n : nat)
    (W : matrix) (Q : list nat) (W' : matrix) (l : list event) :
  patch_bfs NDEBUG labels orders orientations patch_curve_adjacency num_labels
    n (W, Q) = (Ok W', l) →
  keeps_assigned W W'.
Proof.
  revert W Q l. induction n as [|n IH]; intros W Q l H; [discriminate|].
  destruct Q as [|curr Q]; simpl in H.
  - apply ret_Ok in H as [<- _]. apply keeps_assigned_refl.
  - bind_inv H as curr_label ? _. bind_inv H as curves ? _.
    bind_inv H as [W1 Q1] ? H1.
    apply IH in H. eapply keeps_assigned_trans; [|exact H].
    set (I := fun st : matrix * list nat => keeps_assigned W st.1).
    assert (I (W1, Q1)) as HI; [|exact HI].
    eapply (foldM_invariant I); [|exact H1|].
    + intros [X QX] c [X' QX'] l' Hc HX. unfold I in *. simpl in *.
      apply visit_curve_keeps in Hc. by eapply keeps_assigned_trans.
    + apply keeps_assigned_refl.
Qed.

Lemma seed_row_assigned (num_labels c : nat) (flipped : bool) :
  row_assigned (<[c := (if flipped then -1 else 1)%Z]>
                  (replicate (2 * num_labels) 0%Z)) = true.
Proof.
  unfold row_assigned. apply forallb_forall. intros x Hx%list_elem_of_In.
  apply list_elem_of_lookup in Hx as [j Hj].
  apply negb_true_iff, Z.eqb_neq. unfold INVALID, Int32.max_int.
  destruct (decide (j = c)) as [->|Hne].
  - pose proof (lookup_lt_Some _ _ _ Hj) as Hlt. rewrite length_insert in Hlt.
    rewrite list_lookup_insert_eq in Hj by done.
    injection Hj as <-. by destruct flipped.
  - rewrite list_lookup_insert_ne in Hj by done.
    apply lookup_replicate in Hj as [-> _]. done.
Qed.

(** X13: the traversal of the patches never writes into a row that holds no
    [INVALID] and keeps the shape of the table; so in the table that the
    patch-wise propagator returns, the row of the patch of the outer facet
    is still the seed: zeros, with -1 in the front column of its own label
    when the outer facet is flipped and 1 in the back column when it is
    not. *)
Theorem assigned_rows_are_final {Scalar : Type} (ext : Collaborators Scalar) :
  (∀ NDEBUG labels orders orientations patch_curve_adjacency num_labels fuel
     W Q W' l,
     patch_bfs NDEBUG labels orders orientations patch_curve_adjacency
       num_labels fuel (W, Q) = (Ok W', l) →
     keeps_assigned W W') ∧
  (∀ NDEBUG fuel V F uE uE2E labels P intersection_curves b W l,
     propagate_winding_numbers_single_component_patch_wise ext NDEBUG fuel
       V F uE uE2E labels P intersection_curves = (Ok (b, W), l) →
     ∃ max_patch max_label p lab,
       maxCoeff P = ret max_patch ∧ maxCoeff labels = ret max_label ∧
       P !! (outer_facet ext V F (seq 0 (length F))).1 = Some p ∧
       labels !! p = Some lab ∧
       mrows W = max_patch + 1 ∧ mcols W = 2 * (max_label + 1) ∧
       let flipped := (outer_facet ext V F (seq 0 (length F))).2 in
       mdata W !! p =
         Some (<[(if flipped then lab * 2 else lab * 2 + 1) :=
                   (if flipped then -1 else 1)%Z]>
                 (replicate (2 * (max_label + 1)) 0%Z))).
Proof.
  split.
  - intros. by eapply patch_bfs_keeps.
  - intros NDEBUG fuel V F uE uE2E labels P intersection_curves b W l H.
    unfold propagate_winding_numbers_single_component_patch_wise in H.
    bind_inv H as max_patch ? HP.
    pose proof HP as (-> & _)%maxCoeff_Ok.
    bind_inv H as [] ? _.
    bind_inv H as [[orders orientations] pca] ? _.
    bind_inv H as max_label ? HL.
    pose proof HL as (-> & HLmax & _)%maxCoeff_Ok.
    bind_inv H as [] ? _. unfold num_faces in H.
    destruct (outer_facet ext V F (seq 0 (length F))) as [idx flipped].
    bind_inv H as p ? Hp. apply vget_Ok in Hp as [Hp ->].
    bind_inv H as lab ? Hlab. apply vget_Ok in Hlab as [Hlab ->].
    bind_inv H as W0 ? HW0. bind_inv H as W1 ? Hbfs.
    bind_inv H as [] ? _. bind_inv H as consistent ? _.
    apply ret_Ok in H as [[= <- <-] _].
    exists max_patch, max_label, p, lab. cbv zeta. cbn [fst snd].
    pose proof (seed_patch_W_data _ _ _ _ _ _ _ HW0) as Hdata.
    assert (p < max_patch + 1) as Hlt.
    { unfold seed_patch_W in HW0. bind_inv HW0 as X ? HX.
      apply mset_row_Ok in HX as (old & Hold & _).
      apply lookup_lt_Some in Hold. unfold mconst in Hold. simpl in Hold.
      by rewrite length_replicate in Hold. }
    assert (mcols W0 = 2 * (max_label + 1)) as Hcols.
    { unfold seed_patch_W in HW0. bind_inv HW0 as X ? HX.
      apply mset_row_Ok in HX as (old & _ & _ & -> & _).
      destruct flipped; by apply mset_Ok in HW0 as (? & _ & _ & -> & _). }
    apply patch_bfs_keeps in Hbfs as (Hc & Hr & Hkeep).
    split_and!; [done|done|done|done| | |].
    + rewrite Hr. unfold mrows. rewrite Hdata.
      by rewrite length_insert, length_replicate.
    + congruence.
    + apply Hkeep; [|apply seed_row_assigned].
      rewrite Hdata. apply list_lookup_insert_eq.
      by rewrite length_replicate.
Qed.

Section AssignedRowsChecks.

Import Examples.

Lemma assigned_rows_are_final_witness :
  mdata (Matrix 2 [[0; 1]; [0; 1]]%Z) !! 0 = Some [0; 1]%Z.
Proof.
  destruct (assigned_rows_are_final ex) as [_ Hseed].
  destruct (Hseed false 10 V_two F_two uE_two uE2E_two [0; 0] P_two curves_two
              true (Matrix 2 [[0; 1]; [0; 1]]%Z)
              [Call "order_facets_around_edge"; Call "outer_facet"])
    as (max_patch & max_label & p & lab & HP & HL & Hp & Hlab & _ & _ & Hrow);
    [vm_compute; reflexivity|].
  vm_compute in HP, HL. injection HP as <-. injection HL as <-.
  vm_compute in Hp. injection Hp as <-.
  vm_compute in Hlab. injection Hlab as <-.
  exact Hrow.
Defined.

End AssignedRowsChecks.

(** ** How far the traversal of the cells goes *)

Lemma cell_visit_neighbor_frame (NDEBUG : bool) (patch_labels : list nat)
    (num_labels curr_cell : nat) (per_cell_W : matrix) (nb : CellConnection)
    (W' : matrix) (l : list event) :
  cell_visit_neighbor NDEBUG patch_labels num_labels curr_cell per_cell_W nb
    = (Ok W', l) →
  ∀ r c, r ≠ nb.1.1 → coeff W' r c = coeff per_cell_W r c.
Proof.
  destruct nb as [[neighbor_cell direction] patch_idx]. intros H.
  pose proof H as H'. unfold cell_visit_neighbor in H'.
  bind_inv H' as row ? Hr. apply mrow_Ok in Hr as [Hr ->].
  destruct (existsb _ row) eqn:Hinv.
  - by eapply cell_visit_neighbor_new in H as (_ & _ & Hframe).
  - bind_inv H' as [] ? _. by apply ret_Ok in H' as [<- _].
Qed.

Lemma cell_visit_neighbors_frame (NDEBUG : bool) (patch_labels : list nat)
    (num_labels curr_cell : nat) (neighbors : list CellConnection)
    (per_cell_W W' : matrix) (l : list event) :
  foldM (cell_visit_neighbor NDEBUG patch_labels num_labels curr_cell)
    neighbors per_cell_W = (Ok W', l) →
  ∀ r c, (∀ nb, nb ∈ neighbors → nb.1.1 ≠ r) →
         coeff W' r c = coeff per_cell_W r c.
Proof.
  revert per_cell_W l. induction neighbors as [|nb neighbors IH];
    intros W l H r c Hr.
  - by apply ret_Ok in H as [<- _].
  - rewrite foldM_cons in H. bind_inv H as W1 ? H1.
    rewrite (IH _ _ H) by (intros nb' Hnb'; apply Hr; by right).
    eapply cell_visit_neighbor_frame; [done|].
    intros Heq. eapply Hr; [by left|done].
Qed.

(** X14: the traversal of the cells of [propagate_winding_numbers_beta]
    pushes no cell onto its queue, so it ends after the neighbours of the
    infinity cell: in the table it returns, a cell that is neither the
    infinity cell nor one of its neighbours still holds [INVALID] for every
    label. *)
Theorem cells_past_the_neighbours_stay_unassigned {Scalar : Type}
    (ext : Collaborators Scalar) (NDEBUG : bool) (fuel : nat)
    (V : list (Scalar * Scalar * Scalar)) (F : list face) (labels P : list nat)
    (per_patch_cells : list (nat * nat)) (num_patches num_cells : nat)
    (cell_adjacency : list (list CellConnection)) (num_labels : nat)
    (per_cell_W : matrix) (l : list event) :
  beta_propagate_cells ext NDEBUG fuel V F labels P per_patch_cells
    num_patches num_cells cell_adjacency = (Ok (num_labels, per_cell_W), l) →
  ∃ outer_patch cells neighbors,
    P !! (outer_facet ext V F (seq 0 (length F))).1 = Some outer_patch ∧
    per_patch_cells !! outer_patch = Some cells ∧
    let infinity_cell :=
      if (outer_facet ext V F (seq 0 (length F))).2 then cells.2 else cells.1 in
    cell_adjacency !! infinity_cell = Some neighbors ∧
    ∀ c i, c < num_cells → c ≠ infinity_cell →
           (∀ nb, nb ∈ neighbors → nb.1.1 ≠ c) → i < num_labels →
           coeff per_cell_W c i = Some INVALID.
Proof.
  intros H. unfold beta_propagate_cells in H.
  bind_inv H as [] ? _.
  destruct (outer_facet ext V F (seq 0 (length F))) as [idx flipped].
  bind_inv H as outer_patch ? Hp. apply vget_Ok in Hp as [Hp ->].
  bind_inv H as cells ? Hc. apply vget_Ok in Hc as [Hc ->].
  bind_inv H as pl0 ? _. bind_inv H as [] ? _.
  bind_inv H as patch_labels ? _.
  bind_inv H as max_label ? _.
  bind_inv H as W0 lw HW0. bind_inv H as W1 lb Hbfs.
  apply ret_Ok in H as [[= <- <-] _].
  apply seed_cell_W_Ok in HW0 as (_ & _ & _ & Hinv).
  simpl. set (infinity_cell := if flipped then cells.2 else cells.1) in *.
  destruct fuel as [|[|n]]; [discriminate| |].
  - simpl in Hbfs. bind_inv Hbfs as neighbors ? _. bind_inv Hbfs as X ? _.
    discriminate.
  - rewrite cell_bfs_single_pass in Hbfs.
    bind_inv Hbfs as neighbors ? Hn. apply vget_Ok in Hn as [Hn ->].
    exists outer_patch, cells, neighbors. split_and!; [done..|].
    intros c i Hc' Hne Hfar Hi.
    rewrite (cell_visit_neighbors_frame _ _ _ _ _ _ _ _ Hbfs) by done.
    by apply Hinv.
Qed.

Section CellTraversalChecks.

Import Examples.

Lemma cells_past_the_neighbours_stay_unassigned_witness :
  coeff (Matrix 1 [[0]; [1]; [INVALID]]%Z) 2 0 = Some INVALID.
Proof.
  destruct (cells_past_the_neighbours_stay_unassigned ex false 10
              V_nested F_nested labels8 P_nested [(0, 1); (1, 2)] 2 3
              [[(1, false, 0)]; [(0, true, 0); (2, false, 1)]; [(1, true, 1)]]
              1 (Matrix 1 [[0]; [1]; [INVALID]]%Z) [Call "outer_facet"])
    as (outer_patch & cells & neighbors & Hp & Hc & Hn & Hfar);
    [vm_compute; reflexivity|].
  vm_compute in Hp. injection Hp as <-.
  vm_compute in Hc. injection Hc as <-.
  vm_compute in Hn. injection Hn as <-.
  apply Hfar; [lia|vm_compute; lia| |lia].
  intros nb ->%list_elem_of_singleton. vm_compute. lia.
Defined.

End CellTraversalChecks.

(** ** The two-colouring of the cells, with assertions *)

Lemma colours_kept_refl (cl : list Z) : colours_kept cl cl.
Proof. by split. Qed.

Lemma colours_kept_trans (cl cl' cl'' : list Z) :
  colours_kept cl cl' → colours_kept cl' cl'' → colours_kept cl cl''.
Proof.
  intros [Hl1 H1] [Hl2 H2]. split; [congruence|].
  intros c v Hc Hv. apply H2; [|done]. by apply H1.
Qed.

Lemma colours_kept_insert (cl : list Z) (c : nat) (v : Z) :
  cl !! c = Some 0%Z → colours_kept cl (<[c := v]> cl).
Proof.
  intros Hc. split; [by rewrite length_insert|].
  intros c' v' Hc' Hv'. rewrite list_lookup_insert_ne; [done|]. intros <-.
  congruence.
Qed.

Lemma opposite_neighbours_kept (cell_adjacency : list (list CellConnection))
    (cl cl' : list Z) (c : nat) :
  colours_kept cl cl' → opposite_neighbours cell_adjacency cl c →
  opposite_neighbours cell_adjacency cl' c.
Proof.
  intros [_ Hkeep] (v & nbs & Hc & Hv & Hnbs & Hall).
  exists v, nbs. split_and!; [by apply Hkeep|done|done|].
  intros nb Hnb. apply Hkeep; [by apply Hall|lia].
Qed.

Section TwoColouring.

Variables (fuel : nat) (F : list face) (P : list nat).
Variables (per_patch_cells : list (nat * nat)) (num_patches : nat).
Variable cell_adjacency : list (list CellConnection).

(** With assertions, a visit that returns has printed nothing: the
    diagnostic is followed by the assertion that fails. *)
Lemma colour_neighbor_silent (curr_idx : nat) (v : Z) (st : colouring)
    (nb : CellConnection) (st' : colouring) (l : list event) :
  colour_neighbor false fuel F P per_patch_cells num_patches curr_idx v st nb
    = (Ok st', l) →
  l = [].
Proof.
  destruct st as [[cl par] Q]. intros H. unfold colour_neighbor in H.
  bind_inv H as label ? Hl. apply vget_Ok in Hl as [_ ->].
  destruct (decide (label = 0%Z)).
  - bind_inv H as ? ? H2. apply vset_Ok in H2 as (_ & _ & ->).
    bind_inv H as ? ? H2. apply vset_Ok in H2 as (_ & _ & ->).
    by apply ret_Ok in H as [_ ->].
  - destruct (decide (label ≠ Int32.mul v (-1))) as [Hodd|Heven].
    + bind_inv H as [] ? _. bind_inv H as [] ? Ha. exfalso.
      unfold assert in Ha.
      rewrite bind_ret_l, bool_decide_false in Ha by done. discriminate.
    + bind_inv H as [] ? Hr. apply ret_Ok in Hr as [_ ->].
      bind_inv H as [] ? Ha. unfold assert in Ha.
      apply dec_stable in Heven.
      rewrite bind_ret_l, bool_decide_true in Ha by done.
      apply ret_Ok in Ha as [_ ->]. by apply ret_Ok in H as [_ ->].
Qed.

Lemma colour_neighbor_Ok (curr_idx : nat) (v : Z) (cl par : list Z)
    (Q : list nat) (nb : CellConnection) (cl' par' : list Z) (Q' : list nat)
    (l : list event) :
  (v = 1 ∨ v = -1)%Z →
  colour_neighbor false fuel F P per_patch_cells num_patches curr_idx v
    (cl, par, Q) nb = (Ok (cl', par', Q'), l) →
  l = [] ∧
  ((cl !! nb.1.1 = Some 0%Z ∧ cl' = <[nb.1.1 := (- v)%Z]> cl ∧
    Q' = Q ++ [nb.1.1]) ∨
   (cl !! nb.1.1 = Some (- v)%Z ∧ cl' = cl ∧ Q' = Q)).
Proof.
  intros Hv H. unfold colour_neighbor in H.
  bind_inv H as label ? Hl. apply vget_Ok in Hl as [Hl ->].
  assert (Int32.mul v (-1) = (- v)%Z) as Hmul
    by (by destruct Hv as [-> | ->]).
  rewrite Hmul in H.
  destruct (decide (label = 0%Z)) as [->|Hne].
  - bind_inv H as cl1 ? H1. apply vset_Ok in H1 as (_ & -> & ->).
    bind_inv H as par1 ? H2. apply vset_Ok in H2 as (_ & -> & ->).
    apply ret_Ok in H as [[= <- <- <-] ->]. split; [done|]. by left.
  - destruct (decide (label ≠ (- v)%Z)) as [Hodd|Heven].
    + bind_inv H as [] ? _. bind_inv H as [] ? Ha. exfalso.
      unfold assert in Ha. rewrite bind_ret_l, bool_decide_false in Ha by done.
      discriminate.
    + apply dec_stable in Heven as ->.
      bind_inv H as [] ? Hr. apply ret_Ok in Hr as [_ ->].
      bind_inv H as [] ? Ha.
      unfold assert in Ha. rewrite bind_ret_l, bool_decide_true in Ha by done.
      apply ret_Ok in Ha as [_ ->].
      apply ret_Ok in H as [[= <- <- <-] ->]. split; [done|]. by right.
Qed.

(** The state of the traversal: the coloured cells are in the queue or have
    their neighbours in the other colour. *)
Let settled (cl : list Z) (Q : list nat) : Prop :=
  colours_in_range cl ∧
  ∀ c v, cl !! c = Some v → v ≠ 0%Z →
         c ∈ Q ∨ opposite_neighbours cell_adjacency cl c.

Lemma colour_neighbors_Ok (curr_idx : nat) (v : Z) (nbs : list CellConnection)
    (cl par : list Z) (Q : list nat) (cl' par' : list Z) (Q' : list nat)
    (l : list event) :
  (v = 1 ∨ v = -1)%Z → cl !! curr_idx = Some v →
  cell_adjacency !! curr_idx = Some nbs →
  settled cl (curr_idx :: Q) →
  foldM (colour_neighbor false fuel F P per_patch_cells num_patches curr_idx v)
    nbs (cl, par, Q) = (Ok (cl', par', Q'), l) →
  l = [] ∧ colours_kept cl cl' ∧ settled cl' Q'.
Proof.
  intros Hv Hcurr Hnbs [Hrange Hsettled] H.
  set (I := fun (done : list CellConnection) (st : colouring) =>
         colours_kept cl st.1.1 ∧ colours_in_range st.1.1 ∧
         (∀ c w, st.1.1 !! c = Some w → w ≠ 0%Z →
            c = curr_idx ∨ c ∈ st.2 ∨
            opposite_neighbours cell_adjacency st.1.1 c) ∧
         ∀ nb : CellConnection, nb ∈ done → st.1.1 !! nb.1.1 = Some (- v)%Z).
  assert (l = []) as ->.
  { eapply foldM_silent; [|exact H]. intros ????. apply colour_neighbor_silent. }
  split; [done|].
  assert (I nbs (cl', par', Q')) as (Hkept & Hrange' & Hsettled' & Hdone).
  { eapply (foldM_prefix_invariant I); [| |exact H].
    - clear H. intros done nb rest [[cl1 par1] Q1] [[cl2 par2] Q2] l1 _
        (Hkept & Hrange1 & Hsettled1 & Hdone) H. unfold I in *. simpl in *.
      apply colour_neighbor_Ok in H
        as (_ & [(Hzero & -> & ->)|(Hother & -> & ->)]); [| |done].
      + pose proof (colours_kept_insert cl1 nb.1.1 (- v)%Z Hzero) as Hstep.
        assert (nb.1.1 < length cl1) as Hlt by by eapply lookup_lt_Some.
        split_and!.
        * by eapply colours_kept_trans.
        * intros c w Hc. destruct (decide (c = nb.1.1)) as [->|Hne].
          -- rewrite list_lookup_insert_eq in Hc by done. injection Hc as <-.
             lia.
          -- rewrite list_lookup_insert_ne in Hc by done. by eapply Hrange1.
        * intros c w Hc Hw. destruct (decide (c = nb.1.1)) as [->|Hne].
          -- right. left. apply elem_of_app. right. by left.
          -- rewrite list_lookup_insert_ne in Hc by done.
             destruct (Hsettled1 c w Hc Hw) as [?|[?|?]]; [by left| |].
             ++ right. left. apply elem_of_app. by left.
             ++ right. right. by eapply opposite_neighbours_kept.
        * intros nb' [Hnb'| ->%list_elem_of_singleton]%elem_of_app.
          -- destruct Hstep as [_ Hstep]. apply Hstep; [by apply Hdone|lia].
          -- by rewrite list_lookup_insert_eq.
      + split_and!; [done..|].
        intros nb' [Hnb'| ->%list_elem_of_singleton]%elem_of_app;
          [by apply Hdone|done].
    - unfold I. simpl. split_and!; [apply colours_kept_refl|done| |].
      + intros c w Hc Hw. destruct (Hsettled c w Hc Hw) as [[->|?]%elem_of_cons|?];
          [by left|right; by left|right; by right].
      + intros nb Hnb. by apply elem_of_nil in Hnb. }
  simpl in *. split; [done|]. split; [done|].
  intros c w Hc Hw. destruct (Hsettled' c w Hc Hw) as [->|[?|?]];
    [|by left|by right].
  right. exists v, nbs. destruct Hkept as [_ Hkept].
  assert (cl' !! curr_idx = Some v) as Hcurr'
    by (apply Hkept; [done|lia]).
  assert (w = v) as -> by congruence.
  by split_and!.
Qed.

Lemma colour_bfs_Ok (n : nat) (cl par : list Z) (Q : list nat)
    (cl' par' : list Z) (Q' : list nat) (l : list event) :
  settled cl Q → (∀ c, c ∈ Q → ∃ v, cl !! c = Some v ∧ v ≠ 0%Z) →
  colour_bfs false fuel F P per_patch_cells num_patches cell_adjacency n
    (cl, par, Q) = (Ok (cl', par', Q'), l) →
  l = [] ∧ colours_kept cl cl' ∧ settled cl' [].
Proof.
  revert cl par Q l. induction n as [|n IH]; intros cl par Q l HQ Hcol H;
    [discriminate|].
  destruct Q as [|curr Q]; simpl in H.
  - apply ret_Ok in H as [[= <- <- <-] ->].
    split_and!; [done|apply colours_kept_refl|done].
  - bind_inv H as v ? Hv. apply vget_Ok in Hv as [Hv ->].
    bind_inv H as nbs ? Hnbs. apply vget_Ok in Hnbs as [Hnbs ->].
    bind_inv H as [[cl1 par1] Q1] ? H1.
    destruct (Hcol curr) as (v' & Hv' & Hne); [by left|].
    assert (v' = v) as -> by congruence.
    assert (v = 1 ∨ v = -1)%Z as Hrange.
    { destruct HQ as [Hr _]. destruct (Hr curr v Hv) as [?|?]; [done|done]. }
    assert (∃ new, Q1 = Q ++ new ∧ ∀ c, c ∈ new → ∃ w, cl1 !! c = Some w ∧ w ≠ 0%Z)
      as (new & -> & Hnew).
    { clear IH H HQ Hcol.
      set (I := fun st : colouring =>
             ∃ new, st.2 = Q ++ new ∧
                    ∀ c, c ∈ new → ∃ w, st.1.1 !! c = Some w ∧ w ≠ 0%Z).
      assert (I (cl1, par1, Q1)) as HI; [|exact HI].
      eapply (foldM_invariant I); [|exact H1|].
      - intros [[cla para] Qa] nb [[clb parb] Qb] lb Hb (new & HQa & Hnew).
        simpl in *. subst Qa.
        apply colour_neighbor_Ok in Hb
          as (_ & [(Hzero & -> & ->)|(Hother & -> & ->)]); [| |done].
        + exists (new ++ [nb.1.1]). simpl. split; [by rewrite app_assoc|].
          assert (nb.1.1 < length cla) as Hlt by by eapply lookup_lt_Some.
          intros c [Hc| ->%list_elem_of_singleton]%elem_of_app.
          * destruct (Hnew c Hc) as (w & Hw & Hw0). exists w. split; [|done].
            rewrite list_lookup_insert_ne; [done|]. intros <-. congruence.
          * exists (- v)%Z. rewrite list_lookup_insert_eq by done.
            split; [done|lia].
        + by exists new.
      - exists []. simpl. split; [by rewrite app_nil_r|].
        intros c Hc. by apply elem_of_nil in Hc. }
    eapply colour_neighbors_Ok in H1 as (-> & Hkept & Hsettled); [|done..].
    apply IH in H as (-> & Hkept' & Hsettled').
    + split_and!; [done| |done]. by eapply colours_kept_trans.
    + done.
    + intros c [Hc|Hc]%elem_of_app; [|by apply Hnew].
      destruct (Hcol c) as (w & Hw & Hw0); [by right|].
      exists w. split; [|done]. destruct Hkept as [_ Hkept]. by apply Hkept.
Qed.

End TwoColouring.

(** X15: with assertions enabled, a check for odd cycles that returns has
    printed nothing and has given every cell the colour 1 or -1, and every
    neighbour of a cell has the colour opposite to that of the cell. *)
Theorem check_odd_cycle_two_colours (fuel : nat) (F : list face) (P : list nat)
    (per_patch_cells : list (nat * nat)) (num_patches : nat)
    (cell_adjacency : list (list CellConnection)) (num_cells : nat)
    (cell_labels parents : list Z) (l : list event) :
  check_odd_cycle false fuel F P per_patch_cells num_patches cell_adjacency
    num_cells = (Ok (cell_labels, parents), l) →
  l = [] ∧ length cell_labels = num_cells ∧
  (∀ c, c < num_cells →
     ∃ v, cell_labels !! c = Some v ∧ (v = 1 ∨ v = -1)%Z) ∧
  (∀ c, c < num_cells → opposite_neighbours cell_adjacency cell_labels c).
Proof.
  unfold check_odd_cycle. intros H.
  set (I := fun (done : list nat) (st : list Z * list Z) =>
         length st.1 = num_cells ∧ colours_in_range st.1 ∧
         (∀ c v, st.1 !! c = Some v → v ≠ 0%Z →
                 opposite_neighbours cell_adjacency st.1 c) ∧
         ∀ c, c ∈ done → ∃ v, st.1 !! c = Some v ∧ v ≠ 0%Z).
  assert (l = []) as ->.
  { eapply foldM_silent; [|exact H].
    intros [cl par] i [cl' par'] li Hi.
    bind_inv Hi as label ? Hl. apply vget_Ok in Hl as [_ ->].
    destruct (decide (label = 0%Z)); [|by apply ret_Ok in Hi as [_ ->]].
    bind_inv Hi as cl1 ? H1. apply vset_Ok in H1 as (_ & _ & ->).
    bind_inv Hi as par1 ? H2. apply vset_Ok in H2 as (_ & _ & ->).
    bind_inv Hi as [[cl2 par2] Q2] lb Hbfs.
    apply ret_Ok in Hi as [_ ->]. simpl. rewrite app_nil_r.
    assert (∀ n st l', colour_bfs false fuel F P per_patch_cells num_patches
                         cell_adjacency n st = (Ok (cl2, par2, Q2), l') → l' = [])
      as Hsilent; [|by eapply Hsilent].
    clear. induction n as [|n IH]; intros [[cl par] Q] l' Hn; [discriminate|].
    destruct Q as [|curr Q]; simpl in Hn.
    - by apply ret_Ok in Hn as [_ ->].
    - bind_inv Hn as v ? Hv. apply vget_Ok in Hv as [_ ->].
      bind_inv Hn as nbs ? Hnbs. apply vget_Ok in Hnbs as [_ ->].
      bind_inv Hn as st ? H1. apply IH in Hn as ->.
      simpl. rewrite app_nil_r.
      eapply foldM_silent; [|exact H1].
      intros ????. apply colour_neighbor_silent. }
  assert (I (seq 0 num_cells) (cell_labels, parents))
    as (Hlen & Hrange & Hopp & Hall).
  { eapply (foldM_prefix_invariant I); [| |exact H].
    - clear H. intros done i rest [cl par] [cl' par'] li _
        (Hlen & Hrange & Hopp & Hdone) Hi. unfold I in *. simpl in *.
      bind_inv Hi as label ? Hl. apply vget_Ok in Hl as [Hl ->].
      destruct (decide (label = 0%Z)) as [->|Hne].
      + bind_inv Hi as cl1 ? H1. apply vset_Ok in H1 as (Hlt & -> & ->).
        bind_inv Hi as par1 ? H2. apply vset_Ok in H2 as (_ & -> & ->).
        bind_inv Hi as [[cl2 par2] Q2] ? Hbfs.
        apply ret_Ok in Hi as [[= <- <-] _].
        pose proof (colours_kept_insert cl i 1%Z Hl) as Hstep.
        apply colour_bfs_Ok in Hbfs as (_ & Hkept & Hrange2 & Hsettled).
        * pose proof (colours_kept_trans _ _ _ Hstep Hkept) as [Hlen2 Hkeep2].
          split_and!; [congruence|done| |].
          -- intros c v Hc Hv. destruct (Hsettled c v Hc Hv) as [Hin|?]; [|done].
             by apply elem_of_nil in Hin.
          -- intros c [Hc| ->%list_elem_of_singleton]%elem_of_app.
             ++ destruct (Hdone c Hc) as (v & Hv & Hv0). exists v.
                split; [|done]. by apply Hkeep2.
             ++ exists 1%Z. split; [|done]. destruct Hkept as [_ Hkept].
                apply Hkept; [|done]. by rewrite list_lookup_insert_eq.
        * split.
          -- intros c v Hc. destruct (decide (c = i)) as [->|Hci].
             ++ rewrite list_lookup_insert_eq in Hc by done.
                injection Hc as <-. lia.
             ++ rewrite list_lookup_insert_ne in Hc by done. by eapply Hrange.
          -- intros c v Hc Hv. destruct (decide (c = i)) as [->|Hci];
               [left; by left|].
             rewrite list_lookup_insert_ne in Hc by done.
             right. eapply opposite_neighbours_kept; [exact Hstep|].
             by eapply Hopp.
        * intros c ->%list_elem_of_singleton. exists 1%Z.
          by rewrite list_lookup_insert_eq.
      + apply ret_Ok in Hi as [[= <- <-] _].
        split_and!; [done..|].
        intros c [Hc| ->%list_elem_of_singleton]%elem_of_app;
          [by apply Hdone|by exists label].
    - unfold I. simpl. split_and!.
      + by rewrite length_replicate.
      + intros c v [-> _]%lookup_replicate. by left.
      + by intros c v [-> _]%lookup_replicate.
      + intros c Hc. by apply elem_of_nil in Hc. }
  simpl in *. split_and!; [done|done| |].
  - intros c Hc. destruct (Hall c) as (v & Hv & Hv0); [apply elem_of_seq; lia|].
    exists v. split; [done|]. destruct (Hrange c v Hv) as [?|?]; done.
  - intros c Hc. destruct (Hall c) as (v & Hv & Hv0); [apply elem_of_seq; lia|].
    by eapply Hopp.
Qed.

Section TwoColouringChecks.

Import Examples.

Lemma check_odd_cycle_two_colours_witness :
  opposite_neighbours
    [[(1, false, 0); (2, false, 1)]; [(0, true, 0)]; [(0, true, 1)]]
    [1; -1; -1]%Z 0.
Proof.
  destruct (check_odd_cycle_two_colours 10 F_two P_two [(0, 1); (0, 2)] 2
              [[(1, false, 0); (2, false, 1)]; [(0, true, 0)]; [(0, true, 1)]] 3
              [1; -1; -1]%Z [0; 0; 0]%Z [])
    as (_ & _ & _ & Hopp); [vm_compute; reflexivity|].
  apply Hopp. lia.
Defined.

End TwoColouringChecks.

(** * Along the curves, through the cells, across the components *)

(** ** The crossing rule at a curve *)

(** The search of the dequeued patch in the order of a curve ends at its
    first occurrence. *)
Lemma find_position_Some (order : list nat) (p i : nat) :
  find_position order p = Some i →
  order !! i = Some p ∧ ∀ j, j < i → order !! j ≠ Some p.
Proof.
  revert i. induction order as [|q order IH]; intros i; simpl; [done|].
  case_bool_decide as Hq.
  - intros [= <-]. split; [by rewrite Hq|]. intros j Hj. lia.
  - destruct (find_position order p) as [i'|]; [|done]. simpl.
    intros [= <-]. destruct (IH i' eq_refl) as [Hi' Hfirst]. split; [done|].
    intros [|j] Hj; simpl; [congruence|]. apply Hfirst. lia.
Qed.

(** The rule at one neighbour. *)
Lemma visit_neighbour_crossed (labels : list nat) (num_labels curr : nat)
    (orientation : list bool) (curr_ori : bool) (i nb : nat) (forward : bool)
    (W : matrix) (Q : list nat) (W' : matrix) (Q' : list nat) (l : list event) :
  assigned W curr →
  (if forward then visit_next else visit_prev)
    labels num_labels curr orientation curr_ori i nb (W, Q) = (Ok (W', Q'), l) →
  l = [] ∧
  neighbour_visited labels num_labels forward orientation curr_ori curr i nb
    W Q W' Q'.
Proof.
  intros Hcurr H.
  destruct (crossing_rule_at_neighbour _ _ _ _ _ _ _ _ _ _ _ _ _ Hcurr H)
    as (row_nb & Hnb & Hcase).
  destruct (row_assigned row_nb) eqn:Ha.
  - destruct Hcase as (-> & -> & ->). split; [done|].
    exists row_nb. split; [done|]. by rewrite Ha.
  - destruct Hcase as (nb_ori & label & Hori & Hlabel & -> & -> & Hframe & Hrule).
    split; [done|]. exists row_nb. split; [done|]. rewrite Ha.
    exists nb_ori. split_and!; [done|done|]. by exists label.
Qed.

(** C2: at a curve of a dequeued patch [curr] whose row is assigned, the
    traversal looks [curr] up at its first position [curr_i] in the cyclic
    order of the curve.  The forward neighbour is the patch at the following
    position when the flag of [curr] at the curve is set and at the
    preceding position when it is not; the backward neighbour is the patch
    at the other side.  First the forward, then the backward neighbour is
    visited: a neighbour whose row is assigned is not written; the row of
    another one is derived from the row of [curr] by the crossing rule of
    its direction, and the neighbour is pushed.  The traversal does this
    for the curves of the patch that it dequeues, in their order. *)
Theorem crossing_rule (NDEBUG : bool) (labels : list nat)
    (orders : list (list nat)) (orientations : list (list bool))
    (patch_curve_adjacency : list (list nat)) (num_labels : nat) :
  (∀ curr curve_idx W Q W' Q' l,
     assigned W curr →
     visit_curve NDEBUG labels orders orientations num_labels curr (W, Q)
       curve_idx = (Ok (W', Q'), l) →
     ∃ (order : list nat) (orientation : list bool) (curr_i : nat)
       (curr_ori : bool) (next prev : nat) (W1 : matrix) (Q1 : list nat),
       orders !! curve_idx = Some order ∧
       orientations !! curve_idx = Some orientation ∧
       order !! curr_i = Some curr ∧
       (∀ j, j < curr_i → order !! j ≠ Some curr) ∧
       orientation !! curr_i = Some curr_ori ∧
       let following := (curr_i + 1) mod length order in
       let preceding := (curr_i + length order - 1) mod length order in
       let next_i := if curr_ori then following else preceding in
       let prev_i := if curr_ori then preceding else following in
       order !! next_i = Some next ∧ order !! prev_i = Some prev ∧
       neighbour_visited labels num_labels true orientation curr_ori
         curr next_i next W Q W1 Q1 ∧
       mdata W1 !! curr = mdata W !! curr ∧
       neighbour_visited labels num_labels false orientation curr_ori
         curr prev_i prev W1 Q1 W' Q' ∧
       l = []) ∧
  (∀ n W curr Q,
     patch_bfs NDEBUG labels orders orientations patch_curve_adjacency
       num_labels (S n) (W, curr :: Q) =
     (curr_label ← vget labels curr;
      adj_curves ← vget patch_curve_adjacency curr;
      st ← foldM (visit_curve NDEBUG labels orders orientations num_labels curr)
             adj_curves (W, Q);
      patch_bfs NDEBUG labels orders orientations patch_curve_adjacency
        num_labels n st)).
Proof.
  split; [|done].
  intros curr curve_idx W Q W' Q' l Hcurr H. unfold visit_curve in H.
  bind_inv H as order ? Ho. apply vget_Ok in Ho as [Ho ->].
  bind_inv H as orientation ? Hor. apply vget_Ok in Hor as [Hor ->].
  bind_inv H as [] la1 Ha1. bind_inv H as [] la2 Ha2.
  assert (la1 = [] ∧ la2 = []) as [-> ->].
  { unfold assert, ret, bind, abort in Ha1, Ha2. destruct NDEBUG.
    - split; congruence.
    - split; [destruct (bool_decide (length order = _))
             |destruct (bool_decide (is_Some _))];
        simpl in *; congruence. }
  bind_inv H as curr_i ? Hfound.
  destruct (find_position order curr) as [ci|] eqn:Hpos; [|discriminate].
  simpl in Hfound. apply ret_Ok in Hfound as [-> ->].
  apply find_position_Some in Hpos as [Hat Hfirst].
  bind_inv H as curr_ori ? Hco. apply vget_Ok in Hco as [Hco ->].
  bind_inv H as next_i ln Hnext. bind_inv H as prev_i lp Hprev.
  assert (next_i = (if curr_ori then (curr_i + 1) mod length order
                    else (curr_i + length order - 1) mod length order) ∧
          prev_i = (if curr_ori then (curr_i + length order - 1) mod length order
                    else (curr_i + 1) mod length order) ∧
          ln = [] ∧ lp = []) as (-> & -> & -> & ->).
  { destruct curr_ori;
      apply umod_Ok in Hnext as (_ & -> & ->);
      apply umod_Ok in Hprev as (_ & -> & ->); done. }
  bind_inv H as next ? Hnp. apply vget_Ok in Hnp as [Hnp ->].
  bind_inv H as prev ? Hpp. apply vget_Ok in Hpp as [Hpp ->].
  bind_inv H as [W1 Q1] ? H1.
  pose proof (visit_neighbour_keeps true _ _ _ _ _ _ _ _ _ _ _ _ H1)
    as (_ & _ & Hkeep).
  destruct Hcurr as (row & Hrow & Hrow_a).
  pose proof (Hkeep _ _ Hrow Hrow_a) as Hrow1.
  apply (visit_neighbour_crossed _ _ _ _ _ _ _ true) in H1 as [-> Hforward];
    [|by exists row].
  apply (visit_neighbour_crossed _ _ _ _ _ _ _ false) in H as [-> Hbackward];
    [|by exists row].
  exists order, orientation, curr_i, curr_ori, next, prev, W1, Q1.
  cbv zeta. split_and!; try done. congruence.
Qed.

Section CrossingChecks.

Import Examples.

(** The curve of the two tetrahedra that share an edge, seen from patch 0
    with the row (0, 1): the forward neighbour is patch 1 at position 1,
    with the other flag, and gets the row (0, 0 + 1); the backward
    neighbour, at position 3, is patch 0 itself and is not written. *)
Lemma crossing_rule_witness :
  ∃ W1 Q1,
    neighbour_visited [0; 0] 1 true [true; false; true; false] true 0 1 1
      (Matrix 2 [[0; 1]; [INVALID; INVALID]]%Z) [] W1 Q1 ∧
    neighbour_visited [0; 0] 1 false [true; false; true; false] true 0 3 0
      W1 Q1 (Matrix 2 [[0; 1]; [0; 1]]%Z) [1].
Proof.
  destruct (crossing_rule false [0; 0] [[0; 1; 1; 0]]
              [[true; false; true; false]] [[0; 0]; [0; 0]] 1) as [Hrule _].
  destruct (Hrule 0 0 (Matrix 2 [[0; 1]; [INVALID; INVALID]]%Z) []
              (Matrix 2 [[0; 1]; [0; 1]]%Z) [1] [])
    as (order & orientation & curr_i & curr_ori & next & prev & W1 & Q1 &
        Ho & Hor & Hat & Hfirst & Hco & Hnext & Hprev & Hforward & _ &
        Hbackward & _).
  - exists [0; 1]%Z. split; reflexivity.
  - vm_compute. reflexivity.
  - injection Ho as <-. injection Hor as <-.
    assert (curr_i = 0) as ->.
    { destruct curr_i as [|j]; [done|]. by destruct (Hfirst 0); [lia|]. }
    injection Hco as <-. cbv zeta in Hnext, Hprev.
    injection Hnext as <-. injection Hprev as <-.
    exists W1, Q1. split; [exact Hforward|exact Hbackward].
Defined.

End CrossingChecks.

(** ** The cells that the traversal of the cells leaves out *)

Section CellTraversalDefect.

Import Examples.

(** C7: the traversal of the cells is no traversal of the graph of the
    cells.  On the nested tetrahedra the cell inside the inner tetrahedron
    is next to the cell between the two, which is next to the infinity
    cell; the loop pushes no cell onto its queue, so it ends after the
    neighbours of the infinity cell, and in both builds the faces of the
    inner tetrahedron come back with [INVALID] as the value of their back
    cell, where crossing patch 1 from the cell with the value 1 gives 2. *)
Theorem cell_traversal_misses_the_inner_cell (NDEBUG : bool) :
  build_cell_adjacency [(0, 1); (1, 2)] 3 2
    = ret [[(1, false, 0)]; [(0, true, 0); (2, false, 1)]; [(1, true, 1)]] ∧
  propagate_winding_numbers_beta ex NDEBUG 10 V_nested F_nested labels8
    = (Ok (Matrix 2 [[0; 1]; [0; 1]; [0; 1]; [0; 1];
                     [1; INVALID]; [1; INVALID]; [1; INVALID]; [1; INVALID]]%Z),
       [Call "unique_edge_map"; Call "extract_manifold_patches";
        Call "extract_cells"; Call "outer_facet"]).
Proof. split; [reflexivity|]. destruct NDEBUG; vm_compute; reflexivity. Qed.

End CellTraversalDefect.

(** ** The nesting corrector and the representative points *)

(** The place of a component among the components other than [i]. *)
Lemma index_without_i_lookup (n i j : nat) :
  j < n → j ≠ i →
  filter (fun j' => i ≠ j') (seq 0 n) !! index_without_i i j = Some j.
Proof.
  intros Hj Hne. unfold index_without_i.
  assert (∀ a m, (∀ k, a ≤ k < a + m → i ≠ k) →
            filter (fun j' => i ≠ j') (seq a m) = seq a m) as Hkeep.
  { intros a m Hall. apply filter_all, Forall_forall.
    intros k Hk%elem_of_seq. by apply Hall. }
  destruct (decide (n ≤ i)) as [Hi|Hi].
  - rewrite Hkeep by (intros; lia). rewrite decide_True by lia.
    by apply lookup_seq_lt.
  - replace n with (i + (1 + (n - i - 1))) by lia.
    rewrite seq_app, filter_app, (seq_app 1), filter_app.
    rewrite (Hkeep 0 i) by (intros; lia). simpl.
    rewrite filter_cons_False by (intros Hf; by apply Hf).
    rewrite filter_nil, app_nil_l, Hkeep by (intros; lia).
    case_decide.
    + rewrite lookup_app_l by (rewrite length_seq; lia).
      by apply lookup_seq_lt.
    + rewrite lookup_app_r by (rewrite length_seq; lia).
      rewrite length_seq. rewrite lookup_seq_lt by lia. f_equal. lia.
Qed.

Lemma index_without_i_find (n i j : nat) :
  j < n → j ≠ i →
  list_find (fun j' => j' = j) (filter (fun j' => i ≠ j') (seq 0 n))
  = Some (index_without_i i j, j).
Proof.
  intros Hj Hne. apply list_find_Some.
  split_and!; [by apply index_without_i_lookup|done|].
  intros k y Hk Hlt ->.
  assert (NoDup (filter (fun j' => i ≠ j') (seq 0 n))) as Hnd
    by apply NoDup_filter, NoDup_seq.
  pose proof (NoDup_lookup _ _ _ _ Hnd Hk (index_without_i_lookup n i j Hj Hne)).
  lia.
Qed.

Section Representatives.

Context {Scalar : Type} (ext : Collaborators Scalar).
Variables (V : list (Scalar * Scalar * Scalar)) (W : matrix).
Variables (num_components : nat) (components : list (list nat)).
Variable comp_faces : list (list face).

(** The sample that the code takes of a component is its representative
    point: the centroid of its first face. *)
Lemma sample_component_Ok (cid : nat) (p : Scalar * Scalar * Scalar)
    (l : list event) :
  sample_component ext V comp_faces cid = (Ok p, l) →
  representative_point ext V comp_faces cid = Some p.
Proof.
  unfold sample_component, representative_point. intros H.
  bind_inv H as faces ? Hcf. apply vget_Ok in Hcf as [Hcf _].
  bind_inv H as [[f0 f1] f2] ? Hf. apply vget_Ok in Hf as [Hf _].
  bind_inv H as [[a0 b0] c0] ? H0. apply vget_Ok in H0 as [H0 _].
  bind_inv H as [[a1 b1] c1] ? H1. apply vget_Ok in H1 as [H1 _].
  bind_inv H as [[a2 b2] c2] ? H2. apply vget_Ok in H2 as [H2 _].
  apply ret_Ok in H as [<- _]. unfold face in *.
  rewrite Hcf. simpl. rewrite head_lookup, Hf. simpl.
  rewrite H0. simpl. rewrite H1. simpl. by rewrite H2.
Qed.

Lemma samples_are_representatives (others : list nat)
    (samples : list (Scalar * Scalar * Scalar)) (l : list event) :
  forM others (sample_component ext V comp_faces) = (Ok samples, l) →
  mapM (representative_point ext V comp_faces) others = Some samples.
Proof.
  intros H%forM_Forall2. apply mapM_Some.
  eapply Forall2_impl; [exact H|]. intros j p [l' Hp].
  by eapply sample_component_Ok.
Qed.

(** What the loops read for a pair is the nearest face of the pair. *)
Lemma queried_face_nearest (i j : nat) (fo : nat * bool) :
  j < num_components → j ≠ i →
  queried_face ext V num_components components comp_faces i j = Some fo →
  nearest_face ext V num_components components comp_faces i j = Some fo.
Proof.
  intros Hj Hne. unfold queried_face, nearest_face.
  destruct (forM _ _) as [[samples| | | |] l] eqn:Hsamples; simpl; try done.
  rewrite (samples_are_representatives _ _ _ Hsamples). simpl.
  destruct (comp_faces !! i) as [faces_i|]; [|done]. simpl.
  destruct (components !! i) as [comp|]; [|done]. simpl.
  destruct (closest_facet ext V faces_i samples) as [fids orientation].
  by rewrite (index_without_i_find _ _ _ Hj Hne).
Qed.

Lemma total_queried_correction (j k : nat) (c : Z) :
  j < num_components →
  total_queried ext V W num_components components comp_faces j k = Some c →
  total_correction ext V W num_components components comp_faces j k = Some c.
Proof.
  intros Hj. unfold total_queried, total_correction.
  generalize (Some 0%Z). generalize (seq 0 num_components).
  intros cs. induction cs as [|i cs IH]; intros acc; simpl; [done|].
  assert (∀ cs', foldl (add_queried ext V W num_components components
                          comp_faces j k) None cs' = None) as Hnone.
  { induction cs' as [|i' cs' IH']; simpl; [done|].
    unfold add_queried at 2. by destruct (decide (i' = j)). }
  intros H.
  destruct (add_queried ext V W num_components components comp_faces j k acc i)
    as [a|] eqn:Hq; [|by rewrite Hnone in H].
  assert (add_correction ext V W num_components components comp_faces j k acc i
          = Some a) as ->; [|by apply IH].
  unfold add_queried in Hq. unfold add_correction.
  destruct (decide (i = j)) as [->|Hne]; [done|].
  destruct acc as [a0|]; simpl in *; [|done].
  unfold queried_correction in Hq. unfold pair_correction.
  destruct (queried_face ext V num_components components comp_faces i j)
    as [fo|] eqn:Hfo; simpl in Hq; [|done].
  by rewrite (queried_face_nearest i j fo Hj ltac:(congruence) Hfo).
Qed.

End Representatives.

Section NestingClaim.

Context {Scalar : Type} (ext : Collaborators Scalar).

(** The loop over the components has a table for every component when it
    ends. *)
Lemma propagate_components_all (NDEBUG : bool) (fuel : nat)
    (V : list (Scalar * Scalar * Scalar)) (components : list (list nat))
    (comp_faces : list (list face)) (comp_labels : list (list nat))
    (n : nat) (W0 W : matrix) (Ws : list matrix) (l : list event) :
  foldM (propagate_component ext NDEBUG fuel V components comp_faces comp_labels)
    (seq 0 n) (W0, []) = (Ok (W, Ws), l) →
  length Ws = n.
Proof.
  intros H.
  set (I := fun (done : list nat) (st : matrix * list matrix) =>
         length st.2 = length done).
  assert (I (seq 0 n) (W, Ws)) as HI.
  { eapply (foldM_prefix_invariant I); [| |exact H]; [|done].
    intros done i rest [Wa Wsa] [Wb Wsb] l' _ HI Hstep. unfold I in *.
    apply propagate_component_Ok in Hstep
      as (? & ? & ? & Ws_i & ? & ? & ? & _ & _ & _ & _ & _ & _ & -> & _).
    simpl in *. rewrite !length_app. simpl. lia. }
  unfold I in HI. simpl in HI. by rewrite length_seq in HI.
Qed.

(** C6: for several components the nesting corrector adds to both entries
    of every face [f] of a component [j], for every label [k], the sum over
    the components [i ≠ j] of the entry of the pre-correction table [W]
    that the containment query of the centroid of the first face of [j]
    against [i] selects (front entry for a set flag, back entry otherwise);
    all queries come first, the table is changed afterwards.  For at most
    one component nothing is queried and the table keeps its values.  In
    [propagate_winding_numbers] the corrector runs on the table that the
    loop over the components has left, after the propagation of every
    component and after everything that this loop logs. *)
Theorem nesting_correction :
  (∀ V W num_labels num_components components comp_faces W' l,
     correct_nesting ext V W num_labels num_components components comp_faces
       = (Ok W', l) →
     disjoint_components num_components components →
     (1 < num_components →
        l = concat (replicate num_components [Call "closest_facet"]) ∧
        ∀ j comp f k, j < num_components → components !! j = Some comp →
          f ∈ comp → k < num_labels →
          ∃ c a b,
            total_correction ext V W num_components components comp_faces j k
              = Some c ∧
            coeff W f (k*2) = Some a ∧ coeff W f (k*2 + 1) = Some b ∧
            coeff W' f (k*2) = Some (Int32.add a c) ∧
            coeff W' f (k*2 + 1) = Some (Int32.add b c)) ∧
     (num_components ≤ 1 →
        l = [] ∧
        ∀ f c a, coeff W f c = Some a → Int32.in_range a →
                 coeff W' f c = Some a)) ∧
  (∀ NDEBUG fuel V F labels W' l,
     propagate_winding_numbers ext NDEBUG fuel V F labels = (Ok W', l) →
     let '(E, uE, EMAP, uE2E) := unique_edge_map ext F in
     let '(C, counts) :=
       facet_components ext (triangle_triangle_adjacency ext E EMAP uE2E) in
     let num_components := length counts in
     ∃ components comp_faces comp_labels max_label W0 Ws lp ln,
       gather_components C num_components (length F) = (Ok components, []) ∧
       disjoint_components num_components components ∧
       component_faces_and_labels F labels components num_components
         = (Ok (comp_faces, comp_labels), []) ∧
       maxCoeff labels = ret max_label ∧
       foldM (propagate_component ext NDEBUG fuel V components comp_faces
                comp_labels)
         (seq 0 num_components) (mconst (length F) (2 * (max_label + 1)) 0%Z, [])
         = (Ok (W0, Ws), lp) ∧
       length Ws = num_components ∧
       correct_nesting ext V W0 (max_label + 1) num_components components
         comp_faces = (Ok W', ln) ∧
       l = [Call "unique_edge_map"; Call "triangle_triangle_adjacency";
            Call "facet_components"] ++ lp ++ ln).
Proof.
  split.
  - intros V W num_labels num_components components comp_faces W' l H Hdisj.
    destruct (correct_nesting_adds_the_queried ext V W num_labels num_components
                components comp_faces W' l H Hdisj) as [Hmany Hone].
    split; [|done]. intros Hn. destruct (Hmany Hn) as [Hl Hfaces].
    split; [done|]. intros j comp f k Hj Hcomp Hf Hk.
    destruct (Hfaces j comp f k Hj Hcomp Hf Hk) as (c & a & b & Hc & Hrest).
    exists c, a, b. split; [|done]. by apply total_queried_correction.
  - intros NDEBUG fuel V F labels W' l H.
    unfold propagate_winding_numbers in H.
    bind_inv H as [] ? He. injection He as <-.
    destruct (unique_edge_map ext F) as [[[E uE] EMAP] uE2E].
    bind_inv H as [] lc Hc.
    assert (lc = []) as ->.
    { eapply foldM_silent; [|exact Hc]. intros [] adj [] l' Hb.
      destruct (decide _); [discriminate|]. by apply ret_Ok in Hb as [_ ->]. }
    bind_inv H as [] ? He. injection He as <-.
    bind_inv H as [] ? He. injection He as <-.
    destruct (facet_components ext _) as [C counts].
    bind_inv H as components lg Hg.
    assert (lg = []) as ->.
    { eapply foldM_silent; [|exact Hg]. intros cs i cs' l' Hb.
      bind_inv Hb as c ? Hx. apply vget_Ok in Hx as [_ ->].
      bind_inv Hb as comp ? Hx. apply vget_Ok in Hx as [_ ->].
      by apply ret_Ok in Hb as [_ ->]. }
    bind_inv H as [comp_faces comp_labels] lf Hf.
    assert (lf = []) as ->.
    { eapply foldM_silent; [|exact Hf]. intros [cf cl] i [cf' cl'] l' Hb.
      bind_inv Hb as comp ? Hx. apply vget_Ok in Hx as [_ ->].
      bind_inv Hb as fl lfl Hfl.
      assert (lfl = []) as ->.
      { eapply forM_silent; [|exact Hfl]. intros f y l'' Hy.
        bind_inv Hy as row ? Hx. apply vget_Ok in Hx as [_ ->].
        bind_inv Hy as lab ? Hx. apply vget_Ok in Hx as [_ ->].
        by apply ret_Ok in Hy as [_ ->]. }
      by apply ret_Ok in Hb as [_ ->]. }
    bind_inv H as max_label ? Hmax. pose proof Hmax as (-> & _)%maxCoeff_Ok.
    bind_inv H as [W0 Ws] lp Hloop.
    exists components, comp_faces, comp_labels, max_label, W0, Ws, lp, l.
    split_and!; try done.
    + by eapply gather_components_disjoint.
    + by eapply propagate_components_all.
Qed.

End NestingClaim.

Section NestingClaimChecks.

Import Examples.

(** The nested tetrahedra: the faces of the outer one keep (0, 1), those of
    the inner one, which lies inside the outer one, get 0 + 1 and 1 + 1. *)
Lemma nesting_correction_witness :
  ∃ W', correct_nesting ex V_nested
          (Matrix 2 (replicate 8 [0; 1]%Z)) 1 2 [[0; 1; 2; 3]; [4; 5; 6; 7]]
          [F_outer; F_inner]
        = (Ok W', [Call "closest_facet"; Call "closest_facet"]) ∧
        coeff W' 0 0 = Some (Int32.add 0 0) ∧ coeff W' 0 1 = Some (Int32.add 1 0) ∧
        coeff W' 4 0 = Some (Int32.add 0 1) ∧ coeff W' 4 1 = Some (Int32.add 1 1).
Proof.
  eexists. split; [vm_compute; reflexivity|].
  assert (disjoint_components 2 [[0; 1; 2; 3]; [4; 5; 6; 7]]) as Hdisj.
  { apply (gather_components_disjoint C_nested 2 8 _ []). reflexivity. }
  destruct (nesting_correction ex) as [Hcorrector _].
  edestruct (Hcorrector V_nested (Matrix 2 (replicate 8 [0; 1]%Z)) 1 2
               [[0; 1; 2; 3]; [4; 5; 6; 7]] [F_outer; F_inner])
    as [Hmany _]; [vm_compute; reflexivity|exact Hdisj|].
  destruct Hmany as [_ Hmany]; [lia|].
  destruct (Hmany 0 [0; 1; 2; 3] 0 0) as (c0 & a0 & b0 & Hc0 & Ha0 & Hb0 & H0 & H1);
    [lia|reflexivity|by left|lia|].
  destruct (Hmany 1 [4; 5; 6; 7] 4 0) as (c1 & a1 & b1 & Hc1 & Ha1 & Hb1 & H4 & H5);
    [lia|reflexivity|by left|lia|].
  vm_compute in Hc0, Hc1, Ha0, Hb0, Ha1, Hb1. simplify_eq.
  split_and!; [exact H0|exact H1|exact H4|exact H5].
Defined.

End NestingClaimChecks.

(** ** Reachable patches and the patches that the traversal comes to *)

Lemma found_next_to_neighbours_on (order : list nat) (p q : nat) :
  found_next_to order p q → neighbours_on order p q.
Proof.
  intros (i & [Hi _]%find_position_Some & Hq). by exists i.
Qed.

Lemma visited_reachable (orders : list (list nat)) (pca : list (list nat))
    (outer p : nat) :
  visited orders pca outer p → reachable orders outer p.
Proof.
  induction 1 as [|p q _ IH (curves & c & order & _ & _ & Ho & Hq)];
    [constructor|].
  eapply reachable_step; [exact IH|]. exists order.
  split; [by eapply list_elem_of_lookup_2|by apply found_next_to_neighbours_on].
Qed.

(** Where no patch occurs twice, the search ends at the occurrence. *)
Lemma find_position_NoDup (order : list nat) (p i : nat) :
  NoDup order → order !! i = Some p → find_position order p = Some i.
Proof.
  intros Hnd Hi.
  destruct (find_position order p) as [i'|] eqn:Hpos.
  - apply find_position_Some in Hpos as [Hi' _].
    f_equal. by eapply NoDup_lookup.
  - exfalso. clear Hnd. revert i Hi Hpos.
    induction order as [|q order IH]; intros i Hi; simpl; [done|].
    case_bool_decide as Hq; [done|].
    destruct i as [|i]; simpl in Hi; [congruence|].
    destruct (find_position order p) eqn:Hrest; [done|]. intros _.
    by eapply IH.
Qed.

Lemma reachable_visited (orders : list (list nat)) (pca : list (list nat))
    (outer p : nat) :
  Forall NoDup orders → curves_listed orders pca →
  reachable orders outer p → visited orders pca outer p.
Proof.
  intros Hnd Hlisted.
  induction 1 as [|p q _ IH (order & Hin & i & Hi & Hq)]; [constructor|].
  eapply visited_step; [exact IH|].
  pose proof Hin as [c Hc]%list_elem_of_lookup.
  destruct (Hlisted c order p Hc) as (curves & Hcurves & Hcin);
    [by eapply list_elem_of_lookup_2|].
  exists curves, c, order. split_and!; [done..|].
  exists i. split; [|done]. apply find_position_NoDup; [|done].
  eapply Forall_forall in Hnd; [exact Hnd|done].
Qed.

(** The signed index of a face decodes to the face. *)
Lemma signed_index_decodes (F : list face) (fi s d : nat) (z : Z)
    (l : list event) :
  (Z.of_nat fi < Int32.max_int)%Z →
  compute_signed_index F fi s d = (Ok z, l) →
  compute_unsigned_index z = ret fi.
Proof.
  intros Hfi H. unfold compute_signed_index in H.
  bind_inv H as pos l1 Hpos. apply ret_Ok in H as [<- _].
  assert (Int32.wrap (Z.of_nat (fi + 1)) = Z.of_nat fi + 1)%Z as ->.
  { rewrite Int32_wrap_in_range; [lia|].
    unfold Int32.in_range, Int32.min_int, Int32.max_int in *. lia. }
  assert (Int32.mul (Z.of_nat fi + 1) (if pos then 1 else -1)
          = if pos then Z.of_nat fi + 1 else - (Z.of_nat fi + 1))%Z as ->.
  { unfold Int32.mul. rewrite Int32_wrap_in_range; [by destruct pos; lia|].
    unfold Int32.in_range, Int32.min_int, Int32.max_int in *. destruct pos; lia. }
  unfold compute_unsigned_index, to_index.
  destruct pos; rewrite decide_False by lia; f_equal; lia.
Qed.

Section CurvesListed.

Context {Scalar : Type} (ext : Collaborators Scalar).
Variable NDEBUG : bool.
Variables (V : list (Scalar * Scalar * Scalar)) (F : list face).
Variables (uE : list edge) (uE2E : list (list nat)).
Variables (P : list nat) (intersection_curves : list (list nat)).

Hypothesis faces_are_few : (Z.of_nat (length F) ≤ Int32.max_int)%Z.

(** The curve is added to the list of every patch of its order. *)
Lemma order_curve_listed (pca : list (list nat)) (i : nat) (order : list nat)
    (orientation : list bool) (pca' : list (list nat)) (l : list event) :
  order_curve ext NDEBUG V F uE uE2E P intersection_curves pca i
    = (Ok (order, orientation, pca'), l) →
  ∀ p, p ∈ order → ∃ cs, pca' !! p = Some cs ∧ i ∈ cs.
Proof.
  unfold order_curve. intros H.
  bind_inv H as curve ? _. bind_inv H as uei ? _.
  bind_inv H as [s d] ? _. bind_inv H as edges ? _.
  bind_inv H as [adj_faces pca1] ? Hloop.
  bind_inv H as [] ? _.
  bind_inv H as [] ? _. bind_inv H as [] ? _.
  bind_inv H as orientation' ? _. bind_inv H as order' ? Hord.
  apply ret_Ok in H as [[= <- <- <-] _].
  apply forM_Forall2 in Hord.
  set (I := fun st : list Z * list (list nat) =>
         ∀ index a, st.1 !! index = Some a →
           ∃ fi p cs, compute_unsigned_index a = ret fi ∧ P !! fi = Some p ∧
                      st.2 !! p = Some cs ∧ i ∈ cs).
  assert (I (adj_faces, pca1)) as Hadj.
  { eapply (foldM_invariant I); [|exact Hloop|].
    - intros [a q] ei [a' q'] l' Hbody Hinv. unfold I in *. simpl in *.
      bind_inv Hbody as fi ? Hfi.
      apply umod_Ok in Hfi as (Hnf & -> & _). unfold num_faces in *.
      bind_inv Hbody as signed_fi ? Hsigned.
      apply signed_index_decodes in Hsigned;
        [|pose proof (Nat.mod_upper_bound ei (length F) Hnf); lia].
      bind_inv Hbody as p ? Hp. apply vget_Ok in Hp as [Hp _].
      bind_inv Hbody as curves_of_p ? Hcs. apply vget_Ok in Hcs as [Hcs _].
      apply ret_Ok in Hbody as [[= <- <-] _].
      assert (p < length q) as Hlt by by eapply lookup_lt_Some.
      intros index z Hz.
      apply lookup_app_Some in Hz as [Hz|[_ Hz]].
      + destruct (Hinv _ _ Hz) as (fi' & p' & cs & Hdec & Hp' & Hq & Hin).
        exists fi', p'. destruct (decide (p' = p)) as [->|Hne].
        * exists (curves_of_p ++ [i]).
          rewrite list_lookup_insert_eq by done. split_and!; [done..|].
          apply elem_of_app. right. by left.
        * exists cs. by rewrite list_lookup_insert_ne.
      + apply list_lookup_singleton_Some in Hz as [_ <-].
        exists (ei mod length F), p, (curves_of_p ++ [i]).
        rewrite list_lookup_insert_eq by done. split_and!; [done..|].
        apply elem_of_app. right. by left.
    - intros index a Hx. simpl in Hx. by rewrite lookup_nil in Hx. }
  intros p Hp. apply list_elem_of_lookup in Hp as [k Hk].
  eapply Forall2_lookup_r in Hord as (index & _ & l' & Hbody); [|exact Hk].
  bind_inv Hbody as a ? Ha. apply vget_Ok in Ha as [Ha _].
  bind_inv Hbody as fi ? Hfi. apply vget_Ok in Hbody as [Hp _].
  destruct (Hadj index a Ha) as (fi' & p' & cs & Hdec & Hp' & Hq & Hin).
  simpl in *. rewrite Hdec in Hfi. apply ret_Ok in Hfi as [-> _].
  assert (p' = p) as -> by congruence. by exists cs.
Qed.

Lemma order_curves_listed (num_patches : nat) (orders : list (list nat))
    (orientations : list (list bool)) (pca : list (list nat)) (l : list event) :
  order_curves ext NDEBUG V F uE uE2E P intersection_curves num_patches
    = (Ok (orders, orientations, pca), l) →
  curves_listed orders pca.
Proof.
  unfold order_curves. intros H.
  set (I := fun (done : list nat)
                (st : list (list nat) * list (list bool) * list (list nat)) =>
         length st.1.1 = length done ∧ curves_listed st.1.1 st.2).
  assert (I (seq 0 (length intersection_curves)) (orders, orientations, pca))
    as (_ & Hlisted); [|exact Hlisted].
  eapply (foldM_prefix_invariant I); [| |exact H].
  - clear H. intros done i rest [[os rs] q] [[os' rs'] q'] l' Hsplit
      (Ho & Hlisted) H. unfold I in *. simpl in *.
    bind_inv H as [[order orientation] q1] ? Hcurve.
    apply ret_Ok in H as [[= <- <- <-] _].
    assert (i = length done) as Hi.
    { assert (seq 0 (length intersection_curves) !! length done = Some i) as Hl.
      { rewrite Hsplit. by apply list_lookup_middle. }
      apply lookup_seq in Hl as [Hl _]. simpl in Hl. lia. }
    pose proof (order_curve_listed _ _ _ _ _ _ Hcurve) as Hnew.
    apply order_curve_Ok in Hcurve as (_ & Hlen & _ & Hgrow).
    split_and!.
    + rewrite !length_app. simpl. lia.
    + intros c o p Hc Hp.
      destruct (decide (c < length os)) as [Hlt|Hge].
      * rewrite lookup_app_l in Hc by done.
        destruct (Hlisted c o p Hc Hp) as (cs0 & Hcs0 & Hin).
        assert (p < length q1) as Hpq.
        { rewrite Hlen. by eapply lookup_lt_Some. }
        destruct (lookup_lt_is_Some_2 _ _ Hpq) as [cs Hcs].
        destruct (Hgrow _ _ Hcs) as (cs0' & k & Hcs0' & ->).
        assert (cs0' = cs0) as -> by congruence.
        exists (cs0 ++ replicate k i). split; [done|].
        apply elem_of_app. by left.
      * rewrite lookup_app_r in Hc by lia.
        apply list_lookup_singleton_Some in Hc as [Hc <-].
        assert (c = i) as -> by lia. by apply Hnew.
  - unfold I. simpl. split; [done|].
    intros c o p Hc. by rewrite lookup_nil in Hc.
Qed.

End CurvesListed.

Section UnreachedPatches.

Context {Scalar : Type} (ext : Collaborators Scalar).
Variable fuel : nat.
Variables (V : list (Scalar * Scalar * Scalar)) (F : list face).
Variables (uE : list edge) (uE2E : list (list nat)).
Variables (labels P : list nat) (intersection_curves : list (list nat)).

(** C9 (amended), the two builds told apart.  After a traversal that
    returns, from the table of the seed and with fewer patches than
    [INVALID], a patch whose row holds no [INVALID] is reachable from the
    outer patch through the orders of the curves, so the row of a patch
    that is not reachable holds [INVALID]; where no patch occurs twice in
    the order of a curve and every patch has its curves listed, every
    reachable patch has its row, and when all patches are reachable the
    table is complete and the assertion after the traversal passes.  The
    propagator builds such lists of curves; with assertions enabled it
    returns only a complete table, hence only when every patch is
    reachable: an [INVALID] that is left ends the program. *)
Theorem unreached_patch_is_fatal :
  (∀ NDEBUG orders orientations patch_curve_adjacency num_patches num_labels
     outer lab flipped W0 l0 W' l',
     0 < num_labels → (Z.of_nat num_patches < Int32.max_int)%Z →
     seed_patch_W num_patches num_labels outer lab flipped = (Ok W0, l0) →
     patch_bfs NDEBUG labels orders orientations patch_curve_adjacency
       num_labels fuel (W0, [outer]) = (Ok W', l') →
     (∀ p, assigned W' p → reachable orders outer p) ∧
     (Forall NoDup orders → curves_listed orders patch_curve_adjacency →
      (∀ p, reachable orders outer p → assigned W' p) ∧
      ((∀ p, p < num_patches → reachable orders outer p) →
       all_assigned W' = true ∧
       assert NDEBUG (ret (all_assigned W')) = ret tt))) ∧
  (∀ NDEBUG b W l,
     propagate_winding_numbers_single_component_patch_wise ext NDEBUG fuel
       V F uE uE2E labels P intersection_curves = (Ok (b, W), l) →
     ∃ max_patch orders orientations patch_curve_adjacency l0 outer,
       maxCoeff P = ret max_patch ∧
       order_curves ext NDEBUG V F uE uE2E P intersection_curves (max_patch + 1)
         = (Ok (orders, orientations, patch_curve_adjacency), l0) ∧
       P !! (outer_facet ext V F (seq 0 (length F))).1 = Some outer ∧
       ((Z.of_nat (length F) ≤ Int32.max_int)%Z →
        curves_listed orders patch_curve_adjacency) ∧
       (NDEBUG = false → all_assigned W = true) ∧
       ((Z.of_nat (max_patch + 1) < Int32.max_int)%Z →
        (∀ p, assigned W p → reachable orders outer p) ∧
        (NDEBUG = false → ∀ p, p ≤ max_patch → reachable orders outer p) ∧
        ((Z.of_nat (length F) ≤ Int32.max_int)%Z → Forall NoDup orders →
         (∀ p, p ≤ max_patch → reachable orders outer p) →
         all_assigned W = true))).
Proof.
  destruct (traversal_assigns_the_visited ext fuel V F uE uE2E labels P
              intersection_curves) as [Hvisited _].
  assert (∀ NDEBUG orders orientations pca num_patches num_labels outer lab
            flipped W0 l0 W' l',
            0 < num_labels → (Z.of_nat num_patches < Int32.max_int)%Z →
            seed_patch_W num_patches num_labels outer lab flipped = (Ok W0, l0) →
            patch_bfs NDEBUG labels orders orientations pca num_labels fuel
              (W0, [outer]) = (Ok W', l') →
            (∀ p, assigned W' p → reachable orders outer p) ∧
            (Forall NoDup orders → curves_listed orders pca →
             (∀ p, reachable orders outer p → assigned W' p) ∧
             ((∀ p, p < num_patches → reachable orders outer p) →
              all_assigned W' = true))) as Hbfs.
  { intros NDEBUG orders orientations pca num_patches num_labels outer lab
      flipped W0 l0 W' l' Hlabels Hfew Hseed H.
    destruct (Hvisited _ _ _ _ _ _ _ _ _ _ _ _ _ Hlabels Hfew Hseed H)
      as (Hiff & Hall & _).
    split.
    - intros p Hp. eapply visited_reachable. by apply Hiff.
    - intros Hnd Hlisted. split.
      + intros p Hp. apply Hiff. by apply reachable_visited.
      + intros Hreach. apply Hall. intros p Hp.
        apply reachable_visited; [done..|]. by apply Hreach. }
  split.
  - intros NDEBUG orders orientations pca num_patches num_labels outer lab
      flipped W0 l0 W' l' Hlabels Hfew Hseed H.
    destruct (Hbfs _ _ _ _ _ _ _ _ _ _ _ _ _ Hlabels Hfew Hseed H)
      as [Hsound Hcomplete].
    split; [done|]. intros Hnd Hlisted.
    destruct (Hcomplete Hnd Hlisted) as [Hreached Hall].
    split; [done|]. intros Hreach. rewrite (Hall Hreach).
    split; [done|]. by destruct NDEBUG.
  - intros NDEBUG b W l H.
    unfold propagate_winding_numbers_single_component_patch_wise in H.
    bind_inv H as max_patch ? Hmax.
    assert (maxCoeff P = ret max_patch) as Hmax'.
    { destruct P; [discriminate|]. by injection Hmax as <- <-. }
    bind_inv H as [] ? _.
    bind_inv H as [[orders orientations] pca] l0 Horders.
    bind_inv H as max_label ? _. bind_inv H as [] ? _.
    destruct (outer_facet ext V F (seq 0 (num_faces F))) as [idx flipped] eqn:Hof.
    bind_inv H as outer ? Houter. apply vget_Ok in Houter as [Houter ->].
    bind_inv H as lab ? _.
    bind_inv H as W0 ? Hseed. bind_inv H as W1 ? Hbfs1.
    bind_inv H as [] ? Hassert.
    bind_inv H as consistent ? _. apply ret_Ok in H as [[= <- <-] _].
    assert (0 < max_label + 1) as Hlabels by lia.
    assert (mrows W1 = max_patch + 1) as Hrows.
    { apply patch_bfs_keeps in Hbfs1 as (_ & -> & _).
      apply seed_patch_W_frontier in Hseed as ((_ & Hr & _) & _); done. }
    assert (NDEBUG = false → all_assigned W1 = true) as Hdebug.
    { intros ->. apply assert_Ok in Hassert as [[? _]|[_ Hassert]]; [done|].
      by apply ret_Ok in Hassert as [-> _]. }
    exists max_patch, orders, orientations, pca, l0, outer.
    split_and!; [done|done| | |done|].
    + unfold num_faces in Hof. by rewrite Hof.
    + intros Hfaces. by eapply order_curves_listed.
    + intros Hfew.
      destruct (Hbfs _ _ _ _ _ _ _ _ _ _ _ _ _ Hlabels Hfew Hseed Hbfs1)
        as [Hsound Hcomplete].
      split_and!; [done| |].
      * intros HN p Hp. apply Hsound.
        apply (proj1 (all_assigned_rows W1) (Hdebug HN)). lia.
      * intros Hfaces Hnd Hreach.
        destruct Hcomplete as [_ Hall];
          [done|by eapply order_curves_listed|].
        apply Hall. intros p Hp. apply Hreach. lia.
Qed.

End UnreachedPatches.

Section UnreachedPatchesChecks.

Import Examples.

(** The two tetrahedra that share an edge: no patch occurs twice in the
    order [0; 1] of a curve around which each patch has one face; both
    patches are reachable from patch 0 and the assertion passes. *)
Lemma unreached_patch_is_fatal_witness :
  (∀ p, assigned (Matrix 2 [[0; 1]; [0; 1]]%Z) p → reachable [[0; 1]] 0 p) ∧
  all_assigned (Matrix 2 [[0; 1]; [0; 1]]%Z) = true ∧
  assert false (ret (all_assigned (Matrix 2 [[0; 1]; [0; 1]]%Z))) = ret tt.
Proof.
  destruct (unreached_patch_is_fatal ex 10 V_two F_two uE_two uE2E_two [0; 0]
              P_two curves_two) as [Htraversal _].
  destruct (Htraversal false [[0; 1]] [[true; false]] [[0]; [0]] 2 1 0 0 false
              (Matrix 2 [[0; 1]; [INVALID; INVALID]]%Z) []
              (Matrix 2 [[0; 1]; [0; 1]]%Z) [])
    as [Hsound Hcomplete];
    [lia|reflexivity|vm_compute; reflexivity|vm_compute; reflexivity|].
  split; [exact Hsound|].
  destruct Hcomplete as [_ Hall].
  - apply Forall_singleton, NoDup_cons. split; [|apply NoDup_singleton].
    intros Hin%list_elem_of_singleton. discriminate.
  - intros i order p Hi Hp. destruct i as [|i]; [|done].
    injection Hi as <-. exists [0].
    apply elem_of_cons in Hp as [->|Hp]; [split; [reflexivity|by left]|].
    apply list_elem_of_singleton in Hp as ->. split; [reflexivity|by left].
  - apply Hall. intros p Hp.
    assert (reachable [[0; 1]] 0 0) as H0 by constructor.
    destruct p as [|[|p]]; [exact H0| |lia].
    eapply reachable_step; [exact H0|]. exists [0; 1]. split; [by left|].
    exists 0. split; [reflexivity|]. left. reflexivity.
Defined.

(** Where a patch occurs twice in the order of a curve, the search for it
    ends at its first occurrence and the neighbours of the other ones are
    not visited: around the curve with the order [0; 0; 1; 1; 2; 2; 1; 1]
    patch 2 is next to patch 1 and so reachable from patch 0, and its row
    is left at [INVALID]. *)
Lemma later_occurrences_are_not_searched :
  reachable [[0; 0; 1; 1; 2; 2; 1; 1]] 0 2 ∧
  ∀ NDEBUG,
    patch_bfs NDEBUG [0; 0; 0] [[0; 0; 1; 1; 2; 2; 1; 1]]
      [[true; false; true; false; true; false; true; false]]
      [[0; 0]; [0; 0; 0; 0]; [0; 0]] 1 20
      (Matrix 2 [[0; 1]; [INVALID; INVALID]; [INVALID; INVALID]]%Z, [0])
    = (Ok (Matrix 2 [[0; 1]; [0; 1]; [INVALID; INVALID]]%Z), []).
Proof.
  split.
  - assert (adjacent_patches [[0; 0; 1; 1; 2; 2; 1; 1]] 0 1) as H01.
    { exists [0; 0; 1; 1; 2; 2; 1; 1]. split; [by left|].
      exists 1. split; [reflexivity|]. left. reflexivity. }
    assert (adjacent_patches [[0; 0; 1; 1; 2; 2; 1; 1]] 1 2) as H12.
    { exists [0; 0; 1; 1; 2; 2; 1; 1]. split; [by left|].
      exists 3. split; [reflexivity|]. left. reflexivity. }
    eapply reachable_step; [|exact H12].
    eapply reachable_step; [constructor|exact H01].
  - intros []; vm_compute; reflexivity.
Qed.

End UnreachedPatchesChecks.
